(** * Face Verification/evaluation.py: the metric engine

    A shallow embedding of the scoring functions of [evaluation.py]
    ([get_ranks], [compute_MCC], [perform_interpolation],
    [compute_Weighted_AUC], [compute_tpr_with_fpr]) and of the report of
    [perform_evaluation], together with the NumPy and scikit-learn
    operations they call, and the properties of the curve interpolator,
    the rank transform, the scorers and the report.

    Numbers.  The program is embedded twice.  In the exact model a NumPy
    [float64] is an exact rational or the distinguished value [NaN]:
    arithmetic is exact, [NaN] propagates through every operation and
    every comparison with it is false.  The general theorems are proved
    over this model.  Those that rest on comparing, inserting, indexing
    and counting alone do not depend on rounding; those that state a
    computed value or a bound say so and hold up to rounding error.  In the binary64 model (module [Binary64]) the same functions
    compute with IEEE 754 binary64 numbers; it is evaluated on concrete
    inputs, and shows where rounding moves a result away from its exact
    value.

    Python exceptions are modelled by the error monad [res]. *)

From Stdlib Require Import PrimFloat.
From Stdlib Require FloatOps.
From Stdlib Require Import QArith Lqa Lia.
From Stdlib Require String Ascii.
From stdpp Require Import base tactics option list sorting.
Import String.StringSyntax Ascii.AsciiSyntax.

Delimit Scope string_scope with string.
Delimit Scope char_scope with char.
Local Open Scope Q_scope.
Set Warnings "-inexact-float".

(** ** Floating point values *)

Inductive float : Type :=
| Fin (q : Q)
| NaN.

Definition fadd (a b : float) : float :=
  match a, b with Fin p, Fin q => Fin (p + q) | _, _ => NaN end.

Definition fsub (a b : float) : float :=
  match a, b with Fin p, Fin q => Fin (p - q) | _, _ => NaN end.

Definition fmul (a b : float) : float :=
  match a, b with Fin p, Fin q => Fin (p * q) | _, _ => NaN end.

(** Division by zero has no finite value; the model answers [NaN] (IEEE
    answers an infinity for a non-zero numerator). *)
Definition fdiv (a b : float) : float :=
  match a, b with
  | Fin p, Fin q => if Qeq_bool q 0 then NaN else Fin (p / q)
  | _, _ => NaN
  end.

Definition Qlt_bool (p q : Q) : bool := negb (Qle_bool q p).

(** [a == b], [a < b], [a <= b] on floats; all false on [NaN]. *)
Definition feqb (a b : float) : bool :=
  match a, b with Fin p, Fin q => Qeq_bool p q | _, _ => false end.

Definition fltb (a b : float) : bool :=
  match a, b with Fin p, Fin q => Qlt_bool p q | _, _ => false end.

Definition fleb (a b : float) : bool :=
  match a, b with Fin p, Fin q => Qle_bool p q | _, _ => false end.

(** The order NumPy sorts by: the numeric order, with [NaN] last. *)
Definition sort_leb (a b : float) : bool :=
  match a, b with
  | Fin p, Fin q => Qle_bool p q
  | _, NaN => true
  | NaN, Fin _ => false
  end.

(** ** Exceptions *)

Inductive exn : Type := ValueError | IndexError.

Inductive res (A : Type) : Type :=
| Ok (a : A)
| Raise (e : exn).
Arguments Ok {A} a.
Arguments Raise {A} e.

#[export] Instance res_ret : MRet res := λ A a, Ok a.
#[export] Instance res_bind : MBind res := λ A B f m,
  match m with Ok a => f a | Raise e => Raise e end.

(** A loop [for i in l: st = body(st, i)] that stops at the first exception. *)
Fixpoint for_each {A S : Type} (body : S → A → res S) (st : S) (l : list A) : res S :=
  match l with
  | [] => Ok st
  | a :: l => st' ← body st a; for_each body st' l
  end.

(** ** NumPy and Python sequence operations *)

(** [a[i]] for a non-negative index. *)
Definition getitem {A : Type} (a : list A) (i : nat) : res A :=
  match a !! i with Some v => Ok v | None => Raise IndexError end.

(** [a[-1]]. *)
Definition getitem_last {A : Type} (a : list A) : res A :=
  match last a with Some v => Ok v | None => Raise IndexError end.

(** [a[lo:hi]] with Python's treatment of negative and oversized bounds. *)
Definition slice_bound (n i : Z) : Z :=
  if (i <? 0)%Z then Z.max 0 (i + n) else Z.min i n.

Definition py_slice {A : Type} (a : list A) (lo hi : Z) : list A :=
  let n := Z.of_nat (length a) in
  let lo' := Z.to_nat (slice_bound n lo) in
  let hi' := Z.to_nat (slice_bound n hi) in
  take (hi' - lo') (drop lo' a).

(** [np.sum] of a boolean array. *)
Definition np_sum_bool (bs : list bool) : nat :=
  length (filter (λ b : bool, b = true) bs).

(** [np.argwhere] of a one-dimensional boolean array. *)
Fixpoint argwhere_from (i : nat) (bs : list bool) : list nat :=
  match bs with
  | [] => []
  | b :: bs => if b then i :: argwhere_from (S i) bs else argwhere_from (S i) bs
  end.

Definition np_argwhere (bs : list bool) : list nat := argwhere_from 0 bs.

(** [np.max] and [np.min] of an array of indices or of integers; an empty
    array is a [ValueError]. *)
Definition np_max (l : list nat) : res nat :=
  match l with
  | [] => Raise ValueError
  | a :: l => Ok (foldl Nat.max a l)
  end.

Definition np_max_int (l : list Z) : res Z :=
  match l with
  | [] => Raise ValueError
  | a :: l => Ok (foldl Z.max a l)
  end.

Definition np_min_int (l : list Z) : res Z :=
  match l with
  | [] => Raise ValueError
  | a :: l => Ok (foldl Z.min a l)
  end.

(** [np.insert(a, i, v)] for a non-negative index. *)
Definition np_insert {A : Type} (a : list A) (i : nat) (v : A) : res (list A) :=
  if decide (i ≤ length a)%nat then Ok (take i a ++ v :: drop i a)
  else Raise IndexError.

(** [np.sum] of a float array, accumulated from the left. *)
Definition np_sum (a : list float) : float := foldl fadd (Fin 0) a.

(** [np.mean]. *)
Definition np_mean (a : list float) : float :=
  fdiv (np_sum a) (Fin (inject_Z (Z.of_nat (length a)))).

(** [np.linspace(start, stop, num)]: [num] evenly spaced samples, the last
    one being [stop] itself. *)
Definition np_linspace (start stop : Q) (num : Z) : res (list Q) :=
  if (num <? 0)%Z then Raise ValueError
  else match Z.to_nat num with
       | O => Ok []
       | S O => Ok [start]
       | S div =>
           let step := (stop - start) / inject_Z (Z.of_nat div) in
           Ok (((λ i : nat, inject_Z (Z.of_nat i) * step + start) <$> seq 0 div)
                 ++ [stop])
       end.

(** ** perform_interpolation *)

(** The value paired with [threshold] on the segment between the points
    [(x_prev, y_prev)] and [(x_foll, y_foll)]. *)
Definition linear_interpolation (threshold y_prev y_foll x_prev x_foll : float) : float :=
  fadd (fdiv (fmul (fsub threshold y_prev) (fsub x_foll x_prev))
             (fsub y_foll y_prev))
       x_prev.

(** One iteration of the loop over [threshold_array]. *)
Definition interpolation_step (arrays : list float * list float) (threshold : float)
    : res (list float * list float) :=
  let '(x_array, y_array) := arrays in
  if decide (0 < np_sum_bool ((λ y, feqb y threshold) <$> y_array))%nat
  then Ok (x_array, y_array)
  else
    previous_index ← np_max (np_argwhere ((λ y, fltb y threshold) <$> y_array));
    let following_index := S previous_index in
    y_prev ← getitem y_array previous_index;
    x_foll ← getitem x_array following_index;
    x_prev ← getitem x_array previous_index;
    y_foll ← getitem y_array following_index;
    let value := linear_interpolation threshold y_prev y_foll x_prev x_foll in
    y_array' ← np_insert y_array following_index threshold;
    x_array' ← np_insert x_array following_index value;
    Ok (x_array', y_array').

Definition perform_interpolation (x_array y_array threshold_array : list float)
    : res (list float * list float) :=
  for_each interpolation_step (x_array, y_array) threshold_array.

(** ** Sorting *)

(** NumPy's sorts are modelled by a stable insertion sort: elements that
    compare equal keep their original order.  The mergesort of
    [roc_curve] and [np.lexsort] are stable; [np.argsort] with its default
    sort promises no order among equal elements, and no theorem below
    says which order they get. *)
Fixpoint insert_sorted {A : Type} (leb : A → A → bool) (x : A) (l : list A) : list A :=
  match l with
  | [] => [x]
  | y :: l' => if leb x y then x :: l else y :: insert_sorted leb x l'
  end.

Definition stable_sort {A : Type} (leb : A → A → bool) (l : list A) : list A :=
  foldr (insert_sorted leb) [] l.

Definition by_snd {A B : Type} (leb : B → B → bool) (p q : A * B) : bool :=
  leb p.2 q.2.

(** [np.argsort]: the indices sorted by the values they point at. *)
Definition argsort {B : Type} (leb : B → B → bool) (a : list B) : list nat :=
  fst <$> stable_sort (by_snd leb) (imap pair a).

(** [np.lexsort((y, x))] followed by [x[order], y[order]]: the points sorted
    by [x], ties broken by [y]. *)
Definition lex_leb (p q : float * float) : bool :=
  if sort_leb p.1 q.1
  then (if sort_leb q.1 p.1 then sort_leb p.2 q.2 else true)
  else false.

(** ** get_ranks *)

Definition get_ranks (input_array : list float) : list nat :=
  let order := argsort sort_leb input_array in
  let ranks := argsort Nat.leb order in
  ranks.

(** ** scikit-learn: roc_curve and auc

    The two functions are modelled as scikit-learn 0.20 and 0.21 define
    them, the releases in which [auc] still accepts [reorder=True]:
    [roc_curve] drops the collinear interior points and always starts the
    curve at the origin. *)

(** [_binary_clf_curve]: the samples are visited by decreasing score; after
    the last sample of every distinct score value the running counts of
    false and true positives are recorded. *)
Fixpoint binary_clf_curve (fps tps : Z) (samples : list (bool * Q)) : list (Z * Z) :=
  match samples with
  | [] => []
  | (label, score) :: rest =>
      let fps' := if label then fps else (fps + 1)%Z in
      let tps' := if label then (tps + 1)%Z else tps in
      match rest with
      | [] => [(fps', tps')]
      | (_, score') :: _ =>
          if Qeq_bool score score' then binary_clf_curve fps' tps' rest
          else (fps', tps') :: binary_clf_curve fps' tps' rest
      end
  end.

(** [drop_intermediate=True]: an interior point is kept only where the second
    difference of [fps] or of [tps] is not zero. *)
Definition second_diff_nonzero (p c n : Z * Z) : bool :=
  negb (n.1 - c.1 - (c.1 - p.1) =? 0)%Z || negb (n.2 - c.2 - (c.2 - p.2) =? 0)%Z.

Fixpoint drop_collinear (prev : Z * Z) (pts : list (Z * Z)) : list (Z * Z) :=
  match pts with
  | cur :: ((next :: _) as rest) =>
      if second_diff_nonzero prev cur next then cur :: drop_collinear cur rest
      else drop_collinear cur rest
  | _ => pts
  end.

Definition drop_intermediate (pts : list (Z * Z)) : list (Z * Z) :=
  match pts with
  | first :: rest => if decide (2 < length pts)%nat then first :: drop_collinear first rest else pts
  | [] => []
  end.

(** The scores when all of them are finite ([roc_curve] rejects the others
    with a [ValueError]). *)
Definition all_scores (y_score : list float) : option (list Q) :=
  mapM (λ s, match s with Fin q => Some q | NaN => None end) y_score.

(** The rates [counts / counts[-1]]; an all-[NaN] array when the class is
    absent (scikit-learn then only warns). *)
Definition rates (counts : list Z) : list float :=
  match last counts with
  | Some total =>
      if (total <=? 0)%Z then (λ _, NaN) <$> counts
      else (λ c, fdiv (Fin (inject_Z c)) (Fin (inject_Z total))) <$> counts
  | None => []
  end.

(** [roc_curve(y_true, y_score)], returning [(fpr, tpr)].  Labels are
    booleans ([true] is the positive label 1). *)
Definition roc_curve (y_true : list bool) (y_score : list float)
    : res (list float * list float) :=
  if decide (length y_true ≠ length y_score) then Raise ValueError
  else match all_scores y_score with
  | None => Raise ValueError
  | Some scores =>
      let desc := reverse (stable_sort (by_snd Qle_bool) (zip y_true scores)) in
      let curve := binary_clf_curve 0 0 desc in
      if decide (curve = []) then Raise IndexError
      else
        let curve := drop_intermediate curve in
        let curve :=
          match curve with
          | (0%Z, 0%Z) :: _ => curve
          | _ => (0%Z, 0%Z) :: curve
          end in
        Ok (rates curve.*1, rates curve.*2)
  end.

(** [np.trapz(y, x)] on the points [(x, y)]. *)
Fixpoint trapz_terms (pts : list (float * float)) : list float :=
  match pts with
  | p :: ((q :: _) as rest) =>
      fdiv (fmul (fsub q.1 p.1) (fadd q.2 p.2)) (Fin 2) :: trapz_terms rest
  | _ => []
  end.

Definition np_trapz (pts : list (float * float)) : float := np_sum (trapz_terms pts).

(** [auc(x, y, reorder=True)]. *)
Definition auc_reorder (x y : list float) : res float :=
  if decide (length x ≠ length y) then Raise ValueError
  else if decide (length x < 2)%nat then Raise ValueError
  else Ok (np_trapz (stable_sort lex_leb (zip x y))).

(** ** compute_Weighted_AUC *)

(** The body of the loop over [area_index]; the state is
    [(lowest_record_index, area_array)]. *)
Definition area_step (fpr tpr evenly_spaced_thresholds : list float)
    (st : Z * list float) (area_index : nat) : res (Z * list float) :=
  let '(lowest_record_index, area_array) := st in
  high_threshold ← getitem evenly_spaced_thresholds (area_index + 1);
  let highest_record_index :=
    (Z.of_nat (np_sum_bool ((λ t, fleb t high_threshold) <$> tpr)) - 1)%Z in
  let selected_fpr := py_slice fpr lowest_record_index (highest_record_index + 1) in
  let selected_tpr := py_slice tpr lowest_record_index (highest_record_index + 1) in
  bias ← getitem selected_tpr 0;
  let selected_tpr := (λ t, fsub t bias) <$> selected_tpr in
  let selected_fpr := [Fin 0] ++ selected_fpr ++ [Fin 1] in
  t_first ← getitem selected_tpr 0;
  t_last ← getitem_last selected_tpr;
  let selected_tpr := [t_first] ++ selected_tpr ++ [t_last] in
  area ← auc_reorder selected_fpr selected_tpr;
  Ok (highest_record_index, <[area_index := area]> area_array).

Definition compute_Weighted_AUC (y_true : list bool) (y_score weight_distribution : list float)
    : res float :=
  let weight_num := length weight_distribution in
  evenly_spaced_thresholds ← np_linspace 0 1 (Z.of_nat weight_num + 1);
  let evenly_spaced_thresholds := Fin <$> evenly_spaced_thresholds in
  '(fpr, tpr) ← roc_curve y_true y_score;
  '(fpr, tpr) ← perform_interpolation fpr tpr
                  (py_slice evenly_spaced_thresholds 1 (-1));
  let area_array := replicate weight_num (Fin 0) in
  '(_, area_array) ← for_each (area_step fpr tpr evenly_spaced_thresholds)
                       (0%Z, area_array) (seq 0 weight_num);
  let mean := np_mean weight_distribution in
  let weight_distribution := (λ w, fdiv w mean) <$> weight_distribution in
  Ok (np_sum (zip_with fmul area_array weight_distribution)).

(** The default [weight_distribution], [np.arange(4, -1, -1.0)]. *)
Definition default_weight_distribution : list float :=
  [Fin 4; Fin 3; Fin 2; Fin 1; Fin 0].

(** ** compute_tpr_with_fpr *)

Definition compute_tpr_with_fpr (y_true : list bool) (y_score : list float)
    (chosen_fpr : float) : res float :=
  '(fpr, tpr) ← roc_curve y_true y_score;
  '(tpr, fpr) ← perform_interpolation tpr fpr [chosen_fpr];
  index ← getitem (np_argwhere ((λ f, feqb f chosen_fpr) <$> fpr)) 0;
  getitem tpr index.

(** ** scikit-learn: matthews_corrcoef *)

(** A Matthews coefficient is the quotient of an integer by the square root
    of an integer; it is kept exactly, as the pair of the two integers. *)
Record sqrt_ratio : Type := SqrtRatio { sr_num : Z; sr_rad : Z }.

(** [a <= b] for [a = sr_num a / sqrt (sr_rad a)] and likewise [b], both
    radicands positive: the sign-preserving squares are compared. *)
Definition sr_leb (a b : sqrt_ratio) : bool :=
  (Z.sgn (sr_num a) * (sr_num a * sr_num a) * sr_rad b
   <=? Z.sgn (sr_num b) * (sr_num b * sr_num b) * sr_rad a)%Z.

(** The value is exactly [1.0]. *)
Definition sr_is_one (a : sqrt_ratio) : bool :=
  (0 <? sr_num a)%Z && (sr_num a * sr_num a =? sr_rad a)%Z.

(** Entry [(t, p)] of the confusion matrix. *)
Definition confusion_matrix (y_true y_pred : list bool) (t p : bool) : Z :=
  Z.of_nat (np_sum_bool
    (zip_with (λ a b, bool_decide (a = t) && bool_decide (b = p)) y_true y_pred)).

(** [matthews_corrcoef(y_true, y_pred)]; an undefined quotient (a constant
    [y_true] or [y_pred]) is reported as [0.0]. *)
Definition matthews_corrcoef (y_true y_pred : list bool) : res sqrt_ratio :=
  if decide (length y_true ≠ length y_pred) then Raise ValueError
  else
    let C := confusion_matrix y_true y_pred in
    let t_sum := λ t, (C t false + C t true)%Z in
    let p_sum := λ p, (C false p + C true p)%Z in
    let n_correct := (C false false + C true true)%Z in
    let n_samples := (p_sum false + p_sum true)%Z in
    let cov_ytyp :=
      (n_correct * n_samples - (t_sum false * p_sum false + t_sum true * p_sum true))%Z in
    let cov_ypyp :=
      (n_samples * n_samples - (p_sum false * p_sum false + p_sum true * p_sum true))%Z in
    let cov_ytyt :=
      (n_samples * n_samples - (t_sum false * t_sum false + t_sum true * t_sum true))%Z in
    if (cov_ytyt * cov_ypyp =? 0)%Z then Ok (SqrtRatio 0 1)
    else Ok (SqrtRatio cov_ytyp (cov_ytyt * cov_ypyp)).

(** [np.max] of an array of coefficients. *)
Definition np_max_sr (l : list sqrt_ratio) : res sqrt_ratio :=
  match l with
  | [] => Raise ValueError
  | a :: l => Ok (foldl (λ m v, if sr_leb m v then v else m) a l)
  end.

(** ** compute_MCC *)

Definition default_threshold_num : Z := 500.

(** The body of the loop over [threshold_array]: the coefficient of the
    prediction [ranks > threshold] is appended to [MCC_list]. *)
Definition mcc_step (y_true : list bool) (ranks : list Z)
    (MCC_list : list sqrt_ratio) (threshold : Q) : res (list sqrt_ratio) :=
  mcc ← matthews_corrcoef y_true ((λ r : Z, Qlt_bool threshold (inject_Z r)) <$> ranks);
  Ok (MCC_list ++ [mcc]).

Definition compute_MCC (y_true : list bool) (y_score : list float) (threshold_num : Z)
    : res sqrt_ratio :=
  let ranks : list Z := Z.of_nat <$> get_ranks y_score in
  lowest ← np_min_int ranks;
  highest ← np_max_int ranks;
  threshold_array ← np_linspace (inject_Z lowest - 1) (inject_Z highest + 1)
                                threshold_num;
  MCC_list ← for_each (mcc_step y_true ranks) [] threshold_array;
  np_max_sr MCC_list.

(** ** perform_evaluation

    The function reads the folder of submissions and prints a report.  The
    folder is an explicit argument: the path of the ground-truth file, its
    label column (0/1 labels, as booleans), the paths that [glob] finds and
    the prediction column that [read_csv] finds in each of them (the files
    are assumed to parse).  The report is the list of the printed lines,
    kept up to the point where an exception stops the run. *)

Record folder : Type := Folder {
  groundtruth_file_path : String.string;
  groundtruth_label : list bool;
  csv_file_paths : list String.string;
  prediction_column : String.string → list float
}.

(** The printed lines; the number formats are not modelled. *)
Inductive line : Type :=
| Achieved (name : String.string) (score : float)
| Header
| Ranked (name : String.string) (score : float) (position : nat).

(** A computation that prints lines and may stop with an exception. *)
Definition printing (A : Type) : Type := (list line * res A)%type.

#[export] Instance printing_ret : MRet printing := λ A a, ([], Ok a).
#[export] Instance printing_bind : MBind printing := λ A B f m,
  match m.2 with
  | Ok a => (m.1 ++ (f a).1, (f a).2)
  | Raise e => (m.1, Raise e)
  end.

Definition print (l : line) : printing unit := ([l], Ok tt).

Definition lift {A : Type} (r : res A) : printing A := ([], r).

Fixpoint for_each_printing {A S : Type} (body : S → A → printing S) (st : S) (l : list A)
    : printing S :=
  match l with
  | [] => mret st
  | a :: l => st' ← body st a; for_each_printing body st' l
  end.

(** [needle in haystack] on strings. *)
Definition contains (needle haystack : String.string) : bool :=
  match String.index 0 needle haystack with Some _ => true | None => false end.

(** [os.path.basename] (POSIX): what follows the last slash. *)
Fixpoint basename (path : String.string) : String.string :=
  match path with
  | String.EmptyString => String.EmptyString
  | String.String c rest =>
      if contains "/"%string rest then basename rest
      else if Ascii.eqb c "/"%char then rest else path
  end.

(** [a[flag]] for a boolean array [flag] of the length of [a]. *)
Fixpoint mask {A : Type} (a : list A) (flag : list bool) : list A :=
  match a, flag with
  | x :: a, b :: flag => if b then x :: mask a flag else mask a flag
  | _, _ => []
  end.

Definition np_mask {A : Type} (a : list A) (flag : list bool) : res (list A) :=
  if decide (length a ≠ length flag) then Raise IndexError else Ok (mask a flag).

(** The body of the loop over the submission files; the state is
    [(submission_file_name_list, score_list)]. *)
Definition evaluate_step (F : folder) (st : list String.string * list float)
    (submission_file_path : String.string) : printing (list String.string * list float) :=
  let '(submission_file_name_list, score_list) := st in
  if String.eqb submission_file_path (groundtruth_file_path F)
     || contains "Anonymous"%string submission_file_path
  then mret st
  else
    let submission_label := prediction_column F submission_file_path in
    score ← lift (compute_Weighted_AUC (groundtruth_label F) submission_label
                    default_weight_distribution);
    let submission_file_name := basename submission_file_path in
    _ ← print (Achieved submission_file_name score);
    mret (submission_file_name_list ++ [submission_file_name], score_list ++ [score]).

(** The body of the loop that prints the ranks. *)
Definition rank_step (submission_file_name_list : list String.string)
    (score_list : list float) (ranks : list nat) (_ : unit) (current_index : nat)
    : printing unit :=
  top ← lift (np_max ranks);
  let flag := (λ r, (Z.of_nat r =? Z.of_nat top - Z.of_nat current_index)%Z) <$> ranks in
  names ← lift (np_mask submission_file_name_list flag);
  name ← lift (getitem names 0);
  scores ← lift (np_mask score_list flag);
  score ← lift (getitem scores 0);
  print (Ranked name score (current_index + 1)).

Definition perform_evaluation (F : folder) : printing unit :=
  let submission_file_path_list := stable_sort String.leb (csv_file_paths F) in
  '(submission_file_name_list, score_list) ←
    for_each_printing (evaluate_step F) ([], []) submission_file_path_list;
  _ ← print Header;
  let ranks := get_ranks score_list in
  for_each_printing (rank_step submission_file_name_list score_list ranks) tt
    (seq 0 (length submission_file_name_list)).

(** * The scorers in binary64 arithmetic

    The functions that compute with floating point numbers, once more, over
    IEEE 754 binary64 (the kernel's primitive floats): every operation
    rounds to nearest (ties to even), a division by zero gives an infinity
    or [nan], and [np.sum] adds in the order of NumPy's pairwise
    summation (NumPy 1.9 and later).  The parts of
    the program that only count, compare and index are shared with the
    exact model above. *)

Module Binary64.

(** [np.float64] of a non-negative integer (exact below [2^53]). *)
Definition of_Z (z : Z) : PrimFloat.float := PrimFloat.of_uint63 (Uint63Axioms.of_Z z).

(** The rational number a finite float is; [None] for [nan] and the
    infinities. *)
Definition to_Q (f : PrimFloat.float) : option Q :=
  match FloatOps.Prim2SF f with
  | SpecFloat.S754_zero _ => Some 0
  | SpecFloat.S754_finite s m e =>
      let v := match e with
               | Z0 => inject_Z (Zpos m)
               | Zpos k => inject_Z (Zpos m * 2 ^ Zpos k)
               | Zneg k => Zpos m # 2 ^ k
               end in
      Some (if s then - v else v)
  | _ => None
  end.

(** The order NumPy sorts by: the numeric order, with [nan] last. *)
Definition sort_leb (a b : PrimFloat.float) : bool :=
  if PrimFloat.is_nan b then true
  else if PrimFloat.is_nan a then false
  else PrimFloat.leb a b.

Definition lex_leb (p q : PrimFloat.float * PrimFloat.float) : bool :=
  if sort_leb p.1 q.1
  then (if sort_leb q.1 p.1 then sort_leb p.2 q.2 else true)
  else false.

(** [np.sum] of a float array: NumPy's pairwise summation.  Fewer than 8
    numbers are added from the left; up to 128 numbers are added into 8
    running sums, which are then combined in pairs, and the numbers left
    over are added to the result; a longer array is split in two. *)
Definition sum_block (a : list PrimFloat.float) : PrimFloat.float :=
  let full := (length a - length a mod 8)%nat in
  let r := foldl (λ (r : list PrimFloat.float) (i : nat),
                    zip_with PrimFloat.add r (take 8 (drop (8 * i) a)))
                 (take 8 a) (seq 1 (full / 8 - 1)) in
  match r with
  | [r0; r1; r2; r3; r4; r5; r6; r7] =>
      foldl PrimFloat.add (((r0 + r1) + (r2 + r3)) + ((r4 + r5) + (r6 + r7)))%float
            (drop full a)
  | _ => PrimFloat.nan
  end.

Fixpoint pairwise_sum (fuel : nat) (a : list PrimFloat.float) : PrimFloat.float :=
  let n := length a in
  if decide (n < 8)%nat then foldl PrimFloat.add 0%float a
  else if decide (n ≤ 128)%nat then sum_block a
  else match fuel with
       | O => PrimFloat.nan
       | S fuel =>
           let n2 := (n / 2 - (n / 2) mod 8)%nat in
           (pairwise_sum fuel (take n2 a) + pairwise_sum fuel (drop n2 a))%float
       end.

Definition np_sum (a : list PrimFloat.float) : PrimFloat.float :=
  (0 + pairwise_sum (length a) a)%float.

(** [np.mean]. *)
Definition np_mean (a : list PrimFloat.float) : PrimFloat.float :=
  (np_sum a / of_Z (Z.of_nat (length a)))%float.

(** [np.linspace(start, stop, num)]. *)
Definition np_linspace (start stop : PrimFloat.float) (num : Z)
    : res (list PrimFloat.float) :=
  if (num <? 0)%Z then Raise ValueError
  else match Z.to_nat num with
       | O => Ok []
       | S O => Ok [start]
       | S div =>
           let delta := (stop - start)%float in
           let step := (delta / of_Z (Z.of_nat div))%float in
           let y := λ i : nat,
             if (step =? 0)%float
             then (of_Z (Z.of_nat i) / of_Z (Z.of_nat div) * delta)%float
             else (of_Z (Z.of_nat i) * step)%float in
           Ok (((λ i : nat, (y i + start)%float) <$> seq 0 div) ++ [stop])
       end.

(** *** perform_interpolation *)

Definition linear_interpolation (threshold y_prev y_foll x_prev x_foll : PrimFloat.float)
    : PrimFloat.float :=
  ((threshold - y_prev) * (x_foll - x_prev) / (y_foll - y_prev) + x_prev)%float.

Definition interpolation_step (arrays : list PrimFloat.float * list PrimFloat.float)
    (threshold : PrimFloat.float) : res (list PrimFloat.float * list PrimFloat.float) :=
  let '(x_array, y_array) := arrays in
  if decide (0 < np_sum_bool ((λ y, PrimFloat.eqb y threshold) <$> y_array))%nat
  then Ok (x_array, y_array)
  else
    previous_index ← np_max (np_argwhere ((λ y, PrimFloat.ltb y threshold) <$> y_array));
    let following_index := S previous_index in
    y_prev ← getitem y_array previous_index;
    x_foll ← getitem x_array following_index;
    x_prev ← getitem x_array previous_index;
    y_foll ← getitem y_array following_index;
    let value := linear_interpolation threshold y_prev y_foll x_prev x_foll in
    y_array' ← np_insert y_array following_index threshold;
    x_array' ← np_insert x_array following_index value;
    Ok (x_array', y_array').

Definition perform_interpolation (x_array y_array threshold_array : list PrimFloat.float)
    : res (list PrimFloat.float * list PrimFloat.float) :=
  for_each interpolation_step (x_array, y_array) threshold_array.

(** *** scikit-learn: roc_curve and auc *)

(** The scores when all of them are finite; they are only compared, which
    is exact. *)
Definition all_scores (y_score : list PrimFloat.float) : option (list Q) :=
  mapM to_Q y_score.

(** The rates [counts / counts[-1]], a rounded division; an all-[nan]
    array when the class is absent. *)
Definition rates (counts : list Z) : list PrimFloat.float :=
  match last counts with
  | Some total =>
      if (total <=? 0)%Z then (λ _, PrimFloat.nan) <$> counts
      else (λ c, (of_Z c / of_Z total)%float) <$> counts
  | None => []
  end.

Definition roc_curve (y_true : list bool) (y_score : list PrimFloat.float)
    : res (list PrimFloat.float * list PrimFloat.float) :=
  if decide (length y_true ≠ length y_score) then Raise ValueError
  else match all_scores y_score with
  | None => Raise ValueError
  | Some scores =>
      let desc := reverse (stable_sort (by_snd Qle_bool) (zip y_true scores)) in
      let curve := binary_clf_curve 0 0 desc in
      if decide (curve = []) then Raise IndexError
      else
        let curve := drop_intermediate curve in
        let curve :=
          match curve with
          | (0%Z, 0%Z) :: _ => curve
          | _ => (0%Z, 0%Z) :: curve
          end in
        Ok (rates curve.*1, rates curve.*2)
  end.

(** [np.trapz(y, x)] on the points [(x, y)]. *)
Fixpoint trapz_terms (pts : list (PrimFloat.float * PrimFloat.float))
    : list PrimFloat.float :=
  match pts with
  | p :: ((q :: _) as rest) =>
      ((q.1 - p.1) * (q.2 + p.2) / 2)%float :: trapz_terms rest
  | _ => []
  end.

Definition np_trapz (pts : list (PrimFloat.float * PrimFloat.float)) : PrimFloat.float :=
  np_sum (trapz_terms pts).

(** [auc(x, y, reorder=True)]. *)
Definition auc_reorder (x y : list PrimFloat.float) : res PrimFloat.float :=
  if decide (length x ≠ length y) then Raise ValueError
  else if decide (length x < 2)%nat then Raise ValueError
  else Ok (np_trapz (stable_sort lex_leb (zip x y))).

(** *** compute_Weighted_AUC *)

Definition area_step (fpr tpr evenly_spaced_thresholds : list PrimFloat.float)
    (st : Z * list PrimFloat.float) (area_index : nat) : res (Z * list PrimFloat.float) :=
  let '(lowest_record_index, area_array) := st in
  high_threshold ← getitem evenly_spaced_thresholds (area_index + 1);
  let highest_record_index :=
    (Z.of_nat (np_sum_bool ((λ t, PrimFloat.leb t high_threshold) <$> tpr)) - 1)%Z in
  let selected_fpr := py_slice fpr lowest_record_index (highest_record_index + 1) in
  let selected_tpr := py_slice tpr lowest_record_index (highest_record_index + 1) in
  bias ← getitem selected_tpr 0;
  let selected_tpr := (λ t, (t - bias)%float) <$> selected_tpr in
  let selected_fpr := [0%float] ++ selected_fpr ++ [1%float] in
  t_first ← getitem selected_tpr 0;
  t_last ← getitem_last selected_tpr;
  let selected_tpr := [t_first] ++ selected_tpr ++ [t_last] in
  area ← auc_reorder selected_fpr selected_tpr;
  Ok (highest_record_index, <[area_index := area]> area_array).

Definition compute_Weighted_AUC (y_true : list bool)
    (y_score weight_distribution : list PrimFloat.float) : res PrimFloat.float :=
  let weight_num := length weight_distribution in
  evenly_spaced_thresholds ← np_linspace 0 1 (Z.of_nat weight_num + 1);
  '(fpr, tpr) ← roc_curve y_true y_score;
  '(fpr, tpr) ← perform_interpolation fpr tpr
                  (py_slice evenly_spaced_thresholds 1 (-1));
  let area_array := replicate weight_num 0%float in
  '(_, area_array) ← for_each (area_step fpr tpr evenly_spaced_thresholds)
                       (0%Z, area_array) (seq 0 weight_num);
  let mean := np_mean weight_distribution in
  let weight_distribution := (λ w, (w / mean)%float) <$> weight_distribution in
  Ok (np_sum (zip_with PrimFloat.mul area_array weight_distribution)).

(** *** compute_tpr_with_fpr *)

Definition compute_tpr_with_fpr (y_true : list bool) (y_score : list PrimFloat.float)
    (chosen_fpr : PrimFloat.float) : res PrimFloat.float :=
  '(fpr, tpr) ← roc_curve y_true y_score;
  '(tpr, fpr) ← perform_interpolation tpr fpr [chosen_fpr];
  index ← getitem (np_argwhere ((λ f, PrimFloat.eqb f chosen_fpr) <$> fpr)) 0;
  getitem tpr index.

End Binary64.

(** ** Vocabulary of the statements *)

(** Numerical equality of floats. *)
Definition float_equiv (a b : float) : Prop :=
  match a, b with
  | Fin p, Fin q => p == q
  | NaN, NaN => True
  | _, _ => False
  end.

(** [p] is the largest index of [l] whose element satisfies [P]. *)
Definition last_index_where {A : Type} (P : A → bool) (l : list A) (p : nat) : Prop :=
  (∃ a, l !! p = Some a ∧ P a = true)
  ∧ ∀ j b, (p < j)%nat → l !! j = Some b → P b = false.

(** The value [t] occurs in the array [y] (as [y == t] tests it). *)
Definition present (t : float) (y : list float) : Prop :=
  ∃ v, v ∈ y ∧ feqb v t = true.

(** [t] is absent from [y], the largest index [p] with [y[p] < t] exists and
    its successor [y[p+1]] exists and is strictly above [t]. *)
Definition bracketed (y : list float) (t : float) : Prop :=
  ¬ present t y
  ∧ ∃ p b, last_index_where (λ v, fltb v t) y p
           ∧ y !! S p = Some b ∧ fltb t b = true.

(** A non-decreasing array. *)
Definition non_decreasing (y : list float) : Prop :=
  ∀ i a b, y !! i = Some a → y !! S i = Some b → fleb a b = true.

(** The numbers of positive and of negative labels. *)
Definition n_positive (y_true : list bool) : Z := Z.of_nat (np_sum_bool y_true).
Definition n_negative (y_true : list bool) : Z := Z.of_nat (np_sum_bool (negb <$> y_true)).

(** A point [(fps, tps)] of the curve of counts lies in the rectangle
    [lo .. hi]. *)
Definition in_box (lo hi p : Z * Z) : Prop :=
  (lo.1 ≤ p.1 ≤ hi.1)%Z ∧ (lo.2 ≤ p.2 ≤ hi.2)%Z.

(** A coefficient of absolute value at most 1 with a positive radicand. *)
Definition sr_valid (v : sqrt_ratio) : Prop :=
  (0 < sr_rad v)%Z ∧ (sr_num v * sr_num v ≤ sr_rad v)%Z.

(** A separated sample too long for the default grid of compute_MCC: the
    scores are [0, 1, ..., 499], the first 250 samples are negative and the
    last 250 positive. *)
Definition long_labels : list bool := (λ i, bool_decide (250 ≤ i)%nat) <$> seq 0 500.
Definition long_scores : list float := (λ i, Fin (inject_Z (Z.of_nat i))) <$> seq 0 500.

(** A finite value of the interval [[0, 1]]. *)
Definition unit_interval (v : float) : Prop := ∃ q, v = Fin q ∧ 0 <= q <= 1.

(** A well-formed ROC curve: parallel arrays, a non-decreasing TPR that
    starts at 0 and ends at 1, and FPR values in [[0, 1]]. *)
Definition curve_ok (fpr tpr : list float) : Prop :=
  length fpr = length tpr
  ∧ non_decreasing tpr
  ∧ Forall unit_interval fpr
  ∧ (∃ q, tpr !! 0%nat = Some (Fin q) ∧ q == 0)
  ∧ (∃ q, last tpr = Some (Fin q) ∧ q == 1).

(** A finite value of the interval [[0, c]]. *)
Definition bounded_by (c : Q) (v : float) : Prop := ∃ q, v = Fin q ∧ 0 <= q <= c.

(** The exact sum of a list of rationals. *)
Definition Qsum (l : list Q) : Q := foldr Qplus 0 l.

(** The perfectly separated sample of the scorer's test: fifty negatives
    scored 0 followed by fifty positives scored 1. *)
Definition perfect_labels : list bool := replicate 50 false ++ replicate 50 true.
Definition perfect_scores : list float := replicate 50 (Fin 0) ++ replicate 50 (Fin 1).

(** What NumPy promises of [a.argsort()], whatever the sorting algorithm
    (the default one is not stable): a permutation of the indices along
    which the values are in sorted order.  Nothing is said of the order
    among equal values. *)
Definition sorts (a : list float) (order : list nat) : Prop :=
  order ≡ₚ seq 0 (length a)
  ∧ ∀ r s i j u v, (r < s)%nat → order !! r = Some i → order !! s = Some j →
      a !! i = Some u → a !! j = Some v → sort_leb u v = true.

(** The files that are scored: every path but the ground truth and the
    anonymous submissions, in sorted order. *)
Definition scored_file (F : folder) (path : String.string) : bool :=
  negb (String.eqb path (groundtruth_file_path F) || contains "Anonymous"%string path).

Definition scored_paths (F : folder) : list String.string :=
  filter (λ p, scored_file F p = true) (stable_sort String.leb (csv_file_paths F)).

(** A folder with the ground truth, an anonymous submission and three
    submissions, two of them identical. *)
Definition example_column (path : String.string) : list float :=
  if String.eqb path "submissions/B.csv"%string then [Fin (9#10); Fin (8#10); Fin (1#10); Fin (2#10)]
  else [Fin (1#10); Fin (4#10); Fin (35#100); Fin (8#10)].

Definition example_folder : folder :=
  {| groundtruth_file_path := "submissions/GroundTruth.csv"%string;
     groundtruth_label := [false; false; true; true];
     csv_file_paths := ["submissions/C.csv"%string; "submissions/GroundTruth.csv"%string;
                        "submissions/B.csv"%string; "submissions/Anonymous_1.csv"%string;
                        "submissions/A.csv"%string];
     prediction_column := example_column |}.

(** The same folder with a prediction column that is too short. *)
Definition short_column (path : String.string) : list float :=
  if String.eqb path "submissions/B.csv"%string then [Fin (9#10); Fin (8#10)]
  else example_column path.

Definition broken_folder : folder :=
  {| groundtruth_file_path := groundtruth_file_path example_folder;
     groundtruth_label := groundtruth_label example_folder;
     csv_file_paths := csv_file_paths example_folder;
     prediction_column := short_column |}.

Definition example_scores : list float :=
  Eval vm_compute in
    (λ path, match compute_Weighted_AUC (groundtruth_label example_folder)
                     (prediction_column example_folder path)
                     default_weight_distribution with
             | Ok score => score
             | Raise _ => NaN
             end) <$> scored_paths example_folder.

(** The lines of a ranking, numbered from 1. *)
Definition ranking (board : list (String.string * float)) : list line :=
  imap (λ k p, Ranked p.1 p.2 (k + 1)) board.

(** From the highest score down in NumPy's order, [NaN] above every
    number. *)
Definition descending (board : list (String.string * float)) : Prop :=
  StronglySorted (λ p q, sort_leb q.2 p.2 = true) board.

(** The ranking of the model, whose sort keeps equal scores in the order
    of the files. *)
Definition leaderboard (names : list String.string) (scores : list float) : list line :=
  ranking (reverse (stable_sort (by_snd sort_leb) (zip names scores))).

(** A submission is scored with the default weights. *)
Definition achieves (F : folder) (path : String.string) (score : float) : Prop :=
  compute_Weighted_AUC (groundtruth_label F) (prediction_column F path)
    default_weight_distribution = Ok score.

(** A point of a band of a perfect curve: finite, in the rectangle
    [[0, 1] x [0, h]], and at the top of the band unless its abscissa
    is 0. *)
Definition on_step (h : Q) (p : float * float) : Prop :=
  ∃ x y, p = (Fin x, Fin y) ∧ 0 <= x <= 1 ∧ 0 <= y <= h ∧ (0 < x → y == h).

(** The point [(x, y)] occurs in [pts], up to numerical equality. *)
Definition has_point (x y : Q) (pts : list (float * float)) : Prop :=
  ∃ x' y', (Fin x', Fin y') ∈ pts ∧ x' == x ∧ y' == y.

(** A curve in the shape of a step: a point whose predecessor (if there is
    one) has a TPR below 1 has FPR 0. *)
Definition step_curve (fpr tpr : list float) : Prop :=
  ∀ i f, fpr !! i = Some (Fin f) →
    (∀ a, (0 < i)%nat → tpr !! (i - 1)%nat = Some (Fin a) → a < 1) → f == 0.

(** Every negative sample scores strictly below every positive one. *)
Definition separated (y_true : list bool) (scores : list Q) : Prop :=
  ∀ i j p q, y_true !! i = Some false → y_true !! j = Some true →
             scores !! i = Some p → scores !! j = Some q → p < q.

(** An integer rank as the float that NumPy would convert it to. *)
Definition float_of_nat (n : nat) : float := Fin (inject_Z (Z.of_nat n)).

(** Every positive sample scores strictly below every negative one. *)
Definition inverted (y_true : list bool) (scores : list Q) : Prop :=
  ∀ i j p q, y_true !! i = Some true → y_true !! j = Some false →
             scores !! i = Some p → scores !! j = Some q → p < q.

(** A point of a band of the curve of an inverted sample: finite, in the
    rectangle [[0, 1] x [0, h]], and at the bottom of the band unless its
    abscissa is 1. *)
Definition on_floor (h : Q) (p : float * float) : Prop :=
  ∃ x y, p = (Fin x, Fin y) ∧ 0 <= x <= 1 ∧ 0 <= y <= h ∧ (x < 1 → y == 0).

(** A curve that runs along the floor and then up the right wall: a point
    whose successor (if there is one) has a positive TPR has FPR 1. *)
Definition floor_curve (fpr tpr : list float) : Prop :=
  ∀ i f, fpr !! i = Some (Fin f) →
    (∀ a, tpr !! S i = Some (Fin a) → 0 < a) → f == 1.

(** The perfectly separated sample, as binary64 scores. *)
Definition perfect_scores_binary64 : list PrimFloat.float :=
  replicate 50 0%float ++ replicate 50 1%float.

(** A sample with many tied scores: two samples scored 0.9, eleven scored
    0.5 and one scored 0.1. *)
Definition tied_labels : list bool :=
  [false; true; false; false; false; false; false;
   true; true; true; true; true; true; false].

Definition tied_scores : list PrimFloat.float :=
  [0.9; 0.9]%float ++ replicate 11 0.5%float ++ [0.1%float].

(** * Properties *)

(** ** The model on the documented examples *)

(** The example of the scikit-learn documentation of [roc_curve]. *)
Example roc_curve_documented :
  roc_curve [false; false; true; true] [Fin (1#10); Fin (4#10); Fin (35#100); Fin (8#10)]
  = Ok ([Fin (0#2); Fin (0#2); Fin (1#2); Fin (1#2); Fin (2#2)],
        [Fin (0#2); Fin (1#2); Fin (1#2); Fin (2#2); Fin (2#2)]).
Proof. vm_compute. reflexivity. Qed.

(** The area under that curve is 0.75. *)
Example auc_documented :
  ∃ q, auc_reorder [Fin (0#2); Fin (0#2); Fin (1#2); Fin (1#2); Fin (2#2)]
                   [Fin (0#2); Fin (1#2); Fin (1#2); Fin (2#2); Fin (2#2)] = Ok (Fin q)
       ∧ q == 3#4.
Proof. eexists. split; vm_compute; reflexivity. Qed.

(** A curve through (0, 0), (0.5, 0.8) and (1, 1): the TPR at the FPR 0.5,
    which is already a point of the curve, is 0.8. *)
Example compute_tpr_with_fpr_on_curve :
  ∃ q, compute_tpr_with_fpr [true; true; true; true; false; true; false]
         [Fin 2; Fin 2; Fin 2; Fin 2; Fin 2; Fin 1; Fin 1] (Fin (1#2)) = Ok (Fin q)
       ∧ q == 8#10.
Proof. eexists. split; vm_compute; reflexivity. Qed.

(** Inserting the target 0.5 into the segment from (0, 0) to (1, 1). *)
Example perform_interpolation_midpoint :
  perform_interpolation [Fin 0; Fin 1] [Fin 0; Fin 1] [Fin (1#2)]
  = Ok ([Fin 0; Fin ((1#2) * 1 / 1 + 0); Fin 1], [Fin 0; Fin (1#2); Fin 1]).
Proof. vm_compute. reflexivity. Qed.

(** Ranks with a tie and a [NaN] in the model, whose sort keeps ties in
    index order; [NaN] is last. *)
Example get_ranks_ties :
  get_ranks [Fin 3; Fin 1; Fin 2; Fin 1; NaN; Fin 0] = [4; 1; 3; 2; 5; 0]%nat.
Proof. vm_compute. reflexivity. Qed.

(** ** The error monad *)

Lemma bind_Ok {A B : Type} (m : res A) (f : A → res B) (b : B) :
  m ≫= f = Ok b ↔ ∃ a, m = Ok a ∧ f a = Ok b.
Proof.
  destruct m as [a|e]; simpl; split.
  - intros H. exists a. done.
  - intros (a' & [= <-] & H). done.
  - done.
  - intros (a' & [=] & _).
Qed.

Lemma getitem_Ok {A : Type} (a : list A) (i : nat) (v : A) :
  getitem a i = Ok v ↔ a !! i = Some v.
Proof. unfold getitem. destruct (a !! i); split; congruence. Qed.

Lemma getitem_Raise {A : Type} (a : list A) (i : nat) :
  (length a ≤ i)%nat → getitem a i = Raise IndexError.
Proof. intros H. unfold getitem. by rewrite lookup_ge_None_2. Qed.

(** ** Comparisons *)

Lemma Qlt_bool_iff (p q : Q) : Qlt_bool p q = true ↔ p < q.
Proof.
  unfold Qlt_bool. rewrite negb_true_iff, <- not_true_iff_false, Qle_bool_iff.
  split; [apply Qnot_le_lt | apply Qlt_not_le].
Qed.

Lemma fltb_true (a b : float) :
  fltb a b = true ↔ ∃ p q, a = Fin p ∧ b = Fin q ∧ p < q.
Proof.
  destruct a as [p|], b as [q|]; simpl; split; try done.
  - intros H%Qlt_bool_iff. eauto.
  - intros (p' & q' & [= <-] & [= <-] & H). by apply Qlt_bool_iff.
  - intros (? & ? & _ & [=] & _).
  - intros (? & ? & [=] & _).
  - intros (? & ? & [=] & _).
Qed.

Lemma fleb_true (a b : float) :
  fleb a b = true ↔ ∃ p q, a = Fin p ∧ b = Fin q ∧ p <= q.
Proof.
  destruct a as [p|], b as [q|]; simpl; split; try done.
  - intros H%Qle_bool_iff. eauto.
  - intros (p' & q' & [= <-] & [= <-] & H). by apply Qle_bool_iff.
  - intros (? & ? & _ & [=] & _).
  - intros (? & ? & [=] & _).
  - intros (? & ? & [=] & _).
Qed.

Lemma feqb_true (a b : float) :
  feqb a b = true ↔ ∃ p q, a = Fin p ∧ b = Fin q ∧ p == q.
Proof.
  destruct a as [p|], b as [q|]; simpl; split; try done.
  - intros H%Qeq_bool_iff. eauto.
  - intros (p' & q' & [= <-] & [= <-] & H). by apply Qeq_bool_iff.
  - intros (? & ? & _ & [=] & _).
  - intros (? & ? & [=] & _).
  - intros (? & ? & [=] & _).
Qed.

Lemma feqb_refl (q : Q) : feqb (Fin q) (Fin q) = true.
Proof. apply Qeq_bool_iff. reflexivity. Qed.

(** ** Counting and searching *)

Lemma np_sum_bool_pos {A : Type} (f : A → bool) (l : list A) :
  (0 < np_sum_bool (f <$> l))%nat ↔ ∃ v, v ∈ l ∧ f v = true.
Proof.
  unfold np_sum_bool. induction l as [|a l IH]; simpl.
  - split; [lia | intros (v & Hv & _); by apply elem_of_nil in Hv].
  - rewrite filter_cons. destruct (decide (f a = true)) as [Ha|Ha]; simpl.
    + split; [intros _; exists a; split; [left | done] | lia].
    + rewrite IH. split.
      * intros (v & Hv & Hf). exists v. split; [by right | done].
      * intros (v & Hv & Hf). apply elem_of_cons in Hv as [->|Hv]; [done|eauto].
Qed.

Lemma elem_of_argwhere_from (i : nat) (bs : list bool) (j : nat) :
  j ∈ argwhere_from i bs ↔ ∃ k, j = (i + k)%nat ∧ bs !! k = Some true.
Proof.
  revert i. induction bs as [|b bs IH]; intros i; simpl.
  - split; [intros H; by apply elem_of_nil in H | intros (k & _ & H); done].
  - assert (j ∈ argwhere_from (S i) bs ↔ ∃ k, j = (i + S k)%nat ∧ bs !! k = Some true) as IH'.
    { rewrite IH. split; intros (k & -> & Hk); exists k; split; [lia|done|lia|done]. }
    destruct b.
    + rewrite elem_of_cons, IH'. split.
      * intros [->|(k & -> & Hk)]; [exists O; split; [lia|done] | exists (S k); done].
      * intros ([|k] & -> & Hk); [left; lia | right; exists k; done].
    + rewrite IH'. split.
      * intros (k & -> & Hk). exists (S k). done.
      * intros ([|k] & -> & Hk); [done | exists k; done].
Qed.

Lemma elem_of_np_argwhere {A : Type} (P : A → bool) (l : list A) (j : nat) :
  j ∈ np_argwhere (P <$> l) ↔ ∃ a, l !! j = Some a ∧ P a = true.
Proof.
  unfold np_argwhere. rewrite elem_of_argwhere_from. split.
  - intros (k & -> & Hk). simpl. rewrite list_lookup_fmap in Hk.
    destruct (l !! k) as [a|]; simplify_eq/=. eauto.
  - intros (a & Hj & Ha). exists j. split; [done|].
    by rewrite list_lookup_fmap, Hj; simpl; rewrite Ha.
Qed.

Lemma foldl_max_spec (l : list nat) (a : nat) :
  foldl Nat.max a l ∈ a :: l ∧ ∀ x, x ∈ a :: l → (x ≤ foldl Nat.max a l)%nat.
Proof.
  revert a. induction l as [|b l IH]; intros a; simpl.
  - split; [left | intros x ->%list_elem_of_singleton; done].
  - destruct (IH (a `max` b)%nat) as [Hin Hle]. split.
    + apply elem_of_cons in Hin as [Heq|Hin]; [|by do 2 right].
      rewrite Heq. destruct (Nat.max_dec a b) as [->| ->]; [left | right; left].
    + intros x Hx. apply elem_of_cons in Hx as [->|Hx].
      * etrans; [apply Nat.le_max_l | apply Hle; left].
      * apply elem_of_cons in Hx as [->|Hx].
        -- etrans; [apply Nat.le_max_r | apply Hle; left].
        -- apply Hle. by right.
Qed.

Lemma np_max_argwhere_spec {A : Type} (P : A → bool) (l : list A) :
  match np_max (np_argwhere (P <$> l)) with
  | Ok p => last_index_where P l p
  | Raise e => e = ValueError ∧ ∀ v, v ∈ l → P v = false
  end.
Proof.
  destruct (np_argwhere (P <$> l)) as [|a idxs] eqn:Hidx; simpl.
  - split; [done|]. intros v Hv. apply list_elem_of_lookup in Hv as [j Hj].
    destruct (P v) eqn:HP; [|done].
    assert (j ∈ np_argwhere (P <$> l)) as Hin by (apply elem_of_np_argwhere; eauto).
    rewrite Hidx in Hin. by apply elem_of_nil in Hin.
  - destruct (foldl_max_spec idxs a) as [Hin Hle]. rewrite <- Hidx in Hin, Hle.
    split; [by apply elem_of_np_argwhere|].
    intros j b Hlt Hj. destruct (P b) eqn:HP; [|done].
    assert (j ∈ np_argwhere (P <$> l)) as Hj' by (apply elem_of_np_argwhere; eauto).
    apply Hle in Hj'. lia.
Qed.

Lemma last_index_where_unique {A : Type} (P : A → bool) (l : list A) (p q : nat) :
  last_index_where P l p → last_index_where P l q → p = q.
Proof.
  intros [(a & Ha & HPa) Hp] [(b & Hb & HPb) Hq].
  destruct (Nat.lt_trichotomy p q) as [Hlt|[->|Hlt]]; [|done|].
  - specialize (Hp _ _ Hlt Hb). congruence.
  - specialize (Hq _ _ Hlt Ha). congruence.
Qed.

Lemma np_max_argwhere_Ok {A : Type} (P : A → bool) (l : list A) (p : nat) :
  last_index_where P l p → np_max (np_argwhere (P <$> l)) = Ok p.
Proof.
  intros Hp. pose proof (np_max_argwhere_spec P l) as Hs.
  destruct (np_max (np_argwhere (P <$> l))) as [q|e].
  - f_equal. by eapply last_index_where_unique.
  - destruct Hs as [_ Hs], Hp as [(a & Ha & HPa) _].
    apply list_elem_of_lookup_2 in Ha. apply Hs in Ha. congruence.
Qed.

(** ** One step of the interpolation loop *)

Lemma np_insert_Ok {A : Type} (a : list A) (i : nat) (v : A) :
  (i ≤ length a)%nat → np_insert a i v = Ok (take i a ++ v :: drop i a).
Proof. intros H. unfold np_insert. by rewrite decide_True. Qed.

Lemma not_present_false (t : float) (y : list float) :
  ¬ present t y ↔ ∀ v, v ∈ y → feqb v t = false.
Proof.
  unfold present. split.
  - intros H v Hv. destruct (feqb v t) eqn:E; [|done]. destruct H. eauto.
  - intros H (v & Hv & E). rewrite (H v Hv) in E. done.
Qed.

(** What one iteration does, in every case. *)
Lemma interpolation_step_spec (x y : list float) (t : float) :
  match interpolation_step (x, y) t with
  | Ok (x', y') =>
      (present t y ∧ x' = x ∧ y' = y)
      ∨ (¬ present t y ∧ ∃ p yp yf xp xf,
            last_index_where (λ v, fltb v t) y p
            ∧ y !! p = Some yp ∧ y !! S p = Some yf
            ∧ x !! p = Some xp ∧ x !! S p = Some xf
            ∧ x' = take (S p) x ++ linear_interpolation t yp yf xp xf :: drop (S p) x
            ∧ y' = take (S p) y ++ t :: drop (S p) y)
  | Raise e =>
      ¬ present t y
      ∧ ((∀ v, v ∈ y → fltb v t = false)
         ∨ ∃ p, last_index_where (λ v, fltb v t) y p
                ∧ ((length y ≤ S p)%nat ∨ (length x ≤ S p)%nat))
  end.
Proof.
  unfold interpolation_step.
  destruct (decide (0 < np_sum_bool ((λ y0, feqb y0 t) <$> y))%nat) as [Hp|Hp].
  { left. split; [|done]. by apply np_sum_bool_pos in Hp. }
  assert (¬ present t y) as Hnp.
  { intros H. apply Hp. by apply np_sum_bool_pos. }
  pose proof (np_max_argwhere_spec (λ v, fltb v t) y) as Hs.
  destruct (np_max (np_argwhere ((λ v, fltb v t) <$> y))) as [p|e]; simpl.
  2:{ split; [done|]. left. apply Hs. }
  destruct Hs as [(yp & Hyp & Hlt) Hlast].
  rewrite (proj2 (getitem_Ok y p yp) Hyp). simpl.
  destruct (x !! S p) as [xf|] eqn:Hxf.
  2:{ apply lookup_ge_None in Hxf. rewrite (getitem_Raise x (S p) Hxf). simpl.
      split; [done|]. right. exists p. split; [split; eauto|]. by right. }
  rewrite (proj2 (getitem_Ok x (S p) xf) Hxf). simpl.
  destruct (x !! p) as [xp|] eqn:Hxp.
  2:{ apply lookup_ge_None in Hxp. apply lookup_lt_Some in Hxf. lia. }
  rewrite (proj2 (getitem_Ok x p xp) Hxp). simpl.
  destruct (y !! S p) as [yf|] eqn:Hyf.
  2:{ apply lookup_ge_None in Hyf. rewrite (getitem_Raise y (S p) Hyf). simpl.
      split; [done|]. right. exists p. split; [split; eauto|]. by left. }
  rewrite (proj2 (getitem_Ok y (S p) yf) Hyf). simpl.
  rewrite !np_insert_Ok; simpl.
  - right. split; [done|]. exists p, yp, yf, xp, xf. repeat split; eauto.
  - apply lookup_lt_Some in Hyf. lia.
  - apply lookup_lt_Some in Hxf. lia.
Qed.

Lemma interpolation_step_present (x y : list float) (t : float) :
  present t y → interpolation_step (x, y) t = Ok (x, y).
Proof.
  intros Hp. unfold interpolation_step. rewrite decide_True; [done|].
  by apply np_sum_bool_pos.
Qed.

Lemma interpolation_step_insert (x y : list float) (t : float) (p : nat)
    (yp yf xp xf : float) :
  ¬ present t y →
  last_index_where (λ v, fltb v t) y p →
  y !! p = Some yp → y !! S p = Some yf →
  x !! p = Some xp → x !! S p = Some xf →
  interpolation_step (x, y) t
  = Ok (take (S p) x ++ linear_interpolation t yp yf xp xf :: drop (S p) x,
        take (S p) y ++ t :: drop (S p) y).
Proof.
  intros Hnp Hlast Hyp Hyf Hxp Hxf.
  pose proof (interpolation_step_spec x y t) as Hs.
  destruct (interpolation_step (x, y) t) as [[x' y']|e].
  - destruct Hs as [(Hp & _)|(_ & q & yp' & yf' & xp' & xf' & Hq & H1 & H2 & H3 & H4 & -> & ->)];
      [done|].
    assert (q = p) as -> by (by eapply last_index_where_unique).
    by simplify_eq.
  - destruct Hs as [_ [Hall|(q & Hq & Hlen)]].
    + destruct Hlast as [(a & Ha & Hlt) _]. apply list_elem_of_lookup_2 in Ha.
      rewrite (Hall _ Ha) in Hlt. done.
    + assert (q = p) as -> by (by eapply last_index_where_unique).
      apply lookup_lt_Some in Hyf, Hxf. lia.
Qed.

(** The elements of [y] survive a step, and the target is present after it. *)
Lemma interpolation_step_grows (x y x' y' : list float) (t : float) :
  interpolation_step (x, y) t = Ok (x', y') →
  (∀ v, v ∈ y → v ∈ y') ∧ present t y'
  ∧ (length x = length y → length x' = length y').
Proof.
  intros Hstep. pose proof (interpolation_step_spec x y t) as Hs.
  rewrite Hstep in Hs.
  destruct Hs as [(Hp & -> & ->)|(_ & p & yp & yf & xp & xf & Hlast & Hyp & Hyf & Hxp & Hxf & -> & ->)];
    [done|].
  split; [|split].
  - intros v Hv. rewrite <- (take_drop (S p) y) in Hv.
    apply elem_of_app in Hv as [Hv|Hv]; apply elem_of_app; [by left|right; by right].
  - destruct Hlast as [(a & Ha & Hlt) _]. apply fltb_true in Hlt as (pa & q & _ & -> & _).
    exists (Fin q). split; [|apply feqb_refl].
    apply elem_of_app. right. left.
  - intros Hlen. rewrite !length_app; simpl. rewrite !length_take, !length_drop. lia.
Qed.

Lemma perform_interpolation_cons (x y : list float) (t : float) (T : list float) :
  perform_interpolation x y (t :: T)
  = interpolation_step (x, y) t ≫= λ '(x', y'), perform_interpolation x' y' T.
Proof.
  unfold perform_interpolation. cbn [for_each].
  destruct (interpolation_step (x, y) t) as [[x' y']|e]; done.
Qed.

Lemma perform_interpolation_grows (T x y x' y' : list float) :
  perform_interpolation x y T = Ok (x', y') →
  (∀ v, v ∈ y → v ∈ y') ∧ (∀ t, present t y → present t y')
  ∧ (∀ t, t ∈ T → present t y')
  ∧ (length x = length y → length x' = length y').
Proof.
  revert x y. induction T as [|t T IH]; intros x y.
  - intros [= <- <-]. repeat split; try done. intros t Ht. by apply elem_of_nil in Ht.
  - rewrite perform_interpolation_cons. intros ([x1 y1] & Hstep & Hrest)%bind_Ok.
    apply interpolation_step_grows in Hstep as (Hsub & Hpres & Hlen).
    apply IH in Hrest as (Hsub' & Hpres' & Hall' & Hlen').
    assert (∀ u, present u y → present u y1) as Hmono.
    { intros u (v & Hv & E). exists v. auto. }
    repeat split; auto.
    intros u [->|Hu]%elem_of_cons; auto.
Qed.

Lemma perform_interpolation_all_present (T x y : list float) :
  (∀ t, t ∈ T → present t y) → perform_interpolation x y T = Ok (x, y).
Proof.
  induction T as [|t T IH]; intros Hall; [done|].
  rewrite perform_interpolation_cons, interpolation_step_present; simpl.
  - apply IH. intros u Hu. apply Hall. by right.
  - apply Hall. left.
Qed.

Lemma fadd_comm_equiv (a b : float) : float_equiv (fadd a b) (fadd b a).
Proof. destruct a, b; simpl; try done. apply Qplus_comm. Qed.

(** ** Insertion of one target *)

(** C2: for parallel arrays [x], [y] and a target [t] absent from [y], with
    [p] the largest index such that [y[p] < t] and [y[p+1]] strictly above
    [t], perform_interpolation computes
    [x_new = x[p] + (t - y[p]) * (x[p+1] - x[p]) / (y[p+1] - y[p])] and
    inserts the point [(x_new, t)] between the indices [p] and [p+1]; the
    original points keep their values and their order. *)
Theorem perform_interpolation_inserts (x y : list float) (t : float) (p : nat)
    (yp yf : float) :
  length x = length y →
  ¬ present t y →
  y !! p = Some yp → fltb yp t = true →
  (∀ j b, (p < j)%nat → y !! j = Some b → fltb b t = false) →
  y !! S p = Some yf → fltb t yf = true →
  ∃ xp xf x_new,
    x !! p = Some xp ∧ x !! S p = Some xf
    ∧ float_equiv x_new
        (fadd xp (fdiv (fmul (fsub t yp) (fsub xf xp)) (fsub yf yp)))
    ∧ perform_interpolation x y [t]
      = Ok (take (S p) x ++ x_new :: drop (S p) x,
            take (S p) y ++ t :: drop (S p) y).
Proof.
  intros Hlen Hnp Hyp Hlt Hlast Hyf Hgt.
  destruct (x !! p) as [xp|] eqn:Hxp.
  2:{ apply lookup_ge_None in Hxp. apply lookup_lt_Some in Hyp. lia. }
  destruct (x !! S p) as [xf|] eqn:Hxf.
  2:{ apply lookup_ge_None in Hxf. apply lookup_lt_Some in Hyf. lia. }
  exists xp, xf, (linear_interpolation t yp yf xp xf).
  repeat split; [apply fadd_comm_equiv|].
  rewrite perform_interpolation_cons.
  rewrite (interpolation_step_insert x y t p yp yf xp xf); try done.
  split; eauto.
Qed.

Lemma perform_interpolation_inserts_witness :
  ∃ xp xf x_new,
    [Fin 0; Fin 1] !! 0%nat = Some xp ∧ [Fin 0; Fin 1] !! 1%nat = Some xf
    ∧ float_equiv x_new
        (fadd xp (fdiv (fmul (fsub (Fin (1#2)) (Fin 0)) (fsub xf xp))
                       (fsub (Fin 1) (Fin 0))))
    ∧ perform_interpolation [Fin 0; Fin 1] [Fin 0; Fin 1] [Fin (1#2)]
      = Ok (take 1 [Fin 0; Fin 1] ++ x_new :: drop 1 [Fin 0; Fin 1],
            take 1 [Fin 0; Fin 1] ++ Fin (1#2) :: drop 1 [Fin 0; Fin 1]).
Proof.
  apply (perform_interpolation_inserts [Fin 0; Fin 1] [Fin 0; Fin 1] (Fin (1#2)) 0
           (Fin 0) (Fin 1)).
  - reflexivity.
  - apply not_present_false. intros v Hv.
    repeat (apply elem_of_cons in Hv as [->|Hv]; [reflexivity|]).
    by apply elem_of_nil in Hv.
  - reflexivity.
  - reflexivity.
  - intros [|[|j]] b Hj Hb; [lia| |done]. by injection Hb as <-.
  - reflexivity.
  - reflexivity.
Defined.

(** ** Idempotence *)

(** C4: a target already present in [y_array] causes no insertion, and a
    second application of perform_interpolation with the same targets
    returns the arrays of the first application unchanged. *)
Theorem perform_interpolation_idempotent (x y T x' y' : list float) :
  perform_interpolation x y T = Ok (x', y') →
  (∀ t x0 y0, present t y0 → perform_interpolation x0 y0 [t] = Ok (x0, y0))
  ∧ perform_interpolation x' y' T = Ok (x', y').
Proof.
  intros Hfirst. split.
  - intros t x0 y0 Hp. apply perform_interpolation_all_present.
    by intros u ->%list_elem_of_singleton.
  - apply perform_interpolation_all_present.
    by apply perform_interpolation_grows in Hfirst as (_ & _ & Hall & _).
Qed.

Lemma perform_interpolation_idempotent_witness :
  (∀ t x0 y0, present t y0 → perform_interpolation x0 y0 [t] = Ok (x0, y0))
  ∧ perform_interpolation [Fin 0; Fin ((1#2) * 1 / 1 + 0); Fin 1]
      [Fin 0; Fin (1#2); Fin 1] [Fin (1#2); Fin 1]
    = Ok ([Fin 0; Fin ((1#2) * 1 / 1 + 0); Fin 1], [Fin 0; Fin (1#2); Fin 1]).
Proof.
  apply (perform_interpolation_idempotent [Fin 0; Fin 1] [Fin 0; Fin 1]
           [Fin (1#2); Fin 1]).
  vm_compute. reflexivity.
Defined.

(** ** Targets outside the range of the curve *)

(** C7: a target strictly below every element of [y_array] (below its
    minimum) or strictly above every element (above its maximum) makes
    perform_interpolation fail with an exception: no result is returned. *)
Theorem perform_interpolation_out_of_range (T x y : list float) (t : float) :
  t ∈ T →
  (∀ v, v ∈ y → fltb t v = true) ∨ (∀ v, v ∈ y → fltb v t = true) →
  ∃ e, perform_interpolation x y T = Raise e.
Proof.
  revert x y. induction T as [|t0 T IH]; intros x y Hin Hout.
  { by apply elem_of_nil in Hin. }
  rewrite perform_interpolation_cons.
  pose proof (interpolation_step_spec x y t0) as Hs.
  destruct (interpolation_step (x, y) t0) as [[x1 y1]|e]; simpl; [|eauto].
  apply elem_of_cons in Hin as [->|Hin].
  - (* the offending target is the current one: the step cannot succeed *)
    exfalso.
    destruct Hs as [((v & Hv & E) & _)|(_ & p & yp & yf & xp & xf & Hlast & Hyp & Hyf & _)].
    + apply feqb_true in E as (a & b & -> & -> & E).
      destruct Hout as [Hout|Hout]; apply Hout in Hv;
        apply fltb_true in Hv as (? & ? & [= <-] & [= <-] & Hv); lra.
    + destruct Hlast as [(yp' & Hyp' & Hlt) Hlast].
      rewrite Hyp in Hyp'. injection Hyp' as <-.
      destruct Hout as [Hout|Hout].
      * apply list_elem_of_lookup_2, Hout in Hyp.
        apply fltb_true in Hlt as (? & ? & -> & -> & ?).
        apply fltb_true in Hyp as (? & ? & [= <-] & [= <-] & ?). lra.
      * pose proof (Hlast (S p) yf (Nat.lt_succ_diag_r p) Hyf) as Hnlt.
        apply list_elem_of_lookup_2, Hout in Hyf. congruence.
  - (* an earlier target: the bound on [y] survives its insertion *)
    apply IH; [done|].
    destruct Hs as [(_ & -> & ->)|(Hnp & p & yp & yf & xp & xf & Hlast & Hyp & Hyf & _ & _ & -> & ->)];
      [done|].
    destruct Hlast as [(yp' & Hyp' & Hlt) Hlast].
    rewrite Hyp in Hyp'. injection Hyp' as <-.
    pose proof (Hlast (S p) yf (Nat.lt_succ_diag_r p) Hyf) as Hnlt.
    assert (feqb yf t0 = false) as Hne.
    { apply not_present_false with (v := yf) in Hnp; [done|].
      by eapply list_elem_of_lookup_2. }
    destruct Hout as [Hout|Hout]; [left|right]; intros v Hv.
    + apply elem_of_app in Hv as [Hv|Hv].
      { apply Hout. rewrite <- (take_drop (S p) y). apply elem_of_app. by left. }
      apply elem_of_cons in Hv as [->|Hv].
      2:{ apply Hout. rewrite <- (take_drop (S p) y). apply elem_of_app. by right. }
      apply list_elem_of_lookup_2, Hout in Hyp.
      apply fltb_true in Hlt as (? & ? & -> & -> & ?).
      apply fltb_true in Hyp as (? & ? & -> & [= <-] & ?).
      apply fltb_true. eexists _, _. repeat split. lra.
    + apply elem_of_app in Hv as [Hv|Hv].
      { apply Hout. rewrite <- (take_drop (S p) y). apply elem_of_app. by left. }
      apply elem_of_cons in Hv as [->|Hv].
      2:{ apply Hout. rewrite <- (take_drop (S p) y). apply elem_of_app. by right. }
      apply list_elem_of_lookup_2, Hout in Hyf.
      apply fltb_true in Hlt as (? & t0q & -> & -> & ?).
      apply fltb_true in Hyf as (yfq & tq & -> & -> & ?).
      apply fltb_true. eexists _, _. repeat split.
      simpl in Hnlt, Hne. apply not_true_iff_false in Hnlt, Hne.
      rewrite Qlt_bool_iff in Hnlt. rewrite Qeq_bool_iff in Hne.
      destruct (Qlt_le_dec t0q tq) as [?|Hle]; [done|]. lra.
Qed.

Lemma perform_interpolation_out_of_range_witness :
  ∃ e, perform_interpolation [Fin 0; Fin 1] [Fin 0; Fin 1] [Fin (1#2); Fin 2] = Raise e.
Proof.
  apply (perform_interpolation_out_of_range [Fin (1#2); Fin 2] [Fin 0; Fin 1]
           [Fin 0; Fin 1] (Fin 2)).
  - right. left.
  - right. intros v Hv.
    repeat (apply elem_of_cons in Hv as [->|Hv]; [reflexivity|]).
    by apply elem_of_nil in Hv.
Defined.

(** ** Monotone curves *)

Lemma present_dec (t : float) (y : list float) : present t y ∨ ¬ present t y.
Proof.
  destruct (decide (0 < np_sum_bool ((λ v, feqb v t) <$> y))%nat) as [H|H].
  - left. by apply np_sum_bool_pos in H.
  - right. intros Hp. apply H. by apply np_sum_bool_pos.
Qed.

Lemma fleb_trans (a b c : float) :
  fleb a b = true → fleb b c = true → fleb a c = true.
Proof.
  intros (p & q & -> & -> & H1)%fleb_true (q' & r & [= <-] & -> & H2)%fleb_true.
  apply fleb_true. eexists _, _. repeat split. lra.
Qed.

Lemma non_decreasing_lt (y : list float) (i j : nat) (a b : float) :
  non_decreasing y → (i < j)%nat → y !! i = Some a → y !! j = Some b →
  fleb a b = true.
Proof.
  intros Hy Hij Ha. revert b. induction Hij as [|j Hij IH]; intros b Hb.
  - by eapply Hy.
  - destruct (y !! j) as [c|] eqn:Hc.
    + eapply fleb_trans; [by apply IH|]. by eapply Hy.
    + apply lookup_ge_None in Hc. apply lookup_lt_Some in Hb. lia.
Qed.

Lemma lookup_insert_at {A : Type} (l : list A) (n : nat) (v : A) (i : nat) :
  (n ≤ length l)%nat →
  (take n l ++ v :: drop n l) !! i
  = if decide (i < n)%nat then l !! i
    else if decide (i = n) then Some v else l !! (i - 1)%nat.
Proof.
  intros Hn. destruct (decide (i < n)%nat) as [Hlt|Hge].
  - rewrite lookup_app_l by (rewrite length_take; lia). by rewrite lookup_take_lt.
  - rewrite lookup_app_r by (rewrite length_take; lia).
    rewrite length_take, Nat.min_l by done.
    destruct (decide (i = n)) as [->|Hne].
    + by rewrite Nat.sub_diag.
    + destruct (i - n)%nat as [|k] eqn:Hk; [lia|]. simpl.
      rewrite lookup_drop. f_equal. lia.
Qed.

Lemma non_decreasing_insert (y : list float) (p : nat) (yp yf t : float) :
  non_decreasing y →
  y !! p = Some yp → y !! S p = Some yf →
  fleb yp t = true → fleb t yf = true →
  non_decreasing (take (S p) y ++ t :: drop (S p) y).
Proof.
  intros Hy Hyp Hyf H1 H2 i a b.
  assert (S p ≤ length y)%nat as Hlen by (apply lookup_lt_Some in Hyf; lia).
  rewrite !lookup_insert_at by done.
  repeat case_decide; try lia; subst.
  - apply Hy.
  - intros Ha [= <-]. assert (i = p) as -> by lia. congruence.
  - intros [= <-] Hb. replace (S (S p) - 1)%nat with (S p) in Hb by lia. congruence.
  - intros Ha Hb. apply (Hy (i - 1)%nat); [done|].
    by replace (S (i - 1)) with (S i - 1)%nat by lia.
Qed.

(** In a non-decreasing array without the target, the successor of the
    last element below the target is strictly above the target. *)
Lemma successor_above (y : list float) (t : float) (p : nat) (yp yf : float) :
  non_decreasing y → ¬ present t y →
  last_index_where (λ v, fltb v t) y p →
  y !! p = Some yp → y !! S p = Some yf →
  fltb yp t = true ∧ fltb t yf = true.
Proof.
  intros Hy Hnp [(yp' & Hyp' & Hlt) Hlast] Hyp Hyf.
  rewrite Hyp in Hyp'. injection Hyp' as <-. split; [done|].
  pose proof (Hy p yp yf Hyp Hyf) as Hle.
  pose proof (Hlast (S p) yf (Nat.lt_succ_diag_r p) Hyf) as Hnlt.
  assert (feqb yf t = false) as Hne.
  { apply not_present_false with (v := yf) in Hnp; [done|].
    by eapply list_elem_of_lookup_2. }
  apply fleb_true in Hle as (ypq & yfq & -> & -> & Hle).
  apply fltb_true in Hlt as (? & tq & [= <-] & -> & Hlt).
  simpl in *. apply not_true_iff_false in Hnlt, Hne.
  rewrite Qlt_bool_iff in Hnlt. rewrite Qeq_bool_iff in Hne.
  apply Qlt_bool_iff. destruct (Qlt_le_dec tq yfq) as [?|Hge]; [done|].
  destruct (Qlt_le_dec yfq tq) as [?|Hge']; [done|]. destruct Hne. lra.
Qed.

(** A target with an element below it and an element above it in a
    non-decreasing array is inserted between two neighbours. *)
Lemma interpolation_step_bracket (x y : list float) (t : float) :
  length x = length y → non_decreasing y → ¬ present t y →
  (∃ a b, a ∈ y ∧ b ∈ y ∧ fltb a t = true ∧ fltb t b = true) →
  ∃ p yp yf xp xf,
    y !! p = Some yp ∧ y !! S p = Some yf ∧ x !! p = Some xp ∧ x !! S p = Some xf
    ∧ fltb yp t = true ∧ fltb t yf = true
    ∧ last_index_where (λ v, fltb v t) y p
    ∧ interpolation_step (x, y) t
      = Ok (take (S p) x ++ linear_interpolation t yp yf xp xf :: drop (S p) x,
            take (S p) y ++ t :: drop (S p) y).
Proof.
  intros Hlen Hy Hnp (a & b & Ha & Hb & Hat & Htb).
  pose proof (np_max_argwhere_spec (λ v, fltb v t) y) as Hs.
  destruct (np_max (np_argwhere ((λ v, fltb v t) <$> y))) as [p|e].
  2:{ destruct Hs as [_ Hs]. rewrite (Hs a Ha) in Hat. done. }
  pose proof Hs as [(yp & Hyp & Hlt) Hlast].
  apply list_elem_of_lookup in Hb as [j Hj].
  assert (p < j)%nat as Hpj.
  { destruct (decide (p < j)%nat) as [|Hge]; [done|exfalso].
    apply fltb_true in Hlt as (ypq & tq & -> & -> & Hlt).
    apply fltb_true in Htb as (tq' & bq & [= <-] & -> & Htb).
    destruct (decide (j = p)) as [->|Hne].
    - rewrite Hyp in Hj. injection Hj as ->. lra.
    - assert (fleb (Fin bq) (Fin ypq) = true) as Hle.
      { eapply (non_decreasing_lt y j p); eauto. lia. }
      simpl in Hle. apply Qle_bool_iff in Hle. lra. }
  destruct (y !! S p) as [yf|] eqn:Hyf.
  2:{ apply lookup_ge_None in Hyf. apply lookup_lt_Some in Hj. lia. }
  destruct (x !! p) as [xp|] eqn:Hxp.
  2:{ apply lookup_ge_None in Hxp. apply lookup_lt_Some in Hyp. lia. }
  destruct (x !! S p) as [xf|] eqn:Hxf.
  2:{ apply lookup_ge_None in Hxf. apply lookup_lt_Some in Hyf. lia. }
  exists p, yp, yf, xp, xf. repeat split; eauto.
  - by eapply (successor_above y t p yp yf).
  - by apply interpolation_step_insert.
Qed.

Lemma fltb_fleb (a b : float) : fltb a b = true → fleb a b = true.
Proof.
  intros (p & q & -> & -> & H)%fltb_true. apply Qle_bool_iff. lra.
Qed.

Lemma perform_interpolation_sorted (T x y : list float) :
  length x = length y → non_decreasing y →
  (∀ t, t ∈ T →
     present t y ∨ ∃ a b, a ∈ y ∧ b ∈ y ∧ fltb a t = true ∧ fltb t b = true) →
  ∃ x' y', perform_interpolation x y T = Ok (x', y')
           ∧ length x' = length y' ∧ non_decreasing y'.
Proof.
  revert x y. induction T as [|t T IH]; intros x y Hlen Hy HT.
  { exists x, y. done. }
  rewrite perform_interpolation_cons.
  assert (∃ x1 y1, interpolation_step (x, y) t = Ok (x1, y1)
                   ∧ length x1 = length y1 ∧ non_decreasing y1) as (x1 & y1 & Hstep & Hlen1 & Hy1).
  { destruct (present_dec t y) as [Hp|Hnp].
    - exists x, y. split; [by apply interpolation_step_present|done].
    - destruct (HT t) as [Hp|Hbr]; [left|done|].
      destruct (interpolation_step_bracket x y t Hlen Hy Hnp Hbr)
        as (p & yp & yf & xp & xf & Hyp & Hyf & Hxp & Hxf & Hlt & Hgt & _ & Hstep).
      eexists _, _. split; [exact Hstep|]. split.
      + rewrite !length_app; simpl. rewrite !length_take, !length_drop. lia.
      + eapply non_decreasing_insert; eauto using fltb_fleb. }
  rewrite Hstep. simpl. apply IH; [done..|].
  apply interpolation_step_grows in Hstep as (Hsub & _ & _).
  intros u Hu. destruct (HT u) as [(v & Hv & E)|(a & b & Ha & Hb & H1 & H2)]; [by right|..].
  - left. exists v. auto.
  - right. exists a, b. auto.
Qed.

(** Whenever the loop returns on a non-decreasing [y_array], the result is
    non-decreasing. *)
Lemma perform_interpolation_preserves_sorted (T x y x' y' : list float) :
  non_decreasing y → perform_interpolation x y T = Ok (x', y') → non_decreasing y'.
Proof.
  revert x y. induction T as [|t T IH]; intros x y Hy.
  { by intros [= <- <-]. }
  rewrite perform_interpolation_cons. intros ([x1 y1] & Hstep & Hrest)%bind_Ok.
  eapply IH; [|exact Hrest].
  pose proof (interpolation_step_spec x y t) as Hs. rewrite Hstep in Hs.
  destruct Hs as [(_ & _ & ->)|(Hnp & p & yp & yf & _ & _ & Hlast & Hyp & Hyf & _ & _ & _ & ->)];
    [done|].
  destruct (successor_above y t p yp yf) as [Hlt Hgt]; try done.
  eapply non_decreasing_insert; eauto using fltb_fleb.
Qed.

(** C9: perform_interpolation preserves monotonicity.  On a non-decreasing
    [y_array] every returned [y_array] is non-decreasing; and when the arrays
    are parallel and every target absent from [y_array] is bracketed (the
    largest index below the target exists and its successor is strictly
    above the target), the call does return. *)
Theorem perform_interpolation_monotone (x y T : list float) :
  non_decreasing y →
  (∀ t, t ∈ T → ¬ present t y → bracketed y t) →
  (∀ x' y', perform_interpolation x y T = Ok (x', y') → non_decreasing y')
  ∧ (length x = length y →
     ∃ x' y', perform_interpolation x y T = Ok (x', y') ∧ non_decreasing y').
Proof.
  intros Hy HT. split.
  { intros x' y'. by apply perform_interpolation_preserves_sorted. }
  intros Hlen.
  destruct (perform_interpolation_sorted T x y Hlen Hy) as (x' & y' & H & _ & Hy').
  - intros t Ht. destruct (present_dec t y) as [Hp|Hnp]; [by left|right].
    destruct (HT t Ht Hnp) as (_ & p & b & [(a & Ha & Hlt) _] & Hb & Hgt).
    exists a, b. repeat split; try done; by eapply list_elem_of_lookup_2.
  - eauto.
Qed.

Lemma perform_interpolation_monotone_witness :
  (∀ x' y', perform_interpolation [Fin 0; Fin 1] [Fin 0; Fin 1] [Fin (1#2); Fin 1]
            = Ok (x', y') → non_decreasing y')
  ∧ (length [Fin 0; Fin 1] = length [Fin 0; Fin 1] →
     ∃ x' y', perform_interpolation [Fin 0; Fin 1] [Fin 0; Fin 1] [Fin (1#2); Fin 1]
              = Ok (x', y') ∧ non_decreasing y').
Proof.
  apply (perform_interpolation_monotone [Fin 0; Fin 1] [Fin 0; Fin 1] [Fin (1#2); Fin 1]).
  - intros [|[|i]] a b Ha Hb; [|done..]. injection Ha as <-. injection Hb as <-.
    reflexivity.
  - intros t Ht Hnp. split; [done|].
    apply elem_of_cons in Ht as [->|Ht].
    + exists 0%nat, (Fin 1). split; [split|split; reflexivity].
      * exists (Fin 0). split; reflexivity.
      * intros [|[|j]] b Hj Hb; [lia| |done]. by injection Hb as <-.
    + apply elem_of_cons in Ht as [->|Ht]; [|by apply elem_of_nil in Ht].
      destruct Hnp. exists (Fin 1). split; [right; left|reflexivity].
Defined.

(** ** The TPR at a chosen FPR *)

Lemma length_rates (counts : list Z) : length (rates counts) = length counts.
Proof.
  unfold rates. destruct (last counts) as [total|] eqn:Hlast.
  - destruct (total <=? 0)%Z; by rewrite length_fmap.
  - apply last_None in Hlast. by subst.
Qed.

Lemma roc_curve_length (y_true : list bool) (y_score fpr tpr : list float) :
  roc_curve y_true y_score = Ok (fpr, tpr) → length fpr = length tpr.
Proof.
  unfold roc_curve. intros H.
  destruct (decide (length y_true ≠ length y_score)); [done|].
  destruct (all_scores y_score) as [scores|]; [|done].
  destruct (decide (_ = [])); [done|].
  injection H as <- <-. by rewrite !length_rates, !length_fmap.
Qed.

Lemma argwhere_from_head (i : nat) (bs : list bool) (j : nat) (rest : list nat) :
  argwhere_from i bs = j :: rest →
  ∃ k, j = (i + k)%nat ∧ bs !! k = Some true
       ∧ ∀ k', (k' < k)%nat → bs !! k' = Some false.
Proof.
  revert i. induction bs as [|b bs IH]; intros i; simpl; [done|].
  destruct b.
  - intros [= <- _]. exists 0%nat. repeat split; [lia|]. intros k' Hk'. lia.
  - intros (k & -> & Hk & Hbefore)%IH. exists (S k). repeat split; [lia|done|].
    intros [|k'] Hk'; [done|]. apply Hbefore. lia.
Qed.

(** C10: the value returned by compute_tpr_with_fpr is the TPR of the first
    (smallest-index) point of the interpolated curve whose FPR equals
    [chosen_fpr], whatever the number of points with that FPR. *)
Theorem compute_tpr_with_fpr_first (y_true : list bool) (y_score : list float)
    (chosen_fpr : float) (fpr tpr tpr' fpr' : list float) :
  roc_curve y_true y_score = Ok (fpr, tpr) →
  perform_interpolation tpr fpr [chosen_fpr] = Ok (tpr', fpr') →
  ∃ i v,
    compute_tpr_with_fpr y_true y_score chosen_fpr = Ok v
    ∧ tpr' !! i = Some v
    ∧ (∃ f, fpr' !! i = Some f ∧ feqb f chosen_fpr = true)
    ∧ ∀ j f, (j < i)%nat → fpr' !! j = Some f → feqb f chosen_fpr = false.
Proof.
  intros Hroc Hinterp. unfold compute_tpr_with_fpr.
  rewrite Hroc. simpl. rewrite Hinterp. simpl.
  pose proof (roc_curve_length _ _ _ _ Hroc) as Hlen.
  apply perform_interpolation_grows in Hinterp as (_ & _ & Hall & Hlen').
  specialize (Hlen' (eq_sym Hlen)).
  destruct (Hall chosen_fpr) as (v & Hv & E); [left|].
  apply list_elem_of_lookup in Hv as [k Hk].
  assert (k ∈ np_argwhere ((λ f, feqb f chosen_fpr) <$> fpr')) as Hin.
  { apply elem_of_np_argwhere. eauto. }
  destruct (np_argwhere ((λ f, feqb f chosen_fpr) <$> fpr')) as [|i rest] eqn:Hidx.
  { by apply elem_of_nil in Hin. }
  apply argwhere_from_head in Hidx as (i' & -> & Hi & Hbefore). simpl in *.
  rewrite list_lookup_fmap in Hi.
  destruct (fpr' !! i') as [f|] eqn:Hf; [|done]. injection Hi as Hi.
  destruct (tpr' !! i') as [w|] eqn:Hw.
  2:{ apply lookup_ge_None in Hw. apply lookup_lt_Some in Hf. lia. }
  exists i', w. repeat split.
  - by apply getitem_Ok.
  - done.
  - eauto.
  - intros j g Hj Hg. specialize (Hbefore j Hj).
    rewrite list_lookup_fmap, Hg in Hbefore. by injection Hbefore.
Qed.

Lemma compute_tpr_with_fpr_first_witness :
  ∃ i v,
    compute_tpr_with_fpr [false; true; false] [Fin (9#10); Fin (8#10); Fin (1#10)]
      (Fin (1#2)) = Ok v
    ∧ [Fin 0; Fin 0; Fin (1#1); Fin (1#1)] !! i = Some v
    ∧ (∃ f, [Fin (0#2); Fin (1#2); Fin (1#2); Fin (2#2)] !! i = Some f
            ∧ feqb f (Fin (1#2)) = true)
    ∧ ∀ j f, (j < i)%nat →
        [Fin (0#2); Fin (1#2); Fin (1#2); Fin (2#2)] !! j = Some f →
        feqb f (Fin (1#2)) = false.
Proof.
  apply (compute_tpr_with_fpr_first [false; true; false]
           [Fin (9#10); Fin (8#10); Fin (1#10)] (Fin (1#2))
           [Fin (0#2); Fin (1#2); Fin (1#2); Fin (2#2)]
           [Fin 0; Fin 0; Fin (1#1); Fin (1#1)]).
  - vm_compute. reflexivity.
  - vm_compute. reflexivity.
Defined.

(** ** The weighted AUC of a perfectly separated sample *)

(** C1 (amended): for the labels [[0]*50 + [1]*50] and scores equal to the
    labels, compute_Weighted_AUC returns exactly 1.0 with five equal
    weights; with the weights [[0,0,0,0,1]] it returns 0.9999999999999998,
    the binary64 number just below the 1 that exact arithmetic gives in
    both cases. *)
Theorem compute_Weighted_AUC_perfect :
  Binary64.compute_Weighted_AUC perfect_labels perfect_scores_binary64
    (replicate 5 1%float) = Ok 1%float
  ∧ Binary64.compute_Weighted_AUC perfect_labels perfect_scores_binary64
      [0; 0; 0; 0; 1]%float = Ok 0.9999999999999998%float
  ∧ (∃ q, compute_Weighted_AUC perfect_labels perfect_scores (replicate 5 (Fin 1))
          = Ok (Fin q) ∧ q == 1)
  ∧ (∃ q, compute_Weighted_AUC perfect_labels perfect_scores
            [Fin 0; Fin 0; Fin 0; Fin 0; Fin 1]
          = Ok (Fin q) ∧ q == 1).
Proof.
  split; [vm_compute; reflexivity|]. split; [vm_compute; reflexivity|].
  split; eexists; (split; [vm_compute; reflexivity|]); vm_compute; reflexivity.
Qed.

(** ** Sorting *)

Section stable_sort.
Context {A : Type} (leb : A → A → bool).

Lemma insert_sorted_Permutation (x : A) (l : list A) :
  insert_sorted leb x l ≡ₚ x :: l.
Proof.
  induction l as [|y l IH]; simpl; [done|].
  destruct (leb x y); [done|]. rewrite IH. apply Permutation_swap.
Qed.

Lemma stable_sort_Permutation (l : list A) : stable_sort leb l ≡ₚ l.
Proof.
  induction l as [|x l IH]; simpl; [done|].
  by rewrite insert_sorted_Permutation, IH.
Qed.

Hypothesis leb_total : ∀ a b, leb a b = true ∨ leb b a = true.

Lemma insert_sorted_Sorted (x : A) (l : list A) :
  Sorted (λ a b, leb a b = true) l →
  Sorted (λ a b, leb a b = true) (insert_sorted leb x l).
Proof.
  induction 1 as [|y l Hl IH Hhd]; simpl; [by repeat constructor|].
  destruct (leb x y) eqn:Hxy.
  - repeat constructor; done.
  - constructor; [done|].
    destruct Hhd as [|z l Hyz]; simpl.
    + constructor. by destruct (leb_total x y) as [?|?]; [congruence|].
    + destruct (leb x z); constructor; [|done].
      by destruct (leb_total x y) as [?|?]; [congruence|].
Qed.

Lemma stable_sort_Sorted (l : list A) :
  Sorted (λ a b, leb a b = true) (stable_sort leb l).
Proof.
  induction l as [|x l IH]; simpl; [constructor|]. by apply insert_sorted_Sorted.
Qed.

Hypothesis leb_trans : ∀ a b c, leb a b = true → leb b c = true → leb a c = true.

Lemma stable_sort_StronglySorted (l : list A) :
  StronglySorted (λ a b, leb a b = true) (stable_sort leb l).
Proof.
  apply Sorted.Sorted_StronglySorted; [|apply stable_sort_Sorted].
  intros a b c. apply leb_trans.
Qed.
End stable_sort.

Lemma StronglySorted_lookup_lt {A : Type} (R : relation A) (l : list A)
    (i j : nat) (x y : A) :
  StronglySorted R l → (i < j)%nat → l !! i = Some x → l !! j = Some y → R x y.
Proof.
  intros Hl. revert i j. induction Hl as [|z l Hl IH Hall]; intros i j Hij Hi Hj; [done|].
  destruct j as [|j]; [lia|]. simpl in Hj. destruct i as [|i]; simpl in Hi.
  - injection Hi as ->. rewrite Forall_forall in Hall. apply Hall.
    by eapply list_elem_of_lookup_2.
  - eapply (IH i j); [lia|done..].
Qed.

Lemma fst_imap_pair {B : Type} (a : list B) : (imap pair a).*1 = seq 0 (length a).
Proof.
  apply list_eq. intros i. rewrite list_lookup_fmap, list_lookup_imap.
  destruct (a !! i) as [v|] eqn:Hv; simpl.
  - symmetry. apply lookup_seq. split; [done|]. by eapply lookup_lt_Some.
  - symmetry. apply lookup_seq_ge. by apply lookup_ge_None.
Qed.

Lemma snd_imap_pair {B : Type} (a : list B) : (imap pair a).*2 = a.
Proof.
  apply list_eq. intros i. rewrite list_lookup_fmap, list_lookup_imap.
  by destruct (a !! i).
Qed.

Section argsort.
Context {B : Type} (leb : B → B → bool).
Hypothesis leb_total : ∀ a b, leb a b = true ∨ leb b a = true.
Hypothesis leb_trans : ∀ a b c, leb a b = true → leb b c = true → leb a c = true.

Lemma argsort_Permutation (a : list B) : argsort leb a ≡ₚ seq 0 (length a).
Proof.
  unfold argsort. rewrite stable_sort_Permutation. by rewrite fst_imap_pair.
Qed.

Lemma argsort_lookup (a : list B) (k i : nat) :
  argsort leb a !! k = Some i →
  ∃ v, stable_sort (by_snd leb) (imap pair a) !! k = Some (i, v) ∧ a !! i = Some v.
Proof.
  unfold argsort. rewrite list_lookup_fmap.
  destruct (stable_sort (by_snd leb) (imap pair a) !! k) as [[i' v]|] eqn:Hk; [|done].
  intros [= <-]. exists v. split; [done|].
  apply list_elem_of_lookup_2 in Hk. rewrite stable_sort_Permutation in Hk.
  apply elem_of_lookup_imap in Hk as (j & w & [= -> ->] & Hj). done.
Qed.

Lemma argsort_sorted (a : list B) (k1 k2 : nat) (p1 p2 : nat * B) :
  (k1 < k2)%nat →
  stable_sort (by_snd leb) (imap pair a) !! k1 = Some p1 →
  stable_sort (by_snd leb) (imap pair a) !! k2 = Some p2 →
  leb p1.2 p2.2 = true.
Proof.
  intros Hk H1 H2.
  eapply (StronglySorted_lookup_lt (λ p q, by_snd leb p q = true)); [|done..].
  apply stable_sort_StronglySorted.
  - intros p q. apply leb_total.
  - intros p q r. apply leb_trans.
Qed.
End argsort.

Lemma Nat_leb_total (a b : nat) : Nat.leb a b = true ∨ Nat.leb b a = true.
Proof. rewrite !Nat.leb_le. lia. Qed.

Lemma Nat_leb_trans (a b c : nat) :
  Nat.leb a b = true → Nat.leb b c = true → Nat.leb a c = true.
Proof. rewrite !Nat.leb_le. lia. Qed.

Lemma sort_leb_total (a b : float) : sort_leb a b = true ∨ sort_leb b a = true.
Proof.
  destruct a as [p|], b as [q|]; simpl; auto.
  rewrite !Qle_bool_iff. destruct (Qlt_le_dec p q); [left|right]; lra.
Qed.

Lemma sort_leb_trans (a b c : float) :
  sort_leb a b = true → sort_leb b c = true → sort_leb a c = true.
Proof.
  destruct a as [p|], b as [q|], c as [r|]; simpl; try done.
  rewrite !Qle_bool_iff. lra.
Qed.

Lemma StronglySorted_seq (j n : nat) : StronglySorted le (seq j n).
Proof.
  revert j. induction n as [|n IH]; intros j; simpl; constructor; [apply IH|].
  apply Forall_forall. intros x Hx%elem_of_seq. lia.
Qed.

(** Sorting the indices of a permutation of [0..n-1] by the values they
    point at yields the inverse permutation. *)
Lemma argsort_inverse (order : list nat) (i k : nat) :
  order ≡ₚ seq 0 (length order) →
  argsort Nat.leb order !! i = Some k → order !! k = Some i.
Proof.
  intros Hperm Hi.
  apply argsort_lookup in Hi as (w & Hi & Hk).
  set (sp := stable_sort (by_snd Nat.leb) (imap pair order)) in *.
  assert (sp.*2 = seq 0 (length order)) as Hsnd.
  { apply (StronglySorted_unique le).
    - apply (StronglySorted_fmap snd (λ p q, by_snd Nat.leb p q = true)).
      + intros p q Hpq. by apply Nat.leb_le.
      + apply stable_sort_StronglySorted.
        * intros p q. apply Nat_leb_total.
        * intros p q r. apply Nat_leb_trans.
    - apply StronglySorted_seq.
    - unfold sp. rewrite stable_sort_Permutation, snd_imap_pair. done. }
  assert (sp.*2 !! i = Some w) as Hw by (by rewrite list_lookup_fmap, Hi).
  rewrite Hsnd in Hw. apply lookup_seq in Hw as [-> _]. done.
Qed.

(** ** get_ranks *)

(** C5: on an array of [n] pairwise distinct finite values get_ranks returns
    [n] integers that are a permutation of [0..n-1], and two ranks are
    ordered exactly as the two scores they belong to. *)
Theorem get_ranks_permutation (scores : list Q) :
  (∀ i j p q, scores !! i = Some p → scores !! j = Some q → i ≠ j → ¬ p == q) →
  length (get_ranks (Fin <$> scores)) = length scores
  ∧ get_ranks (Fin <$> scores) ≡ₚ seq 0 (length scores)
  ∧ ∀ i j ri rj p q,
      get_ranks (Fin <$> scores) !! i = Some ri →
      get_ranks (Fin <$> scores) !! j = Some rj →
      scores !! i = Some p → scores !! j = Some q →
      ((ri < rj)%nat ↔ p < q).
Proof.
  intros Hdistinct. unfold get_ranks.
  set (a := Fin <$> scores).
  set (order := argsort sort_leb a).
  assert (order ≡ₚ seq 0 (length scores)) as Horder.
  { unfold order. rewrite argsort_Permutation. unfold a. by rewrite length_fmap. }
  assert (length order = length scores) as Hlen.
  { by rewrite Horder, length_seq. }
  assert (argsort Nat.leb order ≡ₚ seq 0 (length scores)) as Hranks.
  { by rewrite argsort_Permutation, Hlen. }
  split; [by rewrite Hranks, length_seq|]. split; [done|].
  assert (∀ i r p, argsort Nat.leb order !! i = Some r → scores !! i = Some p →
            stable_sort (by_snd sort_leb) (imap pair a) !! r = Some (i, Fin p)) as Hpos.
  { intros i r p Hr Hp. apply argsort_inverse in Hr; [|by rewrite Hlen].
    apply argsort_lookup in Hr as (v & Hr & Hv).
    unfold a in Hv. rewrite list_lookup_fmap, Hp in Hv. by injection Hv as <-. }
  assert (∀ i j ri rj p q,
            argsort Nat.leb order !! i = Some ri →
            argsort Nat.leb order !! j = Some rj →
            scores !! i = Some p → scores !! j = Some q →
            (ri < rj)%nat → p < q) as Hmono.
  { intros i j ri rj p q Hri Hrj Hp Hq Hlt.
    pose proof (Hpos _ _ _ Hri Hp) as Hsi. pose proof (Hpos _ _ _ Hrj Hq) as Hsj.
    pose proof (argsort_sorted sort_leb sort_leb_total sort_leb_trans a ri rj _ _ Hlt Hsi Hsj)
      as Hle.
    simpl in Hle. apply Qle_bool_iff in Hle.
    assert (i ≠ j) as Hij by (intros ->; rewrite Hri in Hrj; injection Hrj; lia).
    pose proof (Hdistinct i j p q Hp Hq Hij) as Hne.
    destruct (Qlt_le_dec p q) as [?|Hge]; [done|]. destruct Hne. lra. }
  intros i j ri rj p q Hri Hrj Hp Hq. split; [by eapply Hmono|].
  intros Hpq. destruct (Nat.lt_trichotomy ri rj) as [?|[->|Hgt]]; [done|..].
  - exfalso. pose proof (Hpos _ _ _ Hri Hp) as Hsi. pose proof (Hpos _ _ _ Hrj Hq) as Hsj.
    rewrite Hsi in Hsj. injection Hsj as -> Heq. rewrite Hp in Hq. injection Hq as ->. lra.
  - exfalso. pose proof (Hmono j i rj ri q p Hrj Hri Hq Hp Hgt). lra.
Qed.

Lemma get_ranks_permutation_witness :
  length (get_ranks (Fin <$> [3#1; 1#2; 2#1])) = 3%nat
  ∧ get_ranks (Fin <$> [3#1; 1#2; 2#1]) ≡ₚ seq 0 3
  ∧ ∀ i j ri rj p q,
      get_ranks (Fin <$> [3#1; 1#2; 2#1]) !! i = Some ri →
      get_ranks (Fin <$> [3#1; 1#2; 2#1]) !! j = Some rj →
      [3#1; 1#2; 2#1] !! i = Some p → [3#1; 1#2; 2#1] !! j = Some q →
      ((ri < rj)%nat ↔ p < q).
Proof.
  apply (get_ranks_permutation [3#1; 1#2; 2#1]).
  intros [|[|[|i]]] [|[|[|j]]] p q Hp Hq Hij; try done;
    injection Hp as <-; injection Hq as <-; vm_compute; discriminate.
Defined.

(** ** The ROC curve *)

Lemma np_sum_bool_cons (b : bool) (bs : list bool) :
  np_sum_bool (b :: bs) = ((if b then 1 else 0) + np_sum_bool bs)%nat.
Proof. unfold np_sum_bool. rewrite filter_cons. by destruct b. Qed.

Lemma np_sum_bool_Permutation (l k : list bool) :
  l ≡ₚ k → np_sum_bool l = np_sum_bool k.
Proof. intros H. unfold np_sum_bool. by rewrite H. Qed.

Lemma n_positive_cons (b : bool) (bs : list bool) :
  n_positive (b :: bs) = ((if b then 1 else 0) + n_positive bs)%Z.
Proof. unfold n_positive. rewrite np_sum_bool_cons. destruct b; lia. Qed.

Lemma n_negative_cons (b : bool) (bs : list bool) :
  n_negative (b :: bs) = ((if b then 0 else 1) + n_negative bs)%Z.
Proof.
  unfold n_negative. rewrite fmap_cons, np_sum_bool_cons. destruct b; simpl; lia.
Qed.

Lemma n_positive_nonneg (bs : list bool) : (0 ≤ n_positive bs)%Z.
Proof. unfold n_positive. lia. Qed.

Lemma n_negative_nonneg (bs : list bool) : (0 ≤ n_negative bs)%Z.
Proof. unfold n_negative. lia. Qed.

Lemma n_positive_pos (bs : list bool) : true ∈ bs → (0 < n_positive bs)%Z.
Proof.
  induction bs as [|b bs IH]; [by intros ?%elem_of_nil|].
  rewrite n_positive_cons. pose proof (n_positive_nonneg bs).
  intros [<-|Hin]%elem_of_cons; [lia|]. apply IH in Hin. destruct b; lia.
Qed.

Lemma n_negative_pos (bs : list bool) : false ∈ bs → (0 < n_negative bs)%Z.
Proof.
  induction bs as [|b bs IH]; [by intros ?%elem_of_nil|].
  rewrite n_negative_cons. pose proof (n_negative_nonneg bs).
  intros [<-|Hin]%elem_of_cons; [lia|]. apply IH in Hin. destruct b; lia.
Qed.

Lemma n_positive_zero (bs : list bool) :
  (∀ b, b ∈ bs → b = false) → n_positive bs = 0%Z.
Proof.
  induction bs as [|b bs IH]; intros Hall; [done|].
  rewrite n_positive_cons, IH by (intros; apply Hall; by right).
  by rewrite (Hall b) by left.
Qed.

Lemma binary_clf_curve_cons (fps tps : Z) (label : bool) (score : Q)
    (rest : list (bool * Q)) :
  binary_clf_curve fps tps ((label, score) :: rest)
  = let fps' := if label then fps else (fps + 1)%Z in
    let tps' := if label then (tps + 1)%Z else tps in
    match rest with
    | [] => [(fps', tps')]
    | (_, score') :: _ =>
        if Qeq_bool score score' then binary_clf_curve fps' tps' rest
        else (fps', tps') :: binary_clf_curve fps' tps' rest
    end.
Proof. done. Qed.

(** The recorded counts stay between the counts at the start and the counts
    of the whole sample, the true positives never decrease and the last point
    counts every sample. *)
Lemma binary_clf_curve_spec (samples : list (bool * Q)) (fps tps : Z) :
  Forall (in_box (fps, tps)
            ((fps + n_negative samples.*1)%Z, (tps + n_positive samples.*1)%Z))
         (binary_clf_curve fps tps samples)
  ∧ StronglySorted (λ p q, (p.2 ≤ q.2)%Z) (binary_clf_curve fps tps samples)
  ∧ (samples ≠ [] →
     last (binary_clf_curve fps tps samples)
     = Some ((fps + n_negative samples.*1)%Z, (tps + n_positive samples.*1)%Z)).
Proof.
  revert fps tps. induction samples as [|[label score] rest IH]; intros fps tps.
  { simpl. repeat split; [constructor..|done]. }
  rewrite binary_clf_curve_cons. cbn zeta.
  rewrite fmap_cons, n_positive_cons, n_negative_cons. cbn [fst].
  set (fps' := if label then fps else (fps + 1)%Z).
  set (tps' := if label then (tps + 1)%Z else tps).
  destruct (IH fps' tps') as (Hbox & Hsorted & Hlast).
  pose proof (n_positive_nonneg rest.*1) as Hp.
  pose proof (n_negative_nonneg rest.*1) as Hn.
  assert (Forall (in_box (fps, tps)
            ((fps + ((if label then 0 else 1) + n_negative rest.*1))%Z,
             (tps + ((if label then 1 else 0) + n_positive rest.*1))%Z))
            (binary_clf_curve fps' tps' rest)) as Hbox'.
  { eapply Forall_impl; [exact Hbox|]. intros [f t]. unfold in_box, fps', tps'. simpl.
    destruct label; lia. }
  assert (in_box (fps, tps)
            ((fps + ((if label then 0 else 1) + n_negative rest.*1))%Z,
             (tps + ((if label then 1 else 0) + n_positive rest.*1))%Z)
            (fps', tps')) as Hhere.
  { unfold in_box, fps', tps'. simpl. destruct label; lia. }
  assert (rest ≠ [] →
          last (binary_clf_curve fps' tps' rest)
          = Some ((fps + ((if label then 0 else 1) + n_negative rest.*1))%Z,
                  (tps + ((if label then 1 else 0) + n_positive rest.*1))%Z)) as Hlast'.
  { intros Hne. rewrite (Hlast Hne). unfold fps', tps'. f_equal. f_equal; destruct label; lia. }
  destruct rest as [|[label' score'] rest'] eqn:Hrest.
  { split; [constructor; [exact Hhere|constructor]|].
    split; [repeat constructor|].
    intros _. simpl. unfold fps', tps', n_negative, n_positive, np_sum_bool. simpl.
    f_equal. f_equal; destruct label; lia. }
  rewrite <- Hrest in *.
  assert (rest ≠ []) as Hne by (by rewrite Hrest).
  destruct (Qeq_bool score score').
  - repeat split; auto.
  - repeat split.
    + by constructor.
    + constructor; [done|]. eapply Forall_impl; [exact Hbox|].
      intros [f t] [_ Ht]. simpl in *. lia.
    + intros _. rewrite last_cons, (Hlast' Hne). done.
Qed.

Lemma drop_collinear_sublist (prev : Z * Z) (pts : list (Z * Z)) :
  drop_collinear prev pts `sublist_of` pts.
Proof.
  revert prev. induction pts as [|cur rest IH]; intros prev; simpl; [done|].
  destruct rest as [|next rest']; [done|].
  destruct (second_diff_nonzero prev cur next).
  - by apply sublist_skip.
  - by apply sublist_cons.
Qed.

Lemma drop_collinear_last (prev : Z * Z) (pts : list (Z * Z)) :
  last (drop_collinear prev pts) = last pts.
Proof.
  revert prev. induction pts as [|cur rest IH]; intros prev; simpl; [done|].
  destruct rest as [|next rest']; [done|].
  destruct (second_diff_nonzero prev cur next).
  - by rewrite !(last_cons cur), IH.
  - rewrite IH. by rewrite last_cons_cons.
Qed.

Lemma drop_intermediate_sublist (pts : list (Z * Z)) :
  drop_intermediate pts `sublist_of` pts.
Proof.
  unfold drop_intermediate. destruct pts as [|first rest]; [done|].
  case_decide; [|done]. apply sublist_skip, drop_collinear_sublist.
Qed.

Lemma drop_intermediate_last (pts : list (Z * Z)) :
  last (drop_intermediate pts) = last pts.
Proof.
  unfold drop_intermediate. destruct pts as [|first rest]; [done|].
  case_decide; [|done]. by rewrite !(last_cons first), drop_collinear_last.
Qed.

Lemma StronglySorted_sublist {A : Type} (R : relation A) (l k : list A) :
  l `sublist_of` k → StronglySorted R k → StronglySorted R l.
Proof.
  induction 1 as [|x l k Hsub IH|x l k Hsub IH]; intros Hk; [done|..].
  - apply StronglySorted_inv in Hk as [Hk Hall]. constructor; [by apply IH|].
    rewrite Forall_forall in *. intros y Hy. apply Hall. by eapply elem_of_sublist.
  - apply StronglySorted_inv in Hk as [Hk _]. by apply IH.
Qed.

Lemma Forall_sublist {A : Type} (P : A → Prop) (l k : list A) :
  l `sublist_of` k → Forall P k → Forall P l.
Proof.
  intros Hsub. rewrite !Forall_forall. intros Hk x Hx. apply Hk.
  by eapply elem_of_sublist.
Qed.

Lemma all_scores_Fin (scores : list Q) : all_scores (Fin <$> scores) = Some scores.
Proof.
  unfold all_scores. apply mapM_Some. induction scores; simpl; constructor; done.
Qed.

Lemma rates_pos (counts : list Z) (total : Z) :
  last counts = Some total → (0 < total)%Z →
  rates counts = (λ c, Fin (inject_Z c / inject_Z total)) <$> counts.
Proof.
  intros Hlast Hpos. unfold rates. rewrite Hlast.
  destruct (total <=? 0)%Z eqn:E; [lia|]. apply list_fmap_ext. intros _ c _. simpl.
  destruct (Qeq_bool (inject_Z total) 0) eqn:E'; [|done].
  apply Qeq_bool_iff in E'. unfold Qeq, inject_Z in E'. simpl in E'. lia.
Qed.

Lemma rates_nonpos (counts : list Z) (total : Z) :
  last counts = Some total → (total ≤ 0)%Z → rates counts = (λ _, NaN) <$> counts.
Proof.
  intros Hlast Hpos. unfold rates. rewrite Hlast.
  destruct (total <=? 0)%Z eqn:E; [done|lia].
Qed.

(** The curve of counts behind a successful call of roc_curve: it starts at
    the origin, ends at the class totals, stays between them and its true
    positive counts never decrease. *)
Lemma roc_curve_Ok_inv (y_true : list bool) (y_score fpr tpr : list float) :
  roc_curve y_true y_score = Ok (fpr, tpr) →
  ∃ curve,
    fpr = rates curve.*1 ∧ tpr = rates curve.*2
    ∧ head curve = Some (0, 0)%Z
    ∧ last curve = Some (n_negative y_true, n_positive y_true)
    ∧ Forall (in_box (0, 0)%Z (n_negative y_true, n_positive y_true)) curve
    ∧ StronglySorted (λ p q, (p.2 ≤ q.2)%Z) curve.
Proof.
  unfold roc_curve. intros H.
  destruct (decide (length y_true ≠ length y_score)) as [|Hlen]; [done|].
  apply dec_stable in Hlen.
  destruct (all_scores y_score) as [scores|] eqn:Hscores; [|done].
  apply length_mapM in Hscores.
  set (desc := reverse (stable_sort (by_snd Qle_bool) (zip y_true scores))) in *.
  assert (desc.*1 ≡ₚ y_true) as Hperm.
  { unfold desc. rewrite reverse_Permutation, stable_sort_Permutation.
    rewrite fst_zip by lia. done. }
  destruct (binary_clf_curve_spec desc 0 0) as (Hbox & Hsorted & Hlast).
  assert (n_negative desc.*1 = n_negative y_true) as Hn.
  { unfold n_negative. f_equal. apply np_sum_bool_Permutation. by rewrite Hperm. }
  assert (n_positive desc.*1 = n_positive y_true) as Hp.
  { unfold n_positive. f_equal. by apply np_sum_bool_Permutation. }
  rewrite Hn, Hp, !Z.add_0_l in *.
  destruct (decide (binary_clf_curve 0 0 desc = [])) as [|Hne]; [done|].
  assert (desc ≠ []) as Hdesc by (intros E; by rewrite E in Hne).
  specialize (Hlast Hdesc).
  set (c1 := drop_intermediate (binary_clf_curve 0 0 desc)) in *.
  assert (last c1 = Some (n_negative y_true, n_positive y_true)) as Hlast1.
  { unfold c1. by rewrite drop_intermediate_last. }
  assert (Forall (in_box (0, 0)%Z (n_negative y_true, n_positive y_true)) c1) as Hbox1.
  { eapply Forall_sublist; [apply drop_intermediate_sublist|done]. }
  assert (StronglySorted (λ p q, (p.2 ≤ q.2)%Z) c1) as Hsorted1.
  { eapply StronglySorted_sublist; [apply drop_intermediate_sublist|done]. }
  pose proof (n_negative_nonneg y_true). pose proof (n_positive_nonneg y_true).
  assert (∀ c2, c2 = c1 ∧ head c1 = Some (0, 0)%Z ∨ c2 = (0, 0)%Z :: c1 →
            head c2 = Some (0, 0)%Z
            ∧ last c2 = Some (n_negative y_true, n_positive y_true)
            ∧ Forall (in_box (0, 0)%Z (n_negative y_true, n_positive y_true)) c2
            ∧ StronglySorted (λ p q, (p.2 ≤ q.2)%Z) c2) as Hc2.
  { intros c2 [[-> Hhd]| ->]; [done|]. repeat split.
    - rewrite last_cons, Hlast1. done.
    - constructor; [|done]. unfold in_box. simpl. lia.
    - constructor; [done|]. eapply Forall_impl; [exact Hbox1|].
      intros [f t] [_ Ht]. simpl in *. lia. }
  eexists. split; [|split; [|apply Hc2]].
  - by injection H as <- _.
  - by injection H as _ <-.
  - destruct c1 as [|[[|?|?] [|?|?]] ?]; auto.
Qed.

Lemma roc_curve_defined (y_true : list bool) (scores : list Q) :
  length y_true = length scores → y_true ≠ [] →
  ∃ fpr tpr, roc_curve y_true (Fin <$> scores) = Ok (fpr, tpr).
Proof.
  intros Hlen Hne. unfold roc_curve.
  rewrite decide_False by (rewrite length_fmap; intros ?; done).
  rewrite all_scores_Fin.
  set (desc := reverse (stable_sort (by_snd Qle_bool) (zip y_true scores))).
  assert (desc ≠ []) as Hdesc.
  { intros E. apply (f_equal length) in E. unfold desc in E.
    rewrite length_reverse, stable_sort_Permutation, length_zip in E.
    rewrite <- Hlen, Nat.min_id in E. by destruct y_true. }
  destruct (binary_clf_curve_spec desc 0 0) as (_ & _ & Hlast).
  specialize (Hlast Hdesc).
  rewrite decide_False; [eauto|]. intros E. by rewrite E in Hlast.
Qed.

(** ** Single-class labels *)

Lemma interpolation_step_all_NaN (x y : list float) (t : float) :
  Forall (λ v, v = NaN) y → ∃ e, interpolation_step (x, y) t = Raise e.
Proof.
  intros Hy. rewrite Forall_forall in Hy.
  pose proof (interpolation_step_spec x y t) as Hs.
  destruct (interpolation_step (x, y) t) as [[x' y']|e]; [exfalso|eauto].
  destruct Hs as [((v & Hv & E) & _)|(_ & p & yp & _ & _ & _ & [(a & Ha & Hlt) _] & _)].
  - rewrite (Hy v Hv) in E. done.
  - apply list_elem_of_lookup_2 in Ha. rewrite (Hy a Ha) in Hlt. done.
Qed.

Lemma np_sum_bool_all_NaN (y : list float) (high : float) :
  Forall (λ v, v = NaN) y → np_sum_bool ((λ t, fleb t high) <$> y) = 0%nat.
Proof.
  induction 1 as [|v y -> _ IH]; [done|]. rewrite fmap_cons, np_sum_bool_cons, IH. done.
Qed.

Lemma py_slice_to_0 {A : Type} (a : list A) (lo : Z) : py_slice a lo 0 = [].
Proof.
  unfold py_slice, slice_bound. simpl.
  replace (Z.to_nat (0 `min` Z.of_nat (length a))) with 0%nat by lia. done.
Qed.

Lemma area_step_all_NaN (fpr tpr ths area_array : list float) (i : nat) :
  Forall (λ v, v = NaN) tpr →
  ∃ e, area_step fpr tpr ths (0%Z, area_array) i = Raise e.
Proof.
  intros Htpr. unfold area_step.
  destruct (getitem ths (i + 1)) as [high|e]; simpl; [|eauto].
  rewrite np_sum_bool_all_NaN by done.
  change (Z.of_nat 0 - 1 + 1)%Z with 0%Z. rewrite (py_slice_to_0 tpr).
  simpl. eauto.
Qed.

(** The claim C8 fails on labels without negatives: no exception is raised
    and the score is [NaN]. *)
Lemma compute_Weighted_AUC_no_negative_NaN :
  compute_Weighted_AUC [true] [Fin (1#2)] default_weight_distribution = Ok NaN
  ∧ ¬ ∃ e, compute_Weighted_AUC [true] [Fin (1#2)] default_weight_distribution = Raise e.
Proof.
  assert (compute_Weighted_AUC [true] [Fin (1#2)] default_weight_distribution = Ok NaN)
    as H by (vm_compute; reflexivity).
  split; [done|]. intros [e He]. rewrite H in He. done.
Qed.

(** C8, as amended: compute_Weighted_AUC has no check of the class counts.
    On labels without positives and a non-empty [weight_distribution] it
    fails all the same, with the exception raised by the interpolation or
    by the indexing of the all-[NaN] TPR array. *)
Theorem compute_Weighted_AUC_no_positive (y_true : list bool)
    (y_score weight_distribution : list float) :
  weight_distribution ≠ [] →
  (∀ b, b ∈ y_true → b = false) →
  ∃ e, compute_Weighted_AUC y_true y_score weight_distribution = Raise e.
Proof.
  intros Hw Hneg. unfold compute_Weighted_AUC.
  destruct (np_linspace 0 1 (Z.of_nat (length weight_distribution) + 1)) as [ths|e];
    simpl; [|eauto].
  destruct (roc_curve y_true y_score) as [[fpr tpr]|e] eqn:Hroc; simpl; [|eauto].
  apply roc_curve_Ok_inv in Hroc as (curve & _ & -> & _ & Hlast & _ & _).
  assert (Forall (λ v, v = NaN) (rates curve.*2)) as Hnan.
  { rewrite (rates_nonpos curve.*2 (n_positive y_true)).
    - apply Forall_fmap, Forall_true. done.
    - by rewrite fmap_last, Hlast.
    - by rewrite n_positive_zero. }
  destruct (py_slice (Fin <$> ths) 1 (-1)) as [|t T].
  - simpl. destruct weight_distribution as [|w0 ws]; [done|]. cbn [length seq for_each].
    destruct (area_step_all_NaN fpr (rates curve.*2) (Fin <$> ths)
                (replicate (S (length ws)) (Fin 0)) 0 Hnan) as [e ->].
    simpl. eauto.
  - rewrite perform_interpolation_cons.
    destruct (interpolation_step_all_NaN fpr (rates curve.*2) t Hnan) as [e ->].
    simpl. eauto.
Qed.

Lemma compute_Weighted_AUC_no_positive_witness :
  ∃ e, compute_Weighted_AUC [false; false] [Fin (1#2); Fin (1#3)]
         default_weight_distribution = Raise e.
Proof.
  apply (compute_Weighted_AUC_no_positive [false; false] [Fin (1#2); Fin (1#3)]
           default_weight_distribution).
  - discriminate.
  - intros b Hb. repeat (apply elem_of_cons in Hb as [->|Hb]; [reflexivity|]).
    by apply elem_of_nil in Hb.
Defined.

(** ** Ranks of separated classes *)

(** A list of booleans in which no [true] comes before a [false] is a block
    of [false] followed by a block of [true]. *)
Lemma bools_monotone_split (L : list bool) :
  (∀ k1 k2, (k1 < k2)%nat → L !! k1 = Some true → L !! k2 = Some false → False) →
  ∀ k b, L !! k = Some b → b = bool_decide (np_sum_bool (negb <$> L) ≤ k)%nat.
Proof.
  induction L as [|b0 L IH]; intros Hmono k b Hk; [done|].
  rewrite fmap_cons, np_sum_bool_cons.
  assert (∀ k1 k2, (k1 < k2)%nat → L !! k1 = Some true → L !! k2 = Some false → False)
    as Hmono'.
  { intros k1 k2 Hlt H1 H2. apply (Hmono (S k1) (S k2)); [lia|done..]. }
  specialize (IH Hmono').
  destruct b0; simpl.
  - assert (∀ j c, L !! j = Some c → c = true) as Hall.
    { intros j [] Hj; [done|]. destruct (Hmono 0%nat (S j)); [lia|done..]. }
    assert (np_sum_bool (negb <$> L) = 0%nat) as ->.
    { clear -Hall. induction L as [|c L IH]; [done|].
      rewrite fmap_cons, np_sum_bool_cons, IH.
      - by rewrite (Hall 0%nat c).
      - intros j d Hj. by apply (Hall (S j)). }
    rewrite bool_decide_eq_true_2 by lia.
    destruct k as [|k]; simpl in Hk; [by injection Hk|]. by eapply Hall.
  - destruct k as [|k]; simpl in Hk.
    + injection Hk as <-. by rewrite bool_decide_eq_false_2 by lia.
    + rewrite (IH k b Hk). apply bool_decide_ext. lia.
Qed.

Lemma argsort_Fin_lookup (scores : list Q) (k i : nat) (v : float) :
  stable_sort (by_snd sort_leb) (imap pair (Fin <$> scores)) !! k = Some (i, v) →
  ∃ p, v = Fin p ∧ scores !! i = Some p.
Proof.
  intros Hk. apply list_elem_of_lookup_2 in Hk. rewrite stable_sort_Permutation in Hk.
  apply elem_of_lookup_imap in Hk as (j & w & [= -> ->] & Hj).
  rewrite list_lookup_fmap in Hj. destruct (scores !! j) as [p|]; [|done].
  injection Hj as <-. eauto.
Qed.

(** When every negative sample scores strictly below every positive one, the
    negatives receive the ranks below the number of negatives and the
    positives the ranks from there on, ties or not. *)
Lemma get_ranks_separable (y_true : list bool) (scores : list Q) (i r : nat) (b : bool) :
  length y_true = length scores →
  (∀ i j p q, y_true !! i = Some false → y_true !! j = Some true →
              scores !! i = Some p → scores !! j = Some q → p < q) →
  get_ranks (Fin <$> scores) !! i = Some r →
  y_true !! i = Some b →
  b = bool_decide (np_sum_bool (negb <$> y_true) ≤ r)%nat.
Proof.
  intros Hlen Hsep Hr Hb. unfold get_ranks in Hr.
  set (a := Fin <$> scores) in *.
  set (sp := stable_sort (by_snd sort_leb) (imap pair a)).
  set (L := (λ p : nat * float, default false (y_true !! p.1)) <$> sp).
  assert (L ≡ₚ y_true) as HL.
  { unfold L, sp. rewrite stable_sort_Permutation.
    assert ((λ p : nat * float, default false (y_true !! p.1)) <$> imap pair a = y_true)
      as ->; [|done].
    apply list_eq. intros j. rewrite list_lookup_fmap, list_lookup_imap.
    unfold a. rewrite list_lookup_fmap.
    destruct (scores !! j) as [p|] eqn:Hp; simpl.
    - destruct (y_true !! j) as [c|] eqn:Hc; [done|].
      apply lookup_ge_None in Hc. apply lookup_lt_Some in Hp. lia.
    - symmetry. apply lookup_ge_None. apply lookup_ge_None in Hp. lia. }
  assert (∀ k c, L !! k = Some c →
            ∃ j p, sp !! k = Some (j, Fin p) ∧ scores !! j = Some p
                   ∧ y_true !! j = Some c) as Hsp.
  { intros k c Hk. unfold L in Hk. rewrite list_lookup_fmap in Hk.
    destruct (sp !! k) as [[j v]|] eqn:Hj; [|done]. simpl in Hk.
    destruct (argsort_Fin_lookup scores k j v Hj) as (p & -> & Hp).
    exists j, p. repeat split; [done|].
    destruct (y_true !! j) as [c'|] eqn:Hc; [simpl in Hk; congruence|].
    apply lookup_ge_None in Hc. apply lookup_lt_Some in Hp. lia. }
  assert (∀ k1 k2, (k1 < k2)%nat → L !! k1 = Some true → L !! k2 = Some false → False)
    as Hmono.
  { intros k1 k2 Hlt H1 H2.
    apply Hsp in H1 as (j1 & p1 & Hs1 & Hp1 & Hc1).
    apply Hsp in H2 as (j2 & p2 & Hs2 & Hp2 & Hc2).
    pose proof (argsort_sorted sort_leb sort_leb_total sort_leb_trans a k1 k2 _ _ Hlt Hs1 Hs2)
      as Hle.
    simpl in Hle. apply Qle_bool_iff in Hle.
    pose proof (Hsep j2 j1 p2 p1 Hc2 Hc1 Hp2 Hp1). lra. }
  assert (argsort sort_leb a ≡ₚ seq 0 (length (argsort sort_leb a))) as Hperm.
  { rewrite argsort_Permutation at 1. by rewrite argsort_Permutation, length_seq. }
  apply argsort_inverse in Hr; [|done].
  apply argsort_lookup in Hr as (v & Hr & _). fold sp in Hr.
  assert (L !! r = Some b) as HLr.
  { unfold L. by rewrite list_lookup_fmap, Hr; simpl; rewrite Hb. }
  rewrite (bools_monotone_split L Hmono r b HLr).
  apply bool_decide_ext. by rewrite (np_sum_bool_Permutation _ _ (fmap_Permutation negb _ _ HL)).
Qed.

(** ** The Matthews coefficient *)

Lemma confusion_matrix_cons (a b : bool) (y_true y_pred : list bool) (t p : bool) :
  confusion_matrix (a :: y_true) (b :: y_pred) t p
  = ((if bool_decide (a = t) && bool_decide (b = p) then 1 else 0)
     + confusion_matrix y_true y_pred t p)%Z.
Proof.
  unfold confusion_matrix. simpl. rewrite np_sum_bool_cons.
  destruct (bool_decide (a = t) && bool_decide (b = p)); lia.
Qed.

Lemma confusion_matrix_nonneg (y_true y_pred : list bool) (t p : bool) :
  (0 ≤ confusion_matrix y_true y_pred t p)%Z.
Proof. unfold confusion_matrix. lia. Qed.

Lemma confusion_matrix_self (y : list bool) :
  confusion_matrix y y true true = n_positive y
  ∧ confusion_matrix y y false false = n_negative y
  ∧ confusion_matrix y y true false = 0%Z
  ∧ confusion_matrix y y false true = 0%Z.
Proof.
  induction y as [|b y (IH1 & IH2 & IH3 & IH4)]; [done|].
  rewrite !confusion_matrix_cons, n_positive_cons, n_negative_cons, IH1, IH2, IH3, IH4.
  by destruct b.
Qed.

Lemma cauchy_schwarz_counts (a b c d : Z) :
  (0 ≤ a)%Z → (0 ≤ b)%Z → (0 ≤ c)%Z → (0 ≤ d)%Z →
  ((a * d - b * c) * (a * d - b * c) ≤ (d + b) * (c + a) * ((d + c) * (b + a)))%Z.
Proof.
  intros Ha Hb Hc Hd.
  assert (0 ≤ a * b)%Z by lia. assert (0 ≤ a * c)%Z by lia.
  assert (0 ≤ a * d)%Z by lia. assert (0 ≤ b * c)%Z by lia.
  assert (0 ≤ b * d)%Z by lia. assert (0 ≤ c * d)%Z by lia.
  assert (0 ≤ a * a)%Z by nia. assert (0 ≤ d * d)%Z by nia.
  replace ((d + b) * (c + a) * ((d + c) * (b + a)))%Z
    with ((a * d - b * c) * (a * d - b * c)
          + ((d * d) * (b * c) + (d * d) * (a * c) + (d * d) * (a * b)
             + (c * d) * (b * c) + (c * d) * (a * c) + (c * d) * (a * a)
             + (b * d) * (b * c) + (b * d) * (a * b) + (b * d) * (a * a)
             + (b * c) * (a * c) + (b * c) * (a * b) + (b * c) * (a * a)
             + 4 * ((a * d) * (b * c))))%Z by ring.
  assert (∀ x y, 0 ≤ x → 0 ≤ y → 0 ≤ x * y)%Z as Hmul by (intros; lia).
  pose proof (Hmul (d * d) (b * c))%Z. pose proof (Hmul (d * d) (a * c))%Z.
  pose proof (Hmul (d * d) (a * b))%Z. pose proof (Hmul (c * d) (b * c))%Z.
  pose proof (Hmul (c * d) (a * c))%Z. pose proof (Hmul (c * d) (a * a))%Z.
  pose proof (Hmul (b * d) (b * c))%Z. pose proof (Hmul (b * d) (a * b))%Z.
  pose proof (Hmul (b * d) (a * a))%Z. pose proof (Hmul (b * c) (a * c))%Z.
  pose proof (Hmul (b * c) (a * b))%Z. pose proof (Hmul (b * c) (a * a))%Z.
  pose proof (Hmul (a * d) (b * c))%Z. lia.
Qed.

Lemma matthews_corrcoef_valid (y_true y_pred : list bool) (v : sqrt_ratio) :
  matthews_corrcoef y_true y_pred = Ok v → sr_valid v.
Proof.
  unfold matthews_corrcoef. destruct (decide _); [done|].
  pose proof (confusion_matrix_nonneg y_true y_pred true true) as Ha.
  pose proof (confusion_matrix_nonneg y_true y_pred false true) as Hb.
  pose proof (confusion_matrix_nonneg y_true y_pred true false) as Hc.
  pose proof (confusion_matrix_nonneg y_true y_pred false false) as Hd.
  set (a := confusion_matrix y_true y_pred true true) in *.
  set (b := confusion_matrix y_true y_pred false true) in *.
  set (c := confusion_matrix y_true y_pred true false) in *.
  set (d := confusion_matrix y_true y_pred false false) in *.
  cbn zeta.
  match goal with |- context [(?x * ?y =? 0)%Z] =>
    replace x with (2 * ((d + b) * (c + a)))%Z by ring;
    replace y with (2 * ((d + c) * (b + a)))%Z by ring end.
  match goal with |- context [SqrtRatio ?x _] =>
    replace x with (2 * (a * d - b * c))%Z by ring end.
  pose proof (cauchy_schwarz_counts a b c d Ha Hb Hc Hd) as Hcs.
  assert (0 ≤ (d + b) * (c + a))%Z by nia. assert (0 ≤ (d + c) * (b + a))%Z by nia.
  destruct (_ =? 0)%Z eqn:E; intros [= <-]; unfold sr_valid; simpl; [lia|].
  apply Z.eqb_neq in E. split; nia.
Qed.

Lemma matthews_corrcoef_Ok (y_true y_pred : list bool) :
  length y_true = length y_pred → ∃ v, matthews_corrcoef y_true y_pred = Ok v.
Proof.
  intros Hlen. unfold matthews_corrcoef. rewrite decide_False by (by intros ?).
  cbn zeta. destruct (_ =? 0)%Z; eauto.
Qed.

Lemma matthews_corrcoef_self (y : list bool) :
  true ∈ y → false ∈ y →
  ∃ v, matthews_corrcoef y y = Ok v ∧ sr_is_one v = true.
Proof.
  intros Hp%n_positive_pos Hn%n_negative_pos. unfold matthews_corrcoef.
  rewrite decide_False by (by intros ?). cbn zeta.
  destruct (confusion_matrix_self y) as (-> & -> & -> & ->).
  set (P := n_positive y) in *. set (N := n_negative y) in *.
  match goal with |- context [(?x * ?y =? 0)%Z] =>
    replace x with (2 * (N * P))%Z by ring;
    replace y with (2 * (N * P))%Z by ring end.
  match goal with |- context [SqrtRatio ?x _] =>
    replace x with (2 * (N * P))%Z by ring end.
  assert (0 < N * P)%Z by nia.
  destruct (_ =? 0)%Z eqn:E; [apply Z.eqb_eq in E; nia|].
  eexists. split; [done|]. unfold sr_is_one. simpl.
  apply andb_true_iff. split; [apply Z.ltb_lt; lia|apply Z.eqb_eq; ring].
Qed.

(** The maximum of valid coefficients, one of which is 1, is 1. *)
Lemma sr_max_one (m v : sqrt_ratio) :
  sr_valid m → sr_valid v →
  sr_is_one m = true ∨ sr_is_one v = true →
  sr_is_one (if sr_leb m v then v else m) = true.
Proof.
  unfold sr_valid, sr_is_one, sr_leb. destruct m as [mn mr], v as [vn vr]. simpl.
  intros [Hmr Hm] [Hvr Hv] Hone.
  rewrite !andb_true_iff, !Z.ltb_lt, !Z.eqb_eq in Hone.
  assert (∀ xn xr yn yr : Z,
            0 < xr → 0 < xn → xn * xn = xr → 0 < yr → yn * yn ≤ yr →
            xr * yr ≤ Z.sgn yn * (yn * yn) * xr → 0 < yn ∧ yn * yn = yr)%Z as Hup.
  { intros xn xr yn yr Hxr Hxn Hx Hyr Hy Hle.
    rewrite (Z.mul_comm xr yr) in Hle. apply Z.mul_le_mono_pos_r in Hle; [|done].
    destruct (Z.sgn_spec yn) as [[? Hs]|[[? Hs]|[? Hs]]]; rewrite Hs in Hle; nia. }
  destruct (_ <=? _)%Z eqn:E.
  - apply Z.leb_le in E. rewrite andb_true_iff, Z.ltb_lt, Z.eqb_eq.
    destruct Hone as [[Hpos Heq]|Hone]; [|done].
    rewrite (Z.sgn_pos mn) in E by done. rewrite Heq, Z.mul_1_l in E.
    by apply (Hup mn mr).
  - apply Z.leb_gt in E. rewrite andb_true_iff, Z.ltb_lt, Z.eqb_eq.
    destruct Hone as [Hone|[Hpos Heq]]; [done|].
    exfalso. rewrite (Z.sgn_pos vn) in E by done. rewrite Heq, Z.mul_1_l in E.
    assert (Z.sgn mn * (mn * mn) ≤ mr)%Z as Hsgn.
    { destruct (Z.sgn_spec mn) as [[? Hs]|[[? Hs]|[? Hs]]]; rewrite Hs; nia. }
    assert (Z.sgn mn * (mn * mn) * vr ≤ mr * vr)%Z; [|lia].
    apply Z.mul_le_mono_nonneg_r; lia.
Qed.

Lemma sr_leb_one (m v : sqrt_ratio) :
  sr_valid m → sr_is_one v = true → sr_leb m v = true.
Proof.
  unfold sr_valid, sr_is_one, sr_leb. destruct m as [mn mr], v as [vn vr]. simpl.
  intros [Hmr Hm]. rewrite andb_true_iff, Z.ltb_lt, Z.eqb_eq. intros [Hpos Heq].
  apply Z.leb_le. rewrite (Z.sgn_pos vn) by done. rewrite Heq, Z.mul_1_l.
  rewrite (Z.mul_comm vr mr). apply Z.mul_le_mono_nonneg_r; [lia|].
  destruct (Z.sgn_spec mn) as [[? Hs]|[[? Hs]|[? Hs]]]; rewrite Hs; nia.
Qed.

Lemma np_max_sr_elem (l : list sqrt_ratio) (m : sqrt_ratio) :
  np_max_sr l = Ok m → m ∈ l.
Proof.
  destruct l as [|a l]; [done|]. simpl. intros [= <-].
  revert a. induction l as [|b l IH]; intros a; simpl; [left|].
  specialize (IH (if sr_leb a b then b else a)).
  apply elem_of_cons in IH as [->|IH]; [|by do 2 right].
  destruct (sr_leb a b); [right; left|left].
Qed.

Lemma np_max_sr_one (l : list sqrt_ratio) :
  Forall sr_valid l → (∃ v, v ∈ l ∧ sr_is_one v = true) →
  ∃ m, np_max_sr l = Ok m ∧ sr_is_one m = true.
Proof.
  intros Hvalid (v & Hv & Hone). destruct l as [|a l]; [by apply elem_of_nil in Hv|].
  simpl. eexists. split; [done|].
  apply Forall_cons in Hvalid as [Ha Hl].
  assert (sr_is_one a = true ∨ ∃ v, v ∈ l ∧ sr_is_one v = true) as Hcase.
  { apply elem_of_cons in Hv as [->|Hv]; eauto. }
  clear v Hv Hone. revert a Ha Hcase.
  induction Hl as [|b l Hb Hl IH]; intros a Ha Hcase; simpl.
  - destruct Hcase as [?|(v & Hv & _)]; [done|by apply elem_of_nil in Hv].
  - apply IH.
    + destruct (sr_leb a b); done.
    + destruct Hcase as [Hone|(v & Hv & Hone)].
      * left. apply sr_max_one; auto.
      * apply elem_of_cons in Hv as [->|Hv]; [|eauto].
        left. apply sr_max_one; auto.
Qed.

(** ** The threshold grid of compute_MCC *)

(** With [n] ranks and at least [n + 2] thresholds the grid step is at most
    1, so a threshold falls in every interval [[N - 1, N)]. *)
Lemma np_linspace_grid (n N num : Z) :
  (1 ≤ N)%Z → (N + 1 ≤ n)%Z → (n + 2 ≤ num)%Z →
  ∃ ths t, np_linspace (inject_Z 0 - 1) (inject_Z (n - 1) + 1) num = Ok ths
           ∧ t ∈ ths ∧ inject_Z N - 1 <= t ∧ t < inject_Z N.
Proof.
  intros HN HNn Hnum. unfold np_linspace.
  destruct (num <? 0)%Z eqn:Hneg; [lia|].
  destruct (Z.to_nat num) as [|[|d']] eqn:E; [lia|lia|].
  set (d := Z.of_nat (S d')).
  assert (d = num - 1)%Z as Hd by lia.
  set (I := ((N * d + n) / (n + 1))%Z).
  assert (N * d ≤ I * (n + 1) ∧ I * (n + 1) < (N + 1) * d)%Z as [HI1 HI2].
  { pose proof (Z.div_mod (N * d + n) (n + 1)) as Hdm.
    pose proof (Z.mod_pos_bound (N * d + n) (n + 1)) as Hmod.
    fold I in Hdm. nia. }
  assert (0 ≤ I < d)%Z as HI by nia.
  eexists _, (inject_Z (Z.of_nat (Z.to_nat I)) * _ + _). split; [done|]. split.
  { apply elem_of_app. left. apply list_elem_of_fmap. exists (Z.to_nat I).
    split; [done|]. apply elem_of_seq. lia. }
  rewrite Z2Nat.id by lia. fold d.
  assert (0 < inject_Z d) as HD.
  { change 0 with (inject_Z 0). rewrite <- Zlt_Qlt. lia. }
  assert (inject_Z N * inject_Z d <= inject_Z I * (inject_Z n + 1)) as HA.
  { change 1 with (inject_Z 1). rewrite <- inject_Z_plus, <- !inject_Z_mult, <- Zle_Qle. lia. }
  assert (inject_Z I * (inject_Z n + 1) < (inject_Z N + 1) * inject_Z d) as HB.
  { change 1 with (inject_Z 1). rewrite <- !inject_Z_plus, <- !inject_Z_mult, <- Zlt_Qlt. lia. }
  assert (inject_Z (n - 1) == inject_Z n - 1) as Hn1.
  { unfold Z.sub. rewrite inject_Z_plus. reflexivity. }
  set (x := inject_Z I) in *. set (nn := inject_Z n) in *. set (NN := inject_Z N) in *.
  set (D := inject_Z d) in *.
  assert (x * ((inject_Z (n - 1) + 1 - (inject_Z 0 - 1)) / D) + (inject_Z 0 - 1)
          == (x * (nn + 1) - D) / D) as ->.
  { rewrite Hn1. change (inject_Z 0) with 0. field. lra. }
  split.
  - apply Qle_shift_div_l; [done|]. nra.
  - apply Qlt_shift_div_r; [done|]. nra.
Qed.

Lemma foldl_Zmax_spec (l : list Z) (a : Z) :
  foldl Z.max a l ∈ a :: l ∧ ∀ x, x ∈ a :: l → (x ≤ foldl Z.max a l)%Z.
Proof.
  revert a. induction l as [|b l IH]; intros a; simpl.
  - split; [left | intros x ->%list_elem_of_singleton; done].
  - destruct (IH (a `max` b)%Z) as [Hin Hle]. split.
    + apply elem_of_cons in Hin as [Heq|Hin]; [|by do 2 right].
      rewrite Heq. destruct (Z.max_dec a b) as [->| ->]; [left | right; left].
    + intros x Hx. pose proof (Hle (a `max` b)%Z (list_elem_of_here _ _)).
      apply elem_of_cons in Hx as [->|Hx]; [lia|].
      apply elem_of_cons in Hx as [->|Hx]; [lia|]. apply Hle. by right.
Qed.

Lemma foldl_Zmin_spec (l : list Z) (a : Z) :
  foldl Z.min a l ∈ a :: l ∧ ∀ x, x ∈ a :: l → (foldl Z.min a l ≤ x)%Z.
Proof.
  revert a. induction l as [|b l IH]; intros a; simpl.
  - split; [left | intros x ->%list_elem_of_singleton; done].
  - destruct (IH (a `min` b)%Z) as [Hin Hle]. split.
    + apply elem_of_cons in Hin as [Heq|Hin]; [|by do 2 right].
      rewrite Heq. destruct (Z.min_dec a b) as [->| ->]; [left | right; left].
    + intros x Hx. pose proof (Hle (a `min` b)%Z (list_elem_of_here _ _)).
      apply elem_of_cons in Hx as [->|Hx]; [lia|].
      apply elem_of_cons in Hx as [->|Hx]; [lia|]. apply Hle. by right.
Qed.

Lemma ranks_min_max (ranks : list nat) (n : nat) :
  ranks ≡ₚ seq 0 (S n) →
  np_min_int (Z.of_nat <$> ranks) = Ok 0%Z
  ∧ np_max_int (Z.of_nat <$> ranks) = Ok (Z.of_nat n).
Proof.
  intros Hperm.
  assert (∀ z, z ∈ Z.of_nat <$> ranks → (0 ≤ z ≤ Z.of_nat n)%Z) as Hrange.
  { intros z (k & -> & Hk)%list_elem_of_fmap. rewrite Hperm in Hk.
    apply elem_of_seq in Hk. lia. }
  assert (0%Z ∈ Z.of_nat <$> ranks) as H0.
  { apply list_elem_of_fmap. exists 0%nat. split; [done|]. rewrite Hperm.
    apply elem_of_seq. lia. }
  assert (Z.of_nat n ∈ Z.of_nat <$> ranks) as Hn.
  { apply list_elem_of_fmap. exists n. split; [done|]. rewrite Hperm.
    apply elem_of_seq. lia. }
  destruct (Z.of_nat <$> ranks) as [|a l]; [by apply elem_of_nil in H0|]. simpl.
  destruct (foldl_Zmin_spec l a) as [Hmin1 Hmin2].
  destruct (foldl_Zmax_spec l a) as [Hmax1 Hmax2].
  apply Hrange in Hmin1, Hmax1. apply Hmin2 in H0. apply Hmax2 in Hn.
  split; f_equal; lia.
Qed.

Lemma get_ranks_perm_seq (a : list float) : get_ranks a ≡ₚ seq 0 (length a).
Proof.
  unfold get_ranks. rewrite argsort_Permutation.
  by rewrite (Permutation_length (argsort_Permutation sort_leb a)), length_seq.
Qed.

Lemma mcc_loop (y_true : list bool) (ranks : list Z) (ths : list Q)
    (acc : list sqrt_ratio) :
  length y_true = length ranks →
  ∃ l, for_each (mcc_step y_true ranks) acc ths = Ok (acc ++ l)
       ∧ Forall2 (λ t v, matthews_corrcoef y_true
                           ((λ r : Z, Qlt_bool t (inject_Z r)) <$> ranks) = Ok v)
                 ths l.
Proof.
  intros Hlen. revert acc. induction ths as [|t ths IH]; intros acc.
  { exists []. by rewrite app_nil_r. }
  cbn [for_each].
  destruct (matthews_corrcoef_Ok y_true ((λ r : Z, Qlt_bool t (inject_Z r)) <$> ranks))
    as [v Hv]; [by rewrite length_fmap|].
  assert (mcc_step y_true ranks acc t = Ok (acc ++ [v])) as ->.
  { unfold mcc_step. by rewrite Hv. }
  simpl. destruct (IH (acc ++ [v])) as (l & -> & Hl).
  exists (v :: l). split; [by rewrite <- app_assoc|]. by constructor.
Qed.

Lemma n_positive_negative_length (y : list bool) :
  (n_positive y + n_negative y)%Z = Z.of_nat (length y).
Proof.
  induction y as [|b y IH]; [done|].
  rewrite n_positive_cons, n_negative_cons. simpl length. destruct b; lia.
Qed.

(** ** compute_MCC on separated classes *)

(** The claim C6 fails for a sample longer than the default grid resolves:
    with 250 negatives below 250 positives and 500 thresholds no threshold
    falls between the ranks 249 and 250, and the maximum is below 1. *)
Lemma compute_MCC_coarse_grid :
  (∀ i j p q, long_labels !! i = Some false → long_labels !! j = Some true →
              long_scores !! i = Some (Fin p) → long_scores !! j = Some (Fin q) → p < q)
  ∧ ∃ v, compute_MCC long_labels long_scores default_threshold_num = Ok v
         ∧ sr_is_one v = false.
Proof.
  split.
  - intros i j p q. unfold long_labels, long_scores. rewrite !list_lookup_fmap.
    destruct (seq 0 500 !! i) as [i'|] eqn:Hi; [|done].
    destruct (seq 0 500 !! j) as [j'|] eqn:Hj; [|done].
    apply lookup_seq in Hi as [-> _]. apply lookup_seq in Hj as [-> _]. simpl.
    intros [= Hi] [= Hj] [= <-] [= <-].
    apply bool_decide_eq_false in Hi. apply bool_decide_eq_true in Hj.
    rewrite <- Zlt_Qlt. lia.
  - exists (SqrtRatio 124500 15624750000). split; vm_compute; reflexivity.
Qed.

(** With a single class every prediction has an undefined coefficient,
    reported as 0: the maximum is 0. *)
Lemma compute_MCC_single_class :
  compute_MCC [true; true] [Fin 0; Fin 1] default_threshold_num = Ok (SqrtRatio 0 1).
Proof. vm_compute. reflexivity. Qed.

(** C6, as amended: compute_MCC evaluates the coefficient of the prediction
    [ranks > threshold] at the [threshold_num] evenly spaced thresholds from
    [min(rank) - 1] to [max(rank) + 1] and returns the maximum; when both
    classes are present, every positive scores strictly above every negative
    and the grid has at least [len(y_true) + 2] thresholds (a step of at
    most 1), that maximum is exactly 1. *)
Theorem compute_MCC_separable (y_true : list bool) (scores : list Q) (threshold_num : Z) :
  length y_true = length scores →
  true ∈ y_true → false ∈ y_true →
  (∀ i j p q, y_true !! i = Some false → y_true !! j = Some true →
              scores !! i = Some p → scores !! j = Some q → p < q) →
  (Z.of_nat (length y_true) + 2 ≤ threshold_num)%Z →
  ∃ thresholds mccs v,
    np_linspace (inject_Z 0 - 1) (inject_Z (Z.of_nat (length y_true) - 1) + 1)
      threshold_num = Ok thresholds
    ∧ Forall2 (λ t m, matthews_corrcoef y_true
                        ((λ r : Z, Qlt_bool t (inject_Z r))
                           <$> (Z.of_nat <$> get_ranks (Fin <$> scores))) = Ok m)
              thresholds mccs
    ∧ compute_MCC y_true (Fin <$> scores) threshold_num = Ok v
    ∧ v ∈ mccs ∧ (∀ m, m ∈ mccs → sr_leb m v = true)
    ∧ sr_is_one v = true.
Proof.
  intros Hlen Hpos Hneg Hsep Hnum. unfold compute_MCC.
  set (a := Fin <$> scores).
  pose proof (get_ranks_perm_seq a) as Hperm.
  assert (length (get_ranks a) = length y_true) as Hrlen.
  { rewrite Hperm, length_seq. unfold a. by rewrite length_fmap. }
  pose proof (n_positive_pos _ Hpos) as HP. pose proof (n_negative_pos _ Hneg) as HN.
  pose proof (n_positive_negative_length y_true) as Hsum.
  destruct (length y_true) as [|n] eqn:Hn; [lia|].
  assert (length a = S n) as Ha by (unfold a; rewrite length_fmap; lia).
  rewrite Ha in Hperm.
  destruct (ranks_min_max _ n Hperm) as [-> ->]. simpl.
  destruct (np_linspace_grid (Z.of_nat (S n)) (n_negative y_true) threshold_num)
    as (ths & t & Hths & Ht & Hlo & Hhi); [lia..|].
  rewrite Hths.
  replace (Z.of_nat (S n) - 1)%Z with (Z.of_nat n) in Hths by lia.
  rewrite Hths. simpl.
  destruct (mcc_loop y_true (Z.of_nat <$> get_ranks a) ths []) as (l & -> & Hl).
  { rewrite length_fmap. lia. }
  simpl.
  assert (Forall sr_valid l) as Hvalid.
  { apply Forall_forall. intros v Hv. apply list_elem_of_lookup in Hv as [k Hk].
    destruct (Forall2_lookup_r _ _ _ _ _ Hl Hk) as (t' & _ & Hmcc).
    by eapply matthews_corrcoef_valid. }
  destruct (np_max_sr_one l Hvalid) as (v & Hv & Hone).
  - apply list_elem_of_lookup in Ht as [k Hk].
    destruct (Forall2_lookup_l _ _ _ _ _ Hl Hk) as (v & Hv & Hmcc).
    exists v. split; [by eapply list_elem_of_lookup_2|].
    assert ((λ r : Z, Qlt_bool t (inject_Z r)) <$> (Z.of_nat <$> get_ranks a) = y_true)
      as Hpred.
    { apply list_eq. intros i. rewrite !list_lookup_fmap.
      destruct (get_ranks a !! i) as [r|] eqn:Hr; simpl.
      - destruct (y_true !! i) as [b|] eqn:Hb.
        2:{ apply lookup_ge_None in Hb. apply lookup_lt_Some in Hr. lia. }
        f_equal. rewrite (get_ranks_separable y_true scores i r b); try done; [|lia].
        unfold n_negative in Hlo, Hhi.
        set (Nn := np_sum_bool (negb <$> y_true)) in *.
        destruct (decide (Nn ≤ r)%nat) as [Hle|Hgt].
        + rewrite bool_decide_eq_true_2 by done. apply Qlt_bool_iff.
          eapply Qlt_le_trans; [exact Hhi|]. rewrite <- Zle_Qle. lia.
        + rewrite bool_decide_eq_false_2 by done.
          apply not_true_iff_false. rewrite Qlt_bool_iff. apply Qle_not_lt.
          eapply Qle_trans; [|exact Hlo].
          assert (inject_Z (Z.of_nat Nn) - 1 == inject_Z (Z.of_nat Nn - 1)) as ->.
          { unfold Z.sub. rewrite inject_Z_plus. reflexivity. }
          rewrite <- Zle_Qle. lia.
      - symmetry. apply lookup_ge_None. apply lookup_ge_None in Hr. lia. }
    rewrite Hpred in Hmcc.
    destruct (matthews_corrcoef_self y_true Hpos Hneg) as (v' & Hv' & Hone).
    congruence.
  - exists ths, l, v. repeat split; try done.
    + by apply np_max_sr_elem.
    + intros m Hm. apply sr_leb_one; [|done]. rewrite Forall_forall in Hvalid. auto.
Qed.

Lemma compute_MCC_separable_witness :
  ∃ thresholds mccs v,
    np_linspace (inject_Z 0 - 1) (inject_Z (Z.of_nat 3 - 1) + 1)
      default_threshold_num = Ok thresholds
    ∧ Forall2 (λ t m, matthews_corrcoef [false; true; true]
                        ((λ r : Z, Qlt_bool t (inject_Z r))
                           <$> (Z.of_nat <$> get_ranks (Fin <$> [0; 1; 1]))) = Ok m)
              thresholds mccs
    ∧ compute_MCC [false; true; true] (Fin <$> [0; 1; 1]) default_threshold_num = Ok v
    ∧ v ∈ mccs ∧ (∀ m, m ∈ mccs → sr_leb m v = true)
    ∧ sr_is_one v = true.
Proof.
  apply (compute_MCC_separable [false; true; true] [0; 1; 1] default_threshold_num).
  - reflexivity.
  - right. left.
  - left.
  - intros [|[|[|i]]] [|[|[|j]]] p q Hi Hj Hp Hq; try done;
      injection Hp as <-; injection Hq as <-; reflexivity.
  - vm_compute. discriminate.
Defined.

(** ** Well-formed curves *)

Lemma ratio_unit (c total : Z) :
  (0 ≤ c ≤ total)%Z → (0 < total)%Z → 0 <= inject_Z c / inject_Z total <= 1.
Proof.
  intros Hc Ht.
  assert (0 < inject_Z total) as HT.
  { change 0 with (inject_Z 0). rewrite <- Zlt_Qlt. lia. }
  split.
  - apply Qle_shift_div_l; [done|]. rewrite Qmult_0_l.
    change 0 with (inject_Z 0). rewrite <- Zle_Qle. lia.
  - apply Qle_shift_div_r; [done|]. rewrite Qmult_1_l. rewrite <- Zle_Qle. lia.
Qed.

Lemma ratio_mono (c c' total : Z) :
  (c ≤ c')%Z → (0 < total)%Z → inject_Z c / inject_Z total <= inject_Z c' / inject_Z total.
Proof.
  intros Hc Ht.
  assert (0 < inject_Z total) as HT.
  { change 0 with (inject_Z 0). rewrite <- Zlt_Qlt. lia. }
  apply Qmult_le_compat_r.
  - rewrite <- Zle_Qle. lia.
  - apply Qlt_le_weak, Qinv_lt_0_compat. done.
Qed.

Lemma roc_curve_ok (y_true : list bool) (scores : list Q) :
  length y_true = length scores → true ∈ y_true → false ∈ y_true →
  ∃ fpr tpr, roc_curve y_true (Fin <$> scores) = Ok (fpr, tpr) ∧ curve_ok fpr tpr.
Proof.
  intros Hlen Hpos Hneg.
  destruct (roc_curve_defined y_true scores Hlen) as (fpr & tpr & Hroc).
  { intros ->. by apply elem_of_nil in Hpos. }
  exists fpr, tpr. split; [done|].
  apply roc_curve_Ok_inv in Hroc as (curve & -> & -> & Hhead & Hlast & Hbox & Hsorted).
  apply n_positive_pos in Hpos. apply n_negative_pos in Hneg.
  rewrite (rates_pos curve.*1 (n_negative y_true)) by (by rewrite ?fmap_last, ?Hlast).
  rewrite (rates_pos curve.*2 (n_positive y_true)) by (by rewrite ?fmap_last, ?Hlast).
  split; [by rewrite !length_fmap|]. split; [|split; [|split]].
  - intros i a b. rewrite !list_lookup_fmap.
    destruct (curve !! i) as [p|] eqn:Hp; [|done].
    destruct (curve !! S i) as [q|] eqn:Hq; [|done]. simpl. intros [= <-] [= <-].
    apply Qle_bool_iff, ratio_mono; [|done].
    by apply (StronglySorted_lookup_lt _ curve i (S i) p q Hsorted); [lia|..].
  - rewrite Forall_fmap, Forall_fmap. eapply Forall_impl; [exact Hbox|].
    intros [f t] [Hf _]. simpl in *. eexists. split; [done|]. apply ratio_unit; lia.
  - destruct curve as [|p curve]; [done|]. injection Hhead as ->. simpl.
    eexists. split; [done|]. unfold Qdiv. apply Qmult_0_l.
  - rewrite !fmap_last, Hlast. simpl. eexists. split; [done|].
    apply Qmult_inv_r. intros E. unfold Qeq in E. simpl in E. lia.
Qed.

Lemma linear_interpolation_unit (t yp yf xp xf : Q) :
  yp < t → t < yf → 0 <= xp <= 1 → 0 <= xf <= 1 →
  unit_interval (linear_interpolation (Fin t) (Fin yp) (Fin yf) (Fin xp) (Fin xf)).
Proof.
  intros H1 H2 Hxp Hxf. unfold linear_interpolation. simpl.
  destruct (Qeq_bool (yf - yp) 0) eqn:E.
  { apply Qeq_bool_iff in E. lra. }
  eexists. split; [done|].
  assert (0 < yf - yp) as Hd by lra.
  split.
  - apply Qle_minus_iff.
    assert ((t - yp) * (xf - xp) / (yf - yp) + xp + - 0
            == ((t - yp) * xf + (yf - t) * xp) / (yf - yp)) as -> by (field; lra).
    apply Qle_shift_div_l; [done|]. nra.
  - apply Qle_minus_iff.
    assert (1 + - ((t - yp) * (xf - xp) / (yf - yp) + xp)
            == ((t - yp) * (1 - xf) + (yf - t) * (1 - xp)) / (yf - yp)) as ->
      by (field; lra).
    apply Qle_shift_div_l; [done|]. nra.
Qed.

Lemma last_insert_at {A : Type} (l : list A) (n : nat) (v : A) :
  (n < length l)%nat → last (take n l ++ v :: drop n l) = last l.
Proof.
  intros Hn. rewrite last_app, last_cons.
  assert (last (drop n l) = last l) as ->.
  { rewrite <- (take_drop n l) at 2. rewrite last_app.
    destruct (last (drop n l)) eqn:E; [done|].
    apply last_None in E. apply (f_equal length) in E. rewrite length_drop in E.
    simpl in E. lia. }
  destruct (last l) eqn:E; [done|]. apply last_None in E. subst. simpl in Hn. lia.
Qed.

Lemma interpolation_step_curve_ok (fpr tpr : list float) (q : Q) :
  curve_ok fpr tpr → 0 < q → q < 1 →
  ∃ fpr' tpr', interpolation_step (fpr, tpr) (Fin q) = Ok (fpr', tpr')
               ∧ curve_ok fpr' tpr'.
Proof.
  intros (Hlen & Hsorted & Hunit & (q0 & Hq0 & Hq0') & (q1 & Hq1 & Hq1')) Hlo Hhi.
  destruct (present_dec (Fin q) tpr) as [Hp|Hnp].
  { exists fpr, tpr. split; [by apply interpolation_step_present|].
    repeat split; eauto. }
  destruct (interpolation_step_bracket fpr tpr (Fin q) Hlen Hsorted Hnp)
    as (p & yp & yf & xp & xf & Hyp & Hyf & Hxp & Hxf & Hlt & Hgt & _ & Hstep).
  { exists (Fin q0), (Fin q1). repeat split.
    - by eapply list_elem_of_lookup_2.
    - by apply last_Some_elem_of.
    - apply Qlt_bool_iff. lra.
    - apply Qlt_bool_iff. lra. }
  eexists _, _. split; [exact Hstep|].
  assert (S p < length tpr)%nat as HSp by (by eapply lookup_lt_Some).
  split; [|split; [|split; [|split]]].
  - rewrite !length_app; simpl. rewrite !length_take, !length_drop. lia.
  - eapply non_decreasing_insert; eauto using fltb_fleb.
  - apply Forall_app. split; [by apply Forall_take|]. constructor; [|by apply Forall_drop].
    apply fltb_true in Hlt as (ypq & ? & -> & [= <-] & Hlt).
    apply fltb_true in Hgt as (? & yfq & [= <-] & -> & Hgt).
    rewrite Forall_forall in Hunit.
    destruct (Hunit xp) as (xpq & -> & ?); [by eapply list_elem_of_lookup_2|].
    destruct (Hunit xf) as (xfq & -> & ?); [by eapply list_elem_of_lookup_2|].
    by apply linear_interpolation_unit.
  - exists q0. split; [|done]. rewrite lookup_insert_at by lia.
    rewrite decide_True by lia. done.
  - exists q1. split; [|done]. rewrite last_insert_at by done. done.
Qed.

Lemma perform_interpolation_curve_ok (T : list Q) (fpr tpr : list float) :
  curve_ok fpr tpr → Forall (λ q, 0 < q ∧ q < 1) T →
  ∃ fpr' tpr', perform_interpolation fpr tpr (Fin <$> T) = Ok (fpr', tpr')
               ∧ curve_ok fpr' tpr'.
Proof.
  intros Hok HT. revert fpr tpr Hok.
  induction HT as [|q T [Hlo Hhi] _ IH]; intros fpr tpr Hok.
  { exists fpr, tpr. done. }
  rewrite fmap_cons, perform_interpolation_cons.
  destruct (interpolation_step_curve_ok fpr tpr q Hok Hlo Hhi) as (f1 & t1 & -> & Hok1).
  simpl. by apply IH.
Qed.

(** ** Sums and areas *)

Lemma foldl_fadd_Fin (ts : list Q) (a : Q) :
  ∃ s, foldl fadd (Fin a) (Fin <$> ts) = Fin s ∧ s == a + Qsum ts.
Proof.
  revert a. induction ts as [|t ts IH]; intros a.
  - exists a. split; [done|]. simpl. lra.
  - rewrite fmap_cons. cbn [foldl]. change (fadd (Fin a) (Fin t)) with (Fin (a + t)).
    destruct (IH (a + t)) as (s & -> & Hs). exists s. split; [done|]. simpl. lra.
Qed.

Lemma np_sum_Fin (ts : list Q) : ∃ s, np_sum (Fin <$> ts) = Fin s ∧ s == Qsum ts.
Proof.
  destruct (foldl_fadd_Fin ts 0) as (s & Hs & Heq). exists s. split; [done|]. lra.
Qed.

Lemma lex_leb_total (p q : float * float) : lex_leb p q = true ∨ lex_leb q p = true.
Proof.
  unfold lex_leb. destruct (sort_leb_total p.1 q.1) as [H|H];
    destruct (sort_leb_total p.2 q.2) as [H'|H']; rewrite ?H, ?H';
    destruct (sort_leb q.1 p.1) eqn:E1; destruct (sort_leb p.1 q.1) eqn:E2; auto.
Qed.

(** The terms of the trapezoidal rule on points sorted by abscissa, with
    abscissas in [[0, 1]] and ordinates in [[0, c]]. *)
Lemma trapz_terms_bound (c : Q) (pts : list (float * float)) :
  0 <= c →
  Forall (λ p, unit_interval p.1 ∧ bounded_by c p.2) pts →
  Sorted (λ p q, lex_leb p q = true) pts →
  ∃ ts, trapz_terms pts = Fin <$> ts ∧ 0 <= Qsum ts
        ∧ ∀ x0 y0, head pts = Some (Fin x0, y0) → Qsum ts <= c * (1 - x0).
Proof.
  intros Hc Hpts Hsorted. induction Hsorted as [|p0 rest Hrest IH Hhd].
  { exists []. repeat split; [done|]. intros ?? [=]. }
  apply Forall_cons in Hpts as [[(x0 & Hx0 & Hx0') (y0 & Hy0 & Hy0')] Hpts].
  destruct p0 as [px py]. simpl in Hx0, Hy0. subst px py.
  destruct rest as [|p1 rest'].
  { exists []. repeat split; [done|]. simpl. intros ?? [= <- <-]. nra. }
  destruct (IH Hpts) as (ts & Hts & Hnonneg & Hbound).
  apply Forall_cons in Hpts as [[(x1 & Hx1 & Hx1') (y1 & Hy1 & Hy1')] _].
  destruct p1 as [px py]. simpl in Hx1, Hy1. subst px py.
  apply HdRel_inv in Hhd. unfold lex_leb in Hhd. simpl in Hhd.
  assert (x0 <= x1) as Hle.
  { destruct (Qle_bool x0 x1) eqn:E; [by apply Qle_bool_iff|done]. }
  specialize (Hbound x1 (Fin y1) eq_refl).
  exists ((x1 - x0) * (y1 + y0) / 2 :: ts). split; [|split].
  - change (trapz_terms ((Fin x0, Fin y0) :: (Fin x1, Fin y1) :: rest'))
      with (fdiv (fmul (fsub (Fin x1) (Fin x0)) (fadd (Fin y1) (Fin y0))) (Fin 2)
            :: trapz_terms ((Fin x1, Fin y1) :: rest')).
    rewrite Hts. done.
  - simpl. assert (0 <= (x1 - x0) * (y1 + y0) / 2); [|lra].
    apply Qle_shift_div_l; [lra|]. nra.
  - simpl. intros ?? [= <- <-].
    assert ((x1 - x0) * (y1 + y0) / 2 <= c * (x1 - x0)); [|lra].
    apply Qle_shift_div_r; [lra|]. nra.
Qed.

Lemma Forall_zip_pts (c : Q) (xs ys : list float) :
  Forall unit_interval xs → Forall (bounded_by c) ys →
  Forall (λ p, unit_interval p.1 ∧ bounded_by c p.2) (zip xs ys).
Proof.
  intros Hxs. revert ys. induction Hxs as [|x xs Hx Hxs IH]; intros ys Hys; [constructor|].
  destruct Hys as [|y ys Hy Hys]; [constructor|]. simpl. constructor; [done|]. by apply IH.
Qed.

(** The area under a curve with abscissas in [[0, 1]] and ordinates in
    [[0, c]] lies in [[0, c]]. *)
Lemma auc_reorder_bound (c : Q) (xs ys : list float) :
  0 <= c → length xs = length ys → (2 ≤ length xs)%nat →
  Forall unit_interval xs → Forall (bounded_by c) ys →
  ∃ area, auc_reorder xs ys = Ok area ∧ bounded_by c area.
Proof.
  intros Hc Hlen H2 Hxs Hys. unfold auc_reorder.
  rewrite decide_False by (by intros ?). rewrite decide_False by lia.
  eexists. split; [done|]. unfold np_trapz.
  set (pts := stable_sort lex_leb (zip xs ys)).
  assert (Forall (λ p, unit_interval p.1 ∧ bounded_by c p.2) pts) as Hpts.
  { unfold pts. rewrite stable_sort_Permutation. by apply Forall_zip_pts. }
  destruct (trapz_terms_bound c pts Hc Hpts) as (ts & -> & Hnonneg & Hbound).
  { apply stable_sort_Sorted, lex_leb_total. }
  destruct (np_sum_Fin ts) as (s & -> & Hs). exists s. split; [done|].
  rewrite Hs. split; [done|].
  assert (length pts = length xs) as Hlpts.
  { unfold pts. rewrite stable_sort_Permutation, length_zip. lia. }
  destruct pts as [|[px py] pts']; [simpl in Hlpts; lia|].
  apply Forall_cons in Hpts as [[(x0 & Hx0 & Hx0') _] _]. simpl in Hx0. subst px.
  specialize (Hbound x0 py eq_refl). nra.
Qed.

(** ** Counting the points of a band *)

Lemma non_decreasing_tail (a : float) (y : list float) :
  non_decreasing (a :: y) → non_decreasing y.
Proof. intros H i u v Hu Hv. by apply (H (S i) u v). Qed.

Lemma np_sum_bool_all_false {A : Type} (f : A → bool) (l : list A) :
  (∀ v, v ∈ l → f v = false) → np_sum_bool (f <$> l) = 0%nat.
Proof.
  intros H. destruct (np_sum_bool (f <$> l)) eqn:E; [done|].
  assert (0 < np_sum_bool (f <$> l))%nat as Hpos by lia.
  apply np_sum_bool_pos in Hpos as (v & Hv & Hf). rewrite (H v Hv) in Hf. done.
Qed.

Lemma np_sum_bool_le_length (bs : list bool) : (np_sum_bool bs ≤ length bs)%nat.
Proof. unfold np_sum_bool. apply length_filter. Qed.

(** In a non-decreasing array the elements at most [h] are exactly the
    first [np.sum(y <= h)] ones. *)
Lemma count_le_prefix (y : list float) (h : float) (i : nat) (v : float) :
  non_decreasing y → y !! i = Some v →
  fleb v h = true ↔ (i < np_sum_bool ((λ t, fleb t h) <$> y))%nat.
Proof.
  intros Hy. revert i. induction y as [|a y IH]; intros i Hi; [done|].
  rewrite fmap_cons, np_sum_bool_cons.
  pose proof (non_decreasing_tail a y Hy) as Hy'.
  destruct (fleb a h) eqn:Ha.
  - destruct i as [|i]; simpl in Hi.
    + injection Hi as <-. split; [lia|done].
    + rewrite (IH Hy' i Hi). lia.
  - rewrite np_sum_bool_all_false.
    + split; [|lia]. intros Hv. exfalso.
      destruct i as [|i]; simpl in Hi; [injection Hi as <-; congruence|].
      assert (fleb a v = true) as Hav.
      { eapply (non_decreasing_lt (a :: y) 0 (S i)); [done|lia|done..]. }
      rewrite (fleb_trans a v h Hav Hv) in Ha. done.
    + intros u Hu. destruct (fleb u h) eqn:Hu'; [|done].
      apply list_elem_of_lookup in Hu as [j Hj].
      assert (fleb a u = true) as Hau.
      { eapply (non_decreasing_lt (a :: y) 0 (S j)); [done|lia|done..]. }
      rewrite (fleb_trans a u h Hau Hu') in Ha. done.
Qed.

(** ** One band of the weighted AUC *)

Lemma py_slice_nat {A : Type} (a : list A) (lo hi : nat) :
  (lo ≤ hi)%nat → (hi ≤ length a)%nat →
  py_slice a (Z.of_nat lo) (Z.of_nat hi) = take (hi - lo) (drop lo a).
Proof.
  intros Hlo Hhi. unfold py_slice, slice_bound.
  destruct (Z.of_nat lo <? 0)%Z eqn:E1; [lia|].
  destruct (Z.of_nat hi <? 0)%Z eqn:E2; [lia|].
  replace (Z.to_nat (Z.of_nat lo `min` Z.of_nat (length a))) with lo by lia.
  replace (Z.to_nat (Z.of_nat hi `min` Z.of_nat (length a))) with hi by lia.
  done.
Qed.

Lemma bind_Ok_eq {A B : Type} (m : res A) (a : A) (f : A → res B) :
  m = Ok a → m ≫= f = f a.
Proof. by intros ->. Qed.

Lemma area_step_ok (c : Q) (fpr tpr ths areas : list float) (k lo : nat) (bk bk1 : Q) :
  0 <= c → curve_ok fpr tpr →
  ths !! (k + 1)%nat = Some (Fin bk1) →
  (∃ v, tpr !! lo = Some (Fin v) ∧ v == bk) →
  bk <= bk1 → bk1 - bk <= c →
  present (Fin bk1) tpr →
  ∃ hi area,
    area_step fpr tpr ths (Z.of_nat lo, areas) k = Ok (Z.of_nat hi, <[k := area]> areas)
    ∧ bounded_by c area
    ∧ ∃ v, tpr !! hi = Some (Fin v) ∧ v == bk1.
Proof.
  intros Hc (Hlen & Hsorted & Hunit & _ & _) Hth (v0 & Hlo & Hv0) Hle Hdiff Hpres.
  unfold area_step.
  rewrite (bind_Ok_eq _ _ _ (proj2 (getitem_Ok _ _ _) Hth)).
  set (cnt := np_sum_bool ((λ t, fleb t (Fin bk1)) <$> tpr)).
  assert (lo < cnt)%nat as Hlocnt.
  { apply (count_le_prefix tpr (Fin bk1) lo (Fin v0) Hsorted Hlo).
    apply Qle_bool_iff. lra. }
  assert (cnt ≤ length tpr)%nat as Hcnt.
  { unfold cnt. etrans; [apply np_sum_bool_le_length|]. by rewrite length_fmap. }
  replace (Z.of_nat cnt - 1 + 1)%Z with (Z.of_nat cnt) by lia.
  rewrite !py_slice_nat by lia.
  set (sel_t := take (cnt - lo) (drop lo tpr)).
  set (sel_f := take (cnt - lo) (drop lo fpr)).
  assert (∀ j u, sel_t !! j = Some u →
            ∃ uq, u = Fin uq ∧ v0 <= uq ∧ uq <= bk1) as Hsel.
  { intros j u Hj. unfold sel_t in Hj. apply lookup_take_Some in Hj as [Hj Hjlt].
    rewrite lookup_drop in Hj.
    assert (fleb u (Fin bk1) = true) as Hu.
    { apply (count_le_prefix tpr (Fin bk1) (lo + j) u Hsorted Hj). lia. }
    apply fleb_true in Hu as (uq & ? & -> & [= <-] & Hu). exists uq. repeat split; [|done].
    destruct j as [|j].
    - rewrite Nat.add_0_r, Hlo in Hj. injection Hj as ->. lra.
    - assert (fleb (Fin v0) (Fin uq) = true) as Hvu.
      { eapply (non_decreasing_lt tpr lo (lo + S j)); [done|lia|done..]. }
      by apply Qle_bool_iff in Hvu. }
  assert (sel_t !! 0%nat = Some (Fin v0)) as Hfirst.
  { unfold sel_t. rewrite lookup_take_lt by lia. by rewrite lookup_drop, Nat.add_0_r. }
  rewrite (bind_Ok_eq _ _ _ (proj2 (getitem_Ok _ _ _) Hfirst)).
  set (local := (λ t, fsub t (Fin v0)) <$> sel_t).
  assert (Forall (bounded_by c) local) as Hlocal.
  { unfold local. apply Forall_fmap, Forall_lookup. intros j u Hj.
    destruct (Hsel j u Hj) as (uq & -> & H1 & H2). simpl.
    eexists. split; [done|]. lra. }
  assert (local !! 0%nat = Some (fsub (Fin v0) (Fin v0))) as Hl0.
  { unfold local. by rewrite list_lookup_fmap, Hfirst. }
  rewrite (bind_Ok_eq _ _ _ (proj2 (getitem_Ok _ _ _) Hl0)).
  destruct (last local) as [t_last|] eqn:Hlast.
  2:{ apply last_None in Hlast. by rewrite Hlast in Hl0. }
  unfold getitem_last. rewrite Hlast. cbn [mbind res_bind].
  destruct (auc_reorder_bound c ([Fin 0] ++ sel_f ++ [Fin 1])
              ([fsub (Fin v0) (Fin v0)] ++ local ++ [t_last]) Hc)
    as (area & Harea & Hbounded).
  { rewrite !length_app. unfold local, sel_f, sel_t.
    rewrite length_fmap, !length_take, !length_drop, Hlen. done. }
  { rewrite !length_app. simpl. lia. }
  { apply Forall_app. split; [|apply Forall_app; split].
    - constructor; [|constructor]. exists 0. split; [done|lra].
    - by apply Forall_take, Forall_drop.
    - constructor; [|constructor]. exists 1. split; [done|lra]. }
  { rewrite Forall_forall in Hlocal.
    apply Forall_app. split; [|apply Forall_app; split].
    - constructor; [|constructor]. apply Hlocal. by eapply list_elem_of_lookup_2.
    - by apply Forall_forall.
    - constructor; [|constructor]. apply Hlocal. by apply last_Some_elem_of. }
  rewrite Harea. cbn [mbind res_bind].
  exists (cnt - 1)%nat, area. split; [|split; [done|]].
  { do 2 f_equal. lia. }
  destruct (tpr !! (cnt - 1)%nat) as [w|] eqn:Hw.
  2:{ apply lookup_ge_None in Hw. lia. }
  assert (fleb w (Fin bk1) = true) as Hwle.
  { apply (count_le_prefix tpr (Fin bk1) (cnt - 1) w Hsorted Hw). lia. }
  apply fleb_true in Hwle as (wq & ? & -> & [= <-] & Hwle).
  exists wq. split; [done|].
  destruct Hpres as (u & Hu & Heq).
  apply feqb_true in Heq as (uq & ? & -> & [= <-] & Heq).
  apply list_elem_of_lookup in Hu as [j Hj].
  assert (j < cnt)%nat as Hjcnt.
  { apply (count_le_prefix tpr (Fin bk1) j (Fin uq) Hsorted Hj). apply Qle_bool_iff. lra. }
  destruct (decide (j = cnt - 1)%nat) as [->|Hne].
  - rewrite Hw in Hj. injection Hj as ->. done.
  - assert (fleb (Fin uq) (Fin wq) = true) as Huw.
    { eapply (non_decreasing_lt tpr j (cnt - 1)); [done|lia|done..]. }
    apply Qle_bool_iff in Huw. lra.
Qed.

(** ** The band boundaries *)

Lemma np_linspace_unit (W : nat) :
  (1 ≤ W)%nat →
  np_linspace 0 1 (Z.of_nat W + 1)
  = Ok (((λ i : nat, inject_Z (Z.of_nat i) * ((1 - 0) / inject_Z (Z.of_nat W)) + 0)
           <$> seq 0 W) ++ [1]).
Proof.
  intros HW. unfold np_linspace.
  destruct (Z.of_nat W + 1 <? 0)%Z eqn:E; [lia|].
  replace (Z.to_nat (Z.of_nat W + 1)) with (S W) by lia.
  destruct W as [|W']; [lia|]. done.
Qed.

Lemma inject_Z_S (k : nat) : inject_Z (Z.of_nat (S k)) == inject_Z (Z.of_nat k) + 1.
Proof. rewrite Nat2Z.inj_succ. unfold Z.succ. by rewrite inject_Z_plus. Qed.

Lemma inject_Z_nat_pos (W : nat) : (1 ≤ W)%nat → 0 < inject_Z (Z.of_nat W).
Proof. intros H. change 0 with (inject_Z 0). rewrite <- Zlt_Qlt. lia. Qed.

Lemma inject_Z_nat_le (k W : nat) : (k ≤ W)%nat → inject_Z (Z.of_nat k) <= inject_Z (Z.of_nat W).
Proof. intros H. rewrite <- Zle_Qle. lia. Qed.

(** Consecutive boundaries are [1/W] apart, and the interior ones lie
    strictly between 0 and 1. *)
Lemma grid_lookup (W k : nat) (b : Q) :
  (1 ≤ W)%nat →
  (((λ i : nat, inject_Z (Z.of_nat i) * ((1 - 0) / inject_Z (Z.of_nat W)) + 0)
      <$> seq 0 W) ++ [1]) !! k = Some b →
  (k ≤ W)%nat ∧ b == inject_Z (Z.of_nat k) / inject_Z (Z.of_nat W).
Proof.
  intros HW Hk. pose proof (inject_Z_nat_pos W HW) as Hpos.
  destruct (decide (k < W)%nat) as [Hlt|Hge].
  - rewrite lookup_app_l in Hk by (rewrite length_fmap, length_seq; lia).
    rewrite list_lookup_fmap, lookup_seq_lt in Hk by done. simpl in Hk.
    injection Hk as <-. split; [lia|]. field. lra.
  - rewrite lookup_app_r in Hk by (rewrite length_fmap, length_seq; lia).
    rewrite length_fmap, length_seq in Hk.
    destruct (k - W)%nat as [|j] eqn:E; [|done]. simpl in Hk. injection Hk as <-.
    assert (k = W) as -> by lia. split; [done|]. field. lra.
Qed.

Lemma grid_length (W : nat) :
  length (((λ i : nat, inject_Z (Z.of_nat i) * ((1 - 0) / inject_Z (Z.of_nat W)) + 0)
             <$> seq 0 W) ++ [1]) = S W.
Proof. rewrite length_app, length_fmap, length_seq. simpl. lia. Qed.

Lemma py_slice_interior {A : Type} (a : list A) :
  py_slice a 1 (-1) = take (length a - 1 - 1) (drop 1 a).
Proof.
  unfold py_slice, slice_bound. simpl.
  destruct a as [|x a]; [done|]. simpl length.
  replace (Z.to_nat (1 `min` Z.of_nat (S (length a)))) with 1%nat by lia.
  replace (Z.to_nat (0 `max` (-1 + Z.of_nat (S (length a))))) with (length a) by lia.
  simpl. by rewrite Nat.sub_0_r.
Qed.

(** ** The loop over the bands *)

Lemma area_loop (c : Q) (fpr tpr : list float) (qs : list Q) (W : nat) :
  0 <= c → curve_ok fpr tpr →
  length qs = S W →
  (∀ k bk bk1, (k < W)%nat → qs !! k = Some bk → qs !! (k + 1)%nat = Some bk1 →
               bk <= bk1 ∧ bk1 - bk <= c ∧ present (Fin bk1) tpr) →
  ∀ m k0 lo areas,
    (k0 + m = W)%nat →
    (∃ v bk, qs !! k0 = Some bk ∧ tpr !! lo = Some (Fin v) ∧ v == bk) →
    Forall (bounded_by c) areas →
    ∃ hi areas',
      for_each (area_step fpr tpr (Fin <$> qs)) (Z.of_nat lo, areas) (seq k0 m)
      = Ok (hi, areas')
      ∧ Forall (bounded_by c) areas' ∧ length areas' = length areas.
Proof.
  intros Hc Hok Hlen Hgrid m. induction m as [|m IH]; intros k0 lo areas Hk (v & bk & Hbk & Hlo & Hv) Hareas.
  { exists (Z.of_nat lo), areas. done. }
  destruct (qs !! (k0 + 1)%nat) as [bk1|] eqn:Hbk1.
  2:{ apply lookup_ge_None in Hbk1. lia. }
  destruct (Hgrid k0 bk bk1) as (Hle & Hdiff & Hpres); [lia|done..|].
  destruct (area_step_ok c fpr tpr (Fin <$> qs) areas k0 lo bk bk1)
    as (hi & area & Hstep & Hbounded & Hhi); try done.
  { by rewrite list_lookup_fmap, Hbk1. }
  { eauto. }
  cbn [seq for_each]. rewrite Hstep. cbn [mbind res_bind].
  destruct (IH (S k0) hi (<[k0:=area]> areas)) as (hi' & areas' & Hloop & Hb' & Hlen').
  - lia.
  - destruct Hhi as (w & Hw & Hweq). exists w, bk1.
    replace (S k0) with (k0 + 1)%nat by lia. done.
  - by apply Forall_insert.
  - exists hi', areas'. rewrite length_insert in Hlen'. done.
Qed.

(** ** The weighted sum *)

Lemma Forall_bounded_Fin (c : Q) (areas : list float) :
  Forall (bounded_by c) areas →
  ∃ aq, areas = Fin <$> aq ∧ Forall (λ a, 0 <= a <= c) aq.
Proof.
  induction 1 as [|a areas (q & -> & Hq) _ (aq & -> & Haq)].
  - exists []. done.
  - exists (q :: aq). split; [done|]. by constructor.
Qed.

Lemma Qsum_nonneg (l : list Q) : Forall (λ w, 0 <= w) l → 0 <= Qsum l.
Proof. induction 1 as [|w l Hw _ IH]; simpl; lra. Qed.

Lemma Qsum_weighted_bound (c m : Q) (aq wq : list Q) :
  0 < m → 0 <= c →
  Forall (λ a, 0 <= a <= c) aq → Forall (λ w, 0 <= w) wq →
  0 <= Qsum (zip_with (λ a w, a * (w / m)) aq wq)
  ∧ Qsum (zip_with (λ a w, a * (w / m)) aq wq) <= c * (Qsum wq / m).
Proof.
  intros Hm Hc Haq. revert wq. induction Haq as [|a aq Ha _ IH]; intros wq Hwq.
  - simpl. split; [lra|]. pose proof (Qsum_nonneg wq Hwq).
    assert (0 <= Qsum wq / m) by (apply Qle_shift_div_l; lra). nra.
  - destruct Hwq as [|w wq Hw Hwq].
    + simpl. split; [lra|]. assert (0 / m == 0) as -> by (field; lra). lra.
    + simpl. destruct (IH wq Hwq) as [IH1 IH2].
      assert (0 <= w / m) as Hr by (apply Qle_shift_div_l; lra).
      assert ((w + Qsum wq) / m == w / m + Qsum wq / m) as -> by (field; lra).
      split; nra.
Qed.

Lemma zip_with_fmul_Fin (m : Q) (aq wq : list Q) :
  ¬ m == 0 →
  zip_with fmul (Fin <$> aq) ((λ w, fdiv w (Fin m)) <$> (Fin <$> wq))
  = Fin <$> zip_with (λ a w, a * (w / m)) aq wq.
Proof.
  intros Hm. revert wq. induction aq as [|a aq IH]; intros wq; [done|].
  destruct wq as [|w wq]; [done|]. simpl. rewrite IH. f_equal.
  destruct (Qeq_bool m 0) eqn:E; [|done]. by apply Qeq_bool_iff in E.
Qed.

Lemma weighted_sum_bound (areas : list float) (wq : list Q) :
  Forall (bounded_by (1 / inject_Z (Z.of_nat (length wq)))) areas →
  Forall (λ w, 0 <= w) wq → 0 < Qsum wq →
  ∃ q, np_sum (zip_with fmul areas
                 ((λ w, fdiv w (np_mean (Fin <$> wq))) <$> (Fin <$> wq)))
       = Fin q ∧ 0 <= q <= 1.
Proof.
  intros Hareas Hwq Hsum.
  assert (1 ≤ length wq)%nat as HW.
  { destruct wq; [simpl in Hsum; lra|simpl; lia]. }
  pose proof (inject_Z_nat_pos _ HW) as HL.
  set (L := inject_Z (Z.of_nat (length wq))) in *.
  unfold np_mean. rewrite length_fmap. fold L.
  destruct (np_sum_Fin wq) as (s & -> & Hs).
  assert (0 < s) as Hspos by lra.
  assert (fdiv (Fin s) (Fin L) = Fin (s / L)) as ->.
  { simpl. destruct (Qeq_bool L 0) eqn:E; [|done]. apply Qeq_bool_iff in E. lra. }
  assert (0 < s / L) as Hm by (apply Qlt_shift_div_l; lra).
  destruct (Forall_bounded_Fin _ _ Hareas) as (aq & -> & Haq).
  rewrite zip_with_fmul_Fin by lra.
  destruct (np_sum_Fin (zip_with (λ a w, a * (w / (s / L))) aq wq)) as (q & -> & Hq).
  exists q. split; [done|]. rewrite Hq.
  destruct (Qsum_weighted_bound (1 / L) (s / L) aq wq) as [H1 H2]; try done.
  { apply Qle_shift_div_l; lra. }
  split; [done|]. eapply Qle_trans; [exact H2|].
  assert (1 / L * (Qsum wq / (s / L)) == Qsum wq / s) as -> by (field; lra).
  apply Qle_shift_div_r; lra.
Qed.

(** ** The range of the weighted AUC *)

(** C3 (amended): with at least one positive and one negative label, finite
    scores and non-negative weights of positive sum, the value of
    compute_Weighted_AUC in exact arithmetic is a finite number of the
    interval [[0, 1]].  The binary64 result is that value up to rounding
    error, and can lie above 1. *)
Theorem compute_Weighted_AUC_range (y_true : list bool) (scores weights : list Q) :
  length y_true = length scores →
  true ∈ y_true → false ∈ y_true →
  Forall (λ w, 0 <= w) weights → 0 < Qsum weights →
  ∃ q, compute_Weighted_AUC y_true (Fin <$> scores) (Fin <$> weights) = Ok (Fin q)
       ∧ 0 <= q <= 1.
Proof.
  intros Hlen Hpos Hneg Hw Hsum.
  assert (1 ≤ length weights)%nat as HW.
  { destruct weights; [simpl in Hsum; lra|simpl; lia]. }
  set (W := length weights) in *.
  pose proof (inject_Z_nat_pos W HW) as HL.
  unfold compute_Weighted_AUC. rewrite length_fmap. fold W.
  rewrite np_linspace_unit by done. cbn [mbind res_bind].
  set (qs := ((λ i : nat, inject_Z (Z.of_nat i) * ((1 - 0) / inject_Z (Z.of_nat W)) + 0)
                <$> seq 0 W) ++ [1]).
  pose proof (grid_length W) as Hqs. fold qs in Hqs.
  destruct (roc_curve_ok y_true scores Hlen Hpos Hneg) as (fpr & tpr & -> & Hok).
  cbn [mbind res_bind].
  rewrite py_slice_interior, length_fmap, Hqs, <- fmap_drop, <- fmap_take.
  set (T := take (S W - 1 - 1) (drop 1 qs)).
  assert (∀ k b, (1 ≤ k)%nat → (k < W)%nat → qs !! k = Some b → b ∈ T) as HT.
  { intros k b Hk1 HkW Hb. unfold T. apply list_elem_of_lookup. exists (k - 1)%nat.
    rewrite lookup_take_lt by lia. rewrite lookup_drop.
    by replace (1 + (k - 1))%nat with k by lia. }
  destruct (perform_interpolation_curve_ok T fpr tpr Hok) as (fpr' & tpr' & Hinterp & Hok').
  { apply Forall_forall. intros b Hb. unfold T in Hb.
    apply list_elem_of_lookup in Hb as [j Hj].
    apply lookup_take_Some in Hj as [Hj Hjlt]. rewrite lookup_drop in Hj.
    apply (grid_lookup W (1 + j) b HW) in Hj as [_ Hj].
    assert (inject_Z (Z.of_nat (1 + j)) == inject_Z (Z.of_nat j) + 1) as Hj1.
    { apply (inject_Z_S j). }
    pose proof (inject_Z_nat_le 0 j (Nat.le_0_l j)) as Hj0. change (inject_Z (Z.of_nat 0)) with 0 in Hj0.
    pose proof (inject_Z_nat_le (S (1 + j)) W ltac:(lia)) as HjW.
    rewrite (inject_Z_S (1 + j)) in HjW.
    rewrite Hj. split.
    - apply Qlt_shift_div_l; lra.
    - apply Qlt_shift_div_r; lra. }
  rewrite Hinterp. cbn [mbind res_bind].
  pose proof (perform_interpolation_grows _ _ _ _ _ Hinterp) as (_ & _ & Hpresent & _).
  pose proof Hok' as (_ & _ & _ & (q0 & Hq0 & Hq0') & (q1 & Hq1 & Hq1')).
  destruct (area_loop (1 / inject_Z (Z.of_nat W)) fpr' tpr' qs W) with
    (m := W) (k0 := 0%nat) (lo := 0%nat) (areas := replicate W (Fin 0))
    as (hi & areas & Hloop & Hareas & Hlareas); try done.
  { apply Qle_shift_div_l; lra. }
  { intros k bk bk1 Hk Hbk Hbk1.
    apply (grid_lookup W k bk HW) in Hbk as [_ Hbk].
    pose proof Hbk1 as Hbk1'.
    apply (grid_lookup W (k + 1) bk1 HW) in Hbk1 as [_ Hbk1].
    assert (inject_Z (Z.of_nat (k + 1)) == inject_Z (Z.of_nat k) + 1) as Hk1.
    { replace (k + 1)%nat with (S k) by lia. apply inject_Z_S. }
    assert (bk1 - bk == 1 / inject_Z (Z.of_nat W)) as Hdiff.
    { rewrite Hbk, Hbk1, Hk1. field. lra. }
    assert (0 <= 1 / inject_Z (Z.of_nat W)) by (apply Qle_shift_div_l; lra).
    split; [lra|]. split; [lra|].
    destruct (decide (k + 1 < W)%nat) as [Hlt|Hge].
    - apply Hpresent. apply list_elem_of_fmap. exists bk1. split; [done|].
      apply (HT (k + 1)%nat); [lia|done..].
    - assert (k + 1 = W)%nat as HkW by lia.
      exists (Fin q1). split; [by apply last_Some_elem_of|].
      apply Qeq_bool_iff. rewrite Hq1', Hbk1, HkW. field. lra. }
  { exists q0, (inject_Z (Z.of_nat 0) * ((1 - 0) / inject_Z (Z.of_nat W)) + 0).
    split; [|split; [done|]].
    - unfold qs. rewrite lookup_app_l by (rewrite length_fmap, length_seq; lia).
      rewrite list_lookup_fmap, lookup_seq_lt by lia. done.
    - rewrite Hq0'. change (inject_Z (Z.of_nat 0)) with 0. field. lra. }
  { apply Forall_replicate. exists 0. split; [done|]. split; [lra|].
    apply Qle_shift_div_l; lra. }
  destruct (weighted_sum_bound areas weights Hareas Hw Hsum) as (q & Hq & Hrange).
  change (Z.of_nat 0) with 0%Z in Hloop.
  exists q. rewrite Hloop. cbn [mbind res_bind]. by rewrite Hq.
Qed.

Lemma compute_Weighted_AUC_range_witness :
  ∃ q, compute_Weighted_AUC [false; false; true; true]
         (Fin <$> [1#10; 4#10; 35#100; 8#10]) (Fin <$> [4; 3; 2; 1; 0]) = Ok (Fin q)
       ∧ 0 <= q <= 1.
Proof.
  apply (compute_Weighted_AUC_range [false; false; true; true]
           [1#10; 4#10; 35#100; 8#10] [4; 3; 2; 1; 0]).
  - reflexivity.
  - do 2 right. left.
  - left.
  - repeat constructor; discriminate.
  - reflexivity.
Defined.

(** ** The rank transform on arbitrary arrays *)

Lemma insert_sorted_fmap {A B : Type} (leb : A → A → bool) (leb' : B → B → bool)
    (g : A → B) (x : A) (l : list A) :
  (∀ y, y ∈ l → leb' (g x) (g y) = leb x y) →
  insert_sorted leb' (g x) (g <$> l) = g <$> insert_sorted leb x l.
Proof.
  induction l as [|y l IH]; intros Hg; simpl; [done|].
  rewrite (Hg y) by apply list_elem_of_here.
  destruct (leb x y); [done|]. simpl. f_equal. apply IH.
  intros z Hz. apply Hg. by apply list_elem_of_further.
Qed.

Lemma stable_sort_fmap {A B : Type} (leb : A → A → bool) (leb' : B → B → bool)
    (g : A → B) (l : list A) :
  (∀ x y, x ∈ l → y ∈ l → leb' (g x) (g y) = leb x y) →
  stable_sort leb' (g <$> l) = g <$> stable_sort leb l.
Proof.
  induction l as [|x l IH]; intros Hg; [done|].
  change (insert_sorted leb' (g x) (stable_sort leb' (g <$> l))
          = g <$> insert_sorted leb x (stable_sort leb l)).
  rewrite IH.
  - apply insert_sorted_fmap. intros y Hy.
    rewrite stable_sort_Permutation in Hy.
    apply Hg; [apply list_elem_of_here|by apply list_elem_of_further].
  - intros y z Hy Hz. apply Hg; by apply list_elem_of_further.
Qed.


Lemma sort_leb_refl (a : float) : sort_leb a a = true.
Proof. destruct a as [p|]; simpl; [|done]. apply Qle_bool_iff. lra. Qed.

(** The rank of a sample is its position in the stable sort of the array. *)
Lemma get_ranks_position (a : list float) (i r : nat) (v : float) :
  get_ranks a !! i = Some r → a !! i = Some v →
  stable_sort (by_snd sort_leb) (imap pair a) !! r = Some (i, v).
Proof.
  unfold get_ranks. intros Hr Hv.
  apply argsort_inverse in Hr.
  - apply argsort_lookup in Hr as (w & Hr & Hw). rewrite Hv in Hw. by injection Hw as <-.
  - pose proof (argsort_Permutation sort_leb a) as Hp.
    rewrite (Permutation_length Hp), length_seq. done.
Qed.

(** X1: on every array, ties and NaN included, get_ranks returns as many
    integers as the array has elements and they are a permutation of
    [0..n-1]. *)
Theorem get_ranks_any_array (a : list float) :
  length (get_ranks a) = length a ∧ get_ranks a ≡ₚ seq 0 (length a).
Proof.
  pose proof (get_ranks_perm_seq a) as Hp. split; [|done].
  apply Permutation_length in Hp. by rewrite Hp, length_seq.
Qed.

(** The rank of sample [i] is [r] exactly when [np.argsort] puts [i] at
    position [r]. *)
Lemma get_ranks_lookup (a : list float) (i r : nat) :
  get_ranks a !! i = Some r ↔ argsort sort_leb a !! r = Some i.
Proof.
  assert (length (argsort sort_leb a) = length a) as Hlen.
  { pose proof (argsort_Permutation sort_leb a) as Hp.
    apply Permutation_length in Hp. by rewrite Hp, length_seq. }
  assert (argsort sort_leb a ≡ₚ seq 0 (length (argsort sort_leb a))) as Hperm.
  { rewrite Hlen. apply argsort_Permutation. }
  split.
  - intros Hr. by apply argsort_inverse in Hr.
  - intros Hi.
    assert (i < length (get_ranks a))%nat as Hlt.
    { pose proof (get_ranks_perm_seq a) as Hp.
      rewrite (Permutation_length Hp), length_seq.
      apply list_elem_of_lookup_2 in Hi. rewrite (argsort_Permutation sort_leb a) in Hi.
      apply elem_of_seq in Hi. lia. }
    apply lookup_lt_is_Some_2 in Hlt as [r' Hr'].
    pose proof Hr' as Hr''. apply argsort_inverse in Hr''; [|done].
    assert (NoDup (argsort sort_leb a)) as Hnd.
    { rewrite Hperm. apply NoDup_seq. }
    by rewrite (NoDup_lookup _ _ _ _ Hnd Hi Hr'').
Qed.

(** X2: get_ranks is the inverse of the sorting permutation: the sample of
    rank [r] is the one that [np.argsort] puts at position [r], and the
    element found there has the value of that sample. *)
Theorem get_ranks_inverts_argsort (a : list float) (i r : nat) (v : float) :
  get_ranks a !! i = Some r → a !! i = Some v →
  argsort sort_leb a !! r = Some i
  ∧ stable_sort sort_leb a !! r = Some v.
Proof.
  intros Hr Hv. split; [by apply get_ranks_lookup|].
  pose proof (get_ranks_position a i r v Hr Hv) as Hpos.
  assert (stable_sort sort_leb a = (stable_sort (by_snd sort_leb) (imap pair a)).*2) as ->.
  { rewrite <- (stable_sort_fmap (by_snd sort_leb) sort_leb snd) by done.
    by rewrite snd_imap_pair. }
  by rewrite list_lookup_fmap, Hpos.
Qed.

Lemma get_ranks_inverts_argsort_witness :
  argsort sort_leb [Fin 3; Fin (1#2); NaN; Fin (1#2)] !! 1%nat = Some 3%nat
  ∧ stable_sort sort_leb [Fin 3; Fin (1#2); NaN; Fin (1#2)] !! 1%nat = Some (Fin (1#2)).
Proof.
  apply (get_ranks_inverts_argsort [Fin 3; Fin (1#2); NaN; Fin (1#2)] 3 1 (Fin (1#2)));
    reflexivity.
Defined.


(** The permutation of the model is one of those that sort the array. *)
Lemma argsort_sorts (a : list float) : sorts a (argsort sort_leb a).
Proof.
  split; [apply argsort_Permutation|].
  intros r s i j u v Hrs Hr Hs Hu Hv.
  apply argsort_lookup in Hr as (u' & Hr & Hu'). apply argsort_lookup in Hs as (v' & Hs & Hv').
  rewrite Hu in Hu'. injection Hu' as <-. rewrite Hv in Hv'. injection Hv' as <-.
  apply (argsort_sorted sort_leb sort_leb_total sort_leb_trans a r s (i, u) (j, v) Hrs Hr Hs).
Qed.

(** X3: the ranks never contradict the order of the values, ties and NaN
    included, whatever order the first argsort leaves equal values in: for
    every permutation [order] that sorts the array, in the ranks
    [order.argsort()] a sample whose value sorts strictly before another's
    (NaN last) has the smaller rank, and a smaller rank means a value that
    is not larger.  The ranks among equal values are left open. *)
Theorem get_ranks_order (a : list float) (order : list nat) (i j ri rj : nat) (u v : float) :
  sorts a order →
  argsort Nat.leb order !! i = Some ri → argsort Nat.leb order !! j = Some rj →
  a !! i = Some u → a !! j = Some v →
  (sort_leb v u = false → (ri < rj)%nat) ∧ ((ri < rj)%nat → sort_leb u v = true).
Proof.
  intros [Hperm Hsorted] Hri Hrj Hu Hv.
  assert (order ≡ₚ seq 0 (length order)) as Hperm'.
  { by rewrite (Permutation_length Hperm), length_seq. }
  apply (argsort_inverse _ _ _ Hperm') in Hri, Hrj.
  split.
  - intros Hvu. destruct (Nat.lt_trichotomy ri rj) as [?|[->|Hgt]]; [done|..].
    + rewrite Hri in Hrj. injection Hrj as ->. rewrite Hu in Hv. injection Hv as ->.
      by rewrite sort_leb_refl in Hvu.
    + by rewrite (Hsorted rj ri j i v u Hgt Hrj Hri Hv Hu) in Hvu.
  - intros Hlt. exact (Hsorted ri rj i j u v Hlt Hri Hrj Hu Hv).
Qed.

Lemma get_ranks_order_witness :
  (get_ranks [Fin 3; Fin (1#2); NaN; Fin (1#2)] !! 3%nat = Some 1%nat
   ∧ get_ranks [Fin 3; Fin (1#2); NaN; Fin (1#2)] !! 0%nat = Some 2%nat)
  ∧ (sort_leb (Fin 3) (Fin (1#2)) = false → (1 < 2)%nat)
  ∧ ((1 < 2)%nat → sort_leb (Fin (1#2)) (Fin 3) = true).
Proof.
  split; [split; reflexivity|].
  apply (get_ranks_order [Fin 3; Fin (1#2); NaN; Fin (1#2)]
           (argsort sort_leb [Fin 3; Fin (1#2); NaN; Fin (1#2)]) 3 0 1 2
           (Fin (1#2)) (Fin 3)).
  - apply argsort_sorts.
  - reflexivity.
  - reflexivity.
  - reflexivity.
  - reflexivity.
Defined.

Lemma get_ranks_fmap (f : float → float) (a : list float) :
  (∀ u v, u ∈ a → v ∈ a → sort_leb (f u) (f v) = sort_leb u v) →
  get_ranks (f <$> a) = get_ranks a.
Proof.
  intros Hf. unfold get_ranks. f_equal. unfold argsort.
  assert (imap pair (f <$> a) = prod_map id f <$> imap pair a) as ->.
  { apply list_eq. intros i.
    rewrite list_lookup_fmap, !list_lookup_imap, list_lookup_fmap.
    by destruct (a !! i). }
  rewrite (stable_sort_fmap (by_snd sort_leb) (by_snd sort_leb) (prod_map id f)).
  - rewrite <- list_fmap_compose. apply list_fmap_ext. by intros _ [k v] _.
  - intros [k u] [k' v] Hu Hv. unfold by_snd. simpl.
    apply elem_of_lookup_imap in Hu as (? & ? & [= -> ->] & Hu).
    apply elem_of_lookup_imap in Hv as (? & ? & [= -> ->] & Hv).
    apply Hf; by eapply list_elem_of_lookup_2.
Qed.

(** X4: the ranks depend only on how the values compare: a transformation
    of the values that preserves the sort order of every pair of them
    leaves every rank unchanged. *)
Theorem get_ranks_order_invariant (f : float → float) (a : list float) :
  (∀ u v, u ∈ a → v ∈ a → sort_leb (f u) (f v) = sort_leb u v) →
  get_ranks (f <$> a) = get_ranks a.
Proof. apply get_ranks_fmap. Qed.

Lemma get_ranks_order_invariant_witness :
  get_ranks ((λ v, fadd (fmul v (Fin 2)) (Fin 1)) <$> [Fin 3; NaN; Fin (1#2); Fin 3])
  = get_ranks [Fin 3; NaN; Fin (1#2); Fin 3].
Proof.
  apply (get_ranks_order_invariant (λ v, fadd (fmul v (Fin 2)) (Fin 1))
           [Fin 3; NaN; Fin (1#2); Fin 3]).
  intros u v Hu Hv.
  repeat (apply elem_of_cons in Hu as [->|Hu]);
    [repeat (apply elem_of_cons in Hv as [->|Hv]);
       [reflexivity..|by apply elem_of_nil in Hv]..|by apply elem_of_nil in Hu].
Defined.

(** ** What the interpolation keeps *)

Lemma sublist_insert_at {A : Type} (l : list A) (n : nat) (v : A) :
  l `sublist_of` take n l ++ v :: drop n l.
Proof.
  rewrite <- (take_drop n l) at 1. apply sublist_app; [done|]. by apply sublist_cons.
Qed.

Lemma interpolation_step_extends (x y x' y' : list float) (t : float) :
  interpolation_step (x, y) t = Ok (x', y') →
  x `sublist_of` x' ∧ y `sublist_of` y'
  ∧ (∀ v, v ∈ y' → v ∈ y ∨ v = t)
  ∧ (length y' ≤ S (length y))%nat
  ∧ (length x' + length y = length x + length y')%nat.
Proof.
  intros Hstep. pose proof (interpolation_step_spec x y t) as Hspec.
  rewrite Hstep in Hspec.
  destruct Hspec as [(_ & -> & ->)|(_ & p & yp & yf & xp & xf & _ & _ & Hyf & _ & Hxf & -> & ->)].
  { split; [done|]. split; [done|]. split; [by left|lia]. }
  apply lookup_lt_Some in Hyf, Hxf.
  split; [apply sublist_insert_at|]. split; [apply sublist_insert_at|].
  split; [|rewrite !length_app; simpl; rewrite !length_take, !length_drop; lia].
  intros v [Hv|[->|Hv]%elem_of_cons]%elem_of_app; [left|by right|left].
  - by eapply subseteq_take.
  - by eapply subseteq_drop.
Qed.

(** X9: perform_interpolation only ever inserts: the input arrays survive,
    in order, as subsequences of the outputs, every output y value is an
    input y value or a target, both arrays grow by the same number of
    entries, and that number is at most the number of targets. *)
Theorem perform_interpolation_extends (T x y x' y' : list float) :
  perform_interpolation x y T = Ok (x', y') →
  x `sublist_of` x' ∧ y `sublist_of` y'
  ∧ (∀ v, v ∈ y' → v ∈ y ∨ v ∈ T)
  ∧ (length y' ≤ length y + length T)%nat
  ∧ (length x' + length y = length x + length y')%nat.
Proof.
  revert x y. induction T as [|t T IH]; intros x y.
  { intros [= <- <-]. split; [done|]. split; [done|]. split; [by left|simpl; lia]. }
  rewrite perform_interpolation_cons.
  intros ([x1 y1] & Hstep & Hrest)%bind_Ok.
  apply interpolation_step_extends in Hstep as (Hx & Hy & Hel & Hly & Hlx).
  apply IH in Hrest as (Hx' & Hy' & Hel' & Hly' & Hlx').
  split; [by etrans|]. split; [by etrans|]. split; [|simpl; lia].
  intros v [Hv|Hv]%Hel'; [|by right; right].
  apply Hel in Hv as [?| ->]; [by left|right; left].
Qed.

Lemma perform_interpolation_extends_witness :
  [Fin 0; Fin 1] `sublist_of` [Fin 0; Fin (1#2); Fin 1]
  ∧ [Fin 0; Fin 1] `sublist_of` [Fin 0; Fin (1#2); Fin 1]
  ∧ (∀ v, v ∈ [Fin 0; Fin (1#2); Fin 1] → v ∈ [Fin 0; Fin 1] ∨ v ∈ [Fin (1#2); Fin 1])
  ∧ (length [Fin 0; Fin (1#2); Fin 1] ≤ length [Fin 0; Fin 1] + length [Fin (1#2); Fin 1])%nat
  ∧ (length [Fin 0; Fin (1#2); Fin 1] + length [Fin 0; Fin 1]
     = length [Fin 0; Fin 1] + length [Fin 0; Fin (1#2); Fin 1])%nat.
Proof.
  apply (perform_interpolation_extends [Fin (1#2); Fin 1] [Fin 0; Fin 1] [Fin 0; Fin 1]).
  reflexivity.
Defined.

(** ** A target that is not a number *)

Lemma interpolation_step_NaN (x y : list float) :
  interpolation_step (x, y) NaN = Raise ValueError.
Proof.
  unfold interpolation_step.
  assert (∀ y : list float, (λ v, feqb v NaN) <$> y = (λ _, false) <$> y) as Heq.
  { intros l. apply list_fmap_ext. by intros _ [?|] _. }
  assert (∀ y : list float, (λ v, fltb v NaN) <$> y = (λ _, false) <$> y) as Hlt.
  { intros l. apply list_fmap_ext. by intros _ [?|] _. }
  rewrite Heq, Hlt.
  assert (∀ (l : list float), np_sum_bool ((λ _, false) <$> l) = 0%nat) as ->.
  { intros l. unfold np_sum_bool. induction l as [|a l IH]; [done|]. simpl.
    rewrite filter_cons_False; [done|]. by intros ?. }
  rewrite decide_False by lia.
  assert (∀ k (l : list float), argwhere_from k ((λ _, false) <$> l) = []) as Harg.
  { intros k l. revert k. induction l as [|a l IH]; intros k; [done|]. simpl. apply IH. }
  unfold np_argwhere. by rewrite Harg.
Qed.

(** X10: a NaN among the targets is never inserted: perform_interpolation
    raises an exception, whatever the arrays are. *)
Theorem perform_interpolation_NaN_target (x y T : list float) :
  NaN ∈ T → ∃ e, perform_interpolation x y T = Raise e.
Proof.
  revert x y. induction T as [|t T IH]; intros x y HT; [by apply elem_of_nil in HT|].
  rewrite perform_interpolation_cons.
  apply elem_of_cons in HT as [<-|HT].
  { rewrite interpolation_step_NaN. by exists ValueError. }
  destruct (interpolation_step (x, y) t) as [[x1 y1]|e]; simpl; [by apply IH|by exists e].
Qed.

Lemma perform_interpolation_NaN_target_witness :
  ∃ e, perform_interpolation [Fin 0; Fin 1] [Fin 0; Fin 1] [Fin (1#2); NaN] = Raise e.
Proof.
  apply (perform_interpolation_NaN_target [Fin 0; Fin 1] [Fin 0; Fin 1] [Fin (1#2); NaN]).
  right. left.
Defined.

(** ** Curves monotone in both coordinates *)

Lemma linear_interpolation_between (t yp yf xp xf : float) :
  fltb yp t = true → fltb t yf = true → fleb xp xf = true →
  fleb xp (linear_interpolation t yp yf xp xf) = true
  ∧ fleb (linear_interpolation t yp yf xp xf) xf = true.
Proof.
  intros (a & c & -> & -> & Hac)%fltb_true (? & b & [= <-] & -> & Hcb)%fltb_true
         (d & e & -> & -> & Hde)%fleb_true.
  unfold linear_interpolation. simpl.
  destruct (Qeq_bool (b - a) 0) eqn:E.
  { apply Qeq_bool_iff in E. lra. }
  simpl. rewrite !Qle_bool_iff.
  assert (0 < b - a) as Hd by lra.
  split.
  - apply Qle_minus_iff.
    assert ((c - a) * (e - d) / (b - a) + d + - d == ((c - a) * (e - d)) / (b - a)) as ->
      by (field; lra).
    apply Qle_shift_div_l; [done|]. nra.
  - apply Qle_minus_iff.
    assert (e + - ((c - a) * (e - d) / (b - a) + d) == ((b - c) * (e - d)) / (b - a)) as ->
      by (field; lra).
    apply Qle_shift_div_l; [done|]. nra.
Qed.

(** X11: in exact arithmetic, when both arrays are non-decreasing (as the
    TPR and the FPR of a ROC curve are), the interpolated values fall
    between their neighbours: the x array of the result is non-decreasing
    too.  In binary64 an interpolated value can overshoot its neighbour by
    rounding (lemma [perform_interpolation_rounds_past_neighbour]); the y
    array, which only receives the targets, is not affected. *)
Theorem perform_interpolation_monotone_x (T x y x' y' : list float) :
  non_decreasing x → non_decreasing y →
  perform_interpolation x y T = Ok (x', y') →
  non_decreasing x' ∧ non_decreasing y'.
Proof.
  revert x y. induction T as [|t T IH]; intros x y Hx Hy.
  { by intros [= <- <-]. }
  rewrite perform_interpolation_cons.
  intros ([x1 y1] & Hstep & Hrest)%bind_Ok.
  pose proof (interpolation_step_spec x y t) as Hspec. rewrite Hstep in Hspec.
  destruct Hspec as [(_ & -> & ->)|(Hnp & p & yp & yf & xp & xf & Hlast & Hyp & Hyf & Hxp & Hxf
                                    & -> & ->)].
  { by apply (IH x y). }
  destruct (successor_above y t p yp yf Hy Hnp Hlast Hyp Hyf) as [Hlt Hgt].
  destruct (linear_interpolation_between t yp yf xp xf Hlt Hgt (Hx p xp xf Hxp Hxf))
    as [Hlo Hhi].
  eapply IH; [| |exact Hrest].
  - by eapply non_decreasing_insert.
  - eapply non_decreasing_insert; eauto using fltb_fleb.
Qed.

Lemma perform_interpolation_monotone_x_witness :
  non_decreasing [Fin 0; Fin (1#4); Fin (1#2); Fin 1]
  ∧ non_decreasing [Fin 0; Fin (1#2); Fin 1; Fin 1].
Proof.
  apply (perform_interpolation_monotone_x [Fin (1#2)]
           [Fin 0; Fin (1#2); Fin 1] [Fin 0; Fin 1; Fin 1]).
  - intros [|[|[|i]]] a b Ha Hb; try done; injection Ha as <-; injection Hb as <-; reflexivity.
  - intros [|[|[|i]]] a b Ha Hb; try done; injection Ha as <-; injection Hb as <-; reflexivity.
  - reflexivity.
Defined.

(** ** compute_MCC on arbitrary inputs *)

(** A constant prediction has an empty column in the confusion matrix. *)
Lemma confusion_matrix_constant (y_true y_pred : list bool) (t b : bool) :
  Forall (λ p, p = b) y_pred → confusion_matrix y_true y_pred t (negb b) = 0%Z.
Proof.
  intros Hall. revert y_true.
  induction Hall as [|p y_pred -> Hall IH]; intros [|a y_true]; try done.
  rewrite confusion_matrix_cons, IH.
  rewrite (bool_decide_eq_false_2 (b = negb b)) by (by destruct b).
  by rewrite andb_false_r.
Qed.

Lemma matthews_corrcoef_constant (y_true y_pred : list bool) (b : bool) :
  length y_true = length y_pred → Forall (λ p, p = b) y_pred →
  matthews_corrcoef y_true y_pred = Ok (SqrtRatio 0 1).
Proof.
  intros Hlen Hall. unfold matthews_corrcoef.
  rewrite decide_False by (by intros ?). cbn zeta.
  pose proof (confusion_matrix_constant y_true y_pred false b Hall) as H0.
  pose proof (confusion_matrix_constant y_true y_pred true b Hall) as H1.
  match goal with |- context [(?X =? 0)%Z] => assert (X = 0%Z) as -> end; [|done].
  destruct b; simpl in H0, H1; rewrite H0, H1; ring.
Qed.

(** The loop over the thresholds, read backwards: a list of coefficients
    that it returned holds one coefficient per threshold. *)
Lemma mcc_loop_inv (y_true : list bool) (ranks : list Z) (ths : list Q)
    (acc res : list sqrt_ratio) :
  for_each (mcc_step y_true ranks) acc ths = Ok res →
  ∃ l, res = acc ++ l
       ∧ Forall2 (λ t v, matthews_corrcoef y_true
                           ((λ r : Z, Qlt_bool t (inject_Z r)) <$> ranks) = Ok v)
                 ths l.
Proof.
  revert acc. induction ths as [|t ths IH]; intros acc; cbn [for_each].
  { intros [= <-]. exists []. by rewrite app_nil_r. }
  intros (acc' & Hstep & Hrest)%bind_Ok.
  unfold mcc_step in Hstep. apply bind_Ok in Hstep as (v & Hv & [= <-]).
  apply IH in Hrest as (l & -> & Hl).
  exists (v :: l). split; [by rewrite <- app_assoc|]. by constructor.
Qed.

(** The first sample of a grid is its start. *)
Lemma np_linspace_first (start stop : Q) (num : Z) (ths : list Q) :
  (1 ≤ num)%Z → np_linspace start stop num = Ok ths →
  ∃ t rest, ths = t :: rest ∧ t == start.
Proof.
  intros Hnum. unfold np_linspace.
  destruct (Z.ltb_spec num 0); [lia|].
  destruct (Z.to_nat num) as [|[|d]] eqn:Hn; [lia|..]; intros [= <-].
  - exists start, []. split; [done|]. reflexivity.
  - eexists _, _. split; [reflexivity|]. simpl. ring.
Qed.

Lemma np_max_sr_nonneg (m : sqrt_ratio) (l : list sqrt_ratio) (v : sqrt_ratio) :
  (0 ≤ sr_num m)%Z → Forall sr_valid (m :: l) → np_max_sr (m :: l) = Ok v →
  (0 ≤ sr_num v)%Z.
Proof.
  simpl. intros Hm Hall [= <-]. apply Forall_cons in Hall as [Hvm Hall].
  revert m Hm Hvm. induction Hall as [|b l Hb Hall IH]; intros m Hm Hvm; simpl; [done|].
  destruct (sr_leb m b) eqn:Hle; [|by apply IH].
  apply IH; [|done].
  unfold sr_leb in Hle. apply Z.leb_le in Hle.
  destruct Hvm as [Hrm _], Hb as [Hrb _].
  destruct (Z.lt_ge_cases (sr_num b) 0) as [Hneg|?]; [|lia].
  rewrite (Z.sgn_neg (sr_num b)) in Hle by done.
  assert (0 ≤ Z.sgn (sr_num m))%Z by (apply Z.sgn_nonneg; lia). nia.
Qed.

(** The ranks of a non-empty array run from 0 to [n - 1], and the grid of
    thresholds is laid over [[-1, n]]. *)
Lemma compute_MCC_unfold (y_true : list bool) (x : float) (y_score : list float)
    (threshold_num : Z) :
  compute_MCC y_true (x :: y_score) threshold_num
  = (threshold_array ← np_linspace (inject_Z 0 - 1)
                          (inject_Z (Z.of_nat (length y_score)) + 1) threshold_num;
     MCC_list ← for_each (mcc_step y_true (Z.of_nat <$> get_ranks (x :: y_score))) []
                         threshold_array;
     np_max_sr MCC_list).
Proof.
  unfold compute_MCC. cbn zeta.
  destruct (ranks_min_max (get_ranks (x :: y_score)) (length y_score)) as [-> ->]; [|done].
  apply get_ranks_perm_seq.
Qed.

Lemma ranks_in_range (y_score : list float) (r : Z) :
  r ∈ Z.of_nat <$> get_ranks y_score → (0 ≤ r < Z.of_nat (length y_score))%Z.
Proof.
  intros (k & -> & Hk)%list_elem_of_fmap. rewrite get_ranks_perm_seq in Hk.
  apply elem_of_seq in Hk. lia.
Qed.

(** Below the lowest rank every sample is predicted positive, above the
    highest rank every sample is predicted negative. *)
Lemma threshold_below (y_score : list float) (t : Q) :
  t < 0 →
  Forall (λ p, p = true) ((λ r : Z, Qlt_bool t (inject_Z r)) <$> (Z.of_nat <$> get_ranks y_score)).
Proof.
  intros Ht. apply Forall_fmap, Forall_forall. intros r Hr%ranks_in_range. simpl.
  apply Qlt_bool_iff. assert (inject_Z 0 <= inject_Z r) by (rewrite <- Zle_Qle; lia).
  change (inject_Z 0) with 0 in *. lra.
Qed.

Lemma threshold_above (y_score : list float) (t : Q) :
  inject_Z (Z.of_nat (length y_score)) <= t →
  Forall (λ p, p = false) ((λ r : Z, Qlt_bool t (inject_Z r)) <$> (Z.of_nat <$> get_ranks y_score)).
Proof.
  intros Ht. apply Forall_fmap, Forall_forall. intros r Hr%ranks_in_range. simpl.
  apply not_true_is_false. rewrite Qlt_bool_iff.
  assert (inject_Z r <= inject_Z (Z.of_nat (length y_score))) by (rewrite <- Zle_Qle; lia).
  lra.
Qed.

(** X5: whatever the inputs, a coefficient returned by compute_MCC lies
    between 0 and 1: the lowest threshold predicts every sample positive,
    which scores 0, so the maximum over the thresholds is never negative. *)
Theorem compute_MCC_range (y_true : list bool) (y_score : list float)
    (threshold_num : Z) (v : sqrt_ratio) :
  compute_MCC y_true y_score threshold_num = Ok v →
  sr_valid v ∧ (0 ≤ sr_num v)%Z.
Proof.
  destruct y_score as [|x y_score]; [done|].
  rewrite compute_MCC_unfold.
  intros (ths & Hths & (l & Hloop & Hmax)%bind_Ok)%bind_Ok.
  apply mcc_loop_inv in Hloop as (l' & -> & Hl). simpl in Hmax.
  assert (Forall sr_valid l') as Hvalid.
  { apply Forall_forall. intros m Hm.
    apply list_elem_of_lookup in Hm as [k Hk].
    destruct (Forall2_lookup_r _ _ _ _ _ Hl Hk) as (t & _ & Hm).
    by eapply matthews_corrcoef_valid. }
  split.
  { rewrite Forall_forall in Hvalid. apply Hvalid. by apply np_max_sr_elem. }
  destruct Hl as [|t m ths l' Hm Hl]; [done|].
  apply (np_max_sr_nonneg m l'); [|done..].
  assert (1 ≤ threshold_num)%Z as Hnum.
  { unfold np_linspace in Hths. destruct (Z.ltb_spec threshold_num 0); [done|].
    destruct (Z.to_nat threshold_num) eqn:Hn; [done|lia]. }
  destruct (np_linspace_first _ _ _ _ Hnum Hths) as (t' & rest & [= <- <-] & Ht).
  rewrite (matthews_corrcoef_constant y_true _ true) in Hm.
  - by injection Hm as <-.
  - destruct (decide (length y_true
        = length ((λ r : Z, Qlt_bool t (inject_Z r)) <$> (Z.of_nat <$> get_ranks (x :: y_score)))))
      as [?|Hne]; [done|].
    unfold matthews_corrcoef in Hm. by rewrite decide_True in Hm.
  - apply threshold_below. change (inject_Z 0) with 0 in Ht. lra.
Qed.

Lemma compute_MCC_range_witness :
  sr_valid (SqrtRatio 2 16) ∧ (0 ≤ sr_num (SqrtRatio 2 16))%Z.
Proof.
  apply (compute_MCC_range [false; true; true] [Fin 1; Fin 0; Fin 2] 5). reflexivity.
Defined.

Lemma np_linspace_nonpos (start stop : Q) (num : Z) :
  (num ≤ 0)%Z →
  np_linspace start stop num = Raise ValueError ∨ np_linspace start stop num = Ok [].
Proof.
  intros Hnum. unfold np_linspace. destruct (Z.ltb_spec num 0); [by left|right].
  by replace num with 0%Z by lia.
Qed.

Lemma np_linspace_Ok (start stop : Q) (num : Z) :
  (1 ≤ num)%Z → ∃ t rest, np_linspace start stop num = Ok (t :: rest).
Proof.
  intros Hnum. unfold np_linspace. destruct (Z.ltb_spec num 0); [lia|].
  destruct (Z.to_nat num) as [|[|d]] eqn:Hn; [lia|..]; simpl; eauto.
Qed.

(** X6: compute_MCC raises a ValueError on an empty score array, on a
    threshold_num that is not positive, and on label and score arrays of
    different lengths. *)
Theorem compute_MCC_rejects (y_true : list bool) (y_score : list float)
    (threshold_num : Z) :
  y_score = [] ∨ (threshold_num ≤ 0)%Z ∨ length y_true ≠ length y_score →
  compute_MCC y_true y_score threshold_num = Raise ValueError.
Proof.
  intros Hbad. destruct y_score as [|x y_score]; [done|].
  rewrite compute_MCC_unfold.
  destruct (Z.le_gt_cases threshold_num 0) as [Hnum|Hnum].
  { by destruct (np_linspace_nonpos (inject_Z 0 - 1)
                   (inject_Z (Z.of_nat (length y_score)) + 1) threshold_num Hnum) as [->| ->]. }
  destruct Hbad as [?|[?|Hlen]]; [done|lia|].
  destruct (np_linspace_Ok (inject_Z 0 - 1)
              (inject_Z (Z.of_nat (length y_score)) + 1) threshold_num) as (t & rest & ->); [lia|].
  simpl. unfold mcc_step at 2. unfold matthews_corrcoef.
  rewrite decide_True; [done|].
  rewrite !length_fmap. by rewrite (Permutation_length (get_ranks_perm_seq _)), length_seq.
Qed.

Lemma compute_MCC_rejects_witness :
  compute_MCC [true; false] [Fin 1; Fin 2; Fin 3] 500 = Raise ValueError.
Proof.
  apply (compute_MCC_rejects [true; false] [Fin 1; Fin 2; Fin 3] 500).
  right; right. simpl. lia.
Defined.

(** X7: with one or two thresholds the grid holds only the two ends, below
    the lowest and above the highest rank, where the prediction is
    constant: compute_MCC returns exactly 0. *)
Theorem compute_MCC_two_thresholds (y_true : list bool) (y_score : list float)
    (threshold_num : Z) :
  y_score ≠ [] → length y_true = length y_score → (1 ≤ threshold_num ≤ 2)%Z →
  compute_MCC y_true y_score threshold_num = Ok (SqrtRatio 0 1).
Proof.
  intros Hne Hlen Hnum. destruct y_score as [|x y_score]; [done|].
  rewrite compute_MCC_unfold.
  assert (length y_true = length ((Z.of_nat <$> get_ranks (x :: y_score)))) as Hlen'.
  { rewrite length_fmap. by rewrite (Permutation_length (get_ranks_perm_seq _)), length_seq. }
  assert (∀ t, t < 0 → matthews_corrcoef y_true
            ((λ r : Z, Qlt_bool t (inject_Z r)) <$> (Z.of_nat <$> get_ranks (x :: y_score)))
            = Ok (SqrtRatio 0 1)) as Hlow.
  { intros t Ht. apply (matthews_corrcoef_constant _ _ true); [by rewrite length_fmap|].
    by apply threshold_below. }
  assert (∀ t, inject_Z (Z.of_nat (length (x :: y_score))) <= t → matthews_corrcoef y_true
            ((λ r : Z, Qlt_bool t (inject_Z r)) <$> (Z.of_nat <$> get_ranks (x :: y_score)))
            = Ok (SqrtRatio 0 1)) as Hhigh.
  { intros t Ht. apply (matthews_corrcoef_constant _ _ false); [by rewrite length_fmap|].
    by apply threshold_above. }
  assert (threshold_num = 1 ∨ threshold_num = 2)%Z as [-> | ->] by lia.
  - simpl. unfold mcc_step at 1. rewrite Hlow; [done|]. reflexivity.
  - simpl. unfold mcc_step at 2. rewrite Hlow.
    + simpl. unfold mcc_step at 1. rewrite Hhigh; [done|].
      cbn [length]. rewrite Nat2Z.inj_succ, <- Z.add_1_r, inject_Z_plus.
      change (inject_Z 1) with 1. lra.
    + assert (inject_Z 0 == 0) as H0 by reflexivity.
      set (stop := inject_Z (Z.of_nat (length y_score)) + 1).
      set (step := (stop - (inject_Z 0 - 1)) / inject_Z (Z.of_nat 1)).
      assert (inject_Z (Z.of_nat 0) * step + (inject_Z 0 - 1) == -(1)) as -> by (simpl; ring).
      reflexivity.
Qed.

Lemma compute_MCC_two_thresholds_witness :
  compute_MCC [false; true; true] [Fin 1; Fin 0; Fin 2] 2 = Ok (SqrtRatio 0 1).
Proof.
  apply (compute_MCC_two_thresholds [false; true; true] [Fin 1; Fin 0; Fin 2] 2);
    [done|reflexivity|lia].
Defined.

(** X8: compute_MCC sees the scores only through their ranks: a
    transformation of the scores that preserves the sort order of every
    pair of them does not change the result. *)
Theorem compute_MCC_order_invariant (f : float → float) (y_true : list bool)
    (y_score : list float) (threshold_num : Z) :
  (∀ u v, u ∈ y_score → v ∈ y_score → sort_leb (f u) (f v) = sort_leb u v) →
  compute_MCC y_true (f <$> y_score) threshold_num
  = compute_MCC y_true y_score threshold_num.
Proof. intros Hf. unfold compute_MCC. by rewrite (get_ranks_fmap f y_score Hf). Qed.

Lemma compute_MCC_order_invariant_witness :
  compute_MCC [false; true; true]
    ((λ v, fadd (fmul v (Fin 2)) (Fin 1)) <$> [Fin 1; Fin 0; Fin 2]) 5
  = compute_MCC [false; true; true] [Fin 1; Fin 0; Fin 2] 5.
Proof.
  apply (compute_MCC_order_invariant (λ v, fadd (fmul v (Fin 2)) (Fin 1))
           [false; true; true] [Fin 1; Fin 0; Fin 2] 5).
  intros u v Hu Hv.
  repeat (apply elem_of_cons in Hu as [->|Hu]);
    [repeat (apply elem_of_cons in Hv as [->|Hv]);
       [reflexivity..|by apply elem_of_nil in Hv]..|by apply elem_of_nil in Hu].
Defined.

(** ** The ROC curve is monotone in both rates *)

Lemma binary_clf_curve_fps_sorted (samples : list (bool * Q)) (fps tps : Z) :
  StronglySorted (λ p q, (p.1 ≤ q.1)%Z) (binary_clf_curve fps tps samples).
Proof.
  revert fps tps. induction samples as [|[label score] rest IH]; intros fps tps.
  { constructor. }
  rewrite binary_clf_curve_cons. cbn zeta.
  set (fps' := if label then fps else (fps + 1)%Z).
  set (tps' := if label then (tps + 1)%Z else tps).
  destruct rest as [|[label' score'] rest'] eqn:Hrest; [repeat constructor|].
  rewrite <- Hrest in *.
  destruct (Qeq_bool score score'); [apply IH|].
  constructor; [apply IH|].
  destruct (binary_clf_curve_spec rest fps' tps') as (Hbox & _).
  eapply Forall_impl; [exact Hbox|]. intros [f t] [Hf _]. simpl in *. lia.
Qed.

Lemma roc_curve_Ok_fps (y_true : list bool) (y_score fpr tpr : list float) :
  roc_curve y_true y_score = Ok (fpr, tpr) →
  ∃ curve,
    fpr = rates curve.*1 ∧ tpr = rates curve.*2
    ∧ head curve = Some (0, 0)%Z
    ∧ last curve = Some (n_negative y_true, n_positive y_true)
    ∧ Forall (in_box (0, 0)%Z (n_negative y_true, n_positive y_true)) curve
    ∧ StronglySorted (λ p q, (p.1 ≤ q.1)%Z) curve.
Proof.
  unfold roc_curve. intros H.
  destruct (decide (length y_true ≠ length y_score)) as [|Hlen]; [done|].
  apply dec_stable in Hlen.
  destruct (all_scores y_score) as [scores|] eqn:Hscores; [|done].
  apply length_mapM in Hscores.
  set (desc := reverse (stable_sort (by_snd Qle_bool) (zip y_true scores))) in *.
  assert (desc.*1 ≡ₚ y_true) as Hperm.
  { unfold desc. rewrite reverse_Permutation, stable_sort_Permutation.
    rewrite fst_zip by lia. done. }
  destruct (binary_clf_curve_spec desc 0 0) as (Hbox & _ & Hlast).
  pose proof (binary_clf_curve_fps_sorted desc 0 0) as Hsorted.
  assert (n_negative desc.*1 = n_negative y_true) as Hn.
  { unfold n_negative. f_equal. apply np_sum_bool_Permutation. by rewrite Hperm. }
  assert (n_positive desc.*1 = n_positive y_true) as Hp.
  { unfold n_positive. f_equal. by apply np_sum_bool_Permutation. }
  rewrite Hn, Hp, !Z.add_0_l in *.
  destruct (decide (binary_clf_curve 0 0 desc = [])) as [|Hne]; [done|].
  assert (desc ≠ []) as Hdesc by (intros E; by rewrite E in Hne).
  specialize (Hlast Hdesc).
  set (c1 := drop_intermediate (binary_clf_curve 0 0 desc)) in *.
  assert (last c1 = Some (n_negative y_true, n_positive y_true)) as Hlast1.
  { unfold c1. by rewrite drop_intermediate_last. }
  assert (Forall (in_box (0, 0)%Z (n_negative y_true, n_positive y_true)) c1) as Hbox1.
  { eapply Forall_sublist; [apply drop_intermediate_sublist|done]. }
  assert (StronglySorted (λ p q, (p.1 ≤ q.1)%Z) c1) as Hsorted1.
  { eapply StronglySorted_sublist; [apply drop_intermediate_sublist|done]. }
  pose proof (n_negative_nonneg y_true). pose proof (n_positive_nonneg y_true).
  assert (∀ c2, c2 = c1 ∧ head c1 = Some (0, 0)%Z ∨ c2 = (0, 0)%Z :: c1 →
            head c2 = Some (0, 0)%Z
            ∧ last c2 = Some (n_negative y_true, n_positive y_true)
            ∧ Forall (in_box (0, 0)%Z (n_negative y_true, n_positive y_true)) c2
            ∧ StronglySorted (λ p q, (p.1 ≤ q.1)%Z) c2) as Hc2.
  { intros c2 [[-> Hhd]| ->]; [done|]. repeat split.
    - rewrite last_cons, Hlast1. done.
    - constructor; [|done]. unfold in_box. simpl. lia.
    - constructor; [done|]. eapply Forall_impl; [exact Hbox1|].
      intros [f t] [Hf _]. simpl in *. lia. }
  eexists. split; [|split; [|apply Hc2]].
  - by injection H as <- _.
  - by injection H as _ <-.
  - destruct c1 as [|[[|?|?] [|?|?]] ?]; auto.
Qed.

(** With both classes present the curve, read with the FPR as the
    dependent variable, is well formed as well: the FPR never decreases
    from 0 to 1 and the TPR stays in [[0, 1]]. *)
Lemma roc_curve_ok_fpr (y_true : list bool) (scores : list Q) :
  length y_true = length scores → true ∈ y_true → false ∈ y_true →
  ∃ fpr tpr, roc_curve y_true (Fin <$> scores) = Ok (fpr, tpr)
             ∧ curve_ok tpr fpr
             ∧ ∃ q, tpr !! 0%nat = Some (Fin q) ∧ q == 0.
Proof.
  intros Hlen Hpos Hneg.
  destruct (roc_curve_defined y_true scores Hlen) as (fpr & tpr & Hroc).
  { intros ->. by apply elem_of_nil in Hpos. }
  exists fpr, tpr. split; [done|].
  apply roc_curve_Ok_fps in Hroc as (curve & -> & -> & Hhead & Hlast & Hbox & Hsorted).
  apply n_positive_pos in Hpos. apply n_negative_pos in Hneg.
  rewrite (rates_pos curve.*1 (n_negative y_true)) by (by rewrite ?fmap_last, ?Hlast).
  rewrite (rates_pos curve.*2 (n_positive y_true)) by (by rewrite ?fmap_last, ?Hlast).
  assert (∀ total : Z, ∃ q, ((λ c, Fin (inject_Z c / inject_Z total)) <$> curve.*1) !! 0%nat
                            = Some (Fin q) ∧ q == 0) as H1.
  { intros total. destruct curve as [|p curve]; [done|]. injection Hhead as ->.
    eexists. split; [done|]. simpl. unfold Qdiv. by rewrite Qmult_0_l. }
  assert (∀ total : Z, ∃ q, ((λ c, Fin (inject_Z c / inject_Z total)) <$> curve.*2) !! 0%nat
                            = Some (Fin q) ∧ q == 0) as H2.
  { intros total. destruct curve as [|p curve]; [done|]. injection Hhead as ->.
    eexists. split; [done|]. simpl. unfold Qdiv. by rewrite Qmult_0_l. }
  split; [|apply H2].
  split; [by rewrite !length_fmap|]. split; [|split; [|split]].
  - intros i a b. rewrite !list_lookup_fmap.
    destruct (curve !! i) as [p|] eqn:Hp; [|done].
    destruct (curve !! S i) as [q|] eqn:Hq; [|done]. simpl. intros [= <-] [= <-].
    apply Qle_bool_iff, ratio_mono; [|done].
    by apply (StronglySorted_lookup_lt _ curve i (S i) p q Hsorted); [lia|..].
  - apply Forall_fmap, Forall_fmap. eapply Forall_impl; [exact Hbox|].
    intros [f t] [_ Ht]. simpl in *. eexists. split; [done|]. by apply ratio_unit.
  - apply H1.
  - eexists. split.
    + rewrite !fmap_last, Hlast. simpl. done.
    + simpl. field. intros E. unfold Qeq, inject_Z in E. simpl in E. lia.
Qed.

(** The value looked up after the interpolation: the x value at the first
    index whose y value equals the target. *)
Lemma getitem_first_match (x y : list float) (t : float) :
  length x = length y → present t y →
  ∃ i v, (index ← getitem (np_argwhere ((λ f, feqb f t) <$> y)) 0; getitem x index) = Ok v
         ∧ x !! i = Some v
         ∧ (∃ f, y !! i = Some f ∧ feqb f t = true)
         ∧ ∀ j f, (j < i)%nat → y !! j = Some f → feqb f t = false.
Proof.
  intros Hlen (w & Hw & E).
  apply list_elem_of_lookup in Hw as [k Hk].
  assert (k ∈ np_argwhere ((λ f, feqb f t) <$> y)) as Hin.
  { apply elem_of_np_argwhere. eauto. }
  destruct (np_argwhere ((λ f, feqb f t) <$> y)) as [|i rest] eqn:Hidx.
  { by apply elem_of_nil in Hin. }
  apply argwhere_from_head in Hidx as (i' & -> & Hi & Hbefore). simpl in *.
  rewrite list_lookup_fmap in Hi.
  destruct (y !! i') as [f|] eqn:Hf; [|done]. injection Hi as Hi.
  destruct (x !! i') as [v|] eqn:Hv.
  2:{ apply lookup_ge_None in Hv. apply lookup_lt_Some in Hf. lia. }
  exists i', v. repeat split.
  - by apply getitem_Ok.
  - done.
  - eauto.
  - intros j g Hj Hg. specialize (Hbefore j Hj).
    rewrite list_lookup_fmap, Hg in Hbefore. by injection Hbefore.
Qed.

Lemma compute_tpr_with_fpr_unfold (y_true : list bool) (y_score : list float)
    (chosen_fpr : float) (fpr tpr tpr' fpr' : list float) :
  roc_curve y_true y_score = Ok (fpr, tpr) →
  interpolation_step (tpr, fpr) chosen_fpr = Ok (tpr', fpr') →
  compute_tpr_with_fpr y_true y_score chosen_fpr
  = (index ← getitem (np_argwhere ((λ f, feqb f chosen_fpr) <$> fpr')) 0;
     getitem tpr' index).
Proof.
  intros Hroc Hstep. unfold compute_tpr_with_fpr. rewrite Hroc. simpl.
  unfold perform_interpolation. cbn [for_each]. by rewrite Hstep.
Qed.

Lemma curve_step (x y : list float) (c : Q) :
  curve_ok x y → 0 <= c <= 1 →
  ∃ x' y', interpolation_step (x, y) (Fin c) = Ok (x', y')
           ∧ curve_ok x' y' ∧ present (Fin c) y'.
Proof.
  intros Hok Hc.
  assert (present (Fin c) y ∨ (0 < c ∧ c < 1)) as [Hp|[Hlo Hhi]].
  { destruct Hok as (_ & _ & _ & (q0 & Hq0 & Hq0') & (q1 & Hq1 & Hq1')).
    destruct (Qlt_le_dec 0 c) as [?|?]; [destruct (Qlt_le_dec c 1) as [?|?]|].
    - by right.
    - left. exists (Fin q1). split; [by apply last_Some_elem_of|].
      apply Qeq_bool_iff. lra.
    - left. exists (Fin q0). split; [by eapply list_elem_of_lookup_2|].
      apply Qeq_bool_iff. lra. }
  - exists x, y. split; [by apply interpolation_step_present|done].
  - destruct (interpolation_step_curve_ok x y c Hok Hlo Hhi) as (x' & y' & Hstep & Hok').
    exists x', y'. split; [done|]. split; [done|].
    by apply interpolation_step_grows in Hstep as (_ & ? & _).
Qed.

(** X12: in exact arithmetic, when both classes are present, the scores
    are finite, and chosen_fpr lies in [[0, 1]], compute_tpr_with_fpr
    succeeds and returns a finite rate between 0 and 1.  In binary64 an
    interpolated rate can exceed 1 by rounding (lemma
    [compute_tpr_with_fpr_rounds_above_one]). *)
Theorem compute_tpr_with_fpr_range (y_true : list bool) (scores : list Q) (c : Q) :
  length y_true = length scores → true ∈ y_true → false ∈ y_true →
  0 <= c <= 1 →
  ∃ q, compute_tpr_with_fpr y_true (Fin <$> scores) (Fin c) = Ok (Fin q)
       ∧ 0 <= q <= 1.
Proof.
  intros Hlen Hpos Hneg Hc.
  destruct (roc_curve_ok_fpr y_true scores Hlen Hpos Hneg) as (fpr & tpr & Hroc & Hok & _).
  destruct (curve_step tpr fpr c Hok Hc) as (tpr' & fpr' & Hstep & Hok' & Hp).
  rewrite (compute_tpr_with_fpr_unfold _ _ _ _ _ _ _ Hroc Hstep).
  destruct Hok' as (Hlen' & _ & Hunit & _).
  destruct (getitem_first_match tpr' fpr' (Fin c) Hlen' Hp) as (i & v & -> & Hv & _).
  rewrite Forall_forall in Hunit.
  destruct (Hunit v) as (q & -> & Hq); [by eapply list_elem_of_lookup_2|].
  by exists q.
Qed.

Lemma compute_tpr_with_fpr_range_witness :
  ∃ q, compute_tpr_with_fpr [false; true; false; true]
         (Fin <$> [9#10; 8#10; 1#10; 7#10]) (Fin (1#4)) = Ok (Fin q)
       ∧ 0 <= q <= 1.
Proof.
  apply (compute_tpr_with_fpr_range [false; true; false; true] [9#10; 8#10; 1#10; 7#10] (1#4)).
  - reflexivity.
  - right. left.
  - left.
  - split; discriminate.
Defined.

(** X13: the TPR reported at a chosen FPR of 0 is always 0: the curve of
    roc_curve starts at the origin and the first point with FPR 0 is the
    one that is looked up. *)
Theorem compute_tpr_with_fpr_at_zero (y_true : list bool) (scores : list Q) :
  length y_true = length scores → true ∈ y_true → false ∈ y_true →
  ∃ q, compute_tpr_with_fpr y_true (Fin <$> scores) (Fin 0) = Ok (Fin q) ∧ q == 0.
Proof.
  intros Hlen Hpos Hneg.
  destruct (roc_curve_ok_fpr y_true scores Hlen Hpos Hneg)
    as (fpr & tpr & Hroc & Hok & (t0 & Ht0 & Ht0')).
  pose proof Hok as (Hlen' & _ & _ & (f0 & Hf0 & Hf0') & _).
  assert (present (Fin 0) fpr) as Hp.
  { exists (Fin f0). split; [by eapply list_elem_of_lookup_2|]. by apply Qeq_bool_iff. }
  rewrite (compute_tpr_with_fpr_unfold _ _ _ _ _ _ _ Hroc
             (interpolation_step_present tpr fpr (Fin 0) Hp)).
  destruct (getitem_first_match tpr fpr (Fin 0) Hlen' Hp) as (i & v & -> & Hv & _ & Hfirst).
  destruct i as [|i].
  - rewrite Ht0 in Hv. injection Hv as <-. by exists t0.
  - exfalso. assert (feqb (Fin f0) (Fin 0) = true) as E by (by apply Qeq_bool_iff).
    rewrite (Hfirst 0%nat (Fin f0)) in E; [done|lia|done].
Qed.

Lemma compute_tpr_with_fpr_at_zero_witness :
  ∃ q, compute_tpr_with_fpr [false; false; true; true]
         (Fin <$> [1#10; 2#10; 8#10; 9#10]) (Fin 0) = Ok (Fin q) ∧ q == 0.
Proof.
  apply (compute_tpr_with_fpr_at_zero [false; false; true; true] [1#10; 2#10; 8#10; 9#10]).
  - reflexivity.
  - right. right. left.
  - left.
Defined.

(** ** A chosen FPR that the curve cannot reach *)

Lemma roc_curve_fpr_values (y_true : list bool) (y_score fpr tpr : list float) :
  roc_curve y_true y_score = Ok (fpr, tpr) →
  Forall (λ v, v = NaN) fpr ∨ Forall unit_interval fpr.
Proof.
  intros (curve & -> & _ & _ & Hlast & Hbox & _)%roc_curve_Ok_inv.
  assert (last curve.*1 = Some (n_negative y_true)) as Hlast1.
  { by rewrite fmap_last, Hlast. }
  destruct (Z.le_gt_cases (n_negative y_true) 0) as [Hn|Hn].
  - left. rewrite (rates_nonpos _ _ Hlast1 Hn). apply Forall_fmap, Forall_forall. done.
  - right. rewrite (rates_pos _ _ Hlast1) by lia.
    apply Forall_fmap, Forall_fmap. eapply Forall_impl; [exact Hbox|].
    intros [f t] [Hf _]. simpl in *. eexists. split; [done|]. apply ratio_unit; lia.
Qed.

Lemma interpolation_step_outside (x y : list float) (c : Q) :
  Forall (λ v, v = NaN) y ∨ Forall unit_interval y →
  c < 0 ∨ 1 < c →
  ∃ e, interpolation_step (x, y) (Fin c) = Raise e.
Proof.
  intros Hy Hc. pose proof (interpolation_step_spec x y (Fin c)) as Hspec.
  destruct (interpolation_step (x, y) (Fin c)) as [[x' y']|e]; [exfalso|by exists e].
  assert (∀ v, v ∈ y → fltb v (Fin c) = true → fltb (Fin c) v = false
                        ∧ ∀ w, w ∈ y → fltb w (Fin c) = true) as Hbelow.
  { intros v Hv (a & ? & -> & [= <-] & Ha)%fltb_true.
    destruct Hy as [Hy|Hy]; rewrite Forall_forall in Hy.
    { by specialize (Hy _ Hv). }
    destruct (Hy _ Hv) as (? & [= <-] & Hunit). split.
    - apply not_true_is_false. simpl. rewrite Qlt_bool_iff. lra.
    - intros w Hw. destruct (Hy _ Hw) as (b & -> & Hb). simpl. apply Qlt_bool_iff.
      destruct Hc; lra. }
  destruct Hspec as [((v & Hv & E) & _)|(_ & p & yp & yf & xp & xf & Hlast & Hyp & Hyf & _)].
  - apply feqb_true in E as (a & ? & -> & [= <-] & E).
    destruct Hy as [Hy|Hy]; rewrite Forall_forall in Hy.
    + by specialize (Hy _ Hv).
    + destruct (Hy _ Hv) as (? & [= <-] & Hunit). destruct Hc; lra.
  - destruct Hlast as [(? & Hyp' & Hlt) Hafter].
    rewrite Hyp in Hyp'. injection Hyp' as <-.
    destruct (Hbelow yp) as [_ Hall]; [by eapply list_elem_of_lookup_2|done|].
    specialize (Hall yf (list_elem_of_lookup_2 _ _ _ Hyf)).
    rewrite (Hafter (S p) yf) in Hall; [done|lia|done].
Qed.

(** X14: a chosen FPR that is NaN or lies outside [[0, 1]] is never on the
    curve and cannot be interpolated: compute_tpr_with_fpr raises an
    exception, for every input. *)
Theorem compute_tpr_with_fpr_rejects (y_true : list bool) (y_score : list float)
    (chosen_fpr : float) :
  chosen_fpr = NaN ∨ (∃ c, chosen_fpr = Fin c ∧ (c < 0 ∨ 1 < c)) →
  ∃ e, compute_tpr_with_fpr y_true y_score chosen_fpr = Raise e.
Proof.
  intros Hc. unfold compute_tpr_with_fpr.
  destruct (roc_curve y_true y_score) as [[fpr tpr]|e] eqn:Hroc; [|by exists e].
  simpl. unfold perform_interpolation. cbn [for_each].
  assert (∃ e, interpolation_step (tpr, fpr) chosen_fpr = Raise e) as [e ->].
  { destruct Hc as [->|(c & -> & Hc)].
    - rewrite interpolation_step_NaN. by eexists.
    - apply interpolation_step_outside; [|done]. by eapply roc_curve_fpr_values. }
  by exists e.
Qed.

Lemma compute_tpr_with_fpr_rejects_witness :
  ∃ e, compute_tpr_with_fpr [false; true; false; true]
         (Fin <$> [9#10; 8#10; 1#10; 7#10]) (Fin (3#2)) = Raise e.
Proof.
  apply (compute_tpr_with_fpr_rejects [false; true; false; true]
           (Fin <$> [9#10; 8#10; 1#10; 7#10]) (Fin (3#2))).
  right. exists (3#2). split; [reflexivity|]. right. reflexivity.
Defined.

(** ** The weighted AUC as a function of the weights *)

(** On a sample with both classes the first half of compute_Weighted_AUC
    (the grid, the ROC curve and its interpolation at the interior grid
    points, all strictly between 0 and 1) succeeds and leaves a well-formed
    curve that holds every grid point above 0; what remains is the loop over the bands and the weighted
    sum, and only the latter looks at the values of the weights. *)
Lemma compute_Weighted_AUC_loop (y_true : list bool) (scores : list Q) (W : nat) :
  length y_true = length scores → true ∈ y_true → false ∈ y_true → (1 ≤ W)%nat →
  let qs := ((λ i : nat, inject_Z (Z.of_nat i) * ((1 - 0) / inject_Z (Z.of_nat W)) + 0)
               <$> seq 0 W) ++ [1] in
  ∃ fpr tpr fpr' tpr',
    roc_curve y_true (Fin <$> scores) = Ok (fpr, tpr)
    ∧ perform_interpolation fpr tpr (Fin <$> take (W - 1) (drop 1 qs)) = Ok (fpr', tpr')
    ∧ Forall (λ q, 0 < q ∧ q < 1) (take (W - 1) (drop 1 qs))
    ∧ curve_ok fpr tpr ∧ curve_ok fpr' tpr'
    ∧ (∀ k b, (1 ≤ k ≤ W)%nat → qs !! k = Some b → present (Fin b) tpr')
    ∧ ∀ weights : list float, length weights = W →
        compute_Weighted_AUC y_true (Fin <$> scores) weights
        = ('(_, area_array) ← for_each (area_step fpr' tpr' (Fin <$> qs))
                                (0%Z, replicate W (Fin 0)) (seq 0 W);
           Ok (np_sum (zip_with fmul area_array
                         ((λ w, fdiv w (np_mean weights)) <$> weights)))).
Proof.
  intros Hlen Hpos Hneg HW qs.
  pose proof (inject_Z_nat_pos W HW) as HL.
  pose proof (grid_length W) as Hqs. fold qs in Hqs.
  destruct (roc_curve_ok y_true scores Hlen Hpos Hneg) as (fpr & tpr & Hroc & Hok).
  set (T := take (W - 1) (drop 1 qs)).
  assert (∀ k b, (1 ≤ k)%nat → (k < W)%nat → qs !! k = Some b → b ∈ T) as HT.
  { intros k b Hk1 HkW Hb. unfold T. apply list_elem_of_lookup. exists (k - 1)%nat.
    rewrite lookup_take_lt by lia. rewrite lookup_drop.
    by replace (1 + (k - 1))%nat with k by lia. }
  assert (Forall (λ q, 0 < q ∧ q < 1) T) as HTunit.
  { apply Forall_forall. intros b Hb. unfold T in Hb.
    apply list_elem_of_lookup in Hb as [j Hj].
    apply lookup_take_Some in Hj as [Hj Hjlt]. rewrite lookup_drop in Hj.
    apply (grid_lookup W (1 + j) b HW) in Hj as [_ Hj].
    assert (inject_Z (Z.of_nat (1 + j)) == inject_Z (Z.of_nat j) + 1) as Hj1.
    { apply (inject_Z_S j). }
    pose proof (inject_Z_nat_le 0 j (Nat.le_0_l j)) as Hj0.
    change (inject_Z (Z.of_nat 0)) with 0 in Hj0.
    pose proof (inject_Z_nat_le (S (1 + j)) W ltac:(lia)) as HjW.
    rewrite (inject_Z_S (1 + j)) in HjW.
    rewrite Hj. split.
    - apply Qlt_shift_div_l; lra.
    - apply Qlt_shift_div_r; lra. }
  destruct (perform_interpolation_curve_ok T fpr tpr Hok HTunit)
    as (fpr' & tpr' & Hinterp & Hok').
  exists fpr, tpr, fpr', tpr'. split; [done|]. split; [done|]. split; [done|].
  split; [done|]. split; [done|]. split.
  - intros k b [Hk1 Hk] Hb.
    pose proof (perform_interpolation_grows _ _ _ _ _ Hinterp) as (_ & _ & Hpresent & _).
    destruct (decide (k < W)%nat) as [Hlt|Hge].
    + apply Hpresent. apply list_elem_of_fmap. exists b. split; [done|]. by apply (HT k).
    + assert (k = W) as -> by lia.
      destruct Hok' as (_ & _ & _ & _ & (q1 & Hq1 & Hq1')).
      apply (grid_lookup W W b HW) in Hb as [_ Hb].
      exists (Fin q1). split; [by apply last_Some_elem_of|].
      apply Qeq_bool_iff. rewrite Hq1', Hb. field. lra.
  - intros weights Hwl. unfold compute_Weighted_AUC. rewrite Hwl.
    rewrite np_linspace_unit by done. cbn [mbind res_bind]. fold qs.
    rewrite Hroc. cbn [mbind res_bind].
    rewrite py_slice_interior, length_fmap, Hqs, <- fmap_drop, <- fmap_take.
    replace (S W - 1 - 1)%nat with (W - 1)%nat by lia. fold T.
    rewrite Hinterp. cbn [mbind res_bind]. done.
Qed.

(** The band areas: one finite value of [[0, 1/W]] per weight, the same
    for every choice of the weights. *)
Lemma compute_Weighted_AUC_areas (y_true : list bool) (scores : list Q) (W : nat) :
  length y_true = length scores → true ∈ y_true → false ∈ y_true → (1 ≤ W)%nat →
  ∃ areas,
    Forall (bounded_by (1 / inject_Z (Z.of_nat W))) areas ∧ length areas = W
    ∧ ∀ weights : list float, length weights = W →
        compute_Weighted_AUC y_true (Fin <$> scores) weights
        = Ok (np_sum (zip_with fmul areas ((λ w, fdiv w (np_mean weights)) <$> weights))).
Proof.
  intros Hlen Hpos Hneg HW.
  pose proof (inject_Z_nat_pos W HW) as HL.
  destruct (compute_Weighted_AUC_loop y_true scores W Hlen Hpos Hneg HW)
    as (fpr & tpr & fpr' & tpr' & _ & _ & _ & _ & Hok' & Hpresent & Hrest).
  set (qs := ((λ i : nat, inject_Z (Z.of_nat i) * ((1 - 0) / inject_Z (Z.of_nat W)) + 0)
                <$> seq 0 W) ++ [1]) in *.
  pose proof (grid_length W) as Hqs. fold qs in Hqs.
  pose proof Hok' as (_ & _ & _ & (q0 & Hq0 & Hq0') & _).
  destruct (area_loop (1 / inject_Z (Z.of_nat W)) fpr' tpr' qs W) with
    (m := W) (k0 := 0%nat) (lo := 0%nat) (areas := replicate W (Fin 0))
    as (hi & areas & Hloop & Hareas & Hlareas); try done.
  { apply Qle_shift_div_l; lra. }
  { intros k bk bk1 Hk Hbk Hbk1.
    pose proof Hbk1 as Hbk1'.
    apply (grid_lookup W k bk HW) in Hbk as [_ Hbk].
    apply (grid_lookup W (k + 1) bk1 HW) in Hbk1 as [_ Hbk1].
    assert (inject_Z (Z.of_nat (k + 1)) == inject_Z (Z.of_nat k) + 1) as Hk1.
    { replace (k + 1)%nat with (S k) by lia. apply inject_Z_S. }
    assert (bk1 - bk == 1 / inject_Z (Z.of_nat W)) as Hdiff.
    { rewrite Hbk, Hbk1, Hk1. field. lra. }
    assert (0 <= 1 / inject_Z (Z.of_nat W)) by (apply Qle_shift_div_l; lra).
    split; [lra|]. split; [lra|]. apply (Hpresent (k + 1)%nat); [lia|done]. }
  { exists q0, (inject_Z (Z.of_nat 0) * ((1 - 0) / inject_Z (Z.of_nat W)) + 0).
    split; [|split; [done|]].
    - unfold qs. rewrite lookup_app_l by (rewrite length_fmap, length_seq; lia).
      rewrite list_lookup_fmap, lookup_seq_lt by lia. done.
    - rewrite Hq0'. change (inject_Z (Z.of_nat 0)) with 0. field. lra. }
  { apply Forall_replicate. exists 0. split; [done|]. split; [lra|].
    apply Qle_shift_div_l; lra. }
  change (Z.of_nat 0) with 0%Z in Hloop.
  exists areas. split; [done|]. split; [by rewrite Hlareas, length_replicate|].
  intros weights Hwl. rewrite (Hrest weights Hwl), Hloop. done.
Qed.

(** X15: with an empty weight_distribution there is no band: on every
    sample that roc_curve accepts the score is 0.0, and an exception of
    roc_curve is passed on. *)
Theorem compute_Weighted_AUC_no_weights (y_true : list bool) (y_score : list float) :
  compute_Weighted_AUC y_true y_score []
  = (roc_curve y_true y_score ≫= λ _, Ok (Fin 0)).
Proof.
  unfold compute_Weighted_AUC. simpl.
  by destruct (roc_curve y_true y_score) as [[fpr tpr]|e].
Qed.

Lemma foldl_fadd_NaN (l : list float) : foldl fadd NaN l = NaN.
Proof. by induction l. Qed.

(** X16: weights that are all zero have mean 0 and are normalised to
    0/0: on a sample with both classes the score is NaN. *)
Theorem compute_Weighted_AUC_zero_weights (y_true : list bool) (scores : list Q) (W : nat) :
  length y_true = length scores → true ∈ y_true → false ∈ y_true → (1 ≤ W)%nat →
  compute_Weighted_AUC y_true (Fin <$> scores) (replicate W (Fin 0)) = Ok NaN.
Proof.
  intros Hlen Hpos Hneg HW.
  destruct (compute_Weighted_AUC_areas y_true scores W Hlen Hpos Hneg HW)
    as (areas & Hareas & Hla & ->); [|by rewrite length_replicate].
  f_equal.
  assert (np_mean (replicate W (Fin 0)) = Fin (0 / inject_Z (Z.of_nat W))) as ->.
  { unfold np_mean. rewrite length_replicate.
    assert (np_sum (replicate W (Fin 0)) = Fin 0) as ->.
    { unfold np_sum. clear. induction W as [|W IH]; [done|]. simpl. exact IH. }
    simpl. destruct (Qeq_bool (inject_Z (Z.of_nat W)) 0) eqn:E; [|done].
    apply Qeq_bool_iff in E. pose proof (inject_Z_nat_pos W HW). lra. }
  rewrite fmap_replicate.
  assert (fdiv (Fin 0) (Fin (0 / inject_Z (Z.of_nat W))) = NaN) as ->.
  { simpl. destruct (Qeq_bool (0 / inject_Z (Z.of_nat W)) 0) eqn:E; [done|].
    apply Qeq_bool_neq in E. destruct E. unfold Qdiv. apply Qmult_0_l. }
  destruct areas as [|a areas]; [simpl in Hla; lia|].
  destruct W as [|W]; [lia|].
  unfold np_sum. cbn [replicate zip_with foldl].
  assert (fadd (Fin 0) (fmul a NaN) = NaN) as -> by (by destruct a).
  apply foldl_fadd_NaN.
Qed.

Lemma compute_Weighted_AUC_zero_weights_witness :
  compute_Weighted_AUC [false; false; true; true]
    (Fin <$> [1#10; 4#10; 35#100; 8#10]) (replicate 3 (Fin 0)) = Ok NaN.
Proof.
  apply (compute_Weighted_AUC_zero_weights [false; false; true; true]
           [1#10; 4#10; 35#100; 8#10] 3).
  - reflexivity.
  - do 2 right. left.
  - left.
  - lia.
Defined.

Lemma np_sum_zero_mean (areas weights : list float) (m : Q) :
  m == 0 → areas ≠ [] → weights ≠ [] →
  np_sum (zip_with fmul areas ((λ w, fdiv w (Fin m)) <$> weights)) = NaN.
Proof.
  intros Hm Ha Hw. destruct areas as [|a areas]; [done|]. destruct weights as [|w weights]; [done|].
  unfold np_sum. cbn [fmap list_fmap zip_with foldl].
  assert (fdiv w (Fin m) = NaN) as ->.
  { destruct w as [p|]; [|done]. simpl. by rewrite (proj2 (Qeq_bool_iff m 0) Hm). }
  assert (fadd (Fin 0) (fmul a NaN) = NaN) as -> by (by destruct a).
  apply foldl_fadd_NaN.
Qed.

Lemma Qsum_scale (c : Q) (wq : list Q) : Qsum ((λ w, c * w) <$> wq) == c * Qsum wq.
Proof. induction wq as [|w wq IH]; simpl; [ring|]. rewrite IH. ring. Qed.

Lemma Qsum_zip_scale (c m m' : Q) (aq wq : list Q) :
  ¬ c == 0 → ¬ m == 0 → m' == c * m →
  Qsum (zip_with (λ a w, a * (w / m')) aq ((λ w, c * w) <$> wq))
  == Qsum (zip_with (λ a w, a * (w / m)) aq wq).
Proof.
  intros Hc Hm Hm'. revert wq. induction aq as [|a aq IH]; intros wq; [reflexivity|].
  destruct wq as [|w wq]; [reflexivity|]. simpl. rewrite IH, Hm'. field. done.
Qed.

Lemma np_mean_Fin (wq : list Q) :
  wq ≠ [] →
  ∃ m, np_mean (Fin <$> wq) = Fin m
       ∧ m == Qsum wq / inject_Z (Z.of_nat (length wq)).
Proof.
  intros Hne. unfold np_mean. rewrite length_fmap.
  destruct (np_sum_Fin wq) as (s & -> & Hs).
  assert (0 < inject_Z (Z.of_nat (length wq))) as HL.
  { apply inject_Z_nat_pos. destruct wq; [done|simpl; lia]. }
  simpl. destruct (Qeq_bool (inject_Z (Z.of_nat (length wq))) 0) eqn:E.
  { apply Qeq_bool_iff in E. lra. }
  eexists. split; [done|]. by rewrite Hs.
Qed.

(** X17: only the proportions of the weights matter: multiplying every
    weight by the same non-zero factor leaves the score unchanged (up to
    the rounding that the model does not track). *)
Theorem compute_Weighted_AUC_scale (y_true : list bool) (scores wq : list Q) (c : Q) :
  length y_true = length scores → true ∈ y_true → false ∈ y_true →
  wq ≠ [] → ¬ c == 0 →
  ∃ v v',
    compute_Weighted_AUC y_true (Fin <$> scores) (Fin <$> ((λ w, c * w) <$> wq)) = Ok v
    ∧ compute_Weighted_AUC y_true (Fin <$> scores) (Fin <$> wq) = Ok v'
    ∧ float_equiv v v'.
Proof.
  intros Hlen Hpos Hneg Hne Hc.
  assert (1 ≤ length wq)%nat as HW by (destruct wq; [done|simpl; lia]).
  pose proof (inject_Z_nat_pos _ HW) as HL.
  destruct (compute_Weighted_AUC_areas y_true scores (length wq) Hlen Hpos Hneg HW)
    as (areas & Hareas & Hla & Hall).
  rewrite !Hall by (by rewrite !length_fmap).
  eexists _, _. split; [done|]. split; [done|].
  assert ((λ w, c * w) <$> wq ≠ []) as Hne' by (by destruct wq).
  destruct (np_mean_Fin wq Hne) as (m & -> & Hm).
  destruct (np_mean_Fin _ Hne') as (m' & -> & Hm').
  rewrite length_fmap, Qsum_scale in Hm'.
  assert (m' == c * m) as Hmm.
  { rewrite Hm, Hm'. field. lra. }
  assert (areas ≠ []) as Hane by (intros ->; simpl in Hla; lia).
  destruct (Qeq_dec m 0) as [H0|H0].
  - rewrite !np_sum_zero_mean; try done.
    + by destruct wq.
    + rewrite Hmm, H0. ring.
    + by destruct wq.
  - assert (¬ m' == 0) as H0'.
    { rewrite Hmm. intros E. apply Qmult_integral in E as [?|?]; done. }
    destruct (Forall_bounded_Fin _ _ Hareas) as (aq & -> & _).
    rewrite !zip_with_fmul_Fin by done.
    destruct (np_sum_Fin (zip_with (λ a w, a * (w / m')) aq ((λ w, c * w) <$> wq)))
      as (q & -> & Hq).
    destruct (np_sum_Fin (zip_with (λ a w, a * (w / m)) aq wq)) as (q' & -> & Hq').
    simpl. rewrite Hq, Hq'. by apply Qsum_zip_scale.
Qed.

Lemma compute_Weighted_AUC_scale_witness :
  ∃ v v',
    compute_Weighted_AUC [false; false; true; true] (Fin <$> [1#10; 4#10; 35#100; 8#10])
      (Fin <$> ((λ w, (5#2) * w) <$> [4; 3; 2; 1; 0])) = Ok v
    ∧ compute_Weighted_AUC [false; false; true; true] (Fin <$> [1#10; 4#10; 35#100; 8#10])
        (Fin <$> [4; 3; 2; 1; 0]) = Ok v'
    ∧ float_equiv v v'.
Proof.
  apply (compute_Weighted_AUC_scale [false; false; true; true]
           [1#10; 4#10; 35#100; 8#10] [4; 3; 2; 1; 0] (5#2)).
  - reflexivity.
  - do 2 right. left.
  - left.
  - discriminate.
  - discriminate.
Defined.

(** ** The ROC curve sees the scores only through their order *)

Lemma Qeq_bool_le (u v : Q) : Qeq_bool u v = Qle_bool u v && Qle_bool v u.
Proof.
  apply eq_true_iff_eq. rewrite andb_true_iff, Qeq_bool_iff, !Qle_bool_iff.
  split; [intros ->; split; apply Qle_refl|intros [? ?]; by apply Qle_antisym].
Qed.

Lemma binary_clf_curve_fmap (f : Q → Q) (samples : list (bool * Q)) (fps tps : Z) :
  (∀ p q, p ∈ samples → q ∈ samples → Qeq_bool (f p.2) (f q.2) = Qeq_bool p.2 q.2) →
  binary_clf_curve fps tps (prod_map id f <$> samples) = binary_clf_curve fps tps samples.
Proof.
  revert fps tps. induction samples as [|[label score] rest IH]; intros fps tps Hf; [done|].
  rewrite fmap_cons. unfold prod_map at 1. cbn [fst snd id].
  rewrite !binary_clf_curve_cons. cbn zeta.
  assert (∀ fps tps, binary_clf_curve fps tps (prod_map id f <$> rest)
                     = binary_clf_curve fps tps rest) as IH'.
  { intros fps' tps'. apply IH. intros p q Hp Hq. apply Hf; by apply list_elem_of_further. }
  destruct rest as [|[label' score'] rest'] eqn:Hrest; [done|].
  rewrite <- Hrest in *. rewrite !IH'.
  rewrite Hrest at 1. rewrite fmap_cons. unfold prod_map at 1. cbn [fst snd id].
  pose proof (Hf (label, score) (label', score')) as Heq. cbn [snd] in Heq.
  rewrite Heq; [done|left|right; rewrite Hrest; left].
Qed.

Lemma roc_curve_fmap (f : Q → Q) (y_true : list bool) (scores : list Q) :
  (∀ u v, u ∈ scores → v ∈ scores → Qle_bool (f u) (f v) = Qle_bool u v) →
  roc_curve y_true (Fin <$> (f <$> scores)) = roc_curve y_true (Fin <$> scores).
Proof.
  intros Hf. unfold roc_curve. rewrite !length_fmap, !all_scores_Fin.
  destruct (decide (length y_true ≠ length scores)); [done|].
  assert (∀ p, p ∈ zip y_true scores → p.2 ∈ scores) as Hsnd.
  { intros [b s] Hp. simpl. by eapply elem_of_zip_r. }
  assert (reverse (stable_sort (by_snd Qle_bool) (zip y_true (f <$> scores)))
          = prod_map id f <$> reverse (stable_sort (by_snd Qle_bool) (zip y_true scores)))
    as ->.
  { rewrite fmap_reverse. f_equal.
    rewrite <- (stable_sort_fmap (by_snd Qle_bool) (by_snd Qle_bool) (prod_map id f)).
    - f_equal. apply list_eq. intros i. rewrite list_lookup_fmap, !lookup_zip_with.
      rewrite list_lookup_fmap.
      destruct (y_true !! i); [|done]. simpl. by destruct (scores !! i).
    - intros p q Hp Hq. unfold by_snd. simpl. apply Hf; by apply Hsnd. }
  rewrite binary_clf_curve_fmap; [done|].
  intros p q Hp Hq. rewrite !Qeq_bool_le.
  rewrite reverse_Permutation, stable_sort_Permutation in Hp, Hq.
  by rewrite !Hf by (by apply Hsnd).
Qed.

(** X18: compute_Weighted_AUC and compute_tpr_with_fpr see the scores only
    through their order: a transformation of the scores that preserves the
    comparison of every pair of them changes neither result. *)
Theorem scores_order_invariant (f : Q → Q) (y_true : list bool) (scores : list Q)
    (weight_distribution : list float) (chosen_fpr : float) :
  (∀ u v, u ∈ scores → v ∈ scores → Qle_bool (f u) (f v) = Qle_bool u v) →
  compute_Weighted_AUC y_true (Fin <$> (f <$> scores)) weight_distribution
  = compute_Weighted_AUC y_true (Fin <$> scores) weight_distribution
  ∧ compute_tpr_with_fpr y_true (Fin <$> (f <$> scores)) chosen_fpr
    = compute_tpr_with_fpr y_true (Fin <$> scores) chosen_fpr.
Proof.
  intros Hf. unfold compute_Weighted_AUC, compute_tpr_with_fpr.
  by rewrite (roc_curve_fmap f y_true scores Hf).
Qed.

Lemma scores_order_invariant_witness :
  compute_Weighted_AUC [false; false; true; true]
    (Fin <$> ((λ s, 3 * s - 1) <$> [1#10; 4#10; 35#100; 8#10])) default_weight_distribution
  = compute_Weighted_AUC [false; false; true; true]
      (Fin <$> [1#10; 4#10; 35#100; 8#10]) default_weight_distribution
  ∧ compute_tpr_with_fpr [false; false; true; true]
      (Fin <$> ((λ s, 3 * s - 1) <$> [1#10; 4#10; 35#100; 8#10])) (Fin (1#4))
    = compute_tpr_with_fpr [false; false; true; true]
        (Fin <$> [1#10; 4#10; 35#100; 8#10]) (Fin (1#4)).
Proof.
  apply (scores_order_invariant (λ s, 3 * s - 1) [false; false; true; true]
           [1#10; 4#10; 35#100; 8#10] default_weight_distribution (Fin (1#4))).
  intros u v Hu Hv.
  repeat (apply elem_of_cons in Hu as [->|Hu]);
    [repeat (apply elem_of_cons in Hv as [->|Hv]);
       [reflexivity..|by apply elem_of_nil in Hv]..|by apply elem_of_nil in Hu].
Defined.

Lemma StronglySorted_reverse {A : Type} (R : relation A) (l : list A) :
  StronglySorted R l → StronglySorted (flip R) (reverse l).
Proof.
  induction 1 as [|x l Hl IH Hall]; [constructor|].
  rewrite reverse_cons. apply StronglySorted_app. split; [|split; [done|repeat constructor]].
  intros a b Ha Hb. apply list_elem_of_singleton in Hb as ->.
  rewrite Forall_forall in Hall. apply Hall. by apply elem_of_reverse.
Qed.


(** ** The report of perform_evaluation *)

Lemma printing_bind_Ok {A B : Type} (m : printing A) (f : A → printing B)
    (out : list line) (a : A) :
  m = (out, Ok a) → m ≫= f = (out ++ (f a).1, (f a).2).
Proof. by intros ->. Qed.

Lemma printing_bind_Raise {A B : Type} (m : printing A) (f : A → printing B)
    (out : list line) (e : exn) :
  m = (out, Raise e) → m ≫= f = (out, Raise e).
Proof. by intros ->. Qed.

Lemma lift_bind_Ok {A B : Type} (a : A) (f : A → printing B) : lift (Ok a) ≫= f = f a.
Proof. unfold lift, mbind, printing_bind. simpl. by destruct (f a). Qed.

Lemma evaluate_step_skip (F : folder) (st : list String.string * list float)
    (path : String.string) :
  scored_file F path = false → evaluate_step F st path = ([], Ok st).
Proof.
  unfold scored_file, evaluate_step. destruct st as [names scores].
  intros H%negb_false_iff. by rewrite H.
Qed.

Lemma evaluate_step_score (F : folder) (names : list String.string) (scores : list float)
    (path : String.string) (r : res float) :
  scored_file F path = true →
  compute_Weighted_AUC (groundtruth_label F) (prediction_column F path)
    default_weight_distribution = r →
  evaluate_step F (names, scores) path
  = match r with
    | Ok score => ([Achieved (basename path) score],
                   Ok (names ++ [basename path], scores ++ [score]))
    | Raise e => ([], Raise e)
    end.
Proof.
  unfold scored_file, evaluate_step. intros H%negb_true_iff <-. rewrite H.
  by destruct (compute_Weighted_AUC (groundtruth_label F) (prediction_column F path)
                 default_weight_distribution).
Qed.

Lemma evaluate_loop (F : folder) (paths : list String.string)
    (names : list String.string) (scores new_scores : list float) :
  Forall2 (achieves F) (filter (λ p, scored_file F p = true) paths) new_scores →
  for_each_printing (evaluate_step F) (names, scores) paths
  = (zip_with Achieved (basename <$> filter (λ p, scored_file F p = true) paths) new_scores,
     Ok (names ++ (basename <$> filter (λ p, scored_file F p = true) paths),
         scores ++ new_scores)).
Proof.
  revert names scores new_scores.
  induction paths as [|path paths IH]; intros names scores new_scores Hall.
  { apply Forall2_nil_inv_l in Hall as ->. simpl. by rewrite !app_nil_r. }
  cbn [for_each_printing]. destruct (scored_file F path) eqn:Hs.
  - rewrite filter_cons_True in Hall |- * by done.
    apply Forall2_cons_inv_l in Hall as (score & rest & Hscore & Hall & ->).
    erewrite printing_bind_Ok; [|by apply (evaluate_step_score F names scores path (Ok score))].
    rewrite (IH _ _ rest Hall). simpl. by rewrite <- !app_assoc.
  - rewrite filter_cons_False in Hall |- * by (by rewrite Hs).
    erewrite printing_bind_Ok; [|by apply evaluate_step_skip].
    by rewrite (IH _ _ new_scores Hall).
Qed.

Lemma evaluate_loop_abort (F : folder) (paths pre post : list String.string)
    (path : String.string) (names : list String.string) (scores new_scores : list float)
    (e : exn) :
  filter (λ p, scored_file F p = true) paths = pre ++ path :: post →
  Forall2 (achieves F) pre new_scores →
  compute_Weighted_AUC (groundtruth_label F) (prediction_column F path)
    default_weight_distribution = Raise e →
  for_each_printing (evaluate_step F) (names, scores) paths
  = (zip_with Achieved (basename <$> pre) new_scores, Raise e).
Proof.
  revert names scores pre new_scores.
  induction paths as [|p paths IH]; intros names scores pre new_scores Hf Hall He.
  { by destruct pre. }
  cbn [for_each_printing]. destruct (scored_file F p) eqn:Hs.
  - rewrite filter_cons_True in Hf by done.
    destruct pre as [|q pre]; simpl in Hf; injection Hf as -> Hf.
    + apply Forall2_nil_inv_l in Hall as ->.
      erewrite printing_bind_Raise; [done|].
      by apply (evaluate_step_score F names scores path (Raise e)).
    + apply Forall2_cons_inv_l in Hall as (score & rest & Hscore & Hall & ->).
      erewrite printing_bind_Ok; [|by apply (evaluate_step_score F names scores q (Ok score))].
      by rewrite (IH _ _ pre rest Hf Hall He).
  - rewrite filter_cons_False in Hf by (by rewrite Hs).
    erewrite printing_bind_Ok; [|by apply evaluate_step_skip].
    by rewrite (IH _ _ pre new_scores Hf Hall He).
Qed.

(** The mask of an array starts with the element at the first index where
    the flag holds. *)
Lemma mask_first {A : Type} (a : list A) (flag : list bool) (i : nat) (x : A) :
  flag !! i = Some true → (∀ j, (j < i)%nat → flag !! j = Some false) →
  a !! i = Some x → mask a flag !! 0%nat = Some x.
Proof.
  revert flag i. induction a as [|y a IH]; intros flag i Hi Hbefore Hx; [done|].
  destruct flag as [|b flag]; [done|]. destruct i as [|i]; simpl in *.
  - by injection Hi as ->.
  - specialize (Hbefore 0%nat ltac:(lia)) as Hb. injection Hb as ->.
    apply (IH flag i); [done| |done]. intros j Hj. apply (Hbefore (S j)). lia.
Qed.

Lemma first_true (flag : list bool) (i : nat) :
  flag !! i = Some true →
  ∃ i0, flag !! i0 = Some true ∧ ∀ j, (j < i0)%nat → flag !! j = Some false.
Proof.
  revert i. induction flag as [|b flag IH]; intros i Hi; [done|].
  destruct b.
  - exists 0%nat. split; [done|]. intros j Hj. lia.
  - destruct i as [|i]; [done|]. destruct (IH i Hi) as (i0 & Hi0 & Hbefore).
    exists (S i0). split; [done|]. intros [|j] Hj; [done|]. apply Hbefore. lia.
Qed.

Lemma np_max_perm_seq (ranks : list nat) (n : nat) :
  ranks ≡ₚ seq 0 (S n) → np_max ranks = Ok n.
Proof.
  intros Hperm.
  assert (n ∈ ranks) as Hn by (rewrite Hperm; apply elem_of_seq; lia).
  assert (∀ r, r ∈ ranks → (r ≤ n)%nat) as Hle.
  { intros r Hr. rewrite Hperm in Hr. apply elem_of_seq in Hr. lia. }
  destruct ranks as [|a l]; [by apply elem_of_nil in Hn|]. simpl.
  destruct (foldl_max_spec l a) as [Hin Hmax].
  apply Hle in Hin. apply Hmax in Hn. f_equal. lia.
Qed.

(** Sorting the pairs [(name, score)] moves the names as sorting the pairs
    [(index, score)] moves the indices. *)
Lemma sorted_zip_lookup (names : list String.string) (scores : list float)
    (r i : nat) (name : String.string) (score : float) :
  stable_sort (by_snd sort_leb) (imap pair scores) !! r = Some (i, score) →
  names !! i = Some name → length names = length scores →
  stable_sort (by_snd sort_leb) (zip names scores) !! r = Some (name, score).
Proof.
  intros Hr Hname Hlen.
  set (g := λ p : nat * float, (default String.EmptyString (names !! p.1), p.2)).
  assert (zip names scores = g <$> imap pair scores) as ->.
  { apply list_eq. intros k. rewrite list_lookup_fmap, list_lookup_imap.
    rewrite lookup_zip_with.
    destruct (scores !! k) as [s|] eqn:Hs; simpl.
    - destruct (names !! k) as [nm|] eqn:Hn; simpl.
      + unfold g. simpl. by rewrite Hn.
      + apply lookup_ge_None in Hn. apply lookup_lt_Some in Hs. lia.
    - by destruct (names !! k). }
  rewrite (stable_sort_fmap (by_snd sort_leb) (by_snd sort_leb) g) by done.
  rewrite list_lookup_fmap, Hr. simpl. unfold g. simpl. by rewrite Hname.
Qed.

Lemma rank_step_run (names : list String.string) (scores : list float) (k : nat) :
  length names = length scores → (k < length scores)%nat →
  ∃ p, stable_sort (by_snd sort_leb) (zip names scores) !! (length scores - 1 - k)%nat
       = Some p
       ∧ rank_step names scores (get_ranks scores) tt k
         = ([Ranked p.1 p.2 (k + 1)], Ok tt).
Proof.
  intros Hlen Hk.
  pose proof (get_ranks_perm_seq scores) as Hperm.
  pose proof (Permutation_length Hperm) as Hrl. rewrite length_seq in Hrl.
  destruct (length scores) as [|n] eqn:Hn; [lia|].
  assert ((n - k)%nat ∈ get_ranks scores) as Hin.
  { rewrite Hperm. apply elem_of_seq. lia. }
  apply list_elem_of_lookup in Hin as [i Hi].
  set (flag := (λ r, (Z.of_nat r =? Z.of_nat n - Z.of_nat k)%Z) <$> get_ranks scores).
  assert (flag !! i = Some true) as Hflag.
  { unfold flag. rewrite list_lookup_fmap, Hi. simpl. f_equal. apply Z.eqb_eq. lia. }
  destruct (first_true flag i Hflag) as (i0 & Hi0 & Hbefore).
  assert (get_ranks scores !! i0 = Some (n - k)%nat) as Hr0.
  { unfold flag in Hi0. rewrite list_lookup_fmap in Hi0.
    destruct (get_ranks scores !! i0) as [r|]; [|done]. simpl in Hi0.
    injection Hi0 as Hi0%Z.eqb_eq. f_equal. lia. }
  assert (i0 < S n)%nat as Hi0lt by (apply lookup_lt_Some in Hr0; lia).
  destruct (lookup_lt_is_Some_2 scores i0) as [score Hscore]; [lia|].
  destruct (lookup_lt_is_Some_2 names i0) as [name Hname]; [lia|].
  exists (name, score). split.
  - replace (S n - 1 - k)%nat with (n - k)%nat by lia.
    apply (sorted_zip_lookup names scores (n - k) i0); [|done|lia].
    by apply get_ranks_position.
  - unfold rank_step. rewrite (np_max_perm_seq _ n Hperm), lift_bind_Ok. fold flag.
    assert (length flag = S n) as Hfl by (unfold flag; by rewrite length_fmap).
    unfold np_mask. rewrite !decide_False by lia.
    rewrite lift_bind_Ok.
    rewrite (proj2 (getitem_Ok _ _ _) (mask_first names flag i0 name Hi0 Hbefore Hname)).
    rewrite !lift_bind_Ok.
    rewrite (proj2 (getitem_Ok _ _ _) (mask_first scores flag i0 score Hi0 Hbefore Hscore)).
    by rewrite lift_bind_Ok.
Qed.

Lemma rank_loop (names : list String.string) (scores : list float) (j m : nat) :
  length names = length scores → (j + m = length scores)%nat →
  for_each_printing (rank_step names scores (get_ranks scores)) tt (seq j m)
  = (drop j (leaderboard names scores), Ok tt).
Proof.
  intros Hlen. revert j. induction m as [|m IH]; intros j Hj.
  { simpl. rewrite drop_ge; [done|].
    unfold leaderboard, ranking. rewrite length_imap, length_reverse.
    rewrite (Permutation_length (stable_sort_Permutation _ _)), length_zip. lia. }
  cbn [seq for_each_printing].
  destruct (rank_step_run names scores j Hlen) as (p & Hp & Hstep); [lia|].
  erewrite printing_bind_Ok; [|exact Hstep]. rewrite (IH (S j)) by lia. simpl.
  f_equal. symmetry. erewrite drop_S; [done|].
  unfold leaderboard, ranking. rewrite list_lookup_imap, reverse_lookup.
  - rewrite (Permutation_length (stable_sort_Permutation _ _)), length_zip.
    rewrite <- Hlen, Nat.min_id, Hlen.
    replace (length scores - S j)%nat with (length scores - 1 - j)%nat by lia.
    by rewrite Hp.
  - rewrite (Permutation_length (stable_sort_Permutation _ _)), length_zip. lia.
Qed.

(** The run of the model when every scored file gets a score. *)
Lemma perform_evaluation_run (F : folder) (scores : list float) :
  Forall2 (achieves F) (scored_paths F) scores →
  perform_evaluation F
  = (zip_with Achieved (basename <$> scored_paths F) scores
       ++ Header :: leaderboard (basename <$> scored_paths F) scores,
     Ok tt).
Proof.
  intros Hall. unfold perform_evaluation. cbn zeta.
  erewrite printing_bind_Ok; [|by apply (evaluate_loop F _ [] [] scores)].
  fold (scored_paths F). cbn [fst snd app].
  unfold print. cbn [mbind printing_bind fst snd].
  assert (length (basename <$> scored_paths F) = length scores) as Hlen.
  { rewrite length_fmap. by eapply Forall2_length. }
  rewrite (rank_loop _ scores 0 (length (basename <$> scored_paths F))) by lia.
  done.
Qed.

(** X19: when every scored file gets a score, the report lists the scored
    files (every path but the ground truth and the anonymous ones) in
    sorted order with their scores, then the header, then the ranking:
    every scored file exactly once with its score, from the highest score
    down (NaN above every number), numbered from 1.  The order among
    files of equal score is left open: it is the one np.argsort, whose
    default sort is not stable, happens to produce. *)
Theorem perform_evaluation_report (F : folder) (scores : list float) :
  Forall2 (achieves F) (scored_paths F) scores →
  ∃ board : list (String.string * float),
    perform_evaluation F
    = (zip_with Achieved (basename <$> scored_paths F) scores
         ++ Header :: ranking board,
       Ok tt)
    ∧ board ≡ₚ zip (basename <$> scored_paths F) scores
    ∧ descending board.
Proof.
  intros Hall.
  exists (reverse (stable_sort (by_snd sort_leb) (zip (basename <$> scored_paths F) scores))).
  split; [by apply perform_evaluation_run|].
  split; [by rewrite reverse_Permutation, stable_sort_Permutation|].
  apply (StronglySorted_reverse
           (λ p q : String.string * float, by_snd sort_leb p q = true)).
  apply stable_sort_StronglySorted.
  - intros p q. apply sort_leb_total.
  - intros p q r. apply sort_leb_trans.
Qed.

Lemma perform_evaluation_report_witness :
  ∃ board : list (String.string * float),
    perform_evaluation example_folder
    = (zip_with Achieved (basename <$> scored_paths example_folder) example_scores
         ++ Header :: ranking board,
       Ok tt)
    ∧ board ≡ₚ zip (basename <$> scored_paths example_folder) example_scores
    ∧ descending board.
Proof.
  apply (perform_evaluation_report example_folder example_scores).
  repeat constructor; vm_compute; reflexivity.
Defined.

(** X20: nothing catches an exception of the scorer: at the first scored
    file whose score cannot be computed perform_evaluation stops with that
    exception, after the lines of the files before it; the later files are
    not scored and no ranking is printed. *)
Theorem perform_evaluation_aborts (F : folder) (pre post : list String.string)
    (path : String.string) (scores : list float) (e : exn) :
  scored_paths F = pre ++ path :: post →
  Forall2 (achieves F) pre scores →
  compute_Weighted_AUC (groundtruth_label F) (prediction_column F path)
    default_weight_distribution = Raise e →
  perform_evaluation F = (zip_with Achieved (basename <$> pre) scores, Raise e).
Proof.
  intros Hpaths Hall He. unfold perform_evaluation. cbn zeta.
  erewrite printing_bind_Raise; [done|].
  by apply (evaluate_loop_abort F _ pre post path [] [] scores e).
Qed.

Lemma perform_evaluation_aborts_witness :
  perform_evaluation broken_folder
  = (zip_with Achieved (basename <$> ["submissions/A.csv"%string]) (take 1 example_scores),
     Raise ValueError).
Proof.
  apply (perform_evaluation_aborts broken_folder ["submissions/A.csv"%string]
           ["submissions/C.csv"%string] "submissions/B.csv"%string
           (take 1 example_scores) ValueError).
  - reflexivity.
  - repeat constructor; vm_compute; reflexivity.
  - reflexivity.
Defined.

(** ** The area under a step *)

Lemma sort_leb_Fin (x y : Q) : sort_leb (Fin x) (Fin y) = true ↔ x <= y.
Proof. simpl. apply Qle_bool_iff. Qed.

Lemma lex_leb_Fin (x0 y0 x1 y1 : Q) :
  lex_leb (Fin x0, Fin y0) (Fin x1, Fin y1) = true → x0 <= x1 ∧ (x1 <= x0 → y0 <= y1).
Proof.
  unfold lex_leb. simpl.
  destruct (Qle_bool x0 x1) eqn:E1; [|done]. apply Qle_bool_iff in E1.
  destruct (Qle_bool x1 x0) eqn:E2.
  - intros H%Qle_bool_iff. done.
  - intros _. split; [done|]. intros H%Qle_bool_iff. congruence.
Qed.

(** The trapezoidal rule on a sorted step: the points with abscissa 0 climb
    to the corner [(0, h)], all the others lie at height [h], and the
    abscissas end at 1. *)
Lemma trapz_terms_step (h : Q) (pts : list (float * float)) :
  Sorted (λ p q, lex_leb p q = true) pts →
  StronglySorted (λ p q, sort_leb p.1 q.1 = true) pts →
  Forall (on_step h) pts →
  (∃ x y, (Fin x, Fin y) ∈ pts ∧ x == 1) →
  ∀ x0 y0, head pts = Some (Fin x0, Fin y0) →
    y0 == h ∨ (x0 == 0 ∧ has_point 0 h pts) →
    ∃ ts, trapz_terms pts = Fin <$> ts ∧ Qsum ts == h * (1 - x0).
Proof.
  intros Hsorted. induction Hsorted as [|p0 rest Hrest IH Hhd];
    intros Hstrong Hpts Hend x0 y0 Hhead Hcorner; [done|].
  injection Hhead as ->.
  apply StronglySorted_inv in Hstrong as [Hstrong Hall].
  apply Forall_cons in Hpts as [Hp0 Hpts].
  destruct rest as [|p1 rest'].
  { exists []. split; [done|]. simpl.
    destruct Hend as (x & y & Hin & Hx). apply list_elem_of_singleton in Hin.
    injection Hin as -> ->. rewrite Hx. ring. }
  apply HdRel_inv in Hhd.
  pose proof Hpts as Hpts'. apply Forall_cons in Hpts' as [(x1 & y1 & -> & Hx1 & Hy1 & Htop1) _].
  destruct Hp0 as (? & ? & [= <- <-] & Hx0 & Hy0 & Htop0).
  apply lex_leb_Fin in Hhd as [Hle Hties].
  assert (∀ x y, (Fin x, Fin y) ∈ (Fin x1, Fin y1) :: rest' → x1 <= x) as Hafter.
  { intros x y [[= -> ->]|Hin]%elem_of_cons; [apply Qle_refl|].
    apply StronglySorted_inv in Hstrong as [_ Hall1]. rewrite Forall_forall in Hall1.
    by apply (sort_leb_Fin x1 x), (Hall1 (Fin x, Fin y)). }
  destruct (IH Hstrong Hpts) with (x0 := x1) (y0 := y1) as (ts & Hts & Hsum); [|done|..].
  { destruct Hend as (x & y & Hin & Hx).
    apply elem_of_cons in Hin as [[= -> ->]|Hin]; [|by exists x, y].
    exists x1, y1. split; [left|]. lra. }
  { destruct (Qlt_le_dec 0 x1) as [Hpos|Hzero]; [left; by apply Htop1|].
    destruct Hcorner as [Hy0h|(Hx00 & xc & yc & Hin & Hxc & Hyc)].
    - left. specialize (Hties ltac:(lra)). lra.
    - apply elem_of_cons in Hin as [[= -> ->]|Hin].
      + left. specialize (Hties ltac:(lra)). lra.
      + right. split; [lra|]. by exists xc, yc. }
  exists ((x1 - x0) * (y1 + y0) / 2 :: ts). split.
  { change (trapz_terms ((Fin x0, Fin y0) :: (Fin x1, Fin y1) :: rest'))
      with (fdiv (fmul (fsub (Fin x1) (Fin x0)) (fadd (Fin y1) (Fin y0))) (Fin 2)
            :: trapz_terms ((Fin x1, Fin y1) :: rest')).
    by rewrite Hts. }
  simpl. rewrite Hsum.
  assert ((x1 - x0) * (y1 + y0) / 2 == h * (x1 - x0)) as ->; [|ring].
  destruct (Qlt_le_dec x0 x1) as [Hlt|Hge].
  - assert (y1 == h) as -> by (apply Htop1; lra).
    assert (y0 == h) as ->; [|field].
    destruct Hcorner as [?|(Hx00 & xc & yc & Hin & Hxc & Hyc)]; [done|].
    apply elem_of_cons in Hin as [[= -> ->]|Hin]; [done|].
    specialize (Hafter xc yc Hin). lra.
  - assert (x1 == x0) as -> by lra. field.
Qed.

Lemma Sorted_impl {A : Type} (R1 R2 : relation A) (l : list A) :
  (∀ x y, R1 x y → R2 x y) → Sorted R1 l → Sorted R2 l.
Proof.
  intros HR. induction 1 as [|x l Hl IH Hhd]; constructor; [done|].
  destruct Hhd; constructor. by apply HR.
Qed.

(** [auc(x, y, reorder=True)] of a step of height [h]. *)
Lemma auc_reorder_step (h : Q) (xs ys : list float) :
  length xs = length ys →
  Forall (on_step h) (zip xs ys) →
  has_point 0 h (zip xs ys) →
  has_point 1 h (zip xs ys) →
  0 < h →
  ∃ a, auc_reorder xs ys = Ok (Fin a) ∧ a == h.
Proof.
  intros Hlen Hon Hcorner Hend Hh.
  assert (2 ≤ length xs)%nat as H2.
  { destruct Hcorner as (xc & yc & [ic Hic]%list_elem_of_lookup & Hxc & _).
    destruct Hend as (xe & ye & [ie Hie]%list_elem_of_lookup & Hxe & _).
    assert (ic ≠ ie) as Hne.
    { intros ->. rewrite Hic in Hie. injection Hie as -> _. lra. }
    apply lookup_lt_Some in Hic, Hie. rewrite length_zip in Hic, Hie. lia. }
  unfold auc_reorder. rewrite decide_False by (by intros ?). rewrite decide_False by lia.
  unfold np_trapz.
  assert (stable_sort lex_leb (zip xs ys) ≡ₚ zip xs ys) as Hperm
    by apply stable_sort_Permutation.
  assert (Sorted (λ p q, lex_leb p q = true) (stable_sort lex_leb (zip xs ys))) as Hsorted.
  { apply stable_sort_Sorted, lex_leb_total. }
  revert Hperm Hsorted. generalize (stable_sort lex_leb (zip xs ys)). intros pts Hperm Hsorted.
  assert (Forall (on_step h) pts) as Hall by (by rewrite Hperm).
  assert (StronglySorted (λ p q, sort_leb p.1 q.1 = true) pts) as Hstrong.
  { apply Sorted.Sorted_StronglySorted.
    - intros p q r. apply sort_leb_trans.
    - eapply Sorted_impl; [|exact Hsorted].
      intros p q. unfold lex_leb. by destruct (sort_leb p.1 q.1). }
  assert (has_point 0 h pts) as Hcorner'.
  { destruct Hcorner as (x & y & Hin & ?). exists x, y. by rewrite Hperm. }
  assert (∃ x y, (Fin x, Fin y) ∈ pts ∧ x == 1) as Hend'.
  { destruct Hend as (x & y & Hin & ? & _). exists x, y. by rewrite Hperm. }
  destruct pts as [|p0 rest].
  { destruct Hcorner' as (? & ? & Hin & _). by apply elem_of_nil in Hin. }
  pose proof Hall as Hall'. apply Forall_cons in Hall' as [(x0 & y0 & -> & Hx0 & _) _].
  assert (x0 == 0) as Hx00.
  { destruct Hcorner' as (x' & y' & Hin & Hx' & _).
    apply elem_of_cons in Hin as [[= -> ->]|Hin]; [done|].
    apply StronglySorted_inv in Hstrong as [_ Hfirst]. rewrite Forall_forall in Hfirst.
    specialize (Hfirst _ Hin). apply sort_leb_Fin in Hfirst. lra. }
  destruct (trapz_terms_step h ((Fin x0, Fin y0) :: rest) Hsorted Hstrong Hall Hend')
    with (x0 := x0) (y0 := y0) as (ts & -> & Hsum); [done|by right|].
  destruct (np_sum_Fin ts) as (s & -> & Hs). exists s. split; [done|].
  rewrite Hs, Hsum, Hx00. ring.
Qed.

(** ** One band of a step curve *)

Lemma first_occurrence (y : list float) (t : Q) :
  non_decreasing y → present (Fin t) y →
  ∃ j u, y !! j = Some (Fin u) ∧ u == t
         ∧ ∀ a, (0 < j)%nat → y !! (j - 1)%nat = Some (Fin a) → a < t.
Proof.
  intros Hy (v & [m Hm]%list_elem_of_lookup & E).
  destruct (first_true ((λ v, feqb v (Fin t)) <$> y) m) as (j & Hj & Hbefore).
  { rewrite list_lookup_fmap, Hm. simpl. by rewrite E. }
  rewrite list_lookup_fmap in Hj. destruct (y !! j) as [w|] eqn:Hw; [|done].
  injection Hj as Hj. apply feqb_true in Hj as (u & ? & -> & [= <-] & Hu).
  exists j, u. split; [done|]. split; [done|].
  intros a Hpos Ha.
  specialize (Hbefore (j - 1)%nat ltac:(lia)). rewrite list_lookup_fmap, Ha in Hbefore.
  injection Hbefore as Hne.
  assert (fleb (Fin a) (Fin u) = true) as Hle.
  { apply (Hy (j - 1)%nat); [done|]. by replace (S (j - 1)) with j by lia. }
  apply Qle_bool_iff in Hle. simpl in Hne. apply Qeq_bool_neq in Hne.
  destruct (Qlt_le_dec a t); [done|]. destruct Hne. lra.
Qed.

Lemma zip_frame {A B : Type} (a a' : A) (b b' : B) (l : list A) (k : list B) :
  length l = length k →
  zip ([a] ++ l ++ [a']) ([b] ++ k ++ [b']) = (a, b) :: zip l k ++ [(a', b')].
Proof. intros Hlen. simpl. f_equal. by rewrite zip_with_app. Qed.

Lemma area_step_perfect (fpr tpr ths areas : list float) (k lo : nat) (bk bk1 : Q) :
  curve_ok fpr tpr → step_curve fpr tpr →
  ths !! (k + 1)%nat = Some (Fin bk1) →
  (∃ v, tpr !! lo = Some (Fin v) ∧ v == bk) →
  bk < bk1 → bk1 <= 1 →
  present (Fin bk1) tpr →
  ∃ hi a,
    area_step fpr tpr ths (Z.of_nat lo, areas) k = Ok (Z.of_nat hi, <[k := Fin a]> areas)
    ∧ a == bk1 - bk
    ∧ ∃ v, tpr !! hi = Some (Fin v) ∧ v == bk1.
Proof.
  intros (Hlen & Hsorted & Hunit & _ & _) Hstep Hth (v0 & Hlo & Hv0) Hlt Hle1 Hpres.
  unfold area_step.
  rewrite (bind_Ok_eq _ _ _ (proj2 (getitem_Ok _ _ _) Hth)).
  set (cnt := np_sum_bool ((λ t, fleb t (Fin bk1)) <$> tpr)).
  assert (lo < cnt)%nat as Hlocnt.
  { apply (count_le_prefix tpr (Fin bk1) lo (Fin v0) Hsorted Hlo).
    apply Qle_bool_iff. lra. }
  assert (cnt ≤ length tpr)%nat as Hcnt.
  { unfold cnt. etrans; [apply np_sum_bool_le_length|]. by rewrite length_fmap. }
  replace (Z.of_nat cnt - 1 + 1)%Z with (Z.of_nat cnt) by lia.
  rewrite !py_slice_nat by lia.
  set (sel_t := take (cnt - lo) (drop lo tpr)).
  set (sel_f := take (cnt - lo) (drop lo fpr)).
  assert (∀ j u, (lo + j < cnt)%nat → tpr !! (lo + j)%nat = Some u →
            ∃ uq, u = Fin uq ∧ v0 <= uq ∧ uq <= bk1) as Hsel.
  { intros j u Hjlt Hj.
    assert (fleb u (Fin bk1) = true) as Hu.
    { by apply (count_le_prefix tpr (Fin bk1) (lo + j) u Hsorted Hj). }
    apply fleb_true in Hu as (uq & ? & -> & [= <-] & Hu). exists uq. repeat split; [|done].
    destruct j as [|j].
    - rewrite Nat.add_0_r, Hlo in Hj. injection Hj as ->. lra.
    - assert (fleb (Fin v0) (Fin uq) = true) as Hvu.
      { eapply (non_decreasing_lt tpr lo (lo + S j)); [done|lia|done..]. }
      by apply Qle_bool_iff in Hvu. }
  (* the first occurrence of the upper boundary *)
  destruct (first_occurrence tpr bk1 Hsorted Hpres) as (jc & uc & Hjc & Huc & Hpred).
  assert (jc < cnt)%nat as Hjccnt.
  { apply (count_le_prefix tpr (Fin bk1) jc (Fin uc) Hsorted Hjc). apply Qle_bool_iff. lra. }
  assert (lo < jc)%nat as Hlojc.
  { destruct (decide (lo < jc)%nat) as [?|Hge]; [done|]. exfalso.
    destruct (decide (jc = lo)) as [->|Hne].
    - rewrite Hlo in Hjc. injection Hjc as ->. lra.
    - assert (fleb (Fin uc) (Fin v0) = true) as Hcv.
      { eapply (non_decreasing_lt tpr jc lo); [done|lia|done..]. }
      apply Qle_bool_iff in Hcv. lra. }
  (* the last selected point *)
  destruct (tpr !! (cnt - 1)%nat) as [w|] eqn:Hw.
  2:{ apply lookup_ge_None in Hw. lia. }
  destruct (Hsel (cnt - 1 - lo)%nat w) as (wq & -> & _ & Hwle).
  { lia. }
  { by replace (lo + (cnt - 1 - lo))%nat with (cnt - 1)%nat by lia. }
  assert (wq == bk1) as Hwq.
  { destruct (decide (jc = cnt - 1)%nat) as [->|Hne].
    - rewrite Hw in Hjc. injection Hjc as ->. done.
    - assert (fleb (Fin uc) (Fin wq) = true) as Huw.
      { eapply (non_decreasing_lt tpr jc (cnt - 1)); [done|lia|done..]. }
      apply Qle_bool_iff in Huw. lra. }
  assert (sel_t !! 0%nat = Some (Fin v0)) as Hfirst.
  { unfold sel_t. rewrite lookup_take_lt by lia. by rewrite lookup_drop, Nat.add_0_r. }
  rewrite (bind_Ok_eq _ _ _ (proj2 (getitem_Ok _ _ _) Hfirst)).
  set (local := (λ t, fsub t (Fin v0)) <$> sel_t).
  assert (local !! 0%nat = Some (fsub (Fin v0) (Fin v0))) as Hl0.
  { unfold local. by rewrite list_lookup_fmap, Hfirst. }
  rewrite (bind_Ok_eq _ _ _ (proj2 (getitem_Ok _ _ _) Hl0)).
  assert (length sel_t = (cnt - lo)%nat) as Hlsel.
  { unfold sel_t. rewrite length_take, length_drop. lia. }
  assert (length sel_f = (cnt - lo)%nat) as Hlself.
  { unfold sel_f. rewrite length_take, length_drop. lia. }
  assert (last local = Some (Fin (wq - v0))) as Hlast.
  { unfold local. rewrite fmap_last, last_lookup, Hlsel. unfold sel_t.
    rewrite lookup_take_lt by lia. rewrite lookup_drop.
    replace (lo + pred (cnt - lo))%nat with (cnt - 1)%nat by lia. by rewrite Hw. }
  unfold getitem_last. rewrite Hlast. cbn [mbind res_bind].
  assert (∀ j x y, zip sel_f local !! j = Some (x, y) →
            (lo + j < cnt)%nat ∧ fpr !! (lo + j)%nat = Some x
            ∧ ∃ u, tpr !! (lo + j)%nat = Some u ∧ y = fsub u (Fin v0)) as Hzip.
  { intros j x y Hj. apply lookup_zip_with_Some in Hj as (x' & y' & [= <- <-] & Hx & Hy).
    unfold sel_f in Hx. apply lookup_take_Some in Hx as [Hx Hjlt]. rewrite lookup_drop in Hx.
    unfold local, sel_t in Hy. rewrite list_lookup_fmap in Hy.
    destruct (take (cnt - lo) (drop lo tpr) !! j) as [u|] eqn:Hu; [|done].
    injection Hy as <-. apply lookup_take_Some in Hu as [Hu _]. rewrite lookup_drop in Hu.
    split; [lia|]. split; [done|]. by exists u. }
  assert (length sel_f = length local) as Hlz.
  { unfold local. rewrite length_fmap. lia. }
  destruct (auc_reorder_step (bk1 - bk) ([Fin 0] ++ sel_f ++ [Fin 1])
              ([fsub (Fin v0) (Fin v0)] ++ local ++ [Fin (wq - v0)]))
    as (a & Harea & Ha).
  { rewrite !length_app. simpl. lia. }
  { rewrite zip_frame by done. constructor.
    { exists 0, (v0 - v0). split; [done|]. split; [lra|]. split; [lra|]. lra. }
    apply Forall_app. split.
    - apply Forall_lookup. intros j [x y] Hj.
      apply Hzip in Hj as (Hjlt & Hx & u & Hu & ->).
      destruct (Hsel j u Hjlt Hu) as (uq & -> & Hlo' & Hhi').
      rewrite Forall_forall in Hunit.
      destruct (Hunit x) as (f & -> & Hf); [by eapply list_elem_of_lookup_2|].
      exists f, (uq - v0). split; [done|]. split; [done|]. split; [lra|].
      intros Hfpos.
      destruct (decide (lo + j = 0)%nat) as [H0|Hpos].
      { exfalso. assert (f == 0); [|lra]. apply (Hstep (lo + j)%nat f Hx). intros a ?. lia. }
      destruct (tpr !! (lo + j - 1)%nat) as [pr|] eqn:Hpr.
      2:{ apply lookup_ge_None in Hpr. apply lookup_lt_Some in Hu. lia. }
      assert (fleb pr (Fin uq) = true) as Hpu.
      { apply (Hsorted (lo + j - 1)%nat); [done|].
        by replace (S (lo + j - 1)) with (lo + j)%nat by lia. }
      apply fleb_true in Hpu as (a & ? & -> & [= <-] & Hpu).
      destruct (Qlt_le_dec a 1) as [Ha1|Ha1].
      { exfalso. assert (f == 0); [|lra]. apply (Hstep (lo + j)%nat f Hx).
        intros a' _ Ha'. rewrite Hpr in Ha'. by injection Ha' as <-. }
      lra.
    - constructor; [|constructor].
      exists 1, (wq - v0). split; [done|]. split; [lra|]. split; [lra|]. lra. }
  { rewrite zip_frame by done.
    destruct (fpr !! jc) as [fc|] eqn:Hfc.
    2:{ apply lookup_ge_None in Hfc. apply lookup_lt_Some in Hjc. lia. }
    rewrite Forall_forall in Hunit.
    destruct (Hunit fc) as (f & -> & Hf); [by eapply list_elem_of_lookup_2|].
    assert (f == 0) as Hf0.
    { apply (Hstep jc f Hfc). intros a' Hpos Ha'. specialize (Hpred a' Hpos Ha'). lra. }
    exists f, (uc - v0). split; [|split; [done|lra]].
    right. apply elem_of_app. left. apply list_elem_of_lookup. exists (jc - lo)%nat.
    apply lookup_zip_with_Some. exists (Fin f), (Fin (uc - v0)). split; [done|]. split.
    - unfold sel_f. rewrite lookup_take_lt by lia. rewrite lookup_drop.
      by replace (lo + (jc - lo))%nat with jc by lia.
    - unfold local, sel_t. rewrite list_lookup_fmap, lookup_take_lt by lia.
      rewrite lookup_drop. replace (lo + (jc - lo))%nat with jc by lia. by rewrite Hjc. }
  { rewrite zip_frame by done. exists 1, (wq - v0). split; [|split; [reflexivity|lra]].
    right. apply elem_of_app. right. left. }
  { lra. }
  rewrite Harea. cbn [mbind res_bind].
  exists (cnt - 1)%nat, a. split; [|split; [done|]].
  { do 2 f_equal. lia. }
  by exists wq.
Qed.

(** ** Interpolating a step curve *)

Lemma interpolation_step_step_curve (x y x' y' : list float) (q : Q) :
  curve_ok x y → step_curve x y → 0 < q → q < 1 →
  interpolation_step (x, y) (Fin q) = Ok (x', y') →
  step_curve x' y'.
Proof.
  intros (Hlen & Hsorted & Hunit & _ & _) Hstep Hq0 Hq1 Hrun.
  pose proof (interpolation_step_spec x y (Fin q)) as Hspec. rewrite Hrun in Hspec.
  destruct Hspec as [(_ & -> & ->)|(Hnp & p & yp & yf & xp & xf & Hlast & Hyp & Hyf & Hxp & Hxf
                                    & -> & ->)]; [done|].
  destruct (successor_above y (Fin q) p yp yf Hsorted Hnp Hlast Hyp Hyf) as [Hlt Hgt].
  apply fltb_true in Hlt as (a & ? & -> & [= <-] & Hlt).
  apply fltb_true in Hgt as (? & b & [= <-] & -> & Hgt).
  rewrite Forall_forall in Hunit.
  destruct (Hunit xp) as (d & -> & Hd); [by eapply list_elem_of_lookup_2|].
  destruct (Hunit xf) as (e & -> & He); [by eapply list_elem_of_lookup_2|].
  assert (d == 0) as Hd0.
  { apply (Hstep p d Hxp). intros a' Hpos Ha'.
    assert (fleb (Fin a') (Fin a) = true) as Hle.
    { apply (Hsorted (p - 1)%nat); [done|]. by replace (S (p - 1)) with p by lia. }
    apply Qle_bool_iff in Hle. lra. }
  assert (e == 0) as He0.
  { apply (Hstep (S p) e Hxf). intros a' _ Ha'.
    replace (S p - 1)%nat with p in Ha' by lia. rewrite Hyp in Ha'. injection Ha' as <-. lra. }
  assert (S p ≤ length x)%nat as Hpx by (apply lookup_lt_Some in Hxf; lia).
  assert (S p ≤ length y)%nat as Hpy by (apply lookup_lt_Some in Hyf; lia).
  intros i f Hi Hpred. rewrite lookup_insert_at in Hi by done.
  destruct (decide (i < S p)%nat) as [Hlo|Hhi].
  - apply (Hstep i f Hi). intros a' Hpos Ha'. apply (Hpred a' Hpos).
    rewrite lookup_insert_at by done. by rewrite decide_True by lia.
  - destruct (decide (i = S p)) as [->|Hne].
    + injection Hi as Hi. unfold linear_interpolation in Hi. simpl in Hi.
      destruct (Qeq_bool (b - a) 0) eqn:E; [done|]. injection Hi as <-.
      rewrite He0, Hd0. field. intros Hba. lra.
    + destruct (decide (i = S (S p))) as [->|Hne'].
      * replace (S (S p) - 1)%nat with (S p) in Hi by lia.
        rewrite Hxf in Hi. by injection Hi as <-.
      * apply (Hstep (i - 1)%nat f Hi). intros a' Hpos Ha'. apply (Hpred a' ltac:(lia)).
        rewrite lookup_insert_at by done.
        rewrite decide_False by lia. rewrite decide_False by lia. done.
Qed.

Lemma perform_interpolation_step_curve (T : list Q) (x y x' y' : list float) :
  curve_ok x y → step_curve x y → Forall (λ q, 0 < q ∧ q < 1) T →
  perform_interpolation x y (Fin <$> T) = Ok (x', y') →
  step_curve x' y'.
Proof.
  intros Hok Hstep HT. revert x y Hok Hstep.
  induction HT as [|q T [Hlo Hhi] _ IH]; intros x y Hok Hstep.
  { unfold perform_interpolation. simpl. by intros [= <- <-]. }
  rewrite fmap_cons, perform_interpolation_cons.
  destruct (interpolation_step_curve_ok x y q Hok Hlo Hhi) as (x1 & y1 & Hrun & Hok1).
  rewrite Hrun. simpl. apply IH; [done|].
  exact (interpolation_step_step_curve x y x1 y1 q Hok Hstep Hlo Hhi Hrun).
Qed.

(** ** The loop over bands of a known area *)

(** When every band has the area [c], the loop fills the array of areas
    with [c]. *)
Lemma area_loop_exact (c : Q) (fpr tpr : list float) (qs : list Q) (W : nat) :
  length qs = S W →
  (∀ k lo bk bk1 areas,
     (k < W)%nat → qs !! k = Some bk → qs !! (k + 1)%nat = Some bk1 →
     (∃ v, tpr !! lo = Some (Fin v) ∧ v == bk) →
     ∃ hi a,
       area_step fpr tpr (Fin <$> qs) (Z.of_nat lo, areas) k
       = Ok (Z.of_nat hi, <[k := Fin a]> areas)
       ∧ a == c ∧ ∃ v, tpr !! hi = Some (Fin v) ∧ v == bk1) →
  ∀ m k0 lo areas,
    (k0 + m = W)%nat →
    (∃ v bk, qs !! k0 = Some bk ∧ tpr !! lo = Some (Fin v) ∧ v == bk) →
    length areas = W →
    (∀ j, (j < k0)%nat → ∃ a, areas !! j = Some (Fin a) ∧ a == c) →
    ∃ hi areas',
      for_each (area_step fpr tpr (Fin <$> qs)) (Z.of_nat lo, areas) (seq k0 m)
      = Ok (hi, areas')
      ∧ length areas' = W
      ∧ ∀ j, (j < W)%nat → ∃ a, areas' !! j = Some (Fin a) ∧ a == c.
Proof.
  intros Hlen Hband m.
  induction m as [|m IH]; intros k0 lo areas Hk (v & bk & Hbk & Hlo & Hv) Hla Hdone.
  { exists (Z.of_nat lo), areas. split; [done|]. split; [done|].
    intros j Hj. apply Hdone. lia. }
  destruct (qs !! (k0 + 1)%nat) as [bk1|] eqn:Hbk1.
  2:{ apply lookup_ge_None in Hbk1. lia. }
  destruct (Hband k0 lo bk bk1 areas) as (hi & a & Hrun & Ha & Hhi); [lia|done|done|eauto|].
  cbn [seq for_each]. rewrite Hrun. cbn [mbind res_bind].
  destruct (IH (S k0) hi (<[k0:=Fin a]> areas)) as (hi' & areas' & Hloop & Hla' & Hall).
  - lia.
  - destruct Hhi as (w & Hw & Hweq). exists w, bk1.
    replace (S k0) with (k0 + 1)%nat by lia. done.
  - by rewrite length_insert.
  - intros j Hj. destruct (decide (j = k0)) as [->|Hne].
    + exists a. split; [|done]. apply list_lookup_insert_eq. lia.
    + rewrite list_lookup_insert_ne by done. apply Hdone. lia.
  - by exists hi', areas'.
Qed.

Lemma Qsum_zip_const (c m : Q) (aq wq : list Q) :
  Forall (λ a, a == c) aq → length aq = length wq → ¬ m == 0 →
  Qsum (zip_with (λ a w, a * (w / m)) aq wq) == c * (Qsum wq / m).
Proof.
  intros Haq. revert wq. induction Haq as [|a aq Ha _ IH]; intros wq Hlen Hm.
  { destruct wq; [|done]. simpl. field. done. }
  destruct wq as [|w wq]; [done|]. simpl. rewrite IH by (simpl in Hlen; lia || done).
  rewrite Ha. field. done.
Qed.

Lemma weighted_sum_const (c : Q) (areas : list float) (wq : list Q) :
  length areas = length wq →
  (∀ j, (j < length wq)%nat → ∃ a, areas !! j = Some (Fin a) ∧ a == c) →
  ¬ Qsum wq == 0 →
  ∃ q, np_sum (zip_with fmul areas
                 ((λ w, fdiv w (np_mean (Fin <$> wq))) <$> (Fin <$> wq)))
       = Fin q ∧ q == c * inject_Z (Z.of_nat (length wq)).
Proof.
  intros Hlen Hall Hsum.
  assert (wq ≠ []) as Hne by (intros ->; by destruct Hsum).
  assert (1 ≤ length wq)%nat as HW by (destruct wq; [done|simpl; lia]).
  pose proof (inject_Z_nat_pos _ HW) as HL.
  destruct (np_mean_Fin wq Hne) as (m & -> & Hm).
  assert (¬ m == 0) as Hm0.
  { rewrite Hm. intros E. apply Hsum.
    assert (Qsum wq == Qsum wq / inject_Z (Z.of_nat (length wq))
                       * inject_Z (Z.of_nat (length wq))) as -> by (field; lra).
    rewrite E. ring. }
  assert (∃ aq, areas = Fin <$> aq ∧ Forall (λ a, a == c) aq) as (aq & -> & Haq).
  { clear Hm Hm0 HL HW. revert Hlen Hall.
    generalize (length wq). intros n. revert n.
    induction areas as [|v areas IH]; intros n Hlen Hall.
    { exists []. done. }
    destruct n as [|n]; [done|].
    destruct (Hall 0%nat ltac:(lia)) as (a & [= ->] & Ha).
    destruct (IH n) as (aq & -> & Haq); [simpl in Hlen; lia| |].
    { intros j Hj. apply (Hall (S j)). lia. }
    exists (a :: aq). split; [done|]. by constructor. }
  rewrite zip_with_fmul_Fin by done.
  destruct (np_sum_Fin (zip_with (λ a w, a * (w / m)) aq wq)) as (q & -> & Hq).
  exists q. split; [done|]. rewrite Hq.
  rewrite length_fmap in Hlen.
  rewrite (Qsum_zip_const _ m aq wq Haq Hlen Hm0), Hm. field. split; [lra|].
  intros E. apply Hm0. rewrite Hm, E. field. lra.
Qed.

(** ** The ROC curve of a separated sample *)

Lemma StronglySorted_impl_elem {A : Type} (R T : relation A) (l : list A) :
  (∀ a b, a ∈ l → b ∈ l → R a b → T a b) → StronglySorted R l → StronglySorted T l.
Proof.
  intros HRT Hl. induction Hl as [|x l Hl IH Hall]; [constructor|].
  constructor.
  - apply IH. intros a b Ha Hb. apply HRT; by right.
  - rewrite Forall_forall in Hall |- *. intros b Hb. apply HRT; [left|by right|by apply Hall].
Qed.

(** Visited by decreasing score, a separated sample shows its positives
    first. *)
Lemma separated_desc (y_true : list bool) (scores : list Q) :
  length y_true = length scores → separated y_true scores →
  let desc := reverse (stable_sort (by_snd Qle_bool) (zip y_true scores)) in
  (∀ p q, (true, p) ∈ desc → (false, q) ∈ desc → q < p)
  ∧ StronglySorted (λ a b : bool * Q, a.1 = false → b.1 = false) desc.
Proof.
  intros Hlen Hsep desc.
  assert (∀ b s, (b, s) ∈ desc → ∃ i, y_true !! i = Some b ∧ scores !! i = Some s) as Hin.
  { intros b s Hbs. unfold desc in Hbs.
    rewrite reverse_Permutation, stable_sort_Permutation in Hbs.
    apply list_elem_of_lookup in Hbs as [i Hi]. exists i.
    apply lookup_zip_with_Some in Hi as (? & ? & [= <- <-] & ? & ?). done. }
  assert (∀ p q, (true, p) ∈ desc → (false, q) ∈ desc → q < p) as Hpq.
  { intros p q (i & Hi & Hp)%Hin (j & Hj & Hq)%Hin. by apply (Hsep j i). }
  split; [done|].
  apply (StronglySorted_impl_elem (flip (λ a b : bool * Q, by_snd Qle_bool a b = true))).
  - intros [[] p] [[] q] Ha Hb Hle; simpl; try done.
    intros _. unfold flip, by_snd in Hle. simpl in Hle. apply Qle_bool_iff in Hle.
    specialize (Hpq q p Hb Ha). lra.
  - apply StronglySorted_reverse, stable_sort_StronglySorted.
    + intros a b. unfold by_snd. rewrite !Qle_bool_iff.
      destruct (Qlt_le_dec a.2 b.2); [left|right]; lra.
    + intros a b c. unfold by_snd. rewrite !Qle_bool_iff. lra.
Qed.

(** The counts recorded over negative samples only. *)
Lemma binary_clf_curve_negatives (samples : list (bool * Q)) (fps tps : Z) :
  Forall (λ s, s.1 = false) samples → samples ≠ [] →
  ∃ b B, binary_clf_curve fps tps samples = b :: B
         ∧ Forall (λ p, (fps < p.1)%Z ∧ p.2 = tps) (b :: B).
Proof.
  intros Hall Hne.
  destruct (binary_clf_curve_spec samples fps tps) as (Hbox & _ & Hlast).
  specialize (Hlast Hne).
  assert (n_positive samples.*1 = 0%Z) as Hp.
  { apply n_positive_zero. intros l Hin. apply list_elem_of_fmap in Hin as (s & -> & Hin).
    rewrite Forall_forall in Hall. by apply Hall. }
  assert (Forall (λ p, (fps < p.1)%Z) (binary_clf_curve fps tps samples)) as Hfps.
  { destruct samples as [|[label score] rest]; [done|].
    apply Forall_cons in Hall as [Hl _]. simpl in Hl. subst label.
    rewrite binary_clf_curve_cons. cbn zeta.
    destruct (binary_clf_curve_spec rest (fps + 1) tps) as (Hbox' & _).
    assert (Forall (λ p, (fps < p.1)%Z) (binary_clf_curve (fps + 1) tps rest)) as Hrest.
    { eapply Forall_impl; [exact Hbox'|]. intros [f t] [Hf _]. simpl in *. lia. }
    destruct rest as [|[label' score'] rest']; [repeat constructor; simpl; lia|].
    destruct (Qeq_bool score score'); [done|]. constructor; [simpl; lia|done]. }
  destruct (binary_clf_curve fps tps samples) as [|b B]; [done|].
  exists b, B. split; [done|].
  rewrite Forall_forall in Hbox, Hfps |- *. intros p Hin. split; [by apply Hfps|].
  destruct (Hbox p Hin) as [_ Ht]. simpl in Ht. lia.
Qed.

(** The counts of a separated sample: along [fps = 0] up to the corner
    [(0, P)], then along [tps = P]. *)
Lemma binary_clf_curve_corner (samples : list (bool * Q)) (fps tps : Z) :
  StronglySorted (λ a b : bool * Q, a.1 = false → b.1 = false) samples →
  (∀ p q, (true, p) ∈ samples → (false, q) ∈ samples → q < p) →
  true ∈ samples.*1 → false ∈ samples.*1 →
  ∃ A b B,
    binary_clf_curve fps tps samples
    = A ++ (fps, (tps + n_positive samples.*1)%Z) :: b :: B
    ∧ Forall (λ p, p.1 = fps) A
    ∧ Forall (λ p, (fps < p.1)%Z ∧ p.2 = (tps + n_positive samples.*1)%Z) (b :: B).
Proof.
  intros Hsorted. revert fps tps.
  induction Hsorted as [|[label score] rest Hrest IH Hall]; intros fps tps Hsep Hpos Hneg.
  { by apply elem_of_nil in Hpos. }
  destruct label.
  2:{ exfalso. rewrite Forall_forall in Hall.
      apply elem_of_cons in Hpos as [?|Hpos]; [done|].
      apply list_elem_of_fmap in Hpos as ([l s] & Hl & Hin). simpl in Hl. subst l.
      by specialize (Hall _ Hin eq_refl). }
  rewrite fmap_cons, n_positive_cons, binary_clf_curve_cons. cbn zeta. cbn [fst].
  assert (false ∈ rest.*1) as Hneg'.
  { by apply elem_of_cons in Hneg as [?|?]. }
  destruct (decide (true ∈ rest.*1)) as [Hpos'|Hnone].
  - destruct (IH (fps) (tps + 1)%Z) as (A & b & B & Hcurve & HA & HB); [|done..|].
    { intros p q Hp Hq. apply Hsep; by right. }
    replace (tps + 1 + n_positive rest.*1)%Z with (tps + (1 + n_positive rest.*1))%Z
      in Hcurve, HB by lia.
    destruct rest as [|[label' score'] rest'] eqn:Hr; [by apply elem_of_nil in Hpos'|].
    rewrite <- Hr in *.
    destruct (Qeq_bool score score').
    + by exists A, b, B.
    + exists ((fps, (tps + 1)%Z) :: A), b, B. rewrite Hcurve. split; [done|].
      split; [by constructor|done].
  - assert (Forall (λ s : bool * Q, s.1 = false) rest) as Hfalse.
    { apply Forall_forall. intros [[] s] Hin; [|done].
      destruct Hnone. apply list_elem_of_fmap. by exists (true, s). }
    assert (rest ≠ []) as Hne by (intros ->; by apply elem_of_nil in Hneg').
    assert (n_positive rest.*1 = 0%Z) as Hp0.
    { apply n_positive_zero. intros l Hin. apply list_elem_of_fmap in Hin as (s & -> & Hin).
      rewrite Forall_forall in Hfalse. by apply Hfalse. }
    destruct (binary_clf_curve_negatives rest fps (tps + 1) Hfalse Hne)
      as (b & B & Hcurve & HB).
    rewrite Hp0, Z.add_0_r.
    destruct rest as [|[label' score'] rest'] eqn:Hr; [done|].
    rewrite <- Hr in *.
    assert (label' = false) as ->.
    { rewrite Hr in Hfalse. by apply Forall_cons in Hfalse as [? _]. }
    assert (Qeq_bool score score' = false) as ->.
    { apply not_true_is_false. rewrite Qeq_bool_iff. intros E.
      assert (score' < score); [|lra]. apply Hsep; [left|right; rewrite Hr; left]. }
    exists [], b, B. by rewrite Hcurve.
Qed.

Lemma drop_collinear_corner (prev c b : Z * Z) (A B : list (Z * Z)) :
  prev.1 = c.1 → Forall (λ p, p.1 = c.1) A → b.1 ≠ c.1 →
  c ∈ drop_collinear prev (A ++ c :: b :: B).
Proof.
  intros Hprev HA Hb. revert prev Hprev.
  induction HA as [|a A Ha _ IH]; intros prev Hprev.
  - simpl. assert (second_diff_nonzero prev c b = true) as ->; [|left].
    unfold second_diff_nonzero. apply orb_true_iff. left. apply negb_true_iff, Z.eqb_neq. lia.
  - assert (∀ l, l ≠ [] → c ∈ drop_collinear a l → c ∈ drop_collinear prev (a :: l)) as Hcons.
    { intros [|n l] Hne Hin; [done|]. simpl.
      destruct (second_diff_nonzero prev a n); [by right|done]. }
    rewrite <- app_comm_cons. apply Hcons; [by destruct A|]. by apply IH.
Qed.

Lemma drop_intermediate_corner (c b : Z * Z) (A B : list (Z * Z)) :
  Forall (λ p, p.1 = c.1) A → b.1 ≠ c.1 →
  c ∈ drop_intermediate (A ++ c :: b :: B).
Proof.
  intros HA Hb. unfold drop_intermediate.
  destruct A as [|a A]; simpl.
  - case_decide; left.
  - apply Forall_cons in HA as [Ha HA].
    rewrite decide_True by (rewrite length_app; simpl; lia).
    right. by apply drop_collinear_corner.
Qed.

(** A curve of counts that runs along [fps = 0] to the corner [(0, P)] and
    then along [tps = P] gives a step curve of rates. *)
Lemma step_curve_of_counts (curve : list (Z * Z)) (N P : Z) :
  (0 < N)%Z → (0 < P)%Z →
  last curve = Some (N, P) →
  Forall (in_box (0, 0)%Z (N, P)) curve →
  StronglySorted (λ p q, (p.2 ≤ q.2)%Z) curve →
  StronglySorted (λ p q, (p.1 ≤ q.1)%Z) curve →
  Forall (λ p, p.1 = 0%Z ∨ p.2 = P) curve →
  (0, P)%Z ∈ curve →
  step_curve (rates curve.*1) (rates curve.*2).
Proof.
  intros HN HP Hlast Hbox Htps Hfps HonL Hcorner.
  rewrite (rates_pos curve.*1 N) by (by rewrite ?fmap_last, ?Hlast).
  rewrite (rates_pos curve.*2 P) by (by rewrite ?fmap_last, ?Hlast).
  assert (0 < inject_Z N) as HNq by (change 0 with (inject_Z 0); rewrite <- Zlt_Qlt; lia).
  assert (0 < inject_Z P) as HPq by (change 0 with (inject_Z 0); rewrite <- Zlt_Qlt; lia).
  intros i f Hi Hpred. rewrite !list_lookup_fmap in Hi.
  destruct (curve !! i) as [[pf pt]|] eqn:Hp; [|done]. simpl in Hi. injection Hi as <-.
  assert (pf = 0%Z) as ->; [|unfold Qdiv; by rewrite Qmult_0_l].
  rewrite Forall_forall in Hbox, HonL.
  destruct (HonL _ (list_elem_of_lookup_2 _ _ _ Hp)) as [?|Hpt]; [done|]. simpl in Hpt.
  destruct (Hbox _ (list_elem_of_lookup_2 _ _ _ Hp)) as [[Hpf0 _] _]. simpl in Hpf0.
  apply list_elem_of_lookup in Hcorner as [j Hj].
  destruct (Nat.lt_trichotomy j i) as [Hlt|[->|Hgt]].
  - exfalso. destruct (curve !! (i - 1)%nat) as [[qf qt]|] eqn:Hq.
    2:{ apply lookup_ge_None in Hq. apply lookup_lt_Some in Hp. lia. }
    assert (P ≤ qt)%Z as Hle.
    { destruct (decide (j = i - 1)%nat) as [->|Hne].
      - rewrite Hj in Hq. injection Hq as _ <-. lia.
      - apply (StronglySorted_lookup_lt _ curve j (i - 1) (0, P)%Z (qf, qt) Htps);
          [lia|done..]. }
    destruct (Hbox _ (list_elem_of_lookup_2 _ _ _ Hq)) as [_ [_ Hqt]]. simpl in Hqt.
    assert (qt = P) as -> by lia.
    assert (inject_Z P / inject_Z P < 1); [|].
    { apply (Hpred _ ltac:(lia)). by rewrite !list_lookup_fmap, Hq. }
    assert (inject_Z P / inject_Z P == 1) by (field; lra). lra.
  - rewrite Hj in Hp. by injection Hp as <- _.
  - pose proof (StronglySorted_lookup_lt _ curve i j (pf, pt) (0, P)%Z Hfps Hgt Hp Hj) as Hle.
    simpl in Hle. lia.
Qed.

Lemma roc_curve_separated (y_true : list bool) (scores : list Q) :
  length y_true = length scores → separated y_true scores →
  true ∈ y_true → false ∈ y_true →
  ∃ fpr tpr, roc_curve y_true (Fin <$> scores) = Ok (fpr, tpr) ∧ step_curve fpr tpr.
Proof.
  intros Hlen Hsep Hpos Hneg. unfold roc_curve.
  rewrite decide_False by (rewrite length_fmap; intros ?; done).
  rewrite all_scores_Fin.
  destruct (separated_desc y_true scores Hlen Hsep) as [Hpq Hsorted].
  set (desc := reverse (stable_sort (by_snd Qle_bool) (zip y_true scores))) in *.
  assert (desc.*1 ≡ₚ y_true) as Hperm.
  { unfold desc. rewrite reverse_Permutation, stable_sort_Permutation.
    rewrite fst_zip by lia. done. }
  assert (n_negative desc.*1 = n_negative y_true) as Hn.
  { unfold n_negative. f_equal. apply np_sum_bool_Permutation. by rewrite Hperm. }
  assert (n_positive desc.*1 = n_positive y_true) as Hp.
  { unfold n_positive. f_equal. by apply np_sum_bool_Permutation. }
  pose proof (n_positive_pos _ Hpos) as HP. pose proof (n_negative_pos _ Hneg) as HN.
  set (N := n_negative y_true) in *. set (P := n_positive y_true) in *.
  destruct (binary_clf_curve_corner desc 0 0 Hsorted Hpq) as (A & b & B & Hcurve & HA & HB).
  { by rewrite Hperm. }
  { by rewrite Hperm. }
  rewrite Hp, Z.add_0_l in Hcurve, HB.
  destruct (binary_clf_curve_spec desc 0 0) as (Hbox & Htps & Hlast).
  pose proof (binary_clf_curve_fps_sorted desc 0 0) as Hfps.
  rewrite Hn, Hp, !Z.add_0_l in *.
  assert (desc ≠ []) as Hdesc.
  { intros E. rewrite E in Hperm. apply Permutation_nil_l in Hperm.
    rewrite <- Hperm in Hpos. by apply elem_of_nil in Hpos. }
  specialize (Hlast Hdesc).
  rewrite decide_False by (rewrite Hcurve; by destruct A).
  set (C0 := binary_clf_curve 0 0 desc) in *.
  set (c1 := drop_intermediate C0).
  assert (Forall (λ p : Z * Z, p.1 = 0%Z ∨ p.2 = P) C0) as HonL.
  { rewrite Hcurve. apply Forall_app. split; [|constructor].
    - eapply Forall_impl; [exact HA|]. intros p ?. by left.
    - by right.
    - eapply Forall_impl; [exact HB|]. intros p [_ ?]. by right. }
  assert (last c1 = Some (N, P)
          ∧ Forall (in_box (0, 0)%Z (N, P)) c1
          ∧ StronglySorted (λ p q, (p.2 ≤ q.2)%Z) c1
          ∧ StronglySorted (λ p q, (p.1 ≤ q.1)%Z) c1
          ∧ Forall (λ p : Z * Z, p.1 = 0%Z ∨ p.2 = P) c1
          ∧ (0, P)%Z ∈ c1) as (Hlast1 & Hbox1 & Htps1 & Hfps1 & HonL1 & Hcorner1).
  { unfold c1. split; [by rewrite drop_intermediate_last|].
    split; [eapply Forall_sublist; [apply drop_intermediate_sublist|done]|].
    split; [eapply StronglySorted_sublist; [apply drop_intermediate_sublist|done]|].
    split; [eapply StronglySorted_sublist; [apply drop_intermediate_sublist|done]|].
    split; [eapply Forall_sublist; [apply drop_intermediate_sublist|done]|].
    rewrite Hcurve. apply drop_intermediate_corner; [done|].
    apply Forall_cons in HB as [[Hb _] _]. simpl. lia. }
  assert (∀ c2, c2 = c1 ∨ c2 = (0, 0)%Z :: c1 →
            step_curve (rates c2.*1) (rates c2.*2)) as Hc2.
  { intros c2 [-> | ->]; [by apply (step_curve_of_counts c1 N P)|].
    apply (step_curve_of_counts _ N P); try done.
    - rewrite last_cons, Hlast1. done.
    - constructor; [|done]. unfold in_box. simpl. lia.
    - constructor; [done|]. eapply Forall_impl; [exact Hbox1|].
      intros [f t] [_ Ht]. simpl in *. lia.
    - constructor; [done|]. eapply Forall_impl; [exact Hbox1|].
      intros [f t] [Hf _]. simpl in *. lia.
    - constructor; [by left|done].
    - by right. }
  eexists _, _. split; [done|]. apply Hc2.
  destruct c1 as [|[[|?|?] [|?|?]] ?]; auto.
Qed.

(** ** The weighted AUC of a separated sample *)

(** X21: a classifier that scores every positive sample above every
    negative one gets the weighted AUC 1, whatever the number of weights
    and their values, as long as their sum is not zero. *)
Theorem compute_Weighted_AUC_separated (y_true : list bool) (scores weights : list Q) :
  length y_true = length scores → true ∈ y_true → false ∈ y_true →
  separated y_true scores → ¬ Qsum weights == 0 →
  ∃ q, compute_Weighted_AUC y_true (Fin <$> scores) (Fin <$> weights) = Ok (Fin q)
       ∧ q == 1.
Proof.
  intros Hlen Hpos Hneg Hsep Hsum.
  assert (1 ≤ length weights)%nat as HW.
  { destruct weights; [by destruct Hsum|simpl; lia]. }
  set (W := length weights) in *.
  pose proof (inject_Z_nat_pos W HW) as HL.
  destruct (compute_Weighted_AUC_loop y_true scores W Hlen Hpos Hneg HW)
    as (fpr & tpr & fpr' & tpr' & Hroc & Hinterp & HT & Hok & Hok' & Hpresent & Hrest).
  set (qs := ((λ i : nat, inject_Z (Z.of_nat i) * ((1 - 0) / inject_Z (Z.of_nat W)) + 0)
                <$> seq 0 W) ++ [1]) in *.
  pose proof (grid_length W) as Hqs. fold qs in Hqs.
  destruct (roc_curve_separated y_true scores Hlen Hsep Hpos Hneg) as (? & ? & Hroc' & Hstep).
  rewrite Hroc in Hroc'. injection Hroc' as <- <-.
  pose proof (perform_interpolation_step_curve _ _ _ _ _ Hok Hstep HT Hinterp) as Hstep'.
  pose proof Hok' as (_ & _ & _ & (q0 & Hq0 & Hq0') & _).
  destruct (area_loop_exact (1 / inject_Z (Z.of_nat W)) fpr' tpr' qs W Hqs)
    with (m := W) (k0 := 0%nat) (lo := 0%nat) (areas := replicate W (Fin 0))
    as (hi & areas & Hloop & Hla & Hall).
  { intros k lo bk bk1 areas Hk Hbk Hbk1 Hlo.
    pose proof Hbk1 as Hbk1'.
    apply (grid_lookup W k bk HW) in Hbk as [_ Hbk].
    apply (grid_lookup W (k + 1) bk1 HW) in Hbk1 as [_ Hbk1].
    assert (inject_Z (Z.of_nat (k + 1)) == inject_Z (Z.of_nat k) + 1) as Hk1.
    { replace (k + 1)%nat with (S k) by lia. apply inject_Z_S. }
    assert (bk1 - bk == 1 / inject_Z (Z.of_nat W)) as Hdiff.
    { rewrite Hbk, Hbk1, Hk1. field. lra. }
    assert (0 < 1 / inject_Z (Z.of_nat W)) by (apply Qlt_shift_div_l; lra).
    destruct (area_step_perfect fpr' tpr' (Fin <$> qs) areas k lo bk bk1)
      as (hi & a & Hrun & Ha & Hhi); try done.
    - by rewrite list_lookup_fmap, Hbk1'.
    - lra.
    - rewrite Hbk1. apply Qle_shift_div_r; [done|].
      pose proof (inject_Z_nat_le (k + 1) W ltac:(lia)). lra.
    - apply (Hpresent (k + 1)%nat); [lia|done].
    - exists hi, a. split; [done|]. split; [lra|done]. }
  { lia. }
  { exists q0, (inject_Z (Z.of_nat 0) * ((1 - 0) / inject_Z (Z.of_nat W)) + 0).
    split; [|split; [done|]].
    - unfold qs. rewrite lookup_app_l by (rewrite length_fmap, length_seq; lia).
      rewrite list_lookup_fmap, lookup_seq_lt by lia. done.
    - rewrite Hq0'. change (inject_Z (Z.of_nat 0)) with 0. field. lra. }
  { by rewrite length_replicate. }
  { intros j Hj. lia. }
  change (Z.of_nat 0) with 0%Z in Hloop.
  destruct (weighted_sum_const (1 / inject_Z (Z.of_nat W)) areas weights)
    as (q & Hq & Hq1); [done|done|done|].
  exists q. rewrite (Hrest (Fin <$> weights)) by (by rewrite length_fmap).
  rewrite Hloop. cbn [mbind res_bind]. rewrite Hq. split; [done|].
  rewrite Hq1. fold W. field. lra.
Qed.

Lemma compute_Weighted_AUC_separated_witness :
  ∃ q, compute_Weighted_AUC [true; false; true; false; true]
         (Fin <$> [7#10; 2#10; 9#10; 2#10; 6#10]) (Fin <$> [3; 0; 1#2]) = Ok (Fin q)
       ∧ q == 1.
Proof.
  apply (compute_Weighted_AUC_separated [true; false; true; false; true]
           [7#10; 2#10; 9#10; 2#10; 6#10] [3; 0; 1#2]).
  - reflexivity.
  - left.
  - right. left.
  - intros [|[|[|[|[|i]]]]] [|[|[|[|[|j]]]]] p q Hi Hj Hp Hq; try done;
      injection Hp as <-; injection Hq as <-; reflexivity.
  - discriminate.
Defined.

(** ** Ranking the ranks *)

Lemma sort_leb_float_of_nat (m n : nat) :
  sort_leb (float_of_nat m) (float_of_nat n) = Nat.leb m n.
Proof.
  unfold float_of_nat. simpl. apply eq_true_iff_eq.
  rewrite Qle_bool_iff, Nat.leb_le, <- Zle_Qle. lia.
Qed.

Lemma argsort_fmap {A B : Type} (leb : A → A → bool) (leb' : B → B → bool) (g : A → B)
    (a : list A) :
  (∀ x y, leb' (g x) (g y) = leb x y) → argsort leb' (g <$> a) = argsort leb a.
Proof.
  intros Hg. unfold argsort.
  assert (imap pair (g <$> a) = prod_map id g <$> imap pair a) as ->.
  { apply list_eq. intros i.
    rewrite list_lookup_fmap, !list_lookup_imap, list_lookup_fmap.
    by destruct (a !! i). }
  rewrite (stable_sort_fmap (by_snd leb) (by_snd leb') (prod_map id g)).
  - rewrite <- list_fmap_compose. apply list_fmap_ext. by intros _ [k v] _.
  - intros [k u] [k' v] _ _. unfold by_snd. simpl. apply Hg.
Qed.

(** X22: ranking is idempotent: the ranks of the ranks are the ranks. *)
Theorem get_ranks_idempotent (a : list float) :
  get_ranks (float_of_nat <$> get_ranks a) = get_ranks a.
Proof.
  set (r := get_ranks a).
  assert (r ≡ₚ seq 0 (length r)) as Hperm.
  { unfold r. rewrite (Permutation_length (get_ranks_perm_seq a)), length_seq.
    apply get_ranks_perm_seq. }
  unfold get_ranks at 1.
  rewrite (argsort_fmap Nat.leb sort_leb float_of_nat) by apply sort_leb_float_of_nat.
  set (inv := argsort Nat.leb r).
  assert (length inv = length r) as Hlinv.
  { unfold inv. by rewrite (Permutation_length (argsort_Permutation Nat.leb r)), length_seq. }
  assert (inv ≡ₚ seq 0 (length inv)) as Hpinv.
  { rewrite Hlinv. apply argsort_Permutation. }
  assert (length (argsort Nat.leb inv) = length r) as Hlen.
  { by rewrite (Permutation_length (argsort_Permutation Nat.leb inv)), length_seq. }
  apply list_eq. intros i.
  destruct (argsort Nat.leb inv !! i) as [k|] eqn:Hk.
  - apply argsort_inverse in Hk; [|done]. apply argsort_inverse in Hk; [|done]. done.
  - apply lookup_ge_None in Hk. symmetry. apply lookup_ge_None. lia.
Qed.

(** ** Inputs that roc_curve rejects *)

Lemma all_scores_NaN (y_score : list float) : NaN ∈ y_score → all_scores y_score = None.
Proof.
  intros Hin. unfold all_scores.
  destruct (mapM _ y_score) as [qs|] eqn:E; [|done]. exfalso.
  apply mapM_Some in E. apply list_elem_of_lookup in Hin as [i Hi].
  destruct (Forall2_lookup_l _ _ _ _ _ E Hi) as (q & _ & Hq). done.
Qed.

(** X23: arrays of different lengths and a NaN among the scores are
    rejected by roc_curve before anything is computed:
    compute_Weighted_AUC and compute_tpr_with_fpr raise a ValueError. *)
Theorem scorers_reject (y_true : list bool) (y_score weight_distribution : list float)
    (chosen_fpr : float) :
  length y_true ≠ length y_score ∨ NaN ∈ y_score →
  compute_Weighted_AUC y_true y_score weight_distribution = Raise ValueError
  ∧ compute_tpr_with_fpr y_true y_score chosen_fpr = Raise ValueError.
Proof.
  intros Hbad.
  assert (roc_curve y_true y_score = Raise ValueError) as Hroc.
  { unfold roc_curve. destruct (decide (length y_true ≠ length y_score)); [done|].
    destruct Hbad as [?|Hnan]; [done|]. by rewrite all_scores_NaN. }
  unfold compute_Weighted_AUC, compute_tpr_with_fpr. rewrite Hroc. split; [|done].
  unfold np_linspace. destruct (Z.ltb_spec (Z.of_nat (length weight_distribution) + 1) 0); [lia|].
  by destruct (Z.to_nat (Z.of_nat (length weight_distribution) + 1)) as [|[|?]].
Qed.

Lemma scorers_reject_witness :
  compute_Weighted_AUC [false; true] [Fin 1; NaN] default_weight_distribution
  = Raise ValueError
  ∧ compute_tpr_with_fpr [false; true] [Fin 1; NaN] (Fin (1#100)) = Raise ValueError.
Proof.
  apply (scorers_reject [false; true] [Fin 1; NaN] default_weight_distribution (Fin (1#100))).
  right. right. left.
Defined.

(** ** The reported TPR as a function of the chosen FPR *)

(** The value that compute_tpr_with_fpr returns: the TPR of the first point
    of the curve with the chosen FPR, or the interpolation between the two
    points around it. *)
Lemma compute_tpr_with_fpr_value (y_true : list bool) (scores : list Q) (c : Q)
    (fpr tpr : list float) :
  roc_curve y_true (Fin <$> scores) = Ok (fpr, tpr) → curve_ok tpr fpr →
  0 <= c <= 1 →
  ∃ v, compute_tpr_with_fpr y_true (Fin <$> scores) (Fin c) = Ok (Fin v)
       ∧ ((∃ i f, fpr !! i = Some (Fin f) ∧ f == c ∧ tpr !! i = Some (Fin v)
                  ∧ ∀ j g, (j < i)%nat → fpr !! j = Some (Fin g) → g < c)
          ∨ (∃ p fp ff tp tf,
               fpr !! p = Some (Fin fp) ∧ fpr !! S p = Some (Fin ff)
               ∧ tpr !! p = Some (Fin tp) ∧ tpr !! S p = Some (Fin tf)
               ∧ fp < c ∧ c < ff
               ∧ v == (c - fp) * (tf - tp) / (ff - fp) + tp)).
Proof.
  intros Hroc Hok Hc.
  pose proof Hok as (Hlen & Hsorted & Hunit & (q0 & Hq0 & Hq0') & (q1 & Hq1 & Hq1')).
  rewrite Forall_forall in Hunit.
  destruct (present_dec (Fin c) fpr) as [Hp|Hnp].
  - rewrite (compute_tpr_with_fpr_unfold _ _ _ _ _ _ _ Hroc
               (interpolation_step_present tpr fpr (Fin c) Hp)).
    destruct (getitem_first_match tpr fpr (Fin c) Hlen Hp)
      as (i & v & -> & Hv & (f & Hf & Heq) & Hfirst).
    destruct (Hunit v) as (vq & -> & _); [by eapply list_elem_of_lookup_2|].
    apply feqb_true in Heq as (fq & ? & -> & [= <-] & Heq).
    exists vq. split; [done|]. left. exists i, fq. repeat split; try done.
    intros j g Hj Hg. specialize (Hfirst j (Fin g) Hj Hg).
    assert (fleb (Fin g) (Fin fq) = true) as Hle.
    { by eapply (non_decreasing_lt fpr j i). }
    apply Qle_bool_iff in Hle. simpl in Hfirst. apply Qeq_bool_neq in Hfirst.
    destruct (Qlt_le_dec g c); [done|]. destruct Hfirst. lra.
  - assert (0 < c ∧ c < 1) as [Hlo Hhi].
    { destruct (Qlt_le_dec 0 c) as [?|?]; [destruct (Qlt_le_dec c 1) as [?|?]|].
      - done.
      - destruct Hnp. exists (Fin q1). split; [by apply last_Some_elem_of|].
        apply Qeq_bool_iff. lra.
      - destruct Hnp. exists (Fin q0). split; [by eapply list_elem_of_lookup_2|].
        apply Qeq_bool_iff. lra. }
    destruct (interpolation_step_bracket tpr fpr (Fin c) Hlen Hsorted Hnp)
      as (p & yp & yf & xp & xf & Hyp & Hyf & Hxp & Hxf & Hlt & Hgt & _ & Hstep).
    { exists (Fin q0), (Fin q1). repeat split.
      - by eapply list_elem_of_lookup_2.
      - by apply last_Some_elem_of.
      - apply Qlt_bool_iff. lra.
      - apply Qlt_bool_iff. lra. }
    rewrite (compute_tpr_with_fpr_unfold _ _ _ _ _ _ _ Hroc Hstep).
    apply fltb_true in Hlt as (fp & ? & -> & [= <-] & Hlt).
    apply fltb_true in Hgt as (? & ff & [= <-] & -> & Hgt).
    destruct (Hunit xp) as (tp & -> & _); [by eapply list_elem_of_lookup_2|].
    destruct (Hunit xf) as (tf & -> & _); [by eapply list_elem_of_lookup_2|].
    assert (S p ≤ length tpr)%nat as Hpx by (apply lookup_lt_Some in Hxf; lia).
    assert (S p ≤ length fpr)%nat as Hpy by (apply lookup_lt_Some in Hyf; lia).
    set (tpr' := take (S p) tpr ++ linear_interpolation (Fin c) (Fin fp) (Fin ff) (Fin tp) (Fin tf)
                   :: drop (S p) tpr).
    set (fpr' := take (S p) fpr ++ Fin c :: drop (S p) fpr).
    destruct (getitem_first_match tpr' fpr' (Fin c))
      as (i & v & -> & Hv & (f & Hf & Heq) & _).
    { unfold tpr', fpr'. rewrite !length_app. simpl. rewrite !length_take, !length_drop. lia. }
    { exists (Fin c). split; [|apply feqb_refl].
      unfold fpr'. apply elem_of_app. right. left. }
    assert (i = S p) as ->.
    { unfold fpr' in Hf. rewrite lookup_insert_at in Hf by done.
      destruct (decide (i < S p)%nat).
      - destruct Hnp. exists f. split; [by eapply list_elem_of_lookup_2|done].
      - destruct (decide (i = S p)); [done|].
        destruct Hnp. exists f. split; [by eapply list_elem_of_lookup_2|done]. }
    unfold tpr' in Hv. rewrite lookup_insert_at in Hv by done.
    rewrite decide_False, decide_True in Hv by lia. injection Hv as <-.
    unfold linear_interpolation. simpl.
    destruct (Qeq_bool (ff - fp) 0) eqn:E.
    { apply Qeq_bool_iff in E. lra. }
    eexists. split; [done|]. right. exists p, fp, ff, tp, tf. repeat split; try done.
Qed.

(** X24: in exact arithmetic the reported TPR never decreases when the
    chosen FPR grows: for a sample with both classes and
    [0 <= c1 <= c2 <= 1], the TPR at [c1] is at most the TPR at [c2].  In
    binary64 rounding can reverse two values that are an ulp apart (lemma
    [compute_tpr_with_fpr_rounds_above_one]). *)
Theorem compute_tpr_with_fpr_monotone (y_true : list bool) (scores : list Q) (c1 c2 : Q) :
  length y_true = length scores → true ∈ y_true → false ∈ y_true →
  0 <= c1 → c1 <= c2 → c2 <= 1 →
  ∃ v1 v2,
    compute_tpr_with_fpr y_true (Fin <$> scores) (Fin c1) = Ok (Fin v1)
    ∧ compute_tpr_with_fpr y_true (Fin <$> scores) (Fin c2) = Ok (Fin v2)
    ∧ v1 <= v2.
Proof.
  intros Hlen Hpos Hneg H0 H12 H1.
  destruct (roc_curve_ok_fpr y_true scores Hlen Hpos Hneg) as (fpr & tpr & Hroc & Hok & _).
  destruct (roc_curve_ok y_true scores Hlen Hpos Hneg) as (? & ? & Hroc' & Hok2).
  rewrite Hroc in Hroc'. injection Hroc' as <- <-.
  destruct (compute_tpr_with_fpr_value y_true scores c1 fpr tpr Hroc Hok) as (v1 & Hv1 & D1);
    [lra|].
  destruct (compute_tpr_with_fpr_value y_true scores c2 fpr tpr Hroc Hok) as (v2 & Hv2 & D2);
    [lra|].
  exists v1, v2. split; [done|]. split; [done|].
  destruct Hok as (_ & Hfs & _). destruct Hok2 as (_ & Hts & _).
  assert (∀ i j a b, (i ≤ j)%nat → tpr !! i = Some (Fin a) → tpr !! j = Some (Fin b) → a <= b)
    as Htle.
  { intros i j a b Hij Ha Hb. destruct (decide (i = j)) as [->|Hne].
    - rewrite Ha in Hb. injection Hb as ->. lra.
    - apply Qle_bool_iff. by apply (non_decreasing_lt tpr i j (Fin a) (Fin b) Hts); [lia|..]. }
  assert (∀ i j a b, (i ≤ j)%nat → fpr !! i = Some (Fin a) → fpr !! j = Some (Fin b) → a <= b)
    as Hfle.
  { intros i j a b Hij Ha Hb. destruct (decide (i = j)) as [->|Hne].
    - rewrite Ha in Hb. injection Hb as ->. lra.
    - apply Qle_bool_iff. by apply (non_decreasing_lt fpr i j (Fin a) (Fin b) Hfs); [lia|..]. }
  assert (∀ c fp ff tp tf, fp < c → c < ff → tp <= tf →
            tp <= (c - fp) * (tf - tp) / (ff - fp) + tp
            ∧ (c - fp) * (tf - tp) / (ff - fp) + tp <= tf) as Hbetween.
  { intros c fp ff tp tf Hlt Hgt Hle. assert (0 < ff - fp) as Hd by lra. split.
    - apply Qle_minus_iff.
      assert ((c - fp) * (tf - tp) / (ff - fp) + tp + - tp
              == ((c - fp) * (tf - tp)) / (ff - fp)) as -> by (field; lra).
      apply Qle_shift_div_l; [done|]. nra.
    - apply Qle_minus_iff.
      assert (tf + - ((c - fp) * (tf - tp) / (ff - fp) + tp)
              == ((ff - c) * (tf - tp)) / (ff - fp)) as -> by (field; lra).
      apply Qle_shift_div_l; [done|]. nra. }
  destruct D1 as [(i1 & f1 & Hf1 & Hf1c & Ht1 & Hfirst1)
                 |(p1 & fp1 & ff1 & tp1 & tf1 & Hfp1 & Hff1 & Htp1 & Htf1 & Hlt1 & Hgt1 & Hval1)];
  destruct D2 as [(i2 & f2 & Hf2 & Hf2c & Ht2 & Hfirst2)
                 |(p2 & fp2 & ff2 & tp2 & tf2 & Hfp2 & Hff2 & Htp2 & Htf2 & Hlt2 & Hgt2 & Hval2)].
  - (* both on the curve *)
    destruct (decide (i1 ≤ i2)%nat) as [Hle|Hgt]; [by apply (Htle i1 i2)|].
    specialize (Hfirst1 i2 f2 ltac:(lia) Hf2). lra.
  - (* the first on the curve, the second interpolated *)
    pose proof (Htle p2 (S p2) tp2 tf2 ltac:(lia) Htp2 Htf2) as Hseg.
    destruct (Hbetween c2 fp2 ff2 tp2 tf2 Hlt2 Hgt2 Hseg) as [Hlow _].
    destruct (decide (i1 ≤ p2)%nat) as [Hle|Hgt].
    + pose proof (Htle i1 p2 v1 tp2 Hle Ht1 Htp2). lra.
    + pose proof (Hfle (S p2) i1 ff2 f1 ltac:(lia) Hff2 Hf1). lra.
  - (* the first interpolated, the second on the curve *)
    pose proof (Htle p1 (S p1) tp1 tf1 ltac:(lia) Htp1 Htf1) as Hseg.
    destruct (Hbetween c1 fp1 ff1 tp1 tf1 Hlt1 Hgt1 Hseg) as [_ Hhigh].
    destruct (decide (S p1 ≤ i2)%nat) as [Hle|Hgt].
    + pose proof (Htle (S p1) i2 tf1 v2 Hle Htf1 Ht2). lra.
    + pose proof (Hfle i2 p1 f2 fp1 ltac:(lia) Hf2 Hfp1). lra.
  - (* both interpolated *)
    pose proof (Htle p1 (S p1) tp1 tf1 ltac:(lia) Htp1 Htf1) as Hseg1.
    pose proof (Htle p2 (S p2) tp2 tf2 ltac:(lia) Htp2 Htf2) as Hseg2.
    destruct (Hbetween c1 fp1 ff1 tp1 tf1 Hlt1 Hgt1 Hseg1) as [_ Hhigh].
    destruct (Hbetween c2 fp2 ff2 tp2 tf2 Hlt2 Hgt2 Hseg2) as [Hlow _].
    destruct (Nat.lt_trichotomy p1 p2) as [Hlt|[->|Hgt]].
    + pose proof (Htle (S p1) p2 tf1 tp2 ltac:(lia) Htf1 Htp2). lra.
    + rewrite Hfp1 in Hfp2. rewrite Hff1 in Hff2. rewrite Htp1 in Htp2. rewrite Htf1 in Htf2.
      injection Hfp2 as <-. injection Hff2 as <-. injection Htp2 as <-. injection Htf2 as <-.
      rewrite Hval1, Hval2. assert (0 < ff1 - fp1) as Hd by lra.
      apply Qle_minus_iff.
      assert ((c2 - fp1) * (tf1 - tp1) / (ff1 - fp1) + tp1
              + - ((c1 - fp1) * (tf1 - tp1) / (ff1 - fp1) + tp1)
              == ((c2 - c1) * (tf1 - tp1)) / (ff1 - fp1)) as -> by (field; lra).
      apply Qle_shift_div_l; [done|]. nra.
    + pose proof (Hfle (S p2) p1 ff2 fp1 ltac:(lia) Hff2 Hfp1). lra.
Qed.

Lemma compute_tpr_with_fpr_monotone_witness :
  ∃ v1 v2,
    compute_tpr_with_fpr [false; true; false; true]
      (Fin <$> [9#10; 8#10; 1#10; 7#10]) (Fin (1#4)) = Ok (Fin v1)
    ∧ compute_tpr_with_fpr [false; true; false; true]
        (Fin <$> [9#10; 8#10; 1#10; 7#10]) (Fin (3#4)) = Ok (Fin v2)
    ∧ v1 <= v2.
Proof.
  apply (compute_tpr_with_fpr_monotone [false; true; false; true]
           [9#10; 8#10; 1#10; 7#10] (1#4) (3#4)).
  - reflexivity.
  - right. left.
  - left.
  - discriminate.
  - discriminate.
  - discriminate.
Defined.

(** ** The area under the floor *)

(** Among sorted points the first one of an abscissa is the lowest. *)
Lemma lex_lowest (pts : list (float * float)) (x0 y0 x y : Q) :
  Sorted (λ p q, lex_leb p q = true) ((Fin x0, Fin y0) :: pts) →
  StronglySorted (λ p q, sort_leb p.1 q.1 = true) ((Fin x0, Fin y0) :: pts) →
  Forall (λ p, ∃ a b, p = (Fin a, Fin b)) pts →
  (Fin x, Fin y) ∈ (Fin x0, Fin y0) :: pts → x <= x0 → y0 <= y.
Proof.
  revert x0 y0. induction pts as [|p1 pts IH]; intros x0 y0 Hsorted Hstrong Hfin Hin Hx.
  { apply list_elem_of_singleton in Hin. injection Hin as -> ->. lra. }
  apply elem_of_cons in Hin as [[= -> ->]|Hin]; [lra|].
  apply Forall_cons in Hfin as [(x1 & y1 & ->) Hfin].
  apply Sorted_inv in Hsorted as [Hsorted Hhd]. apply HdRel_inv in Hhd.
  apply lex_leb_Fin in Hhd as [Hle Hties].
  apply StronglySorted_inv in Hstrong as [Hstrong Hall].
  assert (x1 <= x) as Hx1.
  { apply elem_of_cons in Hin as [[= -> ->]|Hin]; [lra|].
    apply StronglySorted_inv in Hstrong as [_ Hall1]. rewrite Forall_forall in Hall1.
    by apply (sort_leb_Fin x1 x), (Hall1 (Fin x, Fin y)). }
  specialize (IH x1 y1 Hsorted Hstrong Hfin Hin ltac:(lra)).
  specialize (Hties ltac:(lra)). lra.
Qed.

Lemma trapz_terms_floor (h : Q) (pts : list (float * float)) :
  Sorted (λ p q, lex_leb p q = true) pts →
  StronglySorted (λ p q, sort_leb p.1 q.1 = true) pts →
  Forall (on_floor h) pts →
  (∀ x0 y0, head pts = Some (Fin x0, Fin y0) → x0 < 1 → has_point 1 0 pts) →
  ∃ ts, trapz_terms pts = Fin <$> ts ∧ Qsum ts == 0.
Proof.
  intros Hsorted. induction Hsorted as [|p0 rest Hrest IH Hhd];
    intros Hstrong Hpts Hcorner.
  { exists []. done. }
  apply StronglySorted_inv in Hstrong as [Hstrong Hall].
  apply Forall_cons in Hpts as [Hp0 Hpts].
  destruct rest as [|p1 rest'].
  { exists []. done. }
  apply HdRel_inv in Hhd.
  pose proof Hpts as Hpts'. apply Forall_cons in Hpts' as [(x1 & y1 & -> & Hx1 & Hy1 & Hlow1) _].
  destruct Hp0 as (x0 & y0 & -> & Hx0 & Hy0 & Hlow0).
  apply lex_leb_Fin in Hhd as [Hle Hties].
  assert (Forall (λ p : float * float, ∃ a b, p = (Fin a, Fin b)) rest') as Hfin.
  { apply Forall_cons in Hpts as [_ Hpts]. eapply Forall_impl; [exact Hpts|].
    intros p (a & b & -> & _). by exists a, b. }
  assert (x0 < 1 → has_point 1 0 ((Fin x1, Fin y1) :: rest')) as Htail.
  { intros Hx01. destruct (Hcorner x0 y0 eq_refl Hx01) as (xc & yc & Hin & Hxc & Hyc).
    apply elem_of_cons in Hin as [[= -> ->]|Hin]; [lra|]. by exists xc, yc. }
  assert (x0 < x1 → y0 == 0 ∧ y1 == 0) as Hzero.
  { intros Hlt. split; [apply Hlow0; lra|].
    destruct (Qlt_le_dec x1 1) as [?|Hx11]; [by apply Hlow1|].
    destruct Htail as (xc & yc & Hin & Hxc & Hyc); [lra|].
    pose proof (lex_lowest rest' x1 y1 xc yc Hrest Hstrong Hfin Hin ltac:(lra)). lra. }
  destruct (IH Hstrong Hpts) as (ts & Hts & Hsum).
  { intros ? ? [= <- <-] Hx11. apply Htail. lra. }
  exists ((x1 - x0) * (y1 + y0) / 2 :: ts). split.
  { change (trapz_terms ((Fin x0, Fin y0) :: (Fin x1, Fin y1) :: rest'))
      with (fdiv (fmul (fsub (Fin x1) (Fin x0)) (fadd (Fin y1) (Fin y0))) (Fin 2)
            :: trapz_terms ((Fin x1, Fin y1) :: rest')).
    by rewrite Hts. }
  simpl. rewrite Hsum.
  assert ((x1 - x0) * (y1 + y0) / 2 == 0) as ->; [|ring].
  destruct (Qlt_le_dec x0 x1) as [Hlt|Hge].
  - destruct (Hzero Hlt) as [-> ->]. field.
  - assert (x1 == x0) as -> by lra. field.
Qed.

(** [auc(x, y, reorder=True)] of a curve that stays on the floor. *)
Lemma auc_reorder_floor (h : Q) (xs ys : list float) :
  length xs = length ys → (2 ≤ length xs)%nat →
  Forall (on_floor h) (zip xs ys) →
  has_point 1 0 (zip xs ys) →
  ∃ a, auc_reorder xs ys = Ok (Fin a) ∧ a == 0.
Proof.
  intros Hlen H2 Hon Hcorner.
  unfold auc_reorder. rewrite decide_False by (by intros ?). rewrite decide_False by lia.
  unfold np_trapz.
  assert (stable_sort lex_leb (zip xs ys) ≡ₚ zip xs ys) as Hperm
    by apply stable_sort_Permutation.
  assert (Sorted (λ p q, lex_leb p q = true) (stable_sort lex_leb (zip xs ys))) as Hsorted.
  { apply stable_sort_Sorted, lex_leb_total. }
  revert Hperm Hsorted. generalize (stable_sort lex_leb (zip xs ys)). intros pts Hperm Hsorted.
  assert (Forall (on_floor h) pts) as Hall by (by rewrite Hperm).
  assert (StronglySorted (λ p q, sort_leb p.1 q.1 = true) pts) as Hstrong.
  { apply Sorted.Sorted_StronglySorted.
    - intros p q r. apply sort_leb_trans.
    - eapply Sorted_impl; [|exact Hsorted].
      intros p q. unfold lex_leb. by destruct (sort_leb p.1 q.1). }
  assert (has_point 1 0 pts) as Hcorner'.
  { destruct Hcorner as (x & y & Hin & ?). exists x, y. by rewrite Hperm. }
  destruct (trapz_terms_floor h pts Hsorted Hstrong Hall) as (ts & -> & Hsum); [done|].
  destruct (np_sum_Fin ts) as (s & -> & Hs). exists s. split; [done|]. by rewrite Hs.
Qed.

(** ** One band of a floor curve *)

Lemma area_step_floor (fpr tpr ths areas : list float) (k lo : nat) (bk bk1 : Q) :
  curve_ok fpr tpr → floor_curve fpr tpr →
  ths !! (k + 1)%nat = Some (Fin bk1) →
  (∃ v, tpr !! lo = Some (Fin v) ∧ v == bk) →
  0 <= bk → bk < bk1 →
  present (Fin bk1) tpr →
  ∃ hi a,
    area_step fpr tpr ths (Z.of_nat lo, areas) k = Ok (Z.of_nat hi, <[k := Fin a]> areas)
    ∧ a == 0
    ∧ ∃ v, tpr !! hi = Some (Fin v) ∧ v == bk1.
Proof.
  intros (Hlen & Hsorted & Hunit & _ & _) Hfloor Hth (v0 & Hlo & Hv0) Hbk0 Hlt Hpres.
  unfold area_step.
  rewrite (bind_Ok_eq _ _ _ (proj2 (getitem_Ok _ _ _) Hth)).
  set (cnt := np_sum_bool ((λ t, fleb t (Fin bk1)) <$> tpr)).
  assert (lo < cnt)%nat as Hlocnt.
  { apply (count_le_prefix tpr (Fin bk1) lo (Fin v0) Hsorted Hlo).
    apply Qle_bool_iff. lra. }
  assert (cnt ≤ length tpr)%nat as Hcnt.
  { unfold cnt. etrans; [apply np_sum_bool_le_length|]. by rewrite length_fmap. }
  replace (Z.of_nat cnt - 1 + 1)%Z with (Z.of_nat cnt) by lia.
  rewrite !py_slice_nat by lia.
  set (sel_t := take (cnt - lo) (drop lo tpr)).
  set (sel_f := take (cnt - lo) (drop lo fpr)).
  assert (∀ j u, (lo + j < cnt)%nat → tpr !! (lo + j)%nat = Some u →
            ∃ uq, u = Fin uq ∧ v0 <= uq ∧ uq <= bk1) as Hsel.
  { intros j u Hjlt Hj.
    assert (fleb u (Fin bk1) = true) as Hu.
    { by apply (count_le_prefix tpr (Fin bk1) (lo + j) u Hsorted Hj). }
    apply fleb_true in Hu as (uq & ? & -> & [= <-] & Hu). exists uq. repeat split; [|done].
    destruct j as [|j].
    - rewrite Nat.add_0_r, Hlo in Hj. injection Hj as ->. lra.
    - assert (fleb (Fin v0) (Fin uq) = true) as Hvu.
      { eapply (non_decreasing_lt tpr lo (lo + S j)); [done|lia|done..]. }
      by apply Qle_bool_iff in Hvu. }
  (* the last point at the lower boundary *)
  set (cntk := np_sum_bool ((λ t, fleb t (Fin bk)) <$> tpr)).
  assert (lo < cntk)%nat as Hlok.
  { apply (count_le_prefix tpr (Fin bk) lo (Fin v0) Hsorted Hlo).
    apply Qle_bool_iff. lra. }
  destruct (tpr !! (cntk - 1)%nat) as [uk|] eqn:Huk.
  2:{ apply lookup_ge_None in Huk.
      assert (cntk ≤ length tpr)%nat; [|lia].
      unfold cntk. etrans; [apply np_sum_bool_le_length|]. by rewrite length_fmap. }
  assert (fleb uk (Fin bk) = true) as Hukle.
  { apply (count_le_prefix tpr (Fin bk) (cntk - 1) uk Hsorted Huk). lia. }
  apply fleb_true in Hukle as (ukq & ? & -> & [= <-] & Hukle).
  assert (cntk - 1 < cnt)%nat as Hkcnt.
  { apply (count_le_prefix tpr (Fin bk1) (cntk - 1) (Fin ukq) Hsorted Huk).
    apply Qle_bool_iff. lra. }
  assert (ukq == bk) as Hukq.
  { destruct (decide (lo = cntk - 1)%nat) as [E|Hne].
    - rewrite <- E, Hlo in Huk. injection Huk as <-. done.
    - assert (fleb (Fin v0) (Fin ukq) = true) as Hvu.
      { eapply (non_decreasing_lt tpr lo (cntk - 1)); [done|lia|done..]. }
      apply Qle_bool_iff in Hvu. lra. }
  destruct (fpr !! (cntk - 1)%nat) as [fk|] eqn:Hfk.
  2:{ apply lookup_ge_None in Hfk. apply lookup_lt_Some in Huk. lia. }
  rewrite Forall_forall in Hunit.
  destruct (Hunit fk) as (fkq & -> & Hfkq); [by eapply list_elem_of_lookup_2|].
  assert (fkq == 1) as Hfk1.
  { apply (Hfloor (cntk - 1)%nat fkq Hfk). intros a Ha.
    replace (S (cntk - 1)) with cntk in Ha by lia.
    destruct (Qlt_le_dec bk a) as [?|Hle]; [lra|]. exfalso.
    assert (cntk < cntk)%nat; [|lia].
    apply (count_le_prefix tpr (Fin bk) cntk (Fin a) Hsorted Ha). by apply Qle_bool_iff. }
  (* the last selected point *)
  destruct (tpr !! (cnt - 1)%nat) as [w|] eqn:Hw.
  2:{ apply lookup_ge_None in Hw. lia. }
  destruct (Hsel (cnt - 1 - lo)%nat w) as (wq & -> & _ & Hwle).
  { lia. }
  { by replace (lo + (cnt - 1 - lo))%nat with (cnt - 1)%nat by lia. }
  assert (wq == bk1) as Hwq.
  { destruct Hpres as (u & [j Hj]%list_elem_of_lookup & Heq).
    apply feqb_true in Heq as (uq & ? & -> & [= <-] & Heq).
    assert (j < cnt)%nat as Hjcnt.
    { apply (count_le_prefix tpr (Fin bk1) j (Fin uq) Hsorted Hj). apply Qle_bool_iff. lra. }
    destruct (decide (j = cnt - 1)%nat) as [->|Hne].
    - rewrite Hw in Hj. injection Hj as ->. done.
    - assert (fleb (Fin uq) (Fin wq) = true) as Huw.
      { eapply (non_decreasing_lt tpr j (cnt - 1)); [done|lia|done..]. }
      apply Qle_bool_iff in Huw. lra. }
  assert (sel_t !! 0%nat = Some (Fin v0)) as Hfirst.
  { unfold sel_t. rewrite lookup_take_lt by lia. by rewrite lookup_drop, Nat.add_0_r. }
  rewrite (bind_Ok_eq _ _ _ (proj2 (getitem_Ok _ _ _) Hfirst)).
  set (local := (λ t, fsub t (Fin v0)) <$> sel_t).
  assert (local !! 0%nat = Some (fsub (Fin v0) (Fin v0))) as Hl0.
  { unfold local. by rewrite list_lookup_fmap, Hfirst. }
  rewrite (bind_Ok_eq _ _ _ (proj2 (getitem_Ok _ _ _) Hl0)).
  assert (length sel_t = (cnt - lo)%nat) as Hlsel.
  { unfold sel_t. rewrite length_take, length_drop. lia. }
  assert (length sel_f = (cnt - lo)%nat) as Hlself.
  { unfold sel_f. rewrite length_take, length_drop. lia. }
  assert (last local = Some (Fin (wq - v0))) as Hlast.
  { unfold local. rewrite fmap_last, last_lookup, Hlsel. unfold sel_t.
    rewrite lookup_take_lt by lia. rewrite lookup_drop.
    replace (lo + pred (cnt - lo))%nat with (cnt - 1)%nat by lia. by rewrite Hw. }
  unfold getitem_last. rewrite Hlast. cbn [mbind res_bind].
  assert (∀ j x y, zip sel_f local !! j = Some (x, y) →
            (lo + j < cnt)%nat ∧ fpr !! (lo + j)%nat = Some x
            ∧ ∃ u, tpr !! (lo + j)%nat = Some u ∧ y = fsub u (Fin v0)) as Hzip.
  { intros j x y Hj. apply lookup_zip_with_Some in Hj as (x' & y' & [= <- <-] & Hx & Hy).
    unfold sel_f in Hx. apply lookup_take_Some in Hx as [Hx Hjlt]. rewrite lookup_drop in Hx.
    unfold local, sel_t in Hy. rewrite list_lookup_fmap in Hy.
    destruct (take (cnt - lo) (drop lo tpr) !! j) as [u|] eqn:Hu; [|done].
    injection Hy as <-. apply lookup_take_Some in Hu as [Hu _]. rewrite lookup_drop in Hu.
    split; [lia|]. split; [done|]. by exists u. }
  assert (length sel_f = length local) as Hlz.
  { unfold local. rewrite length_fmap. lia. }
  destruct (auc_reorder_floor (bk1 - bk) ([Fin 0] ++ sel_f ++ [Fin 1])
              ([fsub (Fin v0) (Fin v0)] ++ local ++ [Fin (wq - v0)]))
    as (a & Harea & Ha).
  { rewrite !length_app. simpl. lia. }
  { rewrite !length_app. simpl. lia. }
  { rewrite zip_frame by done. constructor.
    { exists 0, (v0 - v0). split; [done|]. split; [lra|]. split; [lra|]. intros _. ring. }
    apply Forall_app. split.
    - apply Forall_lookup. intros j [x y] Hj.
      apply Hzip in Hj as (Hjlt & Hx & u & Hu & ->).
      destruct (Hsel j u Hjlt Hu) as (uq & -> & Hlo' & Hhi').
      destruct (Hunit x) as (f & -> & Hf); [by eapply list_elem_of_lookup_2|].
      exists f, (uq - v0). split; [done|]. split; [done|]. split; [lra|].
      intros Hf1.
      destruct (tpr !! S (lo + j)) as [nx|] eqn:Hnx.
      2:{ exfalso. assert (f == 1); [|lra]. apply (Hfloor (lo + j)%nat f Hx).
          intros a Ha. by rewrite Hnx in Ha. }
      assert (fleb (Fin uq) nx = true) as Hun by (by apply (Hsorted (lo + j)%nat)).
      apply fleb_true in Hun as (? & a & [= <-] & -> & Hun).
      destruct (Qlt_le_dec 0 a) as [Ha0|Ha0].
      { exfalso. assert (f == 1); [|lra]. apply (Hfloor (lo + j)%nat f Hx).
        intros a' Ha'. rewrite Hnx in Ha'. by injection Ha' as <-. }
      lra.
    - constructor; [|constructor].
      exists 1, (wq - v0). split; [done|]. split; [lra|]. split; [lra|]. lra. }
  { rewrite zip_frame by done.
    exists fkq, (ukq - v0). split; [|split; [done|lra]].
    right. apply elem_of_app. left. apply list_elem_of_lookup. exists (cntk - 1 - lo)%nat.
    apply lookup_zip_with_Some. exists (Fin fkq), (Fin (ukq - v0)). split; [done|]. split.
    - unfold sel_f. rewrite lookup_take_lt by lia. rewrite lookup_drop.
      by replace (lo + (cntk - 1 - lo))%nat with (cntk - 1)%nat by lia.
    - unfold local, sel_t. rewrite list_lookup_fmap, lookup_take_lt by lia.
      rewrite lookup_drop. replace (lo + (cntk - 1 - lo))%nat with (cntk - 1)%nat by lia.
      by rewrite Huk. }
  rewrite Harea. cbn [mbind res_bind].
  exists (cnt - 1)%nat, a. split; [|split; [done|]].
  { do 2 f_equal. lia. }
  by exists wq.
Qed.

(** ** Interpolating a floor curve *)

Lemma interpolation_step_floor_curve (x y x' y' : list float) (q : Q) :
  curve_ok x y → floor_curve x y → 0 < q → q < 1 →
  interpolation_step (x, y) (Fin q) = Ok (x', y') →
  floor_curve x' y'.
Proof.
  intros (Hlen & Hsorted & Hunit & _ & _) Hfloor Hq0 Hq1 Hrun.
  pose proof (interpolation_step_spec x y (Fin q)) as Hspec. rewrite Hrun in Hspec.
  destruct Hspec as [(_ & -> & ->)|(Hnp & p & yp & yf & xp & xf & Hlast & Hyp & Hyf & Hxp & Hxf
                                    & -> & ->)]; [done|].
  destruct (successor_above y (Fin q) p yp yf Hsorted Hnp Hlast Hyp Hyf) as [Hlt Hgt].
  apply fltb_true in Hlt as (a & ? & -> & [= <-] & Hlt).
  apply fltb_true in Hgt as (? & b & [= <-] & -> & Hgt).
  rewrite Forall_forall in Hunit.
  destruct (Hunit xp) as (d & -> & Hd); [by eapply list_elem_of_lookup_2|].
  destruct (Hunit xf) as (e & -> & He); [by eapply list_elem_of_lookup_2|].
  assert (d == 1) as Hd1.
  { apply (Hfloor p d Hxp). intros a' Ha'. rewrite Hyf in Ha'. injection Ha' as <-. lra. }
  assert (e == 1) as He1.
  { apply (Hfloor (S p) e Hxf). intros a' Ha'.
    assert (fleb (Fin b) (Fin a') = true) as Hle by (by apply (Hsorted (S p))).
    apply Qle_bool_iff in Hle. lra. }
  assert (S p ≤ length x)%nat as Hpx by (apply lookup_lt_Some in Hxf; lia).
  assert (S p ≤ length y)%nat as Hpy by (apply lookup_lt_Some in Hyf; lia).
  intros i f Hi Hsucc. rewrite lookup_insert_at in Hi by done.
  destruct (decide (i < S p)%nat) as [Hlo|Hhi].
  - destruct (decide (i = p)) as [->|Hne].
    + rewrite Hxp in Hi. by injection Hi as <-.
    + apply (Hfloor i f Hi). intros a' Ha'. apply Hsucc.
      rewrite lookup_insert_at by done. by rewrite decide_True by lia.
  - destruct (decide (i = S p)) as [->|Hne].
    + injection Hi as Hi. unfold linear_interpolation in Hi. simpl in Hi.
      destruct (Qeq_bool (b - a) 0) eqn:E; [done|]. injection Hi as <-.
      rewrite He1, Hd1. field. intros Hba. lra.
    + apply (Hfloor (i - 1)%nat f Hi). intros a' Ha'. apply Hsucc.
      rewrite lookup_insert_at by done.
      rewrite decide_False by lia. rewrite decide_False by lia.
      by replace (S i - 1)%nat with (S (i - 1)) by lia.
Qed.

Lemma perform_interpolation_floor_curve (T : list Q) (x y x' y' : list float) :
  curve_ok x y → floor_curve x y → Forall (λ q, 0 < q ∧ q < 1) T →
  perform_interpolation x y (Fin <$> T) = Ok (x', y') →
  floor_curve x' y'.
Proof.
  intros Hok Hfloor HT. revert x y Hok Hfloor.
  induction HT as [|q T [Hlo Hhi] _ IH]; intros x y Hok Hfloor.
  { unfold perform_interpolation. simpl. by intros [= <- <-]. }
  rewrite fmap_cons, perform_interpolation_cons.
  destruct (interpolation_step_curve_ok x y q Hok Hlo Hhi) as (x1 & y1 & Hrun & Hok1).
  rewrite Hrun. simpl. apply IH; [done|].
  exact (interpolation_step_floor_curve x y x1 y1 q Hok Hfloor Hlo Hhi Hrun).
Qed.

(** ** The ROC curve of an inverted sample *)

(** Visited by decreasing score, an inverted sample shows its negatives
    first. *)
Lemma inverted_desc (y_true : list bool) (scores : list Q) :
  length y_true = length scores → inverted y_true scores →
  let desc := reverse (stable_sort (by_snd Qle_bool) (zip y_true scores)) in
  (∀ p q, (true, p) ∈ desc → (false, q) ∈ desc → p < q)
  ∧ StronglySorted (λ a b : bool * Q, a.1 = true → b.1 = true) desc.
Proof.
  intros Hlen Hinv desc.
  assert (∀ b s, (b, s) ∈ desc → ∃ i, y_true !! i = Some b ∧ scores !! i = Some s) as Hin.
  { intros b s Hbs. unfold desc in Hbs.
    rewrite reverse_Permutation, stable_sort_Permutation in Hbs.
    apply list_elem_of_lookup in Hbs as [i Hi]. exists i.
    apply lookup_zip_with_Some in Hi as (? & ? & [= <- <-] & ? & ?). done. }
  assert (∀ p q, (true, p) ∈ desc → (false, q) ∈ desc → p < q) as Hpq.
  { intros p q (i & Hi & Hp)%Hin (j & Hj & Hq)%Hin. by apply (Hinv i j). }
  split; [done|].
  apply (StronglySorted_impl_elem (flip (λ a b : bool * Q, by_snd Qle_bool a b = true))).
  - intros [[] p] [[] q] Ha Hb Hle; simpl; try done.
    intros _. unfold flip, by_snd in Hle. simpl in Hle. apply Qle_bool_iff in Hle.
    specialize (Hpq p q Ha Hb). lra.
  - apply StronglySorted_reverse, stable_sort_StronglySorted.
    + intros a b. unfold by_snd. rewrite !Qle_bool_iff.
      destruct (Qlt_le_dec a.2 b.2); [left|right]; lra.
    + intros a b c. unfold by_snd. rewrite !Qle_bool_iff. lra.
Qed.

(** The counts recorded over positive samples only. *)
Lemma binary_clf_curve_positives (samples : list (bool * Q)) (fps tps : Z) :
  Forall (λ s, s.1 = true) samples → samples ≠ [] →
  ∃ b B, binary_clf_curve fps tps samples = b :: B
         ∧ Forall (λ p, p.1 = fps ∧ (tps < p.2)%Z) (b :: B).
Proof.
  intros Hall Hne.
  destruct (binary_clf_curve_spec samples fps tps) as (Hbox & _ & Hlast).
  specialize (Hlast Hne).
  assert (n_negative samples.*1 = 0%Z) as Hn.
  { unfold n_negative. rewrite np_sum_bool_all_false; [done|].
    intros l Hin. apply list_elem_of_fmap in Hin as (s & -> & Hin).
    rewrite Forall_forall in Hall. by rewrite (Hall s Hin). }
  assert (Forall (λ p, (tps < p.2)%Z) (binary_clf_curve fps tps samples)) as Htps.
  { destruct samples as [|[label score] rest]; [done|].
    apply Forall_cons in Hall as [Hl _]. simpl in Hl. subst label.
    rewrite binary_clf_curve_cons. cbn zeta.
    destruct (binary_clf_curve_spec rest fps (tps + 1)) as (Hbox' & _).
    assert (Forall (λ p, (tps < p.2)%Z) (binary_clf_curve fps (tps + 1) rest)) as Hrest.
    { eapply Forall_impl; [exact Hbox'|]. intros [f t] [_ Ht]. simpl in *. lia. }
    destruct rest as [|[label' score'] rest']; [repeat constructor; simpl; lia|].
    destruct (Qeq_bool score score'); [done|]. constructor; [simpl; lia|done]. }
  destruct (binary_clf_curve fps tps samples) as [|b B]; [done|].
  exists b, B. split; [done|].
  rewrite Forall_forall in Hbox, Htps |- *. intros p Hin. split; [|by apply Htps].
  destruct (Hbox p Hin) as [Hf _]. simpl in Hf. lia.
Qed.

(** The counts of an inverted sample: along [tps = 0] up to the corner
    [(N, 0)], then along [fps = N]. *)
Lemma binary_clf_curve_floor (samples : list (bool * Q)) (fps tps : Z) :
  StronglySorted (λ a b : bool * Q, a.1 = true → b.1 = true) samples →
  (∀ p q, (true, p) ∈ samples → (false, q) ∈ samples → p < q) →
  true ∈ samples.*1 → false ∈ samples.*1 →
  ∃ A b B,
    binary_clf_curve fps tps samples
    = A ++ ((fps + n_negative samples.*1)%Z, tps) :: b :: B
    ∧ Forall (λ p, p.2 = tps) A
    ∧ Forall (λ p, p.1 = (fps + n_negative samples.*1)%Z ∧ (tps < p.2)%Z) (b :: B).
Proof.
  intros Hsorted. revert fps tps.
  induction Hsorted as [|[label score] rest Hrest IH Hall]; intros fps tps Hsep Hpos Hneg.
  { by apply elem_of_nil in Hpos. }
  destruct label.
  { exfalso. rewrite Forall_forall in Hall.
    apply elem_of_cons in Hneg as [?|Hneg]; [done|].
    apply list_elem_of_fmap in Hneg as ([l s] & Hl & Hin). simpl in Hl. subst l.
    by specialize (Hall _ Hin eq_refl). }
  rewrite fmap_cons, n_negative_cons, binary_clf_curve_cons. cbn zeta. cbn [fst negb].
  assert (true ∈ rest.*1) as Hpos'.
  { by apply elem_of_cons in Hpos as [?|?]. }
  destruct (decide (false ∈ rest.*1)) as [Hneg'|Hnone].
  - destruct (IH (fps + 1)%Z tps) as (A & b & B & Hcurve & HA & HB); [|done..|].
    { intros p q Hp Hq. apply Hsep; by right. }
    replace (fps + 1 + n_negative rest.*1)%Z with (fps + (1 + n_negative rest.*1))%Z
      in Hcurve, HB by lia.
    destruct rest as [|[label' score'] rest'] eqn:Hr; [by apply elem_of_nil in Hpos'|].
    rewrite <- Hr in *.
    destruct (Qeq_bool score score').
    + by exists A, b, B.
    + exists (((fps + 1)%Z, tps) :: A), b, B. rewrite Hcurve. split; [done|].
      split; [by constructor|done].
  - assert (Forall (λ s : bool * Q, s.1 = true) rest) as Htrue.
    { apply Forall_forall. intros [[] s] Hin; [done|].
      destruct Hnone. apply list_elem_of_fmap. by exists (false, s). }
    assert (rest ≠ []) as Hne by (intros ->; by apply elem_of_nil in Hpos').
    assert (n_negative rest.*1 = 0%Z) as Hn0.
    { unfold n_negative. rewrite np_sum_bool_all_false; [done|].
      intros l Hin. apply list_elem_of_fmap in Hin as (s & -> & Hin).
      rewrite Forall_forall in Htrue. by rewrite (Htrue s Hin). }
    destruct (binary_clf_curve_positives rest (fps + 1) tps Htrue Hne)
      as (b & B & Hcurve & HB).
    rewrite Hn0, Z.add_0_r.
    destruct rest as [|[label' score'] rest'] eqn:Hr; [done|].
    rewrite <- Hr in *.
    assert (label' = true) as ->.
    { rewrite Hr in Htrue. by apply Forall_cons in Htrue as [? _]. }
    assert (Qeq_bool score score' = false) as ->.
    { apply not_true_is_false. rewrite Qeq_bool_iff. intros E.
      assert (score' < score); [|lra]. apply Hsep; [right; rewrite Hr; left|left]. }
    exists [], b, B. by rewrite Hcurve.
Qed.

Lemma drop_collinear_corner_tps (prev c b : Z * Z) (A B : list (Z * Z)) :
  prev.2 = c.2 → Forall (λ p, p.2 = c.2) A → b.2 ≠ c.2 →
  c ∈ drop_collinear prev (A ++ c :: b :: B).
Proof.
  intros Hprev HA Hb. revert prev Hprev.
  induction HA as [|a A Ha _ IH]; intros prev Hprev.
  - simpl. assert (second_diff_nonzero prev c b = true) as ->; [|left].
    unfold second_diff_nonzero. apply orb_true_iff. right. apply negb_true_iff, Z.eqb_neq. lia.
  - assert (∀ l, l ≠ [] → c ∈ drop_collinear a l → c ∈ drop_collinear prev (a :: l)) as Hcons.
    { intros [|n l] Hne Hin; [done|]. simpl.
      destruct (second_diff_nonzero prev a n); [by right|done]. }
    rewrite <- app_comm_cons. apply Hcons; [by destruct A|]. by apply IH.
Qed.

Lemma drop_intermediate_corner_tps (c b : Z * Z) (A B : list (Z * Z)) :
  Forall (λ p, p.2 = c.2) A → b.2 ≠ c.2 →
  c ∈ drop_intermediate (A ++ c :: b :: B).
Proof.
  intros HA Hb. unfold drop_intermediate.
  destruct A as [|a A]; simpl.
  - case_decide; left.
  - apply Forall_cons in HA as [Ha HA].
    rewrite decide_True by (rewrite length_app; simpl; lia).
    right. by apply drop_collinear_corner_tps.
Qed.

Lemma floor_curve_of_counts (curve : list (Z * Z)) (N P : Z) :
  (0 < N)%Z → (0 < P)%Z →
  last curve = Some (N, P) →
  Forall (in_box (0, 0)%Z (N, P)) curve →
  StronglySorted (λ p q, (p.2 ≤ q.2)%Z) curve →
  StronglySorted (λ p q, (p.1 ≤ q.1)%Z) curve →
  Forall (λ p, p.2 = 0%Z ∨ p.1 = N) curve →
  (N, 0)%Z ∈ curve →
  floor_curve (rates curve.*1) (rates curve.*2).
Proof.
  intros HN HP Hlast Hbox Htps Hfps HonJ Hcorner.
  rewrite (rates_pos curve.*1 N) by (by rewrite ?fmap_last, ?Hlast).
  rewrite (rates_pos curve.*2 P) by (by rewrite ?fmap_last, ?Hlast).
  assert (0 < inject_Z N) as HNq by (change 0 with (inject_Z 0); rewrite <- Zlt_Qlt; lia).
  assert (0 < inject_Z P) as HPq by (change 0 with (inject_Z 0); rewrite <- Zlt_Qlt; lia).
  intros i f Hi Hsucc. rewrite !list_lookup_fmap in Hi.
  destruct (curve !! i) as [[pf pt]|] eqn:Hp; [|done]. simpl in Hi. injection Hi as <-.
  assert (pf = N) as ->; [|field; lra].
  rewrite Forall_forall in Hbox, HonJ.
  destruct (HonJ _ (list_elem_of_lookup_2 _ _ _ Hp)) as [Hpt|?]; [|done]. simpl in Hpt.
  destruct (Hbox _ (list_elem_of_lookup_2 _ _ _ Hp)) as [[_ HpfN] _]. simpl in HpfN.
  apply list_elem_of_lookup in Hcorner as [j Hj].
  destruct (Nat.lt_trichotomy j i) as [Hlt|[->|Hgt]].
  - pose proof (StronglySorted_lookup_lt _ curve j i (N, 0)%Z (pf, pt) Hfps Hlt Hj Hp) as Hle.
    simpl in Hle. lia.
  - rewrite Hj in Hp. by injection Hp as <- _.
  - exfalso. destruct (curve !! S i) as [[qf qt]|] eqn:Hq.
    2:{ apply lookup_ge_None in Hq. apply lookup_lt_Some in Hj. lia. }
    assert (qt ≤ 0)%Z as Hle.
    { destruct (decide (j = S i)) as [->|Hne].
      - rewrite Hj in Hq. injection Hq as _ <-. lia.
      - apply (StronglySorted_lookup_lt _ curve (S i) j (qf, qt) (N, 0)%Z Htps);
          [lia|done..]. }
    destruct (Hbox _ (list_elem_of_lookup_2 _ _ _ Hq)) as [_ [Hqt _]]. simpl in Hqt.
    assert (qt = 0%Z) as -> by lia.
    assert (0 < inject_Z 0 / inject_Z P).
    { apply Hsucc. by rewrite !list_lookup_fmap, Hq. }
    assert (inject_Z 0 / inject_Z P == 0) by (unfold Qdiv; apply Qmult_0_l). lra.
Qed.

Lemma roc_curve_inverted (y_true : list bool) (scores : list Q) :
  length y_true = length scores → inverted y_true scores →
  true ∈ y_true → false ∈ y_true →
  ∃ fpr tpr, roc_curve y_true (Fin <$> scores) = Ok (fpr, tpr) ∧ floor_curve fpr tpr.
Proof.
  intros Hlen Hinv Hpos Hneg. unfold roc_curve.
  rewrite decide_False by (rewrite length_fmap; intros ?; done).
  rewrite all_scores_Fin.
  destruct (inverted_desc y_true scores Hlen Hinv) as [Hpq Hsorted].
  set (desc := reverse (stable_sort (by_snd Qle_bool) (zip y_true scores))) in *.
  assert (desc.*1 ≡ₚ y_true) as Hperm.
  { unfold desc. rewrite reverse_Permutation, stable_sort_Permutation.
    rewrite fst_zip by lia. done. }
  assert (n_negative desc.*1 = n_negative y_true) as Hn.
  { unfold n_negative. f_equal. apply np_sum_bool_Permutation. by rewrite Hperm. }
  assert (n_positive desc.*1 = n_positive y_true) as Hp.
  { unfold n_positive. f_equal. by apply np_sum_bool_Permutation. }
  pose proof (n_positive_pos _ Hpos) as HP. pose proof (n_negative_pos _ Hneg) as HN.
  set (N := n_negative y_true) in *. set (P := n_positive y_true) in *.
  destruct (binary_clf_curve_floor desc 0 0 Hsorted Hpq) as (A & b & B & Hcurve & HA & HB).
  { by rewrite Hperm. }
  { by rewrite Hperm. }
  rewrite Hn, Z.add_0_l in Hcurve, HB.
  destruct (binary_clf_curve_spec desc 0 0) as (Hbox & Htps & Hlast).
  pose proof (binary_clf_curve_fps_sorted desc 0 0) as Hfps.
  rewrite Hn, Hp, !Z.add_0_l in *.
  assert (desc ≠ []) as Hdesc.
  { intros E. rewrite E in Hperm. apply Permutation_nil_l in Hperm.
    rewrite <- Hperm in Hpos. by apply elem_of_nil in Hpos. }
  specialize (Hlast Hdesc).
  rewrite decide_False by (rewrite Hcurve; by destruct A).
  set (C0 := binary_clf_curve 0 0 desc) in *.
  set (c1 := drop_intermediate C0).
  assert (Forall (λ p : Z * Z, p.2 = 0%Z ∨ p.1 = N) C0) as HonJ.
  { rewrite Hcurve. apply Forall_app. split; [|constructor].
    - eapply Forall_impl; [exact HA|]. intros p ?. by left.
    - by right.
    - eapply Forall_impl; [exact HB|]. intros p [? _]. by right. }
  assert (last c1 = Some (N, P)
          ∧ Forall (in_box (0, 0)%Z (N, P)) c1
          ∧ StronglySorted (λ p q, (p.2 ≤ q.2)%Z) c1
          ∧ StronglySorted (λ p q, (p.1 ≤ q.1)%Z) c1
          ∧ Forall (λ p : Z * Z, p.2 = 0%Z ∨ p.1 = N) c1
          ∧ (N, 0)%Z ∈ c1) as (Hlast1 & Hbox1 & Htps1 & Hfps1 & HonJ1 & Hcorner1).
  { unfold c1. split; [by rewrite drop_intermediate_last|].
    split; [eapply Forall_sublist; [apply drop_intermediate_sublist|done]|].
    split; [eapply StronglySorted_sublist; [apply drop_intermediate_sublist|done]|].
    split; [eapply StronglySorted_sublist; [apply drop_intermediate_sublist|done]|].
    split; [eapply Forall_sublist; [apply drop_intermediate_sublist|done]|].
    rewrite Hcurve. apply drop_intermediate_corner_tps; [done|].
    apply Forall_cons in HB as [[_ Hb] _]. simpl. lia. }
  assert (∀ c2, c2 = c1 ∨ c2 = (0, 0)%Z :: c1 →
            floor_curve (rates c2.*1) (rates c2.*2)) as Hc2.
  { intros c2 [-> | ->]; [by apply (floor_curve_of_counts c1 N P)|].
    apply (floor_curve_of_counts _ N P); try done.
    - rewrite last_cons, Hlast1. done.
    - constructor; [|done]. unfold in_box. simpl. lia.
    - constructor; [done|]. eapply Forall_impl; [exact Hbox1|].
      intros [f t] [_ Ht]. simpl in *. lia.
    - constructor; [done|]. eapply Forall_impl; [exact Hbox1|].
      intros [f t] [Hf _]. simpl in *. lia.
    - constructor; [by left|done].
    - by right. }
  eexists _, _. split; [done|]. apply Hc2.
  destruct c1 as [|[[|?|?] [|?|?]] ?]; auto.
Qed.

(** ** The weighted AUC of an inverted sample *)

(** X25: a classifier that scores every positive sample below every
    negative one gets the weighted AUC 0, whatever the number of weights
    and their values, as long as their sum is not zero. *)
Theorem compute_Weighted_AUC_inverted (y_true : list bool) (scores weights : list Q) :
  length y_true = length scores → true ∈ y_true → false ∈ y_true →
  inverted y_true scores → ¬ Qsum weights == 0 →
  ∃ q, compute_Weighted_AUC y_true (Fin <$> scores) (Fin <$> weights) = Ok (Fin q)
       ∧ q == 0.
Proof.
  intros Hlen Hpos Hneg Hinv Hsum.
  assert (1 ≤ length weights)%nat as HW.
  { destruct weights; [by destruct Hsum|simpl; lia]. }
  set (W := length weights) in *.
  pose proof (inject_Z_nat_pos W HW) as HL.
  destruct (compute_Weighted_AUC_loop y_true scores W Hlen Hpos Hneg HW)
    as (fpr & tpr & fpr' & tpr' & Hroc & Hinterp & HT & Hok & Hok' & Hpresent & Hrest).
  set (qs := ((λ i : nat, inject_Z (Z.of_nat i) * ((1 - 0) / inject_Z (Z.of_nat W)) + 0)
                <$> seq 0 W) ++ [1]) in *.
  pose proof (grid_length W) as Hqs. fold qs in Hqs.
  destruct (roc_curve_inverted y_true scores Hlen Hinv Hpos Hneg) as (? & ? & Hroc' & Hfloor).
  rewrite Hroc in Hroc'. injection Hroc' as <- <-.
  pose proof (perform_interpolation_floor_curve _ _ _ _ _ Hok Hfloor HT Hinterp) as Hfloor'.
  pose proof Hok' as (_ & _ & _ & (q0 & Hq0 & Hq0') & _).
  destruct (area_loop_exact 0 fpr' tpr' qs W Hqs)
    with (m := W) (k0 := 0%nat) (lo := 0%nat) (areas := replicate W (Fin 0))
    as (hi & areas & Hloop & Hla & Hall).
  { intros k lo bk bk1 areas Hk Hbk Hbk1 Hlo.
    pose proof Hbk1 as Hbk1'.
    apply (grid_lookup W k bk HW) in Hbk as [_ Hbk].
    apply (grid_lookup W (k + 1) bk1 HW) in Hbk1 as [_ Hbk1].
    assert (inject_Z (Z.of_nat (k + 1)) == inject_Z (Z.of_nat k) + 1) as Hk1.
    { replace (k + 1)%nat with (S k) by lia. apply inject_Z_S. }
    assert (bk1 - bk == 1 / inject_Z (Z.of_nat W)) as Hdiff.
    { rewrite Hbk, Hbk1, Hk1. field. lra. }
    assert (0 < 1 / inject_Z (Z.of_nat W)) by (apply Qlt_shift_div_l; lra).
    apply (area_step_floor fpr' tpr' (Fin <$> qs) areas k lo bk bk1); try done.
    - by rewrite list_lookup_fmap, Hbk1'.
    - rewrite Hbk. apply Qle_shift_div_l; [done|].
      pose proof (inject_Z_nat_le 0 k ltac:(lia)) as H0k.
      change (inject_Z (Z.of_nat 0)) with 0 in H0k. lra.
    - lra.
    - apply (Hpresent (k + 1)%nat); [lia|done]. }
  { lia. }
  { exists q0, (inject_Z (Z.of_nat 0) * ((1 - 0) / inject_Z (Z.of_nat W)) + 0).
    split; [|split; [done|]].
    - unfold qs. rewrite lookup_app_l by (rewrite length_fmap, length_seq; lia).
      rewrite list_lookup_fmap, lookup_seq_lt by lia. done.
    - rewrite Hq0'. change (inject_Z (Z.of_nat 0)) with 0. field. lra. }
  { by rewrite length_replicate. }
  { intros j Hj. lia. }
  change (Z.of_nat 0) with 0%Z in Hloop.
  destruct (weighted_sum_const 0 areas weights) as (q & Hq & Hq1); [done|done|done|].
  exists q. rewrite (Hrest (Fin <$> weights)) by (by rewrite length_fmap).
  rewrite Hloop. cbn [mbind res_bind]. rewrite Hq. split; [done|].
  rewrite Hq1. ring.
Qed.

Lemma compute_Weighted_AUC_inverted_witness :
  ∃ q, compute_Weighted_AUC [true; false; true; false; true]
         (Fin <$> [3#10; 8#10; 1#10; 8#10; 4#10]) (Fin <$> [3; 0; 1#2]) = Ok (Fin q)
       ∧ q == 0.
Proof.
  apply (compute_Weighted_AUC_inverted [true; false; true; false; true]
           [3#10; 8#10; 1#10; 8#10; 4#10] [3; 0; 1#2]).
  - reflexivity.
  - left.
  - right. left.
  - intros [|[|[|[|[|i]]]]] [|[|[|[|[|j]]]]] p q Hi Hj Hp Hq; try done;
      injection Hp as <-; injection Hq as <-; reflexivity.
  - discriminate.
Defined.

(** * The effect of rounding

    The program evaluated in binary64 on concrete inputs.  The values and
    bounds proved above over exact rationals are those of the rounded
    program only up to rounding error. *)

(** C1 as stated fails: with the weights [[0,0,0,0,1]] the perfectly
    separated sample scores 0.9999999999999998, the float below 1.0.  The
    area of the last band is computed as 1.0 - 0.8 = 0.19999999999999996
    and is multiplied by the normalised weight 1/0.2 = 5.0. *)
Lemma compute_Weighted_AUC_perfect_last_band :
  Binary64.compute_Weighted_AUC perfect_labels perfect_scores_binary64
    [0; 0; 0; 0; 1]%float
  = Ok 0.9999999999999998%float
  ∧ (0.9999999999999998 <? 1)%float = true.
Proof. split; vm_compute; reflexivity. Qed.

(** C3 as stated fails: one negative scored 0, one positive scored 1 and
    the non-negative weights [[0,0,1,0,0]] give 1.0000000000000004, above
    1.  The third band ends at the threshold 3 * 0.2 = 0.6000000000000001,
    its area is computed as 0.20000000000000007 and is multiplied by 5.0. *)
Lemma compute_Weighted_AUC_above_one :
  Binary64.compute_Weighted_AUC [false; true] [0; 1]%float [0; 0; 1; 0; 0]%float
  = Ok 1.0000000000000004%float
  ∧ (1 <? 1.0000000000000004)%float = true.
Proof. split; vm_compute; reflexivity. Qed.

(** An interpolated x value can overshoot its neighbour by rounding: the
    value inserted before x = 1.0 is 1.0000000000000002. *)
Lemma perform_interpolation_rounds_past_neighbour :
  Binary64.perform_interpolation [0; 1 / 7; 1; 1]%float [0; 1 / 7; 6 / 7; 1]%float
    [0.857142857142857%float]
  = Ok ([0; 1 / 7; 1.0000000000000002; 1; 1]%float,
        [0; 1 / 7; 0.857142857142857; 6 / 7; 1]%float)
  ∧ (1 <? 1.0000000000000002)%float = true.
Proof. split; vm_compute; reflexivity. Qed.

(** A rate interpolated by compute_tpr_with_fpr can exceed 1 by rounding,
    and a smaller chosen FPR can then get the larger TPR. *)
Lemma compute_tpr_with_fpr_rounds_above_one :
  Binary64.compute_tpr_with_fpr tied_labels tied_scores 0.857142857142857%float
  = Ok 1.0000000000000002%float
  ∧ Binary64.compute_tpr_with_fpr tied_labels tied_scores (6 / 7)%float = Ok 1%float
  ∧ (0.857142857142857 <? 6 / 7)%float = true
  ∧ (1 <? 1.0000000000000002)%float = true.
Proof. repeat split; vm_compute; reflexivity. Qed.
